(** * Grid path-finding: breadth-first search and weighted A*

    A shallow embedding of [src/algorithms/bfs.js] and
    [src/algorithms/astar.js] together with the properties of the
    search core: neighbour lookup, visitation order, predecessor chains,
    shortest paths and cheapest paths.

    Conventions of the embedding.
    - A JavaScript number is a [num]: a finite double, held as the
      rational number it is, or [Infinity].  Addition is the addition of
      doubles: the real sum rounded to the nearest double, ties to even,
      [Infinity] from [2^1024] on ([binary64]).  Comparison and the sign
      of a difference (inside the sort comparator) are exact on doubles.
      The searches add distances, weights and Manhattan distances, none of
      them negative on the grids of the application, so that -Infinity and
      NaN do not arise; they are not modelled.  The sums are the real sums
      where [exactSums] holds, as for the terrain weights of the
      application (1, 1.5, 2, 2.5, 3, 4) on its grid.
    - The grid is an array of arrays of cell objects.  A cell object is
      referred to by the place [(r, c)] at which the grid stores it, so
      [===] on cells is equality of places, and a write to a field of a
      cell is an update of the grid at that place.  The fields [row] and
      [col] stay ordinary data of the cell, read where the source reads
      them.
    - Reading a property of [undefined] raises a TypeError: one iteration
      of a loop is a function into [option], [None] being that exception.
    - A [while] loop is iterated with fuel; a run ends in [Returns],
      [Throws] or [OutOfFuel]. *)

From Stdlib Require Import QArith Qround Qpower Qabs Lqa ZArith Lia.
From stdpp Require Import base option list sorting gmap sets strings.

(* ===================================================================== *)
(** ** Numbers *)

Inductive num : Type :=
| Fin (q : Q)
| Infinity.

(** The real sum, for statements about costs. *)
Definition num_plus (a b : num) : num :=
  match a, b with
  | Fin x, Fin y => Fin (x + y)%Q
  | _, _ => Infinity
  end.

(** *** Double precision *)

(** [2^z] *)
Definition pow2 (z : Z) : Q := (2 ^ z)%Q.

(** The integer [e] with [2^e <= q < 2^(e+1)], for [q > 0]. *)
Definition ilog2 (q : Q) : Z :=
  let e := (Z.log2 (Qnum q) - Z.log2 (Zpos (Qden q)))%Z in
  if Qle_bool (pow2 e) q then e else (e - 1)%Z.

(** The nearest integer, a tie going to the even one. *)
Definition nearestEven (q : Q) : Z :=
  let f := Qfloor q in
  match (q - inject_Z f ?= 1 # 2)%Q with
  | Lt => f
  | Gt => (f + 1)%Z
  | Eq => if Z.even f then f else (f + 1)%Z
  end.

(** The double nearest to the real [q], ties to even: [q] is rounded to a
    whole multiple of [2^x], where [x] is the exponent of the last of the
    53 bits of a number of its size and at least -1074 (the subnormal
    numbers); a result of [2^1024] or more is [Infinity].  When [q] is a
    double already it is returned as the fraction it is.  A sum below the
    least double, which no run on weights that are not negative forms,
    would be -Infinity and is left finite here. *)
Definition binary64 (q : Q) : num :=
  if Qeq_bool q 0 then Fin q
  else
    let x := Z.max (ilog2 (Qabs q) - 52) (-1074) in
    let r := (inject_Z (nearestEven (q / pow2 x)) * pow2 x)%Q in
    if Qle_bool (pow2 1024) r then Infinity
    else if Qeq_bool r q then Fin q
    else Fin r.
Arguments binary64 : simpl never.

(** [a + b] *)
Definition num_add (a b : num) : num :=
  match a, b with
  | Fin x, Fin y => binary64 (x + y)
  | _, _ => Infinity
  end.

Definition Qltb (x y : Q) : bool := negb (Qle_bool y x).

(** [a < b] *)
Definition num_ltb (a b : num) : bool :=
  match a, b with
  | Fin x, Fin y => Qltb x y
  | Fin _, Infinity => true
  | Infinity, _ => false
  end.

(** [w || 1]: zero is falsy *)
Definition num_or1 (w : num) : num :=
  match w with
  | Fin q => if Qeq_bool q 0 then Fin 1 else Fin q
  | Infinity => Infinity
  end.

(** [x === Infinity] *)
Definition is_Infinity (x : num) : bool :=
  match x with Infinity => true | Fin _ => false end.

(** Sign of [a - b] as the sort comparator sees it; [Infinity - Infinity]
    is NaN, which [Array.prototype.sort] treats as 0. *)
Definition num_cmp (a b : num) : comparison :=
  match a, b with
  | Fin x, Fin y => (x ?= y)%Q
  | Fin _, Infinity => Lt
  | Infinity, Fin _ => Gt
  | Infinity, Infinity => Eq
  end.

(** Order on numbers, for statements. *)
Definition num_le (a b : num) : Prop :=
  match a, b with
  | Fin x, Fin y => (x <= y)%Q
  | _, Infinity => True
  | Infinity, Fin _ => False
  end.

(* ===================================================================== *)
(** ** Cells and the grid *)

(** A cell object is named by the place where the grid holds it. *)
Definition ref : Type := nat * nat.

Record Node : Type := mkNode {
  row : nat;
  col : nat;
  isWall : bool;
  weight : num;
  distance : num;
  totalCost : num;
  heuristicVal : num;          (* the field [heuristic] *)
  isVisited : bool;
  previousNode : option ref    (* [null] is [None] *)
}.

Abbreviation Grid := (list (list Node)).

(** [grid[r][c]] read as an object: the cell stored at place [p]. *)
Definition cell (g : Grid) (p : ref) : option Node :=
  g !! p.1 ≫= λ rw, rw !! p.2.

(** A write to fields of the cell at place [p]. *)
Definition upd (f : Node → Node) (p : ref) (g : Grid) : Grid :=
  alter (alter f p.2) p.1 g.

(** [grid[r][c]] as an expression: the reference found there; [None] when
    the slot is missing (the later property read on it throws). *)
Definition slot (g : Grid) (r c : nat) : option ref :=
  _ ← cell g (r, c); Some (r, c).

(** [grid[0].length] *)
Definition width (g : Grid) : option nat := length <$> g !! 0%nat.

(** The four bounds-checked pushes shared by [getNeighbors] and
    [getUnvisitedNeighbors]: up, down, left, right. *)
Definition pushIf (b : bool) (s : option ref) : option (list ref) :=
  if b then x ← s; Some [x] else Some [].

Definition fourNeighbors (node : Node) (g : Grid) : option (list ref) :=
  let r := row node in
  let c := col node in
  up ← pushIf (0 <? r) (slot g (r - 1) c);
  down ← pushIf (Z.of_nat r <? Z.of_nat (length g) - 1)%Z (slot g (r + 1) c);
  left ← pushIf (0 <? c) (slot g r (c - 1));
  w ← width g;
  right ← pushIf (Z.of_nat c <? Z.of_nat w - 1)%Z (slot g r (c + 1));
  Some (up ++ down ++ left ++ right).

(* ===================================================================== *)
(** ** Loops *)

Inductive outcome (A : Type) : Type :=
| Returns (a : A)
| Throws
| OutOfFuel.
Arguments Returns {A} a.
Arguments Throws {A}.
Arguments OutOfFuel {A}.

(** [while] loop: [body] either continues with a new state ([inl]),
    returns from the function ([inr]) or throws ([None]). *)
Fixpoint while {S R : Type} (body : S → option (S + R)) (fuel : nat) (st : S)
  : outcome R :=
  match fuel with
  | O => OutOfFuel
  | Datatypes.S fuel' =>
      match body st with
      | None => Throws
      | Some (inr r) => Returns r
      | Some (inl st') => while body fuel' st'
      end
  end.

(** The state at the head of a [while] loop after [n] iterations, when
    none of them returns or throws. *)
Fixpoint iterations {S R : Type} (body : S → option (S + R)) (n : nat)
         (st : S) : option S :=
  match n with
  | O => Some st
  | Datatypes.S n' =>
      match body st with
      | Some (inl st') => iterations body n' st'
      | _ => None
      end
  end.

(** [for (const x of xs) body], threading the state, stopping at a throw. *)
Fixpoint forOf {S X : Type} (body : S → X → option S) (xs : list X) (st : S)
  : option S :=
  match xs with
  | [] => Some st
  | x :: xs' => st' ← body st x; forOf body xs' st'
  end.

(* ===================================================================== *)
(** ** astar.js *)

Module Astar.

(** Manhattan distance between two cells. *)
Definition heuristic (nodeA nodeB : Node) : num :=
  Fin (inject_Z (Z.abs (Z.of_nat (row nodeA) - Z.of_nat (row nodeB))
                 + Z.abs (Z.of_nat (col nodeA) - Z.of_nat (col nodeB)))).

Definition getNeighbors (node : Node) (g : Grid) : option (list ref) :=
  fourNeighbors node g.

Record state : Type := mkState {
  grid : Grid;
  openList : list ref;
  closedSet : gset ref;
  visitedNodesInOrder : list ref
}.

(** [openList.sort((a, b) => a.totalCost - b.totalCost)]: the sort is
    stable, so its result is the stable insertion sort by that
    comparator. *)
Definition key (g : Grid) (p : ref) : num :=
  from_option totalCost Infinity (cell g p).

Fixpoint insert (g : Grid) (x : ref) (l : list ref) : list ref :=
  match l with
  | [] => [x]
  | y :: l' =>
      match num_cmp (key g x) (key g y) with
      | Gt => y :: insert g x l'
      | _ => x :: y :: l'
      end
  end.

Definition sort (g : Grid) (l : list ref) : list ref :=
  foldr (insert g) [] l.

(** The four field writes of a successful relaxation. *)
Definition improve (tentativeG h : num) (current : ref) (n : Node) : Node :=
  mkNode (row n) (col n) (isWall n) (weight n)
         tentativeG (num_add tentativeG h) h
         (isVisited n) (Some current).

Definition markVisited (n : Node) : Node :=
  mkNode (row n) (col n) (isWall n) (weight n)
         (distance n) (totalCost n) (heuristicVal n)
         true (previousNode n).

(** [startNode.distance = 0; startNode.totalCost = heuristic(...)] *)
Definition initStart (h : num) (n : Node) : Node :=
  mkNode (row n) (col n) (isWall n) (weight n)
         (Fin 0) h (heuristicVal n)
         (isVisited n) (previousNode n).

(** Body of [for (const neighbor of neighbors)]. *)
Definition relax (endNode current : ref) (st : state) (neighbor : ref)
  : option state :=
  nb ← cell (grid st) neighbor;
  if bool_decide (neighbor ∈ closedSet st) || isWall nb then Some st
  else
    cur ← cell (grid st) current;
    let tentativeG := num_add (distance cur) (num_or1 (weight nb)) in
    if num_ltb tentativeG (distance nb) then
      en ← cell (grid st) endNode;
      let h := heuristic nb en in
      Some (mkState
              (upd (improve tentativeG h current) neighbor (grid st))
              (if bool_decide (neighbor ∈ openList st) then openList st
               else openList st ++ [neighbor])
              (closedSet st)
              (visitedNodesInOrder st))
    else Some st.

(** [closedSet.add(current); current.isVisited = true;
    visitedNodesInOrder.push(current)], with [current] shifted off the
    sorted open list. *)
Definition close (current : ref) (rest : list ref) (st : state) : state :=
  mkState (upd markVisited current (grid st)) rest
          ({[current]} ∪ closedSet st)
          (visitedNodesInOrder st ++ [current]).

(** [continue] after the shift. *)
Definition skip (rest : list ref) (st : state) : state :=
  mkState (grid st) rest (closedSet st) (visitedNodesInOrder st).

(** Body of [while (openList.length > 0)]; the loop condition is its
    first case. *)
Definition body (endNode : ref) (st : state)
  : option (state + (list ref * Grid)) :=
  match sort (grid st) (openList st) with
  | [] => Some (inr (visitedNodesInOrder st, grid st))
  | current :: rest =>
      cur ← cell (grid st) current;
      if isWall cur then Some (inl (skip rest st))
      else if bool_decide (current ∈ closedSet st) then
        Some (inl (skip rest st))
      else if is_Infinity (distance cur) then
        Some (inr (visitedNodesInOrder st, grid st))
      else
        let st1 := close current rest st in
        if bool_decide (current = endNode) then
          Some (inr (visitedNodesInOrder st1, grid st1))
        else
          neighbors ← getNeighbors cur (grid st1);
          st2 ← forOf (relax endNode current) neighbors st1;
          Some (inl st2)
  end.

(** State on entry to the loop. *)
Definition init (g : Grid) (startNode endNode : ref) : option state :=
  sn ← cell g startNode;
  en ← cell g endNode;
  Some (mkState (upd (initStart (heuristic sn en)) startNode g)
                [startNode] ∅ []).

(** [astar(grid, startNode, endNode)]: the returned visitation order and
    the grid as the call leaves it. *)
Definition astar (fuel : nat) (g : Grid) (startNode endNode : ref)
  : outcome (list ref * Grid) :=
  match init g startNode endNode with
  | None => Throws
  | Some st => while (body endNode) fuel st
  end.

End Astar.

(* ===================================================================== *)
(** ** bfs.js *)

Module Bfs.

(** The test of the filter, [!n.isVisited && !n.isWall], on the cell a
    reference names. *)
Definition unvisitedOpen (g : Grid) (p : ref) : bool :=
  match cell g p with
  | Some n => negb (isVisited n) && negb (isWall n)
  | None => false
  end.

Definition getUnvisitedNeighbors (node : Node) (g : Grid)
  : option (list ref) :=
  neighbors ← fourNeighbors node g;
  Some (filter (λ p, Is_true (unvisitedOpen g p)) neighbors).

Record state : Type := mkState {
  grid : Grid;
  queue : list ref;
  visitedNodesInOrder : list ref
}.

Definition markVisited (n : Node) : Node :=
  mkNode (row n) (col n) (isWall n) (weight n)
         (distance n) (totalCost n) (heuristicVal n)
         true (previousNode n).

(** [neighbor.isVisited = true; neighbor.previousNode = current] *)
Definition discover (current : ref) (n : Node) : Node :=
  mkNode (row n) (col n) (isWall n) (weight n)
         (distance n) (totalCost n) (heuristicVal n)
         true (Some current).

(** Body of [for (const neighbor of neighbors)]. *)
Definition enqueue (current : ref) (st : state) (neighbor : ref)
  : option state :=
  Some (mkState (upd (discover current) neighbor (grid st))
                (queue st ++ [neighbor])
                (visitedNodesInOrder st)).

(** Body of [while (queue.length > 0)]. *)
Definition body (endNode : ref) (st : state)
  : option (state + (list ref * Grid)) :=
  match queue st with
  | [] => Some (inr (visitedNodesInOrder st, grid st))
  | current :: rest =>
      cur ← cell (grid st) current;
      if isWall cur then
        Some (inl (mkState (grid st) rest (visitedNodesInOrder st)))
      else
        let visited := visitedNodesInOrder st ++ [current] in
        if bool_decide (current = endNode) then
          Some (inr (visited, grid st))
        else
          neighbors ← getUnvisitedNeighbors cur (grid st);
          st' ← forOf (enqueue current) neighbors
                      (mkState (grid st) rest visited);
          Some (inl st')
  end.

Definition init (g : Grid) (startNode : ref) : option state :=
  _ ← cell g startNode;
  Some (mkState (upd markVisited startNode g) [startNode] []).

(** [bfs(grid, startNode, endNode)] *)
Definition bfs (fuel : nat) (g : Grid) (startNode endNode : ref)
  : outcome (list ref * Grid) :=
  match init g startNode with
  | None => Throws
  | Some st => while (body endNode) fuel st
  end.

(** The loop of [getNodesInShortestPathOrder]: [current] is [null]
    ([None]) or a cell.  The function is called on cells of the grid, and
    the searches write links to cells of the grid only; a place that
    holds no cell stands for no object, and the walk ends in [Throws]
    there, so that [Returns] always carries cells that were read. *)
Fixpoint walk (fuel : nat) (g : Grid) (current : option ref)
         (path : list ref) : outcome (list ref) :=
  match current with
  | None => Returns path
  | Some c =>
      match fuel with
      | O => OutOfFuel
      | S fuel' =>
          match cell g c with
          | None => Throws
          | Some n => walk fuel' g (previousNode n) (c :: path)
          end
      end
  end.

Definition getNodesInShortestPathOrder (fuel : nat) (g : Grid)
           (endNode : ref) : outcome (list ref) :=
  walk fuel g (Some endNode) [].

End Bfs.

(* ===================================================================== *)
(** ** App.jsx: the grid the application keeps *)

Module App.

Definition GRID_SIZE : nat := 22.

(** The entries of [TERRAIN]; of their properties the searches see
    [weight] and [isWall], the others ([h], [color], [emissive], [label],
    [roadColor]) only steer the rendering. *)
Inductive Terrain : Type := HIGHWAY | ROAD | ALLEY | PARK | BUILDING | TOWER.

Definition terrainWeight (t : Terrain) : num :=
  match t with
  | HIGHWAY | ROAD => Fin 1
  | ALLEY => Fin (5 # 2)
  | PARK => Fin 3
  | BUILDING | TOWER => Infinity
  end.

Definition terrainIsWall (t : Terrain) : bool :=
  match t with
  | BUILDING | TOWER => true
  | _ => false
  end.

(** A cell object as the application builds it: the fields the searches
    use, held in [node], and the fields only the application uses. *)
Record AppNode : Type := mkAppNode {
  node : Node;
  isStart : bool;
  isEnd : bool;
  isPath : bool;
  bfsVisited : bool;
  bfsPath : bool;
  terrain : Terrain
}.

Abbreviation AppGrid := (list (list AppNode)).

(** The grid as [bfs] and [astar] read and write it. *)
Definition searchGrid (g : AppGrid) : Grid :=
  (λ rw : list AppNode, node <$> rw) <$> g.

(** [grid[r][c]] *)
Definition appCell (g : AppGrid) (p : ref) : option AppNode :=
  g !! p.1 ≫= λ rw, rw !! p.2.

(** Body of the inner loop of [createInitialGrid].  [roadWeights] is
    [None] for [null]; for a list of roads it is [Some w], [w row col]
    standing for [getWeightForCoord(lat, lng, roadWeights)] at
    [gridToLatLng(row, col, GRID_SIZE)], which is floating-point
    geometry. *)
Definition initialCell (roadWeights : option (nat → nat → num))
           (row col : nat) : AppNode :=
  let isStart := (row =? 2) && (col =? 2) in
  let isEnd := (row =? GRID_SIZE - 3) && (col =? GRID_SIZE - 3) in
  let onMainDiag := (Z.abs (Z.of_nat row - Z.of_nat col) <? 3)%Z in
  let onCrossH := (row =? 5) || (row =? 10) || (row =? 16) in
  let onCrossV := (col =? 5) || (col =? 10) || (col =? 16) in
  let isHighway := onMainDiag && (onCrossH || onCrossV) in
  let isRoad := onMainDiag || onCrossH || onCrossV in
  let isAlley := negb isRoad && ((row mod 4 =? 0) || (col mod 4 =? 0)) in
  let isPark :=
    negb isRoad && negb isAlley && ((row * 31 + col * 17) mod 13 =? 0) in
  let isTower :=
    negb isStart && negb isEnd && negb isRoad && negb isAlley &&
    negb isPark && ((row * 13 + col * 7) mod 6 =? 0) in
  let isBuilding :=
    negb isStart && negb isEnd && negb isRoad && negb isAlley &&
    negb isPark && negb isTower && negb ((row * 5 + col * 11) mod 3 =? 0) in
  let terrain :=
    if isHighway then HIGHWAY
    else if isRoad then ROAD
    else if isAlley then ALLEY
    else if isPark then PARK
    else if isTower then TOWER
    else if isBuilding then BUILDING
    else ALLEY in
  let weight :=
    match roadWeights with
    | Some w => if terrainIsWall terrain then terrainWeight terrain
                else w row col
    | None => terrainWeight terrain
    end in
  mkAppNode (mkNode row col (terrainIsWall terrain) weight
                    Infinity Infinity (Fin 0) false None)
            isStart isEnd false false false terrain.

Definition createInitialGrid (roadWeights : option (nat → nat → num))
  : AppGrid :=
  (λ row : nat, initialCell roadWeights row <$> seq 0 GRID_SIZE)
    <$> seq 0 GRID_SIZE.

(** The copy [makeClean] makes of a cell. *)
Definition cleanNode (n : AppNode) : AppNode :=
  mkAppNode (mkNode (row (node n)) (col (node n)) (isWall (node n))
                    (weight (node n))
                    Infinity Infinity (Fin 0) false None)
            (isStart n) (isEnd n) false false false (terrain n).

(** [makeClean] of [runSimulation], on the grid it closes over. *)
Definition makeClean (grid : AppGrid) : AppGrid :=
  (λ r : list AppNode, cleanNode <$> r) <$> grid.

(** The writes of [onToggleWall] to the cell clicked. *)
Definition toggleNode (n : AppNode) : AppNode :=
  let nd := node n in
  if isWall nd then
    mkAppNode (mkNode (row nd) (col nd) false (terrainWeight ROAD)
                      (distance nd) (totalCost nd) (heuristicVal nd)
                      (isVisited nd) (previousNode nd))
              (isStart n) (isEnd n) (isPath n) (bfsVisited n) (bfsPath n)
              ROAD
  else
    mkAppNode (mkNode (row nd) (col nd) true Infinity
                      (distance nd) (totalCost nd) (heuristicVal nd)
                      (isVisited nd) (previousNode nd))
              (isStart n) (isEnd n) (isPath n) (bfsVisited n) (bfsPath n)
              (if (row nd + col nd) mod 2 =? 0 then TOWER else BUILDING).

(** [onToggleWall(row, col)] as a function of the grid state: the grid
    after the call, [None] when the state update throws a TypeError. *)
Definition onToggleWall (isRunning : bool) (row col : nat) (prev : AppGrid)
  : option AppGrid :=
  if isRunning then Some prev
  else
    r ← prev !! row;
    n ← r !! col;
    if isStart n || isEnd n then Some prev
    else Some (alter (alter toggleNode col) row prev).

(** The places [runSimulation] searches between: [cg[2][2]] and
    [cg[GRID_SIZE - 3][GRID_SIZE - 3]]. *)
Definition startRef : ref := (2, 2).
Definition endRef : ref := (GRID_SIZE - 3, GRID_SIZE - 3).

Inductive Algorithm : Type := AStar | BFS.

(** The synchronous part of the single-algorithm branch of
    [runSimulation]: the search on a clean copy of the grid, the path
    walked back from the end cell and the test that guards the drawing of
    the path.  The animation between them ([setTimeout], [setGrid],
    [setStats]) is left out. *)
Definition runSingle (algorithm : Algorithm) (fuel : nat) (grid : AppGrid)
  : outcome (list ref * list ref * bool) :=
  let cg := makeClean grid in
  match match algorithm with
        | BFS => Bfs.bfs fuel (searchGrid cg) startRef endRef
        | AStar => Astar.astar fuel (searchGrid cg) startRef endRef
        end with
  | Returns (vis, cg') =>
      match Bfs.getNodesInShortestPathOrder fuel cg' endRef with
      | Returns path =>
          Returns (vis, path,
                   (1 <? length path) &&
                   from_option isEnd false (last path ≫= appCell cg))
      | Throws => Throws
      | OutOfFuel => OutOfFuel
      end
  | Throws => Throws
  | OutOfFuel => OutOfFuel
  end.

End App.

(* ===================================================================== *)
(** ** roadNetwork.js *)

Module RoadNetwork.

(** The own properties of the object literal [ROAD_TYPE_WEIGHTS]. *)
Definition ROAD_TYPE_WEIGHTS : list (string * num) :=
  [ ("motorway", Fin 1); ("trunk", Fin 1); ("primary", Fin 1);
    ("secondary", Fin (3 # 2)); ("tertiary", Fin 2);
    ("residential", Fin (5 # 2)); ("service", Fin 3);
    ("unclassified", Fin 3); ("path", Fin 4); ("footway", Fin 4);
    ("default", Fin 2) ]%string.

(** The properties an object literal inherits from [Object.prototype]: a
    read of one of these keys finds a function or an object, not
    [undefined]. *)
Definition objectPrototypeKeys : list string :=
  [ "constructor"; "__defineGetter__"; "__defineSetter__";
    "hasOwnProperty"; "__lookupGetter__"; "__lookupSetter__";
    "isPrototypeOf"; "propertyIsEnumerable"; "toString"; "valueOf";
    "__proto__"; "toLocaleString" ]%string.

(** What a road carries as its [weight]: a number of the table, or the
    inherited value found under a key of [Object.prototype]. *)
Inductive weightValue : Type :=
| Number (w : num)
| Inherited (key : string).

(** The own property of the table under [key], if there is one. *)
Definition own (key : string) : option num :=
  snd <$> List.find (λ kv : string * num, String.eqb kv.1 key)
                    ROAD_TYPE_WEIGHTS.

(** [ROAD_TYPE_WEIGHTS[highway] ?? ROAD_TYPE_WEIGHTS.default] *)
Definition roadTypeWeight (highway : string) : weightValue :=
  match own highway with
  | Some w => Number w
  | None =>
      if bool_decide (highway ∈ objectPrototypeKeys) then Inherited highway
      else Number (Fin 2)
  end.

Section Roads.

(** The values of latitudes and longitudes, which this file only stores
    and hands to the geometry. *)
Context {C : Type}.

Record LatLng : Type := mkLatLng { lat : C; lng : C }.

(** An element of [data.elements] as the Overpass API sends it: [type],
    [id], the position of a node, the tags and the node ids of a way;
    [None] is a property that is missing.  Ids are integers, tag values
    strings. *)
Record Tags : Type := mkTags {
  tagHighway : option string;
  tagName : option string
}.

Record Element : Type := mkElement {
  type : string;
  id : Z;
  elLat : C;
  elLon : C;
  tags : option Tags;
  nodes : option (list Z)
}.

Record Road : Type := mkRoad {
  highway : string;
  weight : weightValue;
  coords : list LatLng;
  name : string
}.

(** First loop of [parseOSMData]: the index [nodes] of node positions by
    id, a later element replacing an earlier one of the same id. *)
Definition indexNodes (elements : list Element) : gmap Z LatLng :=
  foldl (λ index el,
           if bool_decide (type el = "node"%string)
           then <[id el := mkLatLng (elLat el) (elLon el)]> index
           else index)
        ∅ elements.

(** [el.tags?.highway] when it is truthy: a string that is not empty. *)
Definition truthyHighway (el : Element) : option string :=
  t ← tags el;
  h ← tagHighway t;
  if bool_decide (h = ""%string) then None else Some h.

(** Body of the second loop: the roads so far with the road of [el]
    pushed, if it is one; [None] when [el.nodes.map] throws a
    TypeError. *)
Definition pushWay (index : gmap Z LatLng) (roads : list Road)
           (el : Element) : option (list Road) :=
  if bool_decide (type el = "way"%string) then
    match truthyHighway el with
    | Some highway =>
        ids ← nodes el;
        let weight := roadTypeWeight highway in
        let coords := omap (λ i, index !! i) ids in
        if 2 <=? length coords then
          Some (roads ++
                [mkRoad highway weight coords
                        (default ""%string (tags el ≫= tagName))])
        else Some roads
    | None => Some roads
    end
  else Some roads.

Definition parseOSMData (elements : list Element) : option (list Road) :=
  forOf (pushWay (indexNodes elements)) elements [].

(** [0.0003] as the double it is. *)
Definition ROAD_SNAP_THRESHOLD : num :=
  Fin (5534023222112865 # 18446744073709551616).

(** [pointToSegmentDist] is floating-point geometry; [getWeightForCoord]
    only compares its results: a number, or [None] for NaN. *)
Variable pointToSegmentDist : C → C → C → C → C → C → option num.

(** [dist < minDist] *)
Definition closer (dist : option num) (minDist : num) : bool :=
  match dist with
  | Some d => num_ltb d minDist
  | None => false
  end.

(** The pairs [coords[i]], [coords[i + 1]] for [i < coords.length - 1]. *)
Fixpoint segments (cs : list LatLng) : list (LatLng * LatLng) :=
  match cs with
  | a :: (b :: _) as t => (a, b) :: segments t
  | _ => []
  end.

(** [pointToSegmentDist(lat, lng, a.lat, a.lng, b.lat, b.lng)] *)
Definition distTo (lat0 lng0 : C) (seg : LatLng * LatLng) : option num :=
  pointToSegmentDist lat0 lng0 (lat seg.1) (lng seg.1)
                     (lat seg.2) (lng seg.2).

(** Body of the inner loop, on the pair [(minDist, bestWeight)]. *)
Definition nearer (lat0 lng0 : C) (road : Road) (acc : num * weightValue)
           (seg : LatLng * LatLng) : num * weightValue :=
  let dist := distTo lat0 lng0 seg in
  match dist with
  | Some d => if closer dist acc.1 then (d, weight road) else acc
  | None => acc
  end.

Definition getWeightForCoord (lat0 lng0 : C) (roads : option (list Road))
  : weightValue :=
  match roads with
  | None | Some [] => Number (Fin 2)
  | Some rs =>
      let best :=
        foldl (λ acc road, foldl (nearer lat0 lng0 road) acc
                                 (segments (coords road)))
              (Infinity, Number (Fin 2)) rs in
      if num_ltb best.1 ROAD_SNAP_THRESHOLD then best.2 else Number (Fin 3)
  end.

End Roads.

End RoadNetwork.

(* ===================================================================== *)
(** ** Example grids *)

Definition freshNode (r c : nat) (wall : bool) (w : num) : Node :=
  mkNode r c wall w Infinity Infinity (Fin 0) false None.

Definition plain (r c : nat) : Node := freshNode r c false (Fin 1).
Definition wall (r c : nat) : Node := freshNode r c true Infinity.
Definition park (r c : nat) : Node := freshNode r c false (Fin 3).

Definition grid3 : Grid :=
  [ [ plain 0 0; park 0 1; plain 0 2 ];
    [ plain 1 0; wall 1 1; plain 1 2 ];
    [ plain 2 0; plain 2 1; plain 2 2 ] ].

(** A row whose middle cell still carries the flag of an earlier run. *)
Definition staleRow : Grid :=
  [ [ plain 0 0;
      mkNode 0 1 false (Fin 1) Infinity Infinity (Fin 0) true None;
      wall 0 2 ] ].

(** A row cut in two by a wall. *)
Definition blockedRow : Grid := [ [ plain 0 0; wall 0 1; plain 0 2 ] ].

(** The same board with weight 1 on every open cell. *)
Definition unit3 : Grid :=
  [ [ plain 0 0; plain 0 1; plain 0 2 ];
    [ plain 1 0; wall 1 1; plain 1 2 ];
    [ plain 2 0; plain 2 1; plain 2 2 ] ].

(** A row as an earlier run and a wall toggle leave it when
    [previousNode] is not reset: the chain from the last cell still leads
    to the first through the cell that is now a wall. *)
Definition staleChain : Grid :=
  [ [ plain 0 0;
      mkNode 0 1 true Infinity Infinity Infinity (Fin 0) false (Some (0, 0));
      mkNode 0 2 false (Fin 1) Infinity Infinity (Fin 0) false (Some (0, 1)) ] ].

(** A board with an alley of weight 2.5 on the direct way along the top
    row. *)
Definition alley (r c : nat) : Node := freshNode r c false (Fin (5 # 2)).

Definition mixed3 : Grid :=
  [ [ plain 0 0; alley 0 1; plain 0 2 ];
    [ plain 1 0; wall 1 1; park 1 2 ];
    [ plain 2 0; plain 2 1; plain 2 2 ] ].

(** Cells whose weight is the whole number [w]. *)
Definition heavy (r c : nat) (w : Z) : Node :=
  freshNode r c false (Fin (inject_Z w)).

(** Weights around [2^53], where neighbouring doubles are 2 apart: the
    way along the top row costs [2^53 + 1], the way along the bottom row
    [2^53 + 2]. *)
Definition roundGrid : Grid :=
  [ [ plain 0 0; heavy 0 1 (2 ^ 52); heavy 0 2 (2 ^ 52) ];
    [ plain 1 0; heavy 1 1 (2 ^ 53); plain 1 2 ] ].

Definition roundRow : Grid :=
  [ [ plain 0 0; heavy 0 1 (2 ^ 53); plain 0 2; plain 0 3; plain 0 4 ] ].

(** Two weights whose sum is beyond the largest double. *)
Definition overflowRow : Grid :=
  [ [ plain 0 0; heavy 0 1 (2 ^ 1023); heavy 0 2 (2 ^ 1023) ] ].

(** Elements as the Overpass API sends them, with coordinates in
    millionths of a degree: a road listed before its nodes, one of which is
    missing, and a way without a [highway] tag. *)
Definition osmSample : list (@RoadNetwork.Element Z) :=
  [ RoadNetwork.mkElement "way" 10 0 0
      (Some (RoadNetwork.mkTags (Some "primary") (Some "College Road")))
      (Some [1; 2; 3]);
    RoadNetwork.mkElement "node" 1 15461800 74994800 None None;
    RoadNetwork.mkElement "node" 2 15462000 74995000 None None;
    RoadNetwork.mkElement "way" 11 0 0
      (Some (RoadNetwork.mkTags None None)) None ]%Z%string.

(** A footpath that lost its [nodes]. *)
Definition osmBroken : list (@RoadNetwork.Element Z) :=
  [ RoadNetwork.mkElement "node" 1 15461800 74994800 None None;
    RoadNetwork.mkElement "way" 12 0 0
      (Some (RoadNetwork.mkTags (Some "path") None)) None ]%Z%string.

(** A distance for the examples: the difference of the latitudes of the
    point and of the first end of the segment. *)
Definition latGap (lat0 lng0 alat alng blat blng : Z) : option num :=
  Some (Fin (inject_Z (Z.abs (lat0 - alat)) / 1000000)).

(* ===================================================================== *)
(** ** Vocabulary of the properties *)

(** Number of columns: [grid[0].length], 0 for the empty grid. *)
Definition ncols (g : Grid) : nat := from_option length 0%nat (g !! 0%nat).

(** A well-formed grid is rectangular and every cell records its own
    place, as [createInitialGrid] builds it. *)
Definition wf_grid (g : Grid) : Prop :=
  Forall (λ rw : list Node, length rw = ncols g) g ∧
  Forall (λ x : nat * list Node,
            Forall (λ y : nat * Node, row y.2 = x.1 ∧ col y.2 = y.1)
                   (imap pair x.2))
         (imap pair g).

Definition inGrid (g : Grid) (p : ref) : Prop := is_Some (cell g p).

(** A cell of the grid that is not a wall. *)
Definition passable (g : Grid) (p : ref) : Prop :=
  isWall <$> cell g p = Some false.

(** One move up, down, left or right. *)
Definition adjacent (p q : ref) : Prop :=
  (p.1 = q.1 ∧ (p.2 = S q.2 ∨ q.2 = S p.2)) ∨
  (p.2 = q.2 ∧ (p.1 = S q.1 ∨ q.1 = S p.1)).

Fixpoint stepwise (l : list ref) : Prop :=
  match l with
  | x :: l' => match l' with y :: _ => adjacent x y ∧ stepwise l' | [] => True end
  | [] => True
  end.

(** [l] is a 4-directional path of non-wall cells from [s] to [e]. *)
Definition is_path (g : Grid) (s e : ref) (l : list ref) : Prop :=
  head l = Some s ∧ last l = Some e ∧ stepwise l ∧ Forall (passable g) l.

Definition weightAt (g : Grid) (p : ref) : num :=
  from_option weight Infinity (cell g p).

(** Total cost of a path: the weight of every cell entered, the first
    cell's weight excluded. *)
Definition path_cost (g : Grid) (l : list ref) : num :=
  foldr (λ p acc, num_plus (weightAt g p) acc) (Fin 0) (tail l).

(** Number of moves of a path. *)
Definition edges (l : list ref) : nat := length l - 1.

(** The in-bounds places up, down, left and right of [p], in that order,
    in a grid of [rows] by [cols] cells. *)
Definition around (rows cols : nat) (p : ref) : list ref :=
  (if 0 <? p.1 then [(p.1 - 1, p.2)] else []) ++
  (if p.1 + 1 <? rows then [(p.1 + 1, p.2)] else []) ++
  (if 0 <? p.2 then [(p.1, p.2 - 1)] else []) ++
  (if p.2 + 1 <? cols then [(p.1, p.2 + 1)] else []).

(** What the searches rely on in a well-formed grid of [rows] by [cols]
    cells, stated through [cell] only. *)
Definition shape (g : Grid) (rows cols : nat) : Prop :=
  length g = rows ∧ width g = Some cols ∧
  (∀ p, inGrid g p ↔ p.1 < rows ∧ p.2 < cols) ∧
  (∀ p n, cell g p = Some n → row n = p.1 ∧ col n = p.2).

(** The fields no search writes. *)
Definition static (n : Node) : nat * nat * bool * num :=
  (row n, col n, isWall n, weight n).

(** [x] is not after [y] in the order of the sort comparator. *)
Definition before (g : Grid) (x y : ref) : Prop :=
  num_cmp (Astar.key g x) (Astar.key g y) ≠ Gt.

(** [chain g x l]: following [previousNode] from [x] ends at a cell without
    predecessor, and [l] lists the cells met, that cell first and [x]
    last. *)
Inductive chain (g : Grid) : ref → list ref → Prop :=
| chain_root x n :
    cell g x = Some n → previousNode n = None → chain g x [x]
| chain_link x n y l :
    cell g x = Some n → previousNode n = Some y → chain g y l →
    chain g x (l ++ [x]).

(** States a loop passes through: [reaches body st st'] when iterating
    [body] from [st] arrives at the loop head in [st']. *)
Inductive reaches {S R : Type} (body : S → option (S + R)) (st : S)
  : S → Prop :=
| reaches_here : reaches body st st
| reaches_next st' st'' :
    reaches body st st' → body st' = Some (inl st'') → reaches body st st''.

(** [g'] holds the same cells as [g] up to the fields the searches
    write. *)
Definition frame (g g' : Grid) : Prop :=
  ∀ p, static <$> cell g p = static <$> cell g' p.

(** The cell at [x] carries a finite tentative cost. *)
Definition finiteDistance (g : Grid) (x : ref) : Prop :=
  ∃ n q, cell g x = Some n ∧ distance n = Fin q.

(** What holds at the head of the A* loop on every grid [g0]: the
    visitation order lists the closed set without repetition, it holds no
    wall, and every open cell has a finite tentative cost. *)
Definition astar_basic (g0 : Grid) (st : Astar.state) : Prop :=
  frame g0 (Astar.grid st) ∧
  NoDup (Astar.visitedNodesInOrder st) ∧
  (∀ x, x ∈ Astar.visitedNodesInOrder st ↔ x ∈ Astar.closedSet st) ∧
  (∀ x, x ∈ Astar.visitedNodesInOrder st → passable g0 x) ∧
  (∀ x, x ∈ Astar.openList st → finiteDistance (Astar.grid st) x).

(** Iterations that suffice for either search on a grid. *)
Definition enoughFuel (g : Grid) : nat := 5 * (length g * ncols g) + 2.

(** No cell has a predecessor: the scratch field [previousNode] is reset. *)
Definition prevNull (g : Grid) : Prop :=
  Forall (Forall (λ n, previousNode n = None)) g.

(** Predecessor links at the head of the A* loop started from [s]: a link
    leaves a non-wall cell that is closed or open and arrives at a closed
    cell; from every closed or open cell the links lead back to [s]; and
    until [s] is closed nothing else is open. *)
Definition astar_links (s : ref) (st : Astar.state) : Prop :=
  (∀ x n y, cell (Astar.grid st) x = Some n → previousNode n = Some y →
     y ∈ Astar.closedSet st ∧
     (x ∈ Astar.closedSet st ∨ x ∈ Astar.openList st) ∧ isWall n = false) ∧
  (∀ x, x ∈ Astar.closedSet st ∨ x ∈ Astar.openList st →
     ∃ l, chain (Astar.grid st) x l ∧ head l = Some s) ∧
  (s ∈ Astar.closedSet st ∨
   (Astar.closedSet st = ∅ ∧ ∀ x, x ∈ Astar.openList st → x = s)).

(** The cell at [x] has its [isVisited] flag set. *)
Definition marked (g : Grid) (x : ref) : Prop :=
  isVisited <$> cell g x = Some true.

(** Predecessor links at the head of the BFS loop started from [s] on the
    grid [g0]: dequeued and queued cells are flagged; a link leaves a
    non-wall cell that was dequeued or is queued and arrives at a dequeued
    cell; from every such cell the links lead back to [s]. *)
Definition bfs_links (g0 : Grid) (s : ref) (st : Bfs.state) : Prop :=
  frame g0 (Bfs.grid st) ∧
  (∀ x, x ∈ Bfs.visitedNodesInOrder st → passable g0 x) ∧
  (∀ x, x ∈ Bfs.visitedNodesInOrder st ∨ x ∈ Bfs.queue st →
     marked (Bfs.grid st) x) ∧
  (∀ x n y, cell (Bfs.grid st) x = Some n → previousNode n = Some y →
     y ∈ Bfs.visitedNodesInOrder st ∧
     (x ∈ Bfs.visitedNodesInOrder st ∨ x ∈ Bfs.queue st) ∧
     isWall n = false) ∧
  (∀ x, x ∈ Bfs.visitedNodesInOrder st ∨ x ∈ Bfs.queue st →
     ∃ l, chain (Bfs.grid st) x l ∧ head l = Some s).

(** At the head of the BFS loop every dequeued or queued cell is flagged
    and none occurs twice. *)
Definition bfs_order (st : Bfs.state) : Prop :=
  (∀ x, x ∈ Bfs.visitedNodesInOrder st ∨ x ∈ Bfs.queue st →
     marked (Bfs.grid st) x) ∧
  NoDup (Bfs.visitedNodesInOrder st ++ Bfs.queue st).

(** Paths grown one move at a time: [path_to g s x l] when [l] is a path of
    non-wall cells from [s] to [x]. *)
Inductive path_to (g : Grid) (s : ref) : ref → list ref → Prop :=
| path_start : passable g s → path_to g s s [s]
| path_step x y l :
    path_to g s x l → adjacent x y → passable g y →
    path_to g s y (l ++ [y]).

(** [l] is a path from [s] to [x] with the fewest cells. *)
Definition shortest (g : Grid) (s x : ref) (l : list ref) : Prop :=
  is_path g s x l ∧ ∀ l', is_path g s x l' → length l ≤ length l'.

(** No cell is flagged: the scratch field [isVisited] is reset. *)
Definition unvisited (g : Grid) : Prop :=
  Forall (Forall (λ n, isVisited n = false)) g.

(** Levels at the head of the BFS loop started from [s] on [g0], [lev]
    giving each cell met so far its number of moves from [s]: flagged
    cells are the dequeued and queued ones; each has a path of [lev] moves;
    levels do not decrease along the visitation order followed by the
    queue, and span at most two values in the queue; every non-wall
    neighbour of a dequeued cell has been met, at most one level further;
    no path to a dequeued cell is shorter than its level. *)
Definition bfs_levels (g0 : Grid) (s : ref) (lev : ref → nat)
           (st : Bfs.state) : Prop :=
  (∀ x, marked (Bfs.grid st) x →
        x ∈ Bfs.visitedNodesInOrder st ∨ x ∈ Bfs.queue st) ∧
  (∀ x, x ∈ Bfs.visitedNodesInOrder st ∨ x ∈ Bfs.queue st →
        ∃ l, path_to g0 s x l ∧ length l = S (lev x)) ∧
  StronglySorted (λ x y, lev x ≤ lev y)
                 (Bfs.visitedNodesInOrder st ++ Bfs.queue st) ∧
  (∀ x y, head (Bfs.queue st) = Some x → y ∈ Bfs.queue st →
          lev y ≤ S (lev x)) ∧
  (∀ u v, u ∈ Bfs.visitedNodesInOrder st → adjacent u v → passable g0 v →
          (v ∈ Bfs.visitedNodesInOrder st ∨ v ∈ Bfs.queue st) ∧
          lev v ≤ S (lev u)) ∧
  (∀ u l, u ∈ Bfs.visitedNodesInOrder st → path_to g0 s u l →
          S (lev u) ≤ length l) ∧
  (s ∈ Bfs.visitedNodesInOrder st ∨ s ∈ Bfs.queue st) ∧ lev s = 0.

(** The predecessor chain of a cell met so far is a path from [s] of as
    many moves as its level. *)
Definition bfs_tree (g0 : Grid) (s : ref) (lev : ref → nat)
           (st : Bfs.state) : Prop :=
  ∀ x l, x ∈ Bfs.visitedNodesInOrder st ∨ x ∈ Bfs.queue st →
         chain (Bfs.grid st) x l →
         path_to g0 s x l ∧ length l = S (lev x).

(** A weight that is a real number at least 1. *)
Definition atLeastOne (w : num) : Prop :=
  match w with Fin q => (1 <= q)%Q | Infinity => False end.

(** Every non-wall cell has a weight that is a real number at least 1. *)
Definition weightsOk (g : Grid) : Prop :=
  Forall (Forall (λ n, isWall n = false → atLeastOne (weight n))) g.

(** Every [distance] is [Infinity]: the scratch field is reset. *)
Definition resetDistance (g : Grid) : Prop :=
  Forall (Forall (λ n, distance n = Infinity)) g.

(** The finite value of a number (0 for [Infinity], where it is not
    used). *)
Definition toQ (x : num) : Q :=
  match x with Fin q => q | Infinity => 0%Q end.

(** Tentative cost g, priority f and entering weight of the cell at a
    place, and Manhattan distance h between two places. *)
Definition distQ (g : Grid) (x : ref) : Q :=
  toQ (from_option distance Infinity (cell g x)).
Definition fQ (g : Grid) (x : ref) : Q := toQ (Astar.key g x).
Definition wQ (g : Grid) (x : ref) : Q := toQ (weightAt g x).
Definition hQ (e x : ref) : Q :=
  inject_Z (Z.abs (Z.of_nat x.1 - Z.of_nat e.1)
            + Z.abs (Z.of_nat x.2 - Z.of_nat e.2)).
Definition pathQ (g : Grid) (l : list ref) : Q := toQ (path_cost g l).

(** The cells an iteration of the A* loop appends to the visitation
    order, each with its [totalCost] as read when it was shifted off the
    open list. *)
Definition selected (e : ref) (st : Astar.state) : list (ref * num) :=
  (λ x, (x, Astar.key (Astar.grid st) x)) <$>
  drop (length (Astar.visitedNodesInOrder st))
       (match Astar.body e st with
        | Some (inl st') => Astar.visitedNodesInOrder st'
        | Some (inr r) => r.1
        | None => []
        end).

(** The selections of a run, in order. *)
Fixpoint selections (fuel : nat) (e : ref) (st : Astar.state)
  : list (ref * num) :=
  match fuel with
  | O => []
  | S fuel' =>
      selected e st ++
      match Astar.body e st with
      | Some (inl st') => selections fuel' e st'
      | _ => []
      end
  end.

(** Priorities at the head of the A* loop towards [e]: a closed or open
    cell has finite g and f with f = g + h, and no open cell has a smaller
    f than a closed one. *)
Definition astar_mono (e : ref) (st : Astar.state) : Prop :=
  (∀ x, x ∈ Astar.closedSet st ∨ x ∈ Astar.openList st →
        ∃ n d f, cell (Astar.grid st) x = Some n ∧ distance n = Fin d ∧
                 totalCost n = Fin f ∧ (f == d + hQ e x)%Q) ∧
  (∀ u x, u ∈ Astar.closedSet st → x ∈ Astar.openList st →
          (fQ (Astar.grid st) u <= fQ (Astar.grid st) x)%Q).

(** Costs at the head of the A* loop from [s] on [g0]; [ex u v] exempts
    the edges of the cell being expanded that the neighbour loop has not
    reached yet.  A cell with a finite g is closed or open; the
    predecessor chain of such a cell is a path from [s] whose cost is its
    g; a non-wall neighbour of a closed cell is closed, or open with a g
    no more than through that cell; no path to a closed cell is cheaper
    than its g; [s] is closed or open, with g = 0. *)
Definition astar_optimal (g0 : Grid) (s : ref) (ex : ref → ref → Prop)
           (st : Astar.state) : Prop :=
  (∀ x n q, cell (Astar.grid st) x = Some n → distance n = Fin q →
            x ∈ Astar.closedSet st ∨ x ∈ Astar.openList st) ∧
  (∀ x l, x ∈ Astar.closedSet st ∨ x ∈ Astar.openList st →
          chain (Astar.grid st) x l →
          path_to g0 s x l ∧ (pathQ g0 l == distQ (Astar.grid st) x)%Q) ∧
  (∀ u v, u ∈ Astar.closedSet st → adjacent u v → passable g0 v →
          ¬ ex u v →
          v ∈ Astar.closedSet st ∨
          (v ∈ Astar.openList st ∧
           (distQ (Astar.grid st) v
            <= distQ (Astar.grid st) u + wQ g0 v)%Q)) ∧
  (∀ u l, u ∈ Astar.closedSet st → path_to g0 s u l →
          (distQ (Astar.grid st) u <= pathQ g0 l)%Q) ∧
  (s ∈ Astar.closedSet st ∨ s ∈ Astar.openList st) ∧
  (distQ (Astar.grid st) s == 0)%Q.

(** *** Sums that are exact in double precision *)

(** [q] is a whole multiple of [2^-k]. *)
Definition multipleOf (k : Z) (q : Q) : Prop :=
  Qden (Qred (q * pow2 k)) = 1%positive.

(** A weight that is a whole multiple of [2^-k] and at most [top]. *)
Definition exactWeight (k top : Z) (w : num) : Prop :=
  match w with
  | Fin q => multipleOf k q ∧ (q <= inject_Z top)%Q
  | Infinity => False
  end.

Definition exactWeights (k top : Z) (g : Grid) : Prop :=
  Forall (Forall (λ n, isWall n = false → exactWeight k top (weight n))) g.

(** In a grid of [rows] by [cols] cells with weights that are multiples
    of [2^-k] and at most [top], the cost of a path without repetition
    plus a Manhattan distance is a multiple of [2^-k] below
    [2^(53-k)]. *)
Definition sumsFit (k top : Z) (rows cols : nat) : Prop :=
  (0 ≤ k ≤ 1074)%Z ∧ (0 ≤ top)%Z ∧
  ((top * Z.of_nat (rows * cols) + Z.of_nat (rows + cols)) * 2 ^ k
   < 2 ^ 53)%Z.

(** A grid on which every sum that [astar] forms is a double, so that
    no sum is rounded and none overflows. *)
Definition exactSums (k top : Z) (g : Grid) : Prop :=
  sumsFit k top (length g) (ncols g) ∧ exactWeights k top g.

(** Tentative costs at the head of the A* loop: the g of a closed or open
    cell is a whole multiple of [2^-k], not negative, and at most [top]
    times the number of cells closed so far. *)
Definition astar_exact (k top : Z) (st : Astar.state) : Prop :=
  ∀ x, x ∈ Astar.closedSet st ∨ x ∈ Astar.openList st →
       ∃ n d (m : Z),
         cell (Astar.grid st) x = Some n ∧ distance n = Fin d ∧
         (d * pow2 k == inject_Z m)%Q ∧ (0 <= d)%Q ∧
         (d <= inject_Z (top * Z.of_nat
                           (length (Astar.visitedNodesInOrder st))))%Q.

(** Inside the neighbour loop of [cur]: its g leaves room for one more
    weight. *)
Definition exactFrom (k top : Z) (cur : ref) (st : Astar.state) : Prop :=
  ∃ c d (m : Z),
    cell (Astar.grid st) cur = Some c ∧ distance c = Fin d ∧
    (d * pow2 k == inject_Z m)%Q ∧ (0 <= d)%Q ∧
    (d + inject_Z top
     <= inject_Z (top * Z.of_nat
                    (length (Astar.visitedNodesInOrder st))))%Q.

(** Every non-wall cell has weight exactly 1. *)
Definition unitWeights (g : Grid) : Prop :=
  Forall (Forall (λ n, isWall n = false → weight n = Fin 1)) g.

(** *** What BFS reads *)

(** What [bfs] reads of a cell. *)
Definition bfsView (n : Node) : nat * nat * bool * bool :=
  (row n, col n, isWall n, isVisited n).

(** Two grids of the same dimensions whose cells agree on what [bfs]
    reads. *)
Definition sameForBfs (g g2 : Grid) : Prop :=
  length g = length g2 ∧ width g = width g2 ∧
  ∀ p, bfsView <$> cell g p = bfsView <$> cell g2 p.

(** *** The application's grid *)

(** A grid as the application keeps it: [GRID_SIZE] rows of [GRID_SIZE]
    cells, each recording its own place; the start and end flags sit at
    [startRef] and [endRef] and nowhere else, on cells that are not
    walls. *)
Definition appGridOk (g : App.AppGrid) : Prop :=
  length g = App.GRID_SIZE ∧
  Forall (λ r : list App.AppNode, length r = App.GRID_SIZE) g ∧
  ∀ p n, App.appCell g p = Some n →
         row (App.node n) = p.1 ∧ col (App.node n) = p.2 ∧
         (App.isStart n = true ↔ p = App.startRef) ∧
         (App.isEnd n = true ↔ p = App.endRef) ∧
         (App.isStart n = true ∨ App.isEnd n = true →
          isWall (App.node n) = false).

(** Walls carry the weight [Infinity], the other cells a real weight at
    least 1. *)
Definition appWeightsOk (g : App.AppGrid) : Prop :=
  ∀ p n, App.appCell g p = Some n →
         if isWall (App.node n) then weight (App.node n) = Infinity
         else atLeastOne (weight (App.node n)).

(** Clicks on the cells at [ps], one after the other, while no run is in
    progress. *)
Fixpoint clicks (ps : list ref) (g : App.AppGrid) : option App.AppGrid :=
  match ps with
  | [] => Some g
  | p :: ps' => g' ← App.onToggleWall false p.1 p.2 g; clicks ps' g'
  end.

(* ===================================================================== *)
(** * Properties *)

(** ** Double precision *)

Section Doubles.

Lemma pow2_pos z : (0 < pow2 z)%Q.
Proof. apply Qpower_0_lt. reflexivity. Qed.

Lemma pow2_plus a b : (pow2 (a + b) == pow2 a * pow2 b)%Q.
Proof. apply Qpower_plus. discriminate. Qed.

Lemma pow2_Z z : (0 <= z)%Z → (pow2 z == inject_Z (2 ^ z))%Q.
Proof. intros H. unfold pow2. symmetry. by apply (Zpower_Qpower 2 z). Qed.

Lemma pow2_le a b : (a <= b)%Z → (pow2 a <= pow2 b)%Q.
Proof. intros H. apply Qpower_le_compat_l; [exact H|discriminate]. Qed.

Lemma pow2_lt_inv a b : (pow2 a < pow2 b)%Q → (a < b)%Z.
Proof. intros H. apply (Qpower_lt_compat_l_inv 2); [exact H|reflexivity]. Qed.

(** [ilog2] does not overshoot. *)
Lemma ilog2_le (p : Q) : (0 < p)%Q → (pow2 (ilog2 p) <= p)%Q.
Proof.
  intros Hp. unfold ilog2.
  destruct (Qle_bool _ p) eqn:Ht; [by apply Qle_bool_iff|]. clear Ht.
  destruct p as [n d]. cbn [Qnum Qden].
  assert (Hn : (0 < n)%Z).
  { unfold Qlt in Hp. simpl in Hp. lia. }
  set (a := Z.log2 n). set (b := (Z.log2 (Z.pos d) + 1)%Z).
  replace (a - Z.log2 (Z.pos d) - 1)%Z with (a + - b)%Z by (unfold b; lia).
  assert (Ha : (0 <= a)%Z) by apply Z.log2_nonneg.
  assert (Hb : (0 <= b)%Z) by (pose proof (Z.log2_nonneg (Z.pos d)); lia).
  rewrite pow2_plus. unfold pow2 at 2. rewrite Qpower_opp.
  fold (pow2 b). rewrite (pow2_Z a Ha), (pow2_Z b Hb).
  pose proof (Z.log2_spec n Hn) as [Hlo _]. fold a in Hlo.
  pose proof (Z.log2_spec (Z.pos d) eq_refl) as [_ Hhi].
  replace (Z.succ (Z.log2 (Z.pos d))) with b in Hhi by (unfold b; lia).
  assert (HB : (0 < 2 ^ b)%Z) by lia.
  rewrite (Qmake_Qdiv n d).
  apply Qle_shift_div_l; [reflexivity|].
  unfold Qdiv. rewrite <- Qmult_assoc, (Qmult_comm (/ _)), Qmult_assoc.
  apply Qle_shift_div_r;
    [change 0%Q with (inject_Z 0); by rewrite <- Zlt_Qlt|].
  rewrite <- !inject_Z_mult, <- Zle_Qle. nia.
Qed.

(** [ilog2] does not undershoot. *)
Lemma ilog2_lt (p : Q) : (0 < p)%Q → (p < pow2 (ilog2 p + 1))%Q.
Proof.
  intros Hp. unfold ilog2.
  destruct (Qle_bool _ p) eqn:Ht.
  2: { replace (Z.log2 (Qnum p) - Z.log2 (Z.pos (Qden p)) - 1 + 1)%Z
         with (Z.log2 (Qnum p) - Z.log2 (Z.pos (Qden p)))%Z by lia.
       apply Qnot_le_lt. intros H. apply Qle_bool_iff in H. congruence. }
  clear Ht. destruct p as [n d]. cbn [Qnum Qden].
  assert (Hn : (0 < n)%Z).
  { unfold Qlt in Hp. simpl in Hp. lia. }
  set (a := (Z.log2 n + 1)%Z). set (b := Z.log2 (Z.pos d)).
  replace (Z.log2 n - b + 1)%Z with (a + - b)%Z by (unfold a; lia).
  assert (Ha : (0 <= a)%Z) by (pose proof (Z.log2_nonneg n); lia).
  assert (Hb : (0 <= b)%Z) by apply Z.log2_nonneg.
  rewrite pow2_plus. unfold pow2 at 2. rewrite Qpower_opp.
  fold (pow2 b). rewrite (pow2_Z a Ha), (pow2_Z b Hb).
  pose proof (Z.log2_spec n Hn) as [_ Hhi].
  replace (Z.succ (Z.log2 n)) with a in Hhi by (unfold a; lia).
  pose proof (Z.log2_spec (Z.pos d) eq_refl) as [Hlo _]. fold b in Hlo.
  assert (HB : (0 < 2 ^ b)%Z) by lia.
  rewrite (Qmake_Qdiv n d).
  apply Qlt_shift_div_r; [reflexivity|].
  unfold Qdiv. rewrite <- Qmult_assoc, (Qmult_comm (/ _)), Qmult_assoc.
  apply Qlt_shift_div_l;
    [change 0%Q with (inject_Z 0); by rewrite <- Zlt_Qlt|].
  rewrite <- !inject_Z_mult, <- Zlt_Qlt. nia.
Qed.

Lemma nearestEven_Z (q : Q) (z : Z) : (q == inject_Z z)%Q → nearestEven q = z.
Proof.
  intros H. unfold nearestEven.
  rewrite (Qfloor_comp _ _ H), Qfloor_Z.
  assert (Hc : (q - inject_Z z ?= 1 # 2)%Q = Lt).
  { apply Qlt_alt. rewrite H. unfold Qminus. rewrite Qplus_opp_r. reflexivity. }
  by rewrite Hc.
Qed.

Lemma nearestEven_near (q : Q) :
  (Qabs (inject_Z (nearestEven q) - q) <= 1 # 2)%Q.
Proof.
  unfold nearestEven.
  pose proof (Qfloor_le q) as Hlo. pose proof (Qlt_floor q) as Hhi.
  rewrite inject_Z_plus in Hhi. change (inject_Z 1) with 1%Q in Hhi.
  apply Qabs_Qle_condition.
  destruct (q - inject_Z (Qfloor q) ?= 1 # 2)%Q eqn:Hc.
  - apply Qeq_alt in Hc.
    destruct (Z.even (Qfloor q));
      rewrite ?inject_Z_plus; change (inject_Z 1) with 1%Q; split; lra.
  - apply Qlt_alt in Hc. split; lra.
  - apply Qgt_alt in Hc. rewrite inject_Z_plus.
    change (inject_Z 1) with 1%Q. split; lra.
Qed.

(** A finite result of [binary64] is within half a unit in the last place
    of the real it rounds. *)
Lemma binary64_near (q r : Q) :
  binary64 q = Fin r →
  (Qabs (r - q)
   <= pow2 (Z.max (ilog2 (Qabs q) - 52) (-1074)) * (1 # 2))%Q.
Proof.
  unfold binary64.
  set (x := Z.max (ilog2 (Qabs q) - 52) (-1074)).
  pose proof (pow2_pos x) as Hp.
  assert (Hsame : ∀ r', (r' == q)%Q →
                        (Qabs (r' - q) <= pow2 x * (1 # 2))%Q).
  { intros r' ->. unfold Qminus. rewrite Qplus_opp_r. simpl.
    apply Qmult_le_0_compat; [by apply Qlt_le_weak|done]. }
  destruct (Qeq_bool q 0); [intros [= <-]; by apply Hsame|].
  destruct (Qle_bool _ _); [done|].
  destruct (Qeq_bool _ q) eqn:He; intros [= <-]; [by apply Hsame|].
  assert (Hd : (inject_Z (nearestEven (q / pow2 x)) * pow2 x - q
                == (inject_Z (nearestEven (q / pow2 x)) - q / pow2 x)
                   * pow2 x)%Q).
  { generalize (inject_Z (nearestEven (q / pow2 x))). intros m.
    field. apply Qnot_eq_sym, Qlt_not_eq, Hp. }
  rewrite Hd.
  rewrite Qabs_Qmult, (Qabs_pos (pow2 x)) by (by apply Qlt_le_weak).
  rewrite (Qmult_comm (pow2 x)).
  apply Qmult_le_compat_r; [apply nearestEven_near|by apply Qlt_le_weak].
Qed.

(** A whole multiple of [2^-k] that is not negative and below [2^(53-k)]
    is a double: rounding leaves it as it is. *)
Lemma binary64_exact (k m : Z) (q : Q) :
  (0 <= k <= 1074)%Z → (0 <= m < 2 ^ 53)%Z →
  (q * pow2 k == inject_Z m)%Q → binary64 q = Fin q.
Proof.
  intros Hk Hm Hq. unfold binary64.
  destruct (Qeq_bool q 0) eqn:H0; [done|].
  apply Qeq_bool_neq in H0.
  pose proof (pow2_pos k) as Hpk.
  assert (Hqm : (q == inject_Z m * pow2 (- k))%Q).
  { rewrite <- Hq, <- Qmult_assoc, <- pow2_plus, Z.add_opp_diag_r.
    unfold pow2. simpl. by rewrite Qmult_1_r. }
  assert (Hpos : (0 < q)%Q).
  { destruct (Qlt_le_dec 0 q) as [|Hle]; [done|]. exfalso. apply H0.
    apply Qle_antisym; [done|].
    rewrite Hqm. apply Qmult_le_0_compat; [|apply Qlt_le_weak, pow2_pos].
    change 0%Q with (inject_Z 0). rewrite <- Zle_Qle. lia. }
  assert (Habs : (Qabs q == q)%Q) by (apply Qabs_pos; by apply Qlt_le_weak).
  assert (Hlt : (q < pow2 (53 - k))%Q).
  { rewrite Hqm. replace (53 - k)%Z with (53 + - k)%Z by lia.
    rewrite (pow2_plus 53). apply Qmult_lt_compat_r; [apply pow2_pos|].
    rewrite (pow2_Z 53) by lia. rewrite <- Zlt_Qlt. lia. }
  assert (He : (ilog2 (Qabs q) < 53 - k)%Z).
  { apply pow2_lt_inv. eapply Qle_lt_trans; [|exact Hlt].
    rewrite <- Habs at 2. apply ilog2_le. by rewrite Habs. }
  set (x := Z.max (ilog2 (Qabs q) - 52) (-1074)).
  assert (Hx : (x <= - k)%Z) by (unfold x; lia).
  assert (Hdiv : (q / pow2 x == inject_Z (m * 2 ^ (- k - x)))%Q).
  { rewrite inject_Z_mult, <- (pow2_Z (- k - x)) by lia.
    replace (- k - x)%Z with (- k + - x)%Z by lia.
    rewrite pow2_plus, Hqm. unfold Qdiv. rewrite <- Qmult_assoc.
    apply Qmult_comp; [done|]. apply Qmult_comp; [done|].
    unfold pow2. by rewrite Qpower_opp. }
  rewrite (nearestEven_Z _ _ Hdiv).
  assert (Hr : (inject_Z (m * 2 ^ (- k - x)) * pow2 x == q)%Q).
  { rewrite <- Hdiv. unfold Qdiv. rewrite <- Qmult_assoc, (Qmult_comm (/ _)).
    rewrite Qmult_inv_r, Qmult_1_r; [done|].
    apply Qnot_eq_sym, Qlt_not_eq, pow2_pos. }
  destruct (Qle_bool _ _) eqn:Hov.
  { exfalso. apply Qle_bool_iff in Hov. rewrite Hr in Hov.
    assert (pow2 (53 - k) <= pow2 1024)%Q by (apply pow2_le; lia).
    apply (Qlt_irrefl q). eapply Qlt_le_trans; [exact Hlt|].
    by eapply Qle_trans. }
  apply Qeq_bool_iff in Hr. by rewrite Hr.
Qed.

Lemma multipleOf_whole k q :
  multipleOf k q → ∃ m : Z, (q * pow2 k == inject_Z m)%Q.
Proof.
  unfold multipleOf. intros H. exists (Qnum (Qred (q * pow2 k))).
  rewrite <- (Qred_correct (q * pow2 k)) at 1.
  destruct (Qred (q * pow2 k)) as [n d]. simpl in *. by subst d.
Qed.

(** The double sum of two multiples of [2^-k] whose real sum is not
    negative and at most [B], with [B * 2^k < 2^53], is the real sum. *)
Lemma num_add_exact (k B : Z) (a b : Q) (ma mb : Z) :
  (0 <= k <= 1074)%Z → (B * 2 ^ k < 2 ^ 53)%Z →
  (a * pow2 k == inject_Z ma)%Q → (b * pow2 k == inject_Z mb)%Q →
  (0 <= a + b)%Q → (a + b <= inject_Z B)%Q →
  num_add (Fin a) (Fin b) = Fin (a + b) ∧
  ((a + b) * pow2 k == inject_Z (ma + mb))%Q.
Proof.
  intros Hk HB Ha Hb H0 Hle.
  assert (Hsum : ((a + b) * pow2 k == inject_Z (ma + mb))%Q).
  { by rewrite Qmult_plus_distr_l, Ha, Hb, inject_Z_plus. }
  split; [|done]. simpl.
  apply (binary64_exact k (ma + mb)); [done| |done].
  pose proof (pow2_pos k) as Hp.
  split.
  - rewrite Zle_Qle, <- Hsum. apply Qmult_le_0_compat; [done|].
    by apply Qlt_le_weak.
  - assert (H : (inject_Z (ma + mb) <= inject_Z (B * 2 ^ k))%Q).
    { rewrite <- Hsum, inject_Z_mult, <- (pow2_Z k) by lia.
      apply Qmult_le_compat_r; [done|by apply Qlt_le_weak]. }
    rewrite <- Zle_Qle in H. lia.
Qed.

End Doubles.

(** ** Grid reads and writes *)

Section GridOps.
Implicit Types (g : Grid) (p q : ref) (f : Node → Node) (n : Node).

Lemma cell_upd_eq g p f n :
  cell g p = Some n → cell (upd f p g) p = Some (f n).
Proof.
  unfold cell, upd. destruct p as [r c]; simpl. intros H.
  destruct (g !! r) as [rw|] eqn:Hr; simpl in *; [|done].
  rewrite list_lookup_alter_eq, Hr. simpl.
  by rewrite list_lookup_alter_eq, H.
Qed.

Lemma cell_upd_ne g p q f : p ≠ q → cell (upd f p g) q = cell g q.
Proof.
  unfold cell, upd. destruct p as [r c], q as [r' c']; simpl. intros H.
  destruct (decide (r = r')) as [->|Hr].
  - rewrite list_lookup_alter_eq. destruct (g !! r') as [rw|]; simpl; [|done].
    rewrite list_lookup_alter_ne; [done|congruence].
  - by rewrite list_lookup_alter_ne.
Qed.

Lemma cell_upd g p q f :
  cell (upd f p g) q = if decide (p = q) then f <$> cell g q else cell g q.
Proof.
  destruct (decide (p = q)) as [->|Hne].
  - destruct (cell g q) as [n|] eqn:H; simpl.
    + by apply cell_upd_eq.
    + unfold cell, upd in *. destruct q as [r c]; simpl in *.
      rewrite list_lookup_alter_eq.
      destruct (g !! r) as [rw|]; simpl in *; [|done].
      by rewrite list_lookup_alter_eq, H.
  - by apply cell_upd_ne.
Qed.

Lemma length_upd g p f : length (upd f p g) = length g.
Proof. unfold upd. by rewrite length_alter. Qed.

Lemma width_upd g p f : width (upd f p g) = width g.
Proof.
  unfold width, upd. destruct p as [r c]; simpl.
  destruct (decide (r = 0)) as [->|Hr].
  - rewrite list_lookup_alter_eq. destruct (g !! 0) as [rw|]; simpl; [|done].
    by rewrite length_alter.
  - by rewrite list_lookup_alter_ne.
Qed.

End GridOps.

(** ** Well-formed grids *)

Section Shape.
Implicit Types (g : Grid) (p q : ref) (f : Node → Node) (n : Node).

Lemma wf_grid_shape g p :
  wf_grid g → inGrid g p → shape g (length g) (ncols g).
Proof.
  intros [Hrect Hplaced] [n0 Hn0].
  assert (Hw : width g = Some (ncols g)).
  { unfold width, ncols. destruct (g !! 0) as [rw|] eqn:H0; [done|].
    unfold cell in Hn0. destruct (g !! p.1) as [rw|] eqn:Hr; [|done].
    apply lookup_lt_Some in Hr. apply lookup_ge_None in H0. lia. }
  split; [done|]. split; [done|]. split.
  - intros [r c]; unfold inGrid, cell; simpl. split.
    + intros [n Hn]. destruct (g !! r) as [rw|] eqn:Hr; [|done]. simpl in Hn.
      split; [by eapply lookup_lt_Some|].
      rewrite Forall_forall in Hrect.
      rewrite <- (Hrect rw); [by eapply lookup_lt_Some|].
      by eapply list_elem_of_lookup_2.
    + intros [Hr Hc]. destruct (lookup_lt_is_Some_2 g r Hr) as [rw Hrw].
      rewrite Hrw; simpl. apply lookup_lt_is_Some_2.
      rewrite Forall_forall in Hrect. rewrite (Hrect rw); [done|].
      by eapply list_elem_of_lookup_2.
  - intros [r c] n; unfold cell; simpl. intros Hn.
    destruct (g !! r) as [rw|] eqn:Hr; [|done]. simpl in Hn.
    rewrite Forall_forall in Hplaced.
    specialize (Hplaced (r, rw)). simpl in Hplaced.
    rewrite Forall_forall in Hplaced.
    apply (Hplaced ltac:(apply list_elem_of_lookup; exists r;
                           by rewrite list_lookup_imap, Hr) (c, n)).
    apply list_elem_of_lookup. exists c. by rewrite list_lookup_imap, Hn.
Qed.

Lemma shape_upd g rows cols p f :
  (∀ n, row (f n) = row n ∧ col (f n) = col n) →
  shape g rows cols → shape (upd f p g) rows cols.
Proof.
  intros Hf (Hl & Hw & Hin & Hpl).
  split; [by rewrite length_upd|]. split; [by rewrite width_upd|]. split.
  - intros q. rewrite <- Hin. unfold inGrid. rewrite cell_upd.
    destruct (decide (p = q)); [|done]. by rewrite fmap_is_Some.
  - intros q n. rewrite cell_upd. destruct (decide (p = q)) as [->|]; [|by auto].
    destruct (cell g q) as [m|] eqn:Hm; simpl; [|done].
    intros [= <-]. destruct (Hf m) as [Hr Hc]. rewrite Hr, Hc. by apply Hpl.
Qed.

Lemma shape_inGrid g rows cols p :
  shape g rows cols → inGrid g p ↔ p.1 < rows ∧ p.2 < cols.
Proof. intros (_ & _ & H & _). apply H. Qed.

Lemma shape_place g rows cols p n :
  shape g rows cols → cell g p = Some n → (row n, col n) = p.
Proof.
  intros (_ & _ & _ & H) Hn. destruct (H p n Hn) as [-> ->]. by destruct p.
Qed.

Lemma fourNeighbors_at g rows cols p n :
  shape g rows cols → inGrid g p → (row n, col n) = p →
  fourNeighbors n g = Some (around rows cols p).
Proof.
  intros Hs Hn Hp.
  destruct Hs as (Hl & Hw & Hin & _). destruct p as [r c].
  injection Hp as Hr Hc.
  assert (Hrc : r < rows ∧ c < cols) by (by apply (Hin (r, c))).
  assert (Hslot : ∀ r' c', r' < rows → c' < cols →
                           slot g r' c' = Some (r', c')).
  { intros r' c' ? ?. unfold slot.
    destruct (proj2 (Hin (r', c')) ltac:(done)) as [m ->]. done. }
  unfold fourNeighbors, around, pushIf. rewrite Hw, Hl, Hr, Hc. simpl.
  assert (Hz1 : (Z.of_nat r <? Z.of_nat rows - 1)%Z = (r + 1 <? rows)).
  { destruct (Z.ltb_spec (Z.of_nat r) (Z.of_nat rows - 1));
      destruct (Nat.ltb_spec (r + 1) rows); lia. }
  assert (Hz2 : (Z.of_nat c <? Z.of_nat cols - 1)%Z = (c + 1 <? cols)).
  { destruct (Z.ltb_spec (Z.of_nat c) (Z.of_nat cols - 1));
      destruct (Nat.ltb_spec (c + 1) cols); lia. }
  rewrite Hz1, Hz2.
  destruct (Nat.ltb_spec 0 r), (Nat.ltb_spec (r + 1) rows),
    (Nat.ltb_spec 0 c), (Nat.ltb_spec (c + 1) cols); simpl;
    rewrite ?Hslot by lia; simpl; rewrite ?Hslot by lia; simpl;
    rewrite ?Hslot by lia; simpl; rewrite ?Hslot by lia; done.
Qed.

Lemma fourNeighbors_shape g rows cols p n :
  shape g rows cols → cell g p = Some n →
  fourNeighbors n g = Some (around rows cols p).
Proof.
  intros Hs Hn. eapply fourNeighbors_at; [done|by eexists|].
  by eapply shape_place.
Qed.

Lemma around_spec rows cols p q :
  p.1 < rows → p.2 < cols →
  q ∈ around rows cols p ↔ adjacent p q ∧ q.1 < rows ∧ q.2 < cols.
Proof.
  destruct p as [r c], q as [r' c']. unfold around, adjacent. simpl.
  intros Hr Hc. rewrite !elem_of_app.
  destruct (Nat.ltb_spec 0 r), (Nat.ltb_spec (r + 1) rows),
    (Nat.ltb_spec 0 c), (Nat.ltb_spec (c + 1) cols);
    rewrite ?list_elem_of_singleton, ?elem_of_nil;
    (split; [intros H'; destruct_or!; simplify_eq; lia
            | intros ([[-> [->| ->]]|[-> [->| ->]]] & ? & ?); try lia]).
  all: try (left; f_equal; lia).
  all: try (right; left; f_equal; lia).
  all: try (right; right; left; f_equal; lia).
  all: try (right; right; right; f_equal; lia).
Qed.

Lemma around_NoDup rows cols p : NoDup (around rows cols p).
Proof.
  destruct p as [r c]. unfold around. simpl.
  destruct (0 <? r) eqn:?, (r + 1 <? rows), (0 <? c) eqn:?, (c + 1 <? cols); simpl;
    repeat (apply NoDup_cons; split; [rewrite ?elem_of_cons, ?elem_of_nil; intros ?; destruct_or?; simplify_eq; try lia|]); try apply NoDup_nil_2.
  all: try (apply Nat.ltb_lt in Heqb; lia).
  all: try (apply Nat.ltb_lt in Heqb0; lia).
Qed.

Lemma around_length rows cols p : length (around rows cols p) ≤ 4.
Proof.
  unfold around. rewrite !length_app.
  destruct (0 <? p.1), (p.1 + 1 <? rows), (0 <? p.2), (p.2 + 1 <? cols); simpl; lia.
Qed.

End Shape.

(** ** Neighbour lookup *)

(** C8. In a rectangular grid of at least 2 rows and 2 columns, the
    neighbour lookup of a cell succeeds and returns between 2 and 4 cells:
    exactly the cells of the grid one move away, never a place outside
    the grid, listed in the order up, down, left, right; the lookup of
    [bfs] keeps a sub-sequence of the same list. *)
Theorem getNeighbors_in_bounds (g : Grid) (p : ref) (n : Node) :
  wf_grid g → 2 ≤ length g → 2 ≤ ncols g → cell g p = Some n →
  ∃ l, Astar.getNeighbors n g = Some l ∧
       2 ≤ length l ≤ 4 ∧
       (∀ q, q ∈ l ↔ inGrid g q ∧ adjacent p q) ∧
       NoDup l ∧
       sublist l [(p.1 - 1, p.2); (p.1 + 1, p.2); (p.1, p.2 - 1); (p.1, p.2 + 1)] ∧
       ∃ l', Bfs.getUnvisitedNeighbors n g = Some l' ∧ sublist l' l.
Proof.
  intros Hwf Hrows Hcols Hn.
  assert (Hs : shape g (length g) (ncols g))
    by (eapply wf_grid_shape; [done|by eexists]).
  assert (Hp : p.1 < length g ∧ p.2 < ncols g)
    by (eapply shape_inGrid; [done|by eexists]).
  exists (around (length g) (ncols g) p).
  split; [by eapply fourNeighbors_shape|]. split.
  { split; [|apply around_length]. unfold around. rewrite !length_app.
    destruct p as [r c]; simpl in *.
    destruct (Nat.ltb_spec 0 r), (Nat.ltb_spec (r + 1) (length g)),
      (Nat.ltb_spec 0 c), (Nat.ltb_spec (c + 1) (ncols g)); simpl; lia. }
  split.
  { intros q. rewrite around_spec by tauto.
    rewrite (shape_inGrid _ _ _ q Hs). tauto. }
  split; [apply around_NoDup|]. split.
  { unfold around.
    destruct (0 <? p.1), (p.1 + 1 <? length g), (0 <? p.2), (p.2 + 1 <? ncols g);
      simpl; repeat first [apply sublist_nil | apply sublist_skip | apply sublist_cons]. }
  exists (filter (λ q, Is_true (Bfs.unvisitedOpen g q)) (around (length g) (ncols g) p)).
  split; [|apply sublist_filter].
  unfold Bfs.getUnvisitedNeighbors. by erewrite fourNeighbors_shape.
Qed.

(** ** Loops *)

Section Loops.
Context {S R X : Type}.

Lemma while_inv (body : S → option (S + R)) (I : S → Prop) (Post : R → Prop) :
  (∀ st st', I st → body st = Some (inl st') → I st') →
  (∀ st r, I st → body st = Some (inr r) → Post r) →
  ∀ fuel st r, I st → while body fuel st = Returns r → Post r.
Proof.
  intros Hstep Hexit fuel. induction fuel as [|fuel IH]; simpl; [done|].
  intros st r Hst. destruct (body st) as [[st'|r']|] eqn:Hb; [| |done].
  - apply IH. by eapply Hstep.
  - intros [= <-]. by eapply Hexit.
Qed.

Lemma while_total (body : S → option (S + R)) (I : S → Prop) (μ : S → nat) :
  (∀ st, I st →
     match body st with
     | Some (inl st') => I st' ∧ μ st' < μ st
     | Some (inr _) => True
     | None => False
     end) →
  ∀ fuel st, I st → μ st < fuel → ∃ r, while body fuel st = Returns r.
Proof.
  intros Hstep fuel. induction fuel as [|fuel IH]; simpl; [lia|].
  intros st Hst Hμ. specialize (Hstep st Hst).
  destruct (body st) as [[st'|r']|]; [| by eexists | done].
  destruct Hstep as [Hst' Hlt]. apply IH; [done|lia].
Qed.

Lemma while_more_fuel (body : S → option (S + R)) fuel fuel' st r :
  while body fuel st = Returns r → fuel ≤ fuel' →
  while body fuel' st = Returns r.
Proof.
  revert fuel' st. induction fuel as [|fuel IH]; simpl; [done|].
  intros [|fuel'] st; [lia|]. simpl.
  destruct (body st) as [[st'|r']|]; [|done|done].
  intros H ?. apply IH; [done|lia].
Qed.

Lemma forOf_inv (body : S → X → option S) (I : list X → S → Prop) :
  (∀ done x st st', I done st → body st x = Some st' → I (done ++ [x]) st') →
  ∀ xs done st st', I done st → forOf body xs st = Some st' →
                    I (done ++ xs) st'.
Proof.
  intros Hstep xs. induction xs as [|x xs IH]; simpl; intros done st st' Hst.
  - intros [= <-]. by rewrite app_nil_r.
  - destruct (body st x) as [st1|] eqn:Hb; simpl; [|done].
    intros H. rewrite cons_middle, app_assoc. eapply IH; [|done].
    by eapply Hstep.
Qed.

Lemma forOf_total (body : S → X → option S) (I : S → Prop) xs :
  (∀ x st, I st → x ∈ xs → ∃ st', body st x = Some st' ∧ I st') →
  ∀ st, I st → ∃ st', forOf body xs st = Some st' ∧ I st'.
Proof.
  induction xs as [|x xs IH]; simpl; intros Hstep st Hst; [by eexists|].
  destruct (Hstep x st Hst) as (st1 & -> & Hst1); [by left|]. simpl.
  apply IH; [|done]. intros y st2 ? ?. apply Hstep; [done|by right].
Qed.
End Loops.

(** ** The sort of the open list *)

Section Sort.
Variable g : Grid.

Lemma insert_Permutation x l : Astar.insert g x l ≡ₚ x :: l.
Proof.
  induction l as [|y l IH]; simpl; [done|].
  destruct (num_cmp _ _); try done.
  rewrite IH. apply Permutation_swap.
Qed.

Lemma sort_Permutation l : Astar.sort g l ≡ₚ l.
Proof.
  induction l as [|x l IH]; simpl; [done|].
  by rewrite insert_Permutation, IH.
Qed.

Lemma num_cmp_trans a b c :
  num_cmp a b ≠ Gt → num_cmp b c ≠ Gt → num_cmp a c ≠ Gt.
Proof.
  destruct a as [x|], b as [y|], c as [z|]; simpl; try done.
  rewrite <- !Qle_alt. intros. lra.
Qed.

Lemma num_cmp_total a b : num_cmp a b = Gt → num_cmp b a ≠ Gt.
Proof.
  destruct a as [x|], b as [y|]; simpl; try done.
  rewrite <- Qgt_alt, <- Qle_alt. intros. lra.
Qed.

Lemma insert_head x l z rest :
  (∀ y l', l = y :: l' → ∀ w, w ∈ l' → before g y w) →
  Astar.insert g x l = z :: rest → ∀ w, w ∈ rest → before g z w.
Proof.
  destruct l as [|y l]; simpl.
  - intros _ [= <- <-] w Hw. by apply elem_of_nil in Hw.
  - intros Hmin. specialize (Hmin y l eq_refl).
    destruct (num_cmp (Astar.key g x) (Astar.key g y)) eqn:Hc;
      intros [= <- <-] w Hw.
    + apply elem_of_cons in Hw as [->|Hw]; [unfold before; by rewrite Hc|].
      eapply num_cmp_trans; [|by apply Hmin]. by rewrite Hc.
    + apply elem_of_cons in Hw as [->|Hw]; [unfold before; by rewrite Hc|].
      eapply num_cmp_trans; [|by apply Hmin]. by rewrite Hc.
    + assert (Hw' : w ∈ x :: l) by by rewrite <- insert_Permutation.
      apply elem_of_cons in Hw' as [->|Hw']; [|by apply Hmin].
      by apply num_cmp_total.
Qed.

Lemma sort_head l z rest :
  Astar.sort g l = z :: rest → ∀ w, w ∈ rest → before g z w.
Proof.
  revert z rest. induction l as [|x l IH]; simpl; [done|].
  intros z rest. apply insert_head. intros y l' Hl. by apply IH.
Qed.
End Sort.

(** ** Predecessor chains and their walk *)

Section Chains.
Implicit Types (g : Grid) (x y v : ref) (l : list ref).

Lemma chain_last g x l : chain g x l → last l = Some x.
Proof. induction 1; [done|]. by rewrite last_snoc. Qed.

Lemma chain_inGrid g x l : chain g x l → inGrid g x.
Proof. destruct 1; by eexists. Qed.

Lemma chain_functional g x l l' : chain g x l → chain g x l' → l = l'.
Proof.
  intros H. revert l'. induction H as [x n Hn Hp|x n y l Hn Hp Hy IH];
    intros l' H'; destruct H' as [x n' Hn' Hp'|x n' y' l' Hn' Hp' Hy'];
    simplify_eq; try done.
  by rewrite (IH l').
Qed.

(** The first cell of a chain has no predecessor, and every later cell
    has the cell before it as its predecessor. *)
Lemma chain_head g x l a :
  chain g x l → head l = Some a →
  ∃ n, cell g a = Some n ∧ previousNode n = None.
Proof.
  induction 1 as [x n Hn Hp|x n y l Hn Hp Hy IH]; simpl.
  - intros [= <-]. by eexists.
  - destruct l as [|b l]; [by apply chain_last in Hy|]. simpl. apply IH.
Qed.

Lemma chain_links g x l i a b :
  chain g x l → l !! i = Some a → l !! S i = Some b →
  ∃ n, cell g b = Some n ∧ previousNode n = Some a.
Proof.
  intros H. revert i a b. induction H as [x n Hn Hp|x n y l Hn Hp Hy IH];
    intros i a b Ha Hb.
  - by destruct i.
  - destruct (decide (S i < length l)) as [Hi|Hi].
    + rewrite lookup_app_l in Ha, Hb by lia. by eapply IH.
    + assert (S i = length l) as Hlen.
      { apply lookup_lt_Some in Hb. rewrite length_app in Hb. simpl in Hb. lia. }
      rewrite lookup_app_r in Hb by lia. rewrite Hlen, Nat.sub_diag in Hb.
      injection Hb as <-.
      rewrite lookup_app_l in Ha by lia.
      pose proof (chain_last _ _ _ Hy) as Hl. rewrite last_lookup in Hl.
      replace (pred (length l)) with i in Hl by lia.
      rewrite Ha in Hl. injection Hl as ->. by eexists.
Qed.

(** Every cell of a chain other than its last is some cell's
    predecessor. *)
Lemma chain_targets g x l y :
  chain g x l → y ∈ l →
  y = x ∨ ∃ z m, cell g z = Some m ∧ previousNode m = Some y.
Proof.
  induction 1 as [x n Hn Hp|x n z l Hn Hp Hz IH].
  - rewrite list_elem_of_singleton. auto.
  - rewrite elem_of_app, list_elem_of_singleton. intros [Hy| ->]; [|by left].
    right. destruct (IH Hy) as [->|H]; [by eauto|done].
Qed.

Lemma chain_frame g x l v f :
  chain g x l → v ∉ l → chain (upd f v g) x l.
Proof.
  induction 1 as [x n Hn Hp|x n y l Hn Hp Hy IH].
  - rewrite list_elem_of_singleton. intros Hv.
    eapply chain_root; [|done]. by rewrite cell_upd_ne.
  - rewrite elem_of_app, list_elem_of_singleton. intros Hv.
    eapply chain_link; [|done|apply IH; tauto].
    rewrite cell_upd_ne; [done|]. intros ->. tauto.
Qed.

Lemma chain_upd g x l v f :
  (∀ n, previousNode (f n) = previousNode n) →
  chain g x l → chain (upd f v g) x l.
Proof.
  intros Hf. induction 1 as [x n Hn Hp|x n y l Hn Hp Hy IH].
  - destruct (decide (v = x)) as [->|Hv].
    + eapply chain_root; [by apply cell_upd_eq|]. by rewrite Hf.
    + eapply chain_root; [|done]. by rewrite cell_upd_ne.
  - destruct (decide (v = x)) as [->|Hv].
    + eapply chain_link; [by apply cell_upd_eq| |done]. by rewrite Hf.
    + eapply chain_link; [|done|done]. by rewrite cell_upd_ne.
Qed.

Lemma chain_walk g x l :
  chain g x l → ∀ fuel acc, length l ≤ fuel →
  Bfs.walk fuel g (Some x) acc = Returns (l ++ acc).
Proof.
  induction 1 as [x n Hn Hp|x n y l Hn Hp Hy IH]; intros [|fuel] acc Hf;
    simpl in *; try lia.
  - rewrite Hn, Hp. by destruct fuel.
  - rewrite length_app in Hf; simpl in Hf; lia.
  - rewrite Hn, Hp. rewrite length_app in Hf; simpl in Hf.
    rewrite IH by lia. by rewrite <- app_assoc.
Qed.

Lemma walk_chain g fuel x acc r :
  Bfs.walk fuel g (Some x) acc = Returns r →
  ∃ l, chain g x l ∧ r = l ++ acc.
Proof.
  revert x acc. induction fuel as [|fuel IH]; intros x acc; simpl; [done|].
  destruct (cell g x) as [n|] eqn:Hn; [|done].
  destruct (previousNode n) as [y|] eqn:Hp.
  - intros H. apply IH in H as (l & Hl & ->). exists (l ++ [x]).
    split; [by eapply chain_link|]. by rewrite <- app_assoc.
  - destruct fuel; simpl; intros [= <-]; exists [x];
      (split; [by eapply chain_root|done]).
Qed.

Lemma chain_getNodes g x l fuel :
  chain g x l → length l ≤ fuel →
  Bfs.getNodesInShortestPathOrder fuel g x = Returns l.
Proof.
  intros H Hf. unfold Bfs.getNodesInShortestPathOrder.
  rewrite (chain_walk _ _ _ H) by done. by rewrite app_nil_r.
Qed.

Lemma getNodes_chain g x l fuel :
  Bfs.getNodesInShortestPathOrder fuel g x = Returns l → chain g x l.
Proof.
  intros H. apply walk_chain in H as (l' & H & ->). by rewrite app_nil_r.
Qed.

End Chains.

(** ** Frames *)

Section Frames.
Implicit Types (g : Grid) (p q : ref) (f : Node → Node) (n : Node).

Lemma frame_refl g : frame g g.
Proof. done. Qed.

Lemma frame_trans g1 g2 g3 : frame g1 g2 → frame g2 g3 → frame g1 g3.
Proof. intros H1 H2 p. by rewrite H1. Qed.

Lemma frame_upd g p f : (∀ n, static (f n) = static n) → frame g (upd f p g).
Proof.
  intros Hf q. rewrite cell_upd. destruct (decide (p = q)); [|done].
  destruct (cell g q) as [n|]; simpl; [|done]. by rewrite Hf.
Qed.

Lemma frame_upd_r g0 g p f :
  (∀ n, static (f n) = static n) → frame g0 g → frame g0 (upd f p g).
Proof. intros. eapply frame_trans; [done|by apply frame_upd]. Qed.

Lemma frame_cell g g' p n :
  frame g g' → cell g p = Some n →
  ∃ n', cell g' p = Some n' ∧ static n' = static n.
Proof.
  intros H Hn. specialize (H p). rewrite Hn in H.
  destruct (cell g' p) as [n'|]; simpl in H; [|done].
  exists n'. split; [done|congruence].
Qed.

Lemma frame_sym g g' : frame g g' → frame g' g.
Proof. intros H p. by rewrite H. Qed.

Lemma frame_inGrid g g' p : frame g g' → inGrid g p ↔ inGrid g' p.
Proof.
  intros H. unfold inGrid. specialize (H p).
  destruct (cell g p), (cell g' p); simpl in *; try done.
  all: split; intros [? ?]; done.
Qed.

Lemma frame_passable g g' p : frame g g' → passable g p ↔ passable g' p.
Proof.
  intros H. unfold passable. specialize (H p).
  destruct (cell g p) as [n|], (cell g' p) as [n'|]; simpl in *; try done.
  unfold static in H. by replace (isWall n') with (isWall n) by congruence.
Qed.

Lemma frame_weightAt g g' p : frame g g' → weightAt g p = weightAt g' p.
Proof.
  intros H. unfold weightAt. specialize (H p).
  destruct (cell g p) as [n|], (cell g' p) as [n'|]; simpl in *; try done.
  unfold static in H. congruence.
Qed.
End Frames.

(** ** The A* loop on every grid *)

Section AstarBasic.
Import Astar.
Implicit Types (st : state) (v : ref).

Lemma static_improve t h c n : static (improve t h c n) = static n.
Proof. done. Qed.
Lemma static_markVisited n : static (markVisited n) = static n.
Proof. done. Qed.
Lemma static_initStart h n : static (initStart h n) = static n.
Proof. done. Qed.

(** The three ways an iteration of the neighbour loop ends. *)
Lemma relax_cases e cur st v st' :
  relax e cur st v = Some st' →
  (st' = st ∧ ∃ nb, cell (grid st) v = Some nb ∧
                    (v ∈ closedSet st ∨ isWall nb = true)) ∨
  (st' = st ∧ ∃ nb c, cell (grid st) v = Some nb ∧ (v ∉ closedSet st) ∧
                      isWall nb = false ∧ cell (grid st) cur = Some c ∧
                      num_ltb (num_add (distance c) (num_or1 (weight nb)))
                              (distance nb) = false) ∨
  (∃ nb c en q, cell (grid st) v = Some nb ∧ (v ∉ closedSet st) ∧
                isWall nb = false ∧ cell (grid st) cur = Some c ∧
                cell (grid st) e = Some en ∧
                num_add (distance c) (num_or1 (weight nb)) = Fin q ∧
                num_ltb (Fin q) (distance nb) = true ∧
                st' = mkState
                        (upd (improve (Fin q) (heuristic nb en) cur) v (grid st))
                        (if bool_decide (v ∈ openList st) then openList st
                         else openList st ++ [v])
                        (closedSet st) (visitedNodesInOrder st)).
Proof.
  unfold relax. destruct (cell (grid st) v) as [nb|] eqn:Hv; simpl; [|done].
  destruct (bool_decide (v ∈ closedSet st)) eqn:Hc; simpl.
  { intros [= <-]. left. split; [done|]. exists nb. split; [done|].
    left. by apply bool_decide_eq_true in Hc. }
  apply bool_decide_eq_false in Hc.
  destruct (isWall nb) eqn:Hw; simpl.
  { intros [= <-]. left. split; [done|]. exists nb. auto. }
  destruct (cell (grid st) cur) as [c|] eqn:Hcur; simpl; [|done].
  destruct (num_ltb _ _) eqn:Hlt.
  - destruct (cell (grid st) e) as [en|] eqn:He; simpl; [|done].
    intros [= <-]. right; right.
    destruct (num_add (distance c) (num_or1 (weight nb))) as [q|] eqn:Hq;
      [|done].
    by exists nb, c, en, q.
  - intros [= <-]. right; left. split; [done|]. by exists nb, c.
Qed.

Lemma relax_basic g0 e cur st v st' :
  astar_basic g0 st → relax e cur st v = Some st' → astar_basic g0 st'.
Proof.
  intros Hst H.
  apply relax_cases in H as [[-> _]|[[-> _]|H]]; [done|done|].
  destruct H as (nb & c & en & q & Hv & Hc & Hw & Hcur & He & Hq & Hlt & ->).
  destruct Hst as (Hfr & Hnd & Hvc & Hvp & Hfin).
  split; [|split; [|split; [|split]]]; simpl; try done.
  - apply frame_upd_r; [apply static_improve|done].
  - intros x Hx.
    destruct (decide (v = x)) as [->|Hne].
    + exists (improve (Fin q) (heuristic nb en) cur nb), q.
      split; [by apply cell_upd_eq|done].
    + assert (Hx' : x ∈ openList st).
      { destruct (bool_decide _); [done|].
        apply elem_of_app in Hx as [?|Hx]; [done|].
        apply list_elem_of_singleton in Hx. congruence. }
      destruct (Hfin x Hx') as (n & q' & Hn & Hd).
      exists n, q'. split; [by rewrite cell_upd_ne|done].
Qed.

Lemma forOf_relax_basic g0 e cur nbs st st' :
  astar_basic g0 st → forOf (relax e cur) nbs st = Some st' →
  astar_basic g0 st'.
Proof.
  intros Hst H.
  eapply (forOf_inv (relax e cur) (λ _, astar_basic g0)) with (done := []);
    [|exact Hst|exact H].
  intros ? ? ? ? ? ?. by eapply relax_basic.
Qed.

(** The ways an iteration of the main loop ends. *)
Lemma body_cases e st x :
  body e st = Some x →
  (openList st = [] ∧ x = inr (visitedNodesInOrder st, grid st)) ∨
  ∃ cur rest c,
    sort (grid st) (openList st) = cur :: rest ∧
    cur :: rest ≡ₚ openList st ∧
    (∀ w, w ∈ rest → before (grid st) cur w) ∧
    cell (grid st) cur = Some c ∧
    (((isWall c = true ∨ cur ∈ closedSet st) ∧ x = inl (skip rest st)) ∨
     (isWall c = false ∧ (cur ∉ closedSet st) ∧
      ((distance c = Infinity ∧ x = inr (visitedNodesInOrder st, grid st)) ∨
       (∃ q, distance c = Fin q ∧
         ((cur = e ∧
           x = inr (visitedNodesInOrder (close cur rest st),
                    grid (close cur rest st))) ∨
          (cur ≠ e ∧ ∃ nbs st2,
             getNeighbors c (grid (close cur rest st)) = Some nbs ∧
             forOf (relax e cur) nbs (close cur rest st) = Some st2 ∧
             x = inl st2)))))).
Proof.
  unfold body.
  destruct (sort (grid st) (openList st)) as [|cur rest] eqn:Hsort.
  { intros [= <-]. left. split; [|done].
    apply Permutation_nil_r. rewrite <- Hsort. symmetry. apply sort_Permutation. }
  intros H. right. exists cur, rest.
  destruct (cell (grid st) cur) as [c|] eqn:Hcur; simpl in H; [|done].
  exists c. split; [done|]. split; [rewrite <- Hsort; apply sort_Permutation|].
  split; [by eapply sort_head|]. split; [done|].
  destruct (isWall c) eqn:Hw; [injection H as <-; left; auto|].
  destruct (bool_decide (cur ∈ closedSet st)) eqn:Hc.
  { apply bool_decide_eq_true in Hc. injection H as <-; left; auto. }
  apply bool_decide_eq_false in Hc. right. split; [done|]. split; [done|].
  destruct (distance c) as [q|] eqn:Hd; simpl in H;
    [|injection H as <-; left; auto].
  right. exists q. split; [done|].
  destruct (bool_decide (cur = e)) eqn:He.
  { apply bool_decide_eq_true in He. injection H as <-; left; auto. }
  apply bool_decide_eq_false in He. right. split; [done|].
  destruct (getNeighbors c _) as [nbs|] eqn:Hnbs; simpl in H; [|done].
  destruct (forOf _ _ _) as [st2|] eqn:Hfor; simpl in H; [|done].
  injection H as <-. by exists nbs, st2.
Qed.

Lemma close_basic g0 st cur rest c :
  astar_basic g0 st → cur :: rest ≡ₚ openList st →
  cell (grid st) cur = Some c → isWall c = false → cur ∉ closedSet st →
  astar_basic g0 (close cur rest st).
Proof.
  intros (Hfr & Hnd & Hvc & Hvp & Hfin) Hperm Hcur Hw Hc.
  split; [|split; [|split; [|split]]]; simpl.
  - apply frame_upd_r; [apply static_markVisited|done].
  - apply NoDup_app. split; [done|]. split; [|apply NoDup_singleton].
    intros x Hx. rewrite list_elem_of_singleton. intros ->. by apply Hc, Hvc.
  - intros x. rewrite elem_of_app, list_elem_of_singleton, elem_of_union,
      elem_of_singleton, Hvc. tauto.
  - intros x. rewrite elem_of_app, list_elem_of_singleton.
    intros [Hx| ->]; [by apply Hvp|].
    apply (frame_passable g0 (grid st)); [done|].
    unfold passable. by rewrite Hcur; simpl; rewrite Hw.
  - intros x Hx. destruct (Hfin x) as (n & q & Hn & Hd);
      [rewrite <- Hperm; by right|].
    destruct (decide (cur = x)) as [->|Hne].
    + exists (markVisited n), q. split; [by apply cell_upd_eq|done].
    + exists n, q. split; [by rewrite cell_upd_ne|done].
Qed.

Lemma skip_basic g0 st cur rest :
  astar_basic g0 st → cur :: rest ≡ₚ openList st →
  astar_basic g0 (skip rest st).
Proof.
  intros (Hfr & Hnd & Hvc & Hvp & Hfin) Hperm.
  split; [|split; [|split; [|split]]]; simpl; try done.
  intros x Hx. apply Hfin. rewrite <- Hperm. by right.
Qed.

Lemma body_basic g0 e st st' :
  astar_basic g0 st → body e st = Some (inl st') → astar_basic g0 st'.
Proof.
  intros Hst Hb. apply body_cases in Hb as [[_ [=]]|Hb].
  destruct Hb as (cur & rest & c & Hsort & Hperm & _ & Hcur & Hb).
  destruct Hb as [[_ [= ->]]|(Hw & Hc & [[_ [=]]|(q & Hq & [[_ [=]]|Hb])])].
  { by eapply skip_basic. }
  destruct Hb as (Hne & nbs & st2 & Hnbs & Hfor & [= ->]).
  eapply forOf_relax_basic; [|done]. by eapply close_basic.
Qed.

(** The guard on [Infinity] never fires: the loop returns only with the
    open list empty or with the end cell just closed. *)
Lemma exit_basic g0 e st vis g' :
  astar_basic g0 st → body e st = Some (inr (vis, g')) →
  (openList st = [] ∧ vis = visitedNodesInOrder st ∧ g' = grid st) ∨
  (∃ rest c, e :: rest ≡ₚ openList st ∧
             (∀ w, w ∈ rest → before (grid st) e w) ∧
             cell (grid st) e = Some c ∧
             isWall c = false ∧ (e ∉ closedSet st) ∧
             vis = visitedNodesInOrder (close e rest st) ∧
             g' = grid (close e rest st)).
Proof.
  intros Hst Hb. apply body_cases in Hb as [[? [= -> ->]]|Hb]; [by left|].
  destruct Hb as (cur & rest & c & Hsort & Hperm & Hmin & Hcur & Hb).
  destruct Hb as [[_ [=]]|(Hw & Hc & [[Hinf _]|(q & Hq & [[-> H]|Hb])])].
  - destruct Hst as (_ & _ & _ & _ & Hfin).
    destruct (Hfin cur) as (c' & q & Hc' & Hq); [rewrite <- Hperm; by left|].
    congruence.
  - injection H as -> ->. right. by exists rest, c.
  - by destruct Hb as (_ & ? & ? & _ & _ & [=]).
Qed.

Lemma init_basic g s e st :
  init g s e = Some st → astar_basic g st.
Proof.
  unfold init. destruct (cell g s) as [sn|] eqn:Hs; simpl; [|done].
  destruct (cell g e) as [en|] eqn:He; simpl; [|done].
  intros [= <-]. split; [|split; [|split; [|split]]]; simpl.
  - apply frame_upd. apply static_initStart.
  - apply NoDup_nil_2.
  - intros x. by rewrite elem_of_nil, elem_of_empty.
  - intros x Hx. by apply elem_of_nil in Hx.
  - intros x Hx. apply list_elem_of_singleton in Hx as ->.
    exists (initStart (heuristic sn en) sn), 0%Q.
    split; [by apply cell_upd_eq|done].
Qed.

Lemma reaches_basic g s e st0 st :
  init g s e = Some st0 → reaches (body e) st0 st → astar_basic g st.
Proof.
  intros Hi. induction 1; [by eapply init_basic|by eapply body_basic].
Qed.

End AstarBasic.

(** ** Termination of the A* loop *)

Section AstarTotal.
Import Astar.
Implicit Types (st : state) (v : ref).

Lemma bounded_length (l : list ref) rows cols :
  NoDup l → (∀ p, p ∈ l → p.1 < rows ∧ p.2 < cols) → length l ≤ rows * cols.
Proof.
  intros Hnd Hin.
  transitivity (length (list_prod (seq 0 rows) (seq 0 cols)));
    [|by rewrite length_prod, !length_seq].
  apply submseteq_length, NoDup_submseteq; [done|].
  intros [r c] Hp. apply Hin in Hp. simpl in Hp.
  apply list_elem_of_In, in_prod_iff. rewrite <- !list_elem_of_In, !elem_of_seq.
  lia.
Qed.

Lemma shape_improve t h c n :
  row (improve t h c n) = row n ∧ col (improve t h c n) = col n.
Proof. done. Qed.

Lemma shape_markVisited n :
  row (markVisited n) = row n ∧ col (markVisited n) = col n.
Proof. done. Qed.

Lemma shape_initStart h n :
  row (initStart h n) = row n ∧ col (initStart h n) = col n.
Proof. done. Qed.

Lemma relax_total g0 e cur st v :
  frame g0 (grid st) → inGrid g0 v → inGrid g0 cur → inGrid g0 e →
  ∃ st', relax e cur st v = Some st' ∧ frame g0 (grid st').
Proof.
  intros Hfr Hv Hcur He.
  apply (frame_inGrid _ _ _ Hfr) in Hv as [nb Hv], Hcur as [c Hc], He as [en He].
  unfold relax. rewrite Hv; simpl.
  destruct (_ || _); [by eexists|]. rewrite Hc; simpl.
  destruct (num_ltb _ _); [|by eexists]. rewrite He; simpl.
  eexists. split; [done|]. simpl.
  apply frame_upd_r; [apply static_improve|done].
Qed.

(** What the neighbour loop leaves alone. *)
Lemma forOf_relax_keeps e cur nbs st st' rows cols :
  forOf (relax e cur) nbs st = Some st' →
  visitedNodesInOrder st' = visitedNodesInOrder st ∧
  closedSet st' = closedSet st ∧
  length (openList st') ≤ length (openList st) + length nbs ∧
  (shape (grid st) rows cols → shape (grid st') rows cols).
Proof.
  intros H.
  eapply (forOf_inv (relax e cur)
            (λ done st', visitedNodesInOrder st' = visitedNodesInOrder st ∧
                         closedSet st' = closedSet st ∧
                         length (openList st') ≤ length (openList st) + length done ∧
                         (shape (grid st) rows cols → shape (grid st') rows cols)))
    with (done := []); [|simpl; split_and!; [done|done|lia|done]|exact H].
  clear. intros done x st1 st2 (Hv & Hc & Hl & Hs) H.
  rewrite length_app; simpl.
  apply relax_cases in H as [[-> _]|[[-> _]|H]].
  1,2: split_and!; [done|done|lia|done].
  destruct H as (nb & c & en & q & _ & _ & _ & _ & _ & _ & _ & ->); simpl.
  split_and!; [done|done| |].
  - destruct (bool_decide _); rewrite ?length_app; simpl; lia.
  - intros H. apply shape_upd; [apply shape_improve|auto].
Qed.

Lemma init_is_Some g s e :
  inGrid g s → inGrid g e → ∃ st, init g s e = Some st.
Proof.
  intros [sn Hs] [en He]. unfold init. rewrite Hs, He. simpl. by eexists.
Qed.

Lemma init_fields g s e st :
  init g s e = Some st →
  openList st = [s] ∧ closedSet st = ∅ ∧ visitedNodesInOrder st = [] ∧
  ∃ sn en, cell g s = Some sn ∧ cell g e = Some en ∧
           grid st = upd (initStart (heuristic sn en)) s g.
Proof.
  unfold init. destruct (cell g s) as [sn|]; simpl; [|done].
  destruct (cell g e) as [en|]; simpl; [|done].
  intros [= <-]; simpl. split_and!; try done. by exists sn, en.
Qed.

Lemma body_is_Some g0 e st rows cols :
  shape g0 rows cols → inGrid g0 e →
  astar_basic g0 st → shape (grid st) rows cols →
  is_Some (body e st).
Proof.
  intros Hs0 He (Hfr & Hnd & Hvc & Hvp & Hfin) Hs. unfold body.
  destruct (sort (grid st) (openList st)) as [|cur rest] eqn:Hsort; [done|].
  assert (Hperm : cur :: rest ≡ₚ openList st)
    by (rewrite <- Hsort; apply sort_Permutation).
  destruct (Hfin cur) as (c & q & Hcur & Hq); [rewrite <- Hperm; by left|].
  rewrite Hcur; simpl.
  destruct (isWall c); [done|]. destruct (bool_decide _); [done|].
  destruct (is_Infinity _); [done|]. destruct (bool_decide _); [done|].
  assert (Hin : inGrid g0 cur)
    by (apply (frame_inGrid _ _ _ Hfr); by eexists).
  unfold getNeighbors.
  erewrite (fourNeighbors_at _ rows cols cur); simpl.
  2: { apply shape_upd; [apply shape_markVisited|done]. }
  2: { apply (shape_inGrid _ rows cols); [|by apply (shape_inGrid g0)].
       apply shape_upd; [apply shape_markVisited|done]. }
  2: { by apply (shape_place (grid st) rows cols). }
  destruct (forOf_total (relax e cur) (λ st', frame g0 (grid st'))
              (around rows cols cur)) with (st := close cur rest st)
    as (st2 & -> & _); [| |done].
  - intros v st1 Hst1 Hv. apply relax_total; try done.
    apply (shape_inGrid g0 rows cols); [done|].
    apply (shape_inGrid g0 rows cols) in Hin; [|done].
    apply around_spec in Hv; tauto.
  - simpl. apply frame_upd_r; [apply static_markVisited|done].
Qed.

Lemma body_total g0 e st rows cols :
  shape g0 rows cols → inGrid g0 e →
  astar_basic g0 st ∧ shape (grid st) rows cols →
  match body e st with
  | Some (inl st') =>
      (astar_basic g0 st' ∧ shape (grid st') rows cols) ∧
      5 * (rows * cols - length (visitedNodesInOrder st'))
        + length (openList st')
      < 5 * (rows * cols - length (visitedNodesInOrder st))
        + length (openList st)
  | Some (inr _) => True
  | None => False
  end.
Proof.
  intros Hs0 He [Hst Hs].
  destruct (body_is_Some g0 e st rows cols) as [x Hb]; try done.
  rewrite Hb. destruct x as [st'|r]; [|done].
  pose proof (body_basic _ _ _ _ Hst Hb) as Hst'.
  apply body_cases in Hb as [[_ [=]]|Hb].
  destruct Hb as (cur & rest & c & Hsort & Hperm & _ & Hcur & Hb).
  apply Permutation_length in Hperm as Hlen; simpl in Hlen.
  destruct Hb as [[_ [= ->]]|(Hw & Hc & [[_ [=]]|(q & Hq & [[_ [=]]|Hb])])].
  { simpl. split; [done|lia]. }
  destruct Hb as (Hne & nbs & st2 & Hnbs & Hfor & [= ->]).
  pose proof (forOf_relax_keeps _ _ _ _ _ rows cols Hfor)
    as (Hv & Hcl & Hlo & Hsh); simpl in *.
  assert (Hs1 : shape (upd markVisited cur (grid st)) rows cols)
    by (apply shape_upd; [apply shape_markVisited|done]).
  split; [split; [done|auto]|].
  assert (Hnbs' : length nbs ≤ 4).
  { unfold getNeighbors in Hnbs.
    erewrite (fourNeighbors_at _ rows cols cur) in Hnbs.
    - injection Hnbs as <-. apply around_length.
    - done.
    - apply (shape_inGrid _ rows cols); [done|].
      apply (shape_inGrid (grid st) rows cols); [done|by eexists].
    - by apply (shape_place (grid st) rows cols). }
  assert (length (visitedNodesInOrder st2) ≤ rows * cols).
  { destruct Hst' as (Hfr' & Hnd' & _ & Hvp' & _).
    apply bounded_length; [done|]. intros p Hp.
    apply (shape_inGrid g0); [done|]. apply Hvp' in Hp.
    unfold passable in Hp. unfold inGrid.
    destruct (cell g0 p); [by eexists|done]. }
  rewrite Hv, length_app in *. simpl in *. lia.
Qed.

(** On a well-formed grid the search returns. *)
Lemma astar_returns g s e fuel :
  wf_grid g → inGrid g s → inGrid g e → enoughFuel g ≤ fuel →
  ∃ r, astar fuel g s e = Returns r.
Proof.
  intros Hwf Hs He Hfuel.
  pose proof (wf_grid_shape _ _ Hwf Hs) as Hsh.
  destruct (init_is_Some g s e Hs He) as [st0 Hi].
  unfold astar. rewrite Hi.
  apply (while_total (body e)
           (λ st, astar_basic g st ∧ shape (grid st) (length g) (ncols g))
           (λ st, 5 * (length g * ncols g - length (visitedNodesInOrder st))
                  + length (openList st))).
  - intros st Hst. by apply body_total.
  - split; [by eapply init_basic|].
    apply init_fields in Hi as (_ & _ & _ & sn & en & _ & _ & ->).
    apply shape_upd; [apply shape_initStart|done].
  - apply init_fields in Hi as (-> & _ & -> & _). simpl.
    unfold enoughFuel in Hfuel. lia.
Qed.

End AstarTotal.

(** ** Visitation order of A* *)

(** C7. A run of [astar] lists no cell twice in the visitation order it
    returns, and lists no wall; on a well-formed grid with start and end
    in it, the run returns. *)
Theorem astar_visits_once (g : Grid) (s e : ref) (fuel : nat) :
  (∀ vis g', Astar.astar fuel g s e = Returns (vis, g') →
             NoDup vis ∧ ∀ x, x ∈ vis → passable g x) ∧
  (wf_grid g → inGrid g s → inGrid g e → enoughFuel g ≤ fuel →
   ∃ vis g', Astar.astar fuel g s e = Returns (vis, g')).
Proof.
  split.
  - intros vis g'. unfold Astar.astar.
    destruct (Astar.init g s e) as [st0|] eqn:Hi; [|done].
    apply (while_inv (Astar.body e) (astar_basic g)
             (λ r, NoDup r.1 ∧ ∀ x, x ∈ r.1 → passable g x)).
    + intros st st'. apply body_basic.
    + intros st [vis' g''] Hst Hb. simpl.
      apply exit_basic with (g0 := g) in Hb as [(_ & -> & _)|Hb]; [| |done].
      * destruct Hst as (_ & ? & _ & ? & _). done.
      * destruct Hb as (rest & c & Hperm & _ & Hc & Hw & Hcl & -> & _).
        destruct (close_basic g st e rest c) as (_ & ? & _ & ? & _); done.
    + by eapply init_basic.
  - intros Hwf Hs He Hfuel.
    destruct (astar_returns g s e fuel) as [[vis g'] Hr]; try done.
    by exists vis, g'.
Qed.


(** ** Predecessor links of A* *)

Section AstarLinks.
Import Astar.
Implicit Types (st : state) (v : ref).

Lemma prevNull_cell g p n :
  prevNull g → cell g p = Some n → previousNode n = None.
Proof.
  unfold prevNull, cell. intros H Hn.
  destruct (g !! p.1) as [rw|] eqn:Hr; simpl in Hn; [|done].
  rewrite Forall_lookup in H. specialize (H _ _ Hr).
  rewrite Forall_lookup in H. by eapply H.
Qed.

(** All cells of a chain but its last are closed. *)
Lemma chain_closed s st x l y :
  astar_links s st → chain (grid st) x l → y ∈ l →
  y = x ∨ y ∈ closedSet st.
Proof.
  intros (He & _) Hl Hy.
  destruct (chain_targets _ _ _ _ Hl Hy) as [->|(z & m & Hz & Hm)]; [by left|].
  right. by destruct (He z m y Hz Hm).
Qed.

Lemma relax_links s e cur st v st' :
  astar_links s st → cur ∈ closedSet st →
  relax e cur st v = Some st' → astar_links s st'.
Proof.
  intros Hst Hcur H.
  apply relax_cases in H as [[-> _]|[[-> _]|H]]; [done|done|].
  destruct H as (nb & c & en & q & Hv & Hc & Hw & Hcc & He & Hq & Hlt & ->).
  pose proof Hst as (Hlk & Hch & Hs).
  assert (Hopen : ∀ x, x ∈ openList st →
    x ∈ (if bool_decide (v ∈ openList st) then openList st
         else openList st ++ [v])).
  { intros x Hx. destruct (bool_decide _); [done|]. apply elem_of_app; auto. }
  assert (Hopen' : ∀ x,
    x ∈ (if bool_decide (v ∈ openList st) then openList st
         else openList st ++ [v]) → x = v ∨ x ∈ openList st).
  { intros x. destruct (bool_decide _); [auto|].
    rewrite elem_of_app, list_elem_of_singleton. tauto. }
  split; [|split]; simpl.
  - intros x n y. rewrite cell_upd.
    destruct (decide (v = x)) as [->|Hne].
    + rewrite Hv. simpl. intros [= <-]. simpl. intros [= <-].
      split; [done|]. split; [|done]. right.
      destruct (bool_decide (x ∈ openList st)) eqn:Hb.
      * by apply bool_decide_eq_true in Hb.
      * apply elem_of_app. right. by apply list_elem_of_singleton.
    + intros Hn Hp. destruct (Hlk x n y Hn Hp) as (? & [?|?] & ?); auto.
  - assert (Hframe : ∀ x l, x ≠ v → chain (grid st) x l →
      chain (upd (improve (Fin q) (heuristic nb en) cur) v (grid st)) x l).
    { intros x l Hx Hl. apply chain_frame; [done|]. intros Hin.
      destruct (chain_closed s st x l v Hst Hl Hin); congruence. }
    intros x Hx. destruct (decide (x = v)) as [->|Hne].
    + destruct (Hch cur) as (l & Hl & Hhd); [by left|].
      exists (l ++ [v]). split.
      * eapply chain_link; [by apply cell_upd_eq|done|].
        apply Hframe; [congruence|done].
      * destruct l; [by apply chain_last in Hl|done].
    + destruct (Hch x) as (l & Hl & Hhd).
      { destruct Hx as [?|Hx]; [by left|].
        apply Hopen' in Hx as [?|?]; [done|by right]. }
      exists l. split; [by apply Hframe|done].
  - left. destruct Hs as [?|[Hs _]]; [done|]. rewrite Hs in Hcur.
    by apply elem_of_empty in Hcur.
Qed.

Lemma forOf_relax_links s e cur nbs st st' :
  astar_links s st → cur ∈ closedSet st →
  forOf (relax e cur) nbs st = Some st' → astar_links s st'.
Proof.
  intros Hst Hcur H.
  eapply (forOf_inv (relax e cur)
            (λ _ st', astar_links s st' ∧ cur ∈ closedSet st'))
    with (done := []); [|split; [exact Hst|exact Hcur]|exact H].
  intros _ x st1 st2 [H1 H2] Hx. split; [by eapply relax_links|].
  by destruct (forOf_relax_keeps e cur [x] st1 st2 0 0
    ltac:(simpl; by rewrite Hx)) as (_ & -> & _).
Qed.

Lemma close_links s st cur rest :
  astar_links s st → cur :: rest ≡ₚ openList st →
  astar_links s (close cur rest st).
Proof.
  intros (Hlk & Hch & Hs) Hperm.
  assert (Hopen : ∀ x, x ∈ closedSet st ∨ x ∈ openList st →
                       x ∈ {[cur]} ∪ closedSet st ∨ x ∈ rest).
  { intros x. rewrite <- Hperm, elem_of_cons, elem_of_union, elem_of_singleton.
    tauto. }
  assert (Hopen' : ∀ x, x ∈ {[cur]} ∪ closedSet st ∨ x ∈ rest →
                        x ∈ closedSet st ∨ x ∈ openList st).
  { intros x. rewrite <- Hperm, elem_of_cons, elem_of_union, elem_of_singleton.
    tauto. }
  split; [|split]; simpl.
  - intros x n y. rewrite cell_upd.
    destruct (decide (cur = x)) as [->|Hne].
    + destruct (cell (grid st) x) as [m|] eqn:Hm; simpl; [|done].
      intros [= <-]. simpl. intros Hp.
      destruct (Hlk x m y Hm Hp) as (? & ? & ?).
      split; [by apply elem_of_union_r|].
      split; [left; apply elem_of_union_l; by apply elem_of_singleton|done].
    + intros Hn Hp. destruct (Hlk x n y Hn Hp) as (? & ? & ?).
      split; [by apply elem_of_union_r|]. auto.
  - intros x Hx. destruct (Hch x (Hopen' x Hx)) as (l & Hl & Hhd).
    exists l. split; [|done]. by apply chain_upd.
  - left. destruct Hs as [?|[_ Hs]]; [by apply elem_of_union_r|].
    rewrite (Hs cur); [apply elem_of_union_l; by apply elem_of_singleton|].
    rewrite <- Hperm. by left.
Qed.

Lemma skip_links s st cur rest c :
  astar_links s st → cur :: rest ≡ₚ openList st →
  cell (grid st) cur = Some c → isWall c = true ∨ cur ∈ closedSet st →
  astar_links s (skip rest st).
Proof.
  intros (Hlk & Hch & Hs) Hperm Hcur Hskip.
  split; [|split]; simpl.
  - intros x n y Hn Hp. destruct (Hlk x n y Hn Hp) as (? & Hx & ?).
    split; [done|]. split; [|done].
    destruct Hx as [?|Hx]; [by left|].
    rewrite <- Hperm in Hx. apply elem_of_cons in Hx as [->|?]; [|by right].
    destruct Hskip as [?|?]; [congruence|by left].
  - intros x Hx. apply Hch. destruct Hx as [?|?]; [by left|].
    right. rewrite <- Hperm. by right.
  - destruct Hs as [?|[? Hs]]; [by left|]. right. split; [done|].
    intros x Hx. apply Hs. rewrite <- Hperm. by right.
Qed.

Lemma body_links s e st st' :
  astar_links s st ∧ e ∉ closedSet st → body e st = Some (inl st') →
  astar_links s st' ∧ e ∉ closedSet st'.
Proof.
  intros [Hst He] Hb. apply body_cases in Hb as [[_ [=]]|Hb].
  destruct Hb as (cur & rest & c & Hsort & Hperm & _ & Hcur & Hb).
  destruct Hb as [[Hskip [= ->]]|(Hw & Hc & [[_ [=]]|(q & Hq & [[_ [=]]|Hb])])].
  { split; [by eapply skip_links|done]. }
  destruct Hb as (Hne & nbs & st2 & Hnbs & Hfor & [= ->]).
  destruct (forOf_relax_keeps _ _ _ _ _ 0 0 Hfor) as (_ & Hcl & _).
  split.
  - eapply forOf_relax_links; [|
      |exact Hfor]; [by eapply close_links|].
    simpl. apply elem_of_union_l. by apply elem_of_singleton.
  - rewrite Hcl. simpl. rewrite elem_of_union, elem_of_singleton.
    intros [?|?]; congruence.
Qed.

Lemma init_links g s e st :
  prevNull g → init g s e = Some st →
  astar_links s st ∧ e ∉ closedSet st.
Proof.
  intros Hnull Hi.
  apply init_fields in Hi as (HO & HC & _ & sn & en & Hs & He & Hg).
  split; [|rewrite HC; apply not_elem_of_empty].
  split; [|split]; rewrite ?HO, ?HC, ?Hg.
  - intros x n y. rewrite cell_upd. destruct (decide (s = x)) as [->|Hne].
    + rewrite Hs. simpl. intros [= <-]. simpl.
      by rewrite (prevNull_cell g x sn).
    + intros Hn. by rewrite (prevNull_cell g x n).
  - intros x [Hx|Hx]; [by apply elem_of_empty in Hx|].
    apply list_elem_of_singleton in Hx as ->.
    exists [s]. split; [|done].
    eapply chain_root; [by apply cell_upd_eq|]. simpl.
    by apply (prevNull_cell g s).
  - right. split; [done|]. intros x. by rewrite list_elem_of_singleton.
Qed.

(** Every cell has a chain in a state of the loop. *)
Lemma links_chain s st x :
  astar_links s st → inGrid (grid st) x → ∃ l, chain (grid st) x l.
Proof.
  intros (Hlk & Hch & _) [n Hn].
  destruct (previousNode n) as [y|] eqn:Hp.
  - destruct (Hlk x n y Hn Hp) as (_ & Hx & _).
    destruct (Hch x Hx) as (l & Hl & _). by exists l.
  - exists [x]. by eapply chain_root.
Qed.

(** What a returning run leaves behind. *)
Lemma astar_links_post g s e fuel vis g' :
  prevNull g → astar fuel g s e = Returns (vis, g') →
  (∀ x, inGrid g' x → ∃ l, chain g' x l) ∧
  (e ∈ vis → ∃ l, chain g' e l ∧ head l = Some s) ∧
  (e ∉ vis → ∃ n, cell g' e = Some n ∧ previousNode n = None).
Proof.
  intros Hnull. unfold astar.
  destruct (init g s e) as [st0|] eqn:Hi; [|done].
  apply (while_inv (body e)
           (λ st, astar_basic g st ∧ astar_links s st ∧ e ∉ closedSet st)
           (λ r, (∀ x, inGrid r.2 x → ∃ l, chain r.2 x l) ∧
                 (e ∈ r.1 → ∃ l, chain r.2 e l ∧ head l = Some s) ∧
                 (e ∉ r.1 → ∃ n, cell r.2 e = Some n ∧ previousNode n = None))).
  - intros st st' (Hb & Hl & He) Hbody.
    split; [by eapply body_basic|]. by eapply body_links.
  - intros st [vis' g''] (Hb & Hl & He) Hbody. simpl.
    apply exit_basic with (g0 := g) in Hbody as [(HO & -> & ->)|Hx]; [| |done].
    + split; [intros x; by apply (links_chain s)|]. split.
      * intros Hin. destruct Hb as (_ & _ & Hvc & _). by apply Hvc in Hin.
      * intros _. pose proof Hl as (Hlk & _ & _).
        apply init_fields in Hi as (_ & _ & _ & _ & en & _ & Hen & _).
        destruct (frame_cell g (grid st) e en) as (n & Hn & _);
          [by destruct Hb|done|].
        exists n. split; [done|].
        destruct (previousNode n) as [y|] eqn:Hp; [|done].
        destruct (Hlk e n y Hn Hp) as (_ & [?|Hx] & _); [done|].
        rewrite HO in Hx. by apply elem_of_nil in Hx.
    + destruct Hx as (rest & c & Hperm & _ & Hc & Hw & Hcl & -> & ->).
      pose proof (close_links s st e rest Hl Hperm) as Hl'.
      split; [intros x; by apply (links_chain s)|]. split.
      * intros _. destruct Hl' as (_ & Hch & _). apply Hch. left.
        simpl. apply elem_of_union_l. by apply elem_of_singleton.
      * simpl. rewrite elem_of_app, list_elem_of_singleton. tauto.
  - split; [by eapply init_basic|]. by eapply init_links.
Qed.

End AstarLinks.

(** ** The BFS loop *)

Section BfsLinks.
Import Bfs.
Implicit Types (st : state) (v : ref).

Lemma chain_ext g g' x l :
  chain g x l → (∀ y, y ∈ l → cell g' y = cell g y) → chain g' x l.
Proof.
  induction 1 as [x n Hn Hp|x n y l Hn Hp Hy IH]; intros Hsame.
  - eapply chain_root; [|done]. rewrite Hsame; [done|by left].
  - eapply chain_link; [|done|].
    + rewrite Hsame; [done|]. apply elem_of_app. right. by left.
    + apply IH. intros z Hz. apply Hsame, elem_of_app. by left.
Qed.

Lemma static_discover c n : static (discover c n) = static n.
Proof. done. Qed.
Lemma static_bfs_markVisited n : static (Bfs.markVisited n) = static n.
Proof. done. Qed.

(** The enqueueing loop in closed form. *)
Lemma forOf_enqueue cur nbs st :
  ∃ st', forOf (enqueue cur) nbs st = Some st' ∧
         queue st' = queue st ++ nbs ∧
         visitedNodesInOrder st' = visitedNodesInOrder st ∧
         ∀ x, cell (grid st') x =
              if decide (x ∈ nbs) then discover cur <$> cell (grid st) x
              else cell (grid st) x.
Proof.
  revert st. induction nbs as [|v nbs IH]; intros st; simpl.
  - exists st. split_and!; try done. by rewrite app_nil_r.
  - destruct (IH (mkState (upd (discover cur) v (grid st)) (queue st ++ [v])
                          (visitedNodesInOrder st)))
      as (st' & Hfor & Hq & Hv & Hc). simpl in *.
    exists st'. split_and!; try done.
    + by rewrite Hq, <- app_assoc.
    + intros x. rewrite Hc, cell_upd.
      destruct (decide (v = x)) as [Heq|Hne].
      * subst x. rewrite (decide_True (P := v ∈ v :: nbs)) by (by left).
        destruct (decide (v ∈ nbs)); destruct (cell (grid st) v); done.
      * destruct (decide (x ∈ nbs)) as [Hin|Hin].
        -- by rewrite decide_True by (by right).
        -- rewrite decide_False; [done|]. rewrite elem_of_cons.
           intros [?|?]; congruence.
Qed.

(** The ways an iteration of the main loop ends. *)
Lemma bfs_body_cases e st out :
  body e st = Some out →
  (queue st = [] ∧ out = inr (visitedNodesInOrder st, grid st)) ∨
  ∃ cur rest c,
    queue st = cur :: rest ∧ cell (grid st) cur = Some c ∧
    ((isWall c = true ∧
      out = inl (mkState (grid st) rest (visitedNodesInOrder st))) ∨
     (isWall c = false ∧
      ((cur = e ∧ out = inr (visitedNodesInOrder st ++ [cur], grid st)) ∨
       (cur ≠ e ∧ ∃ nbs st',
          getUnvisitedNeighbors c (grid st) = Some nbs ∧
          out = inl st' ∧
          queue st' = rest ++ nbs ∧
          visitedNodesInOrder st' = visitedNodesInOrder st ++ [cur] ∧
          ∀ x, cell (grid st') x =
               if decide (x ∈ nbs) then discover cur <$> cell (grid st) x
               else cell (grid st) x)))).
Proof.
  unfold body. destruct (queue st) as [|cur rest] eqn:Hq.
  { intros [= <-]. by left. }
  intros H. right. exists cur, rest.
  destruct (cell (grid st) cur) as [c|] eqn:Hcur; simpl in H; [|done].
  exists c. split; [done|]. split; [done|].
  destruct (isWall c) eqn:Hw; [injection H as <-; left; auto|].
  right. split; [done|].
  destruct (bool_decide (cur = e)) eqn:He.
  { apply bool_decide_eq_true in He. injection H as <-; left; auto. }
  apply bool_decide_eq_false in He. right. split; [done|].
  destruct (getUnvisitedNeighbors c _) as [nbs|] eqn:Hnbs; simpl in H; [|done].
  destruct (forOf_enqueue cur nbs
              (mkState (grid st) rest (visitedNodesInOrder st ++ [cur])))
    as (st' & Hfor & Hq' & Hv' & Hc').
  rewrite Hfor in H. simpl in H. injection H as <-.
  by exists nbs, st'.
Qed.

Lemma neighbors_unvisitedOpen c g nbs v :
  getUnvisitedNeighbors c g = Some nbs → v ∈ nbs →
  ∃ n, cell g v = Some n ∧ isVisited n = false ∧ isWall n = false.
Proof.
  unfold getUnvisitedNeighbors.
  destruct (fourNeighbors c g) as [l|]; simpl; [|done].
  intros [= <-]. rewrite list_elem_of_filter. intros [Hv _].
  unfold unvisitedOpen in Hv. destruct (cell g v) as [n|]; [|done].
  exists n. split; [done|].
  destruct (isVisited n), (isWall n); simpl in Hv; done.
Qed.

Lemma bfs_body_links g0 s e st st' :
  bfs_links g0 s st ∧ e ∉ visitedNodesInOrder st →
  body e st = Some (inl st') →
  bfs_links g0 s st' ∧ e ∉ visitedNodesInOrder st'.
Proof.
  intros [(Hfr & Hvp & Hmk & Hlk & Hch) He] Hb.
  apply bfs_body_cases in Hb as [[_ [=]]|Hb].
  destruct Hb as (cur & rest & c & Hq & Hcur & Hb).
  destruct Hb as [[Hw [= ->]]|(Hw & [[_ [=]]|Hb])]; simpl.
  { split; [|done]. split_and!; simpl; try done.
    - intros x Hx. apply Hmk. rewrite Hq. destruct Hx; [by left|].
      right. by right.
    - intros x n y Hn Hp. destruct (Hlk x n y Hn Hp) as (? & Hx & ?).
      split_and!; try done. destruct Hx as [?|Hx]; [by left|].
      rewrite Hq in Hx. apply elem_of_cons in Hx as [->|?]; [|by right].
      congruence.
    - intros x Hx. apply Hch. rewrite Hq. destruct Hx; [by left|].
      right. by right. }
  destruct Hb as (Hne & nbs & st2 & Hnbs & [= <-] & Hq' & Hv' & Hc').
  assert (Hfresh : ∀ v, v ∈ nbs →
    ¬ (v ∈ visitedNodesInOrder st ∨ v ∈ queue st)).
  { intros v Hv Hin. apply Hmk in Hin. unfold marked in Hin.
    destruct (neighbors_unvisitedOpen _ _ _ _ Hnbs Hv) as (n & Hn & Hm & _).
    rewrite Hn in Hin. simpl in Hin. congruence. }
  assert (Hold : ∀ x, x ∈ visitedNodesInOrder st ∨ x ∈ queue st →
                      cell (grid st') x = cell (grid st) x).
  { intros x Hx. rewrite Hc'. destruct (decide (x ∈ nbs)); [|done].
    by destruct (Hfresh x). }
  assert (Hchain : ∀ x l, x ∈ visitedNodesInOrder st ∨ x ∈ queue st →
                          chain (grid st) x l → chain (grid st') x l).
  { intros x l Hx Hl. eapply chain_ext; [done|].
    intros y Hy. apply Hold.
    destruct (chain_targets _ _ _ _ Hl Hy) as [->|(z & m & Hz & Hm)]; [done|].
    left. by destruct (Hlk z m y Hz Hm). }
  assert (Hcurq : cur ∈ queue st) by (rewrite Hq; by left).
  split; [|rewrite Hv', elem_of_app, list_elem_of_singleton;
           intros [?|?]; congruence].
  split_and!.
  - intros p. rewrite Hc', Hfr. destruct (decide (p ∈ nbs)); [|done].
    by destruct (cell (grid st) p).
  - intros x. rewrite Hv', elem_of_app, list_elem_of_singleton.
    intros [?| ->]; [by apply Hvp|].
    apply (frame_passable g0 (grid st)); [done|].
    unfold passable. by rewrite Hcur; simpl; rewrite Hw.
  - intros x. rewrite Hv', Hq', !elem_of_app, list_elem_of_singleton.
    intros Hx. unfold marked. rewrite Hc'.
    destruct (decide (x ∈ nbs)) as [Hin|Hin].
    + destruct (neighbors_unvisitedOpen _ _ _ _ Hnbs Hin) as (n & -> & _).
      done.
    + apply Hmk. rewrite Hq, elem_of_cons. tauto.
  - intros x n y. rewrite Hc', Hv', Hq', !elem_of_app, !list_elem_of_singleton.
    destruct (decide (x ∈ nbs)) as [Hin|Hin].
    + destruct (neighbors_unvisitedOpen _ _ _ _ Hnbs Hin) as (m & -> & _ & Hwm).
      simpl. intros [= <-]. simpl. intros [= <-]. auto.
    + intros Hn Hp. destruct (Hlk x n y Hn Hp) as (? & Hx & ?).
      rewrite Hq, elem_of_cons in Hx. tauto.
  - intros x. rewrite Hv', Hq', !elem_of_app, list_elem_of_singleton.
    intros Hx. destruct (decide (x ∈ nbs)) as [Hin|Hin].
    + destruct (Hch cur) as (l & Hl & Hhd); [by right|].
      exists (l ++ [x]). split.
      * destruct (neighbors_unvisitedOpen _ _ _ _ Hnbs Hin) as (m & Hm & _).
        eapply chain_link; [by rewrite Hc', decide_True, Hm|done|].
        apply Hchain; [by right|done].
      * destruct l; [by apply chain_last in Hl|done].
    + destruct (Hch x) as (l & Hl & Hhd).
      { rewrite Hq, elem_of_cons. tauto. }
      exists l. split; [|done]. apply Hchain; [|done].
      rewrite Hq, elem_of_cons. tauto.
Qed.

Lemma bfs_init_fields g s st :
  init g s = Some st →
  queue st = [s] ∧ visitedNodesInOrder st = [] ∧
  grid st = upd Bfs.markVisited s g ∧ inGrid g s.
Proof.
  unfold init. destruct (cell g s) as [sn|] eqn:Hs; simpl; [|done].
  intros [= <-]; simpl. split_and!; try done. by eexists.
Qed.

Lemma bfs_init_links g s e st :
  prevNull g → init g s = Some st →
  bfs_links g s st ∧ e ∉ visitedNodesInOrder st.
Proof.
  intros Hnull Hi.
  apply bfs_init_fields in Hi as (HQ & HV & Hg & [sn Hs]).
  split; [|rewrite HV; apply not_elem_of_nil].
  split_and!; rewrite ?HQ, ?HV, ?Hg.
  - apply frame_upd, static_bfs_markVisited.
  - intros x Hx. by apply elem_of_nil in Hx.
  - intros x [Hx|Hx]; [by apply elem_of_nil in Hx|].
    apply list_elem_of_singleton in Hx as ->. unfold marked.
    by rewrite (cell_upd_eq _ _ _ sn).
  - intros x n y. rewrite cell_upd. destruct (decide (s = x)) as [->|Hne].
    + rewrite Hs. simpl. intros [= <-]. simpl.
      by rewrite (prevNull_cell g x sn).
    + intros Hn. by rewrite (prevNull_cell g x n).
  - intros x [Hx|Hx]; [by apply elem_of_nil in Hx|].
    apply list_elem_of_singleton in Hx as ->.
    exists [s]. split; [|done].
    eapply chain_root; [by apply cell_upd_eq|]. simpl.
    by apply (prevNull_cell g s).
Qed.

Lemma bfs_links_chain g0 s st x :
  bfs_links g0 s st → inGrid (grid st) x → ∃ l, chain (grid st) x l.
Proof.
  intros (_ & _ & _ & Hlk & Hch) [n Hn].
  destruct (previousNode n) as [y|] eqn:Hp.
  - destruct (Hlk x n y Hn Hp) as (_ & Hx & _).
    destruct (Hch x Hx) as (l & Hl & _). by exists l.
  - exists [x]. by eapply chain_root.
Qed.

Lemma bfs_body_exit e st vis g' :
  body e st = Some (inr (vis, g')) →
  g' = grid st ∧
  ((queue st = [] ∧ vis = visitedNodesInOrder st) ∨
   (∃ rest c, queue st = e :: rest ∧ cell (grid st) e = Some c ∧
              isWall c = false ∧ vis = visitedNodesInOrder st ++ [e])).
Proof.
  intros Hb. apply bfs_body_cases in Hb as [[HQ [= -> ->]]|Hb]; [by auto|].
  destruct Hb as (cur & rest & c & Hq & Hcur & Hb).
  destruct Hb as [[_ [=]]|(Hw & [[-> [= -> ->]]|Hb])].
  - split; [done|]. right. by exists rest, c.
  - by destruct Hb as (_ & ? & ? & _ & [=] & _).
Qed.

(** What a returning run leaves behind. *)
Lemma bfs_links_post g s e fuel vis g' :
  prevNull g → bfs fuel g s e = Returns (vis, g') →
  frame g g' ∧
  (∀ x, inGrid g' x → ∃ l, chain g' x l) ∧
  (e ∈ vis → ∃ l, chain g' e l ∧ head l = Some s) ∧
  (e ∉ vis → ∀ n, cell g' e = Some n → previousNode n = None).
Proof.
  intros Hnull. unfold bfs.
  destruct (init g s) as [st0|] eqn:Hi; [|done].
  apply (while_inv (body e)
           (λ st, bfs_links g s st ∧ e ∉ visitedNodesInOrder st)
           (λ r, frame g r.2 ∧
                 (∀ x, inGrid r.2 x → ∃ l, chain r.2 x l) ∧
                 (e ∈ r.1 → ∃ l, chain r.2 e l ∧ head l = Some s) ∧
                 (e ∉ r.1 → ∀ n, cell r.2 e = Some n → previousNode n = None))).
  - intros st st'. apply bfs_body_links.
  - intros st [vis' g''] [Hl He] Hbody. simpl.
    pose proof Hl as (Hfr & _ & _ & Hlk & Hch).
    apply bfs_body_exit in Hbody as [-> Hx].
    split; [done|]. split; [intros x; apply (bfs_links_chain g s st x Hl)|].
    destruct Hx as [[HQ ->]|(rest & c & Hq & _ & _ & ->)].
    + split; [done|]. intros _ n Hn.
      destruct (previousNode n) as [y|] eqn:Hp; [|done].
      destruct (Hlk e n y Hn Hp) as (_ & [?|Hx] & _); [done|].
      rewrite HQ in Hx. by apply elem_of_nil in Hx.
    + split; [|rewrite elem_of_app, list_elem_of_singleton; tauto].
      intros _. apply Hch. right. rewrite Hq. by left.
  - by apply bfs_init_links.
Qed.

End BfsLinks.

(** ** Termination of the BFS loop *)

Section BfsTotal.
Import Bfs.
Implicit Types (st : state) (v : ref).

Lemma fourNeighbors_NoDup n g l : fourNeighbors n g = Some l → NoDup l.
Proof.
  unfold fourNeighbors, pushIf, slot.
  destruct (Nat.ltb_spec 0 (row n)) as [Hr|Hr];
    [destruct (cell g (row n - 1, col n)); simpl; [|done]|simpl].
  all: destruct (_ <? _)%Z;
    [destruct (cell g (row n + 1, col n)); simpl; [|done]|simpl].
  all: destruct (Nat.ltb_spec 0 (col n)) as [Hc|Hc];
    [destruct (cell g (row n, col n - 1)); simpl; [|done]|simpl].
  all: destruct (width g) as [w|]; simpl; [|done].
  all: destruct (_ <? _)%Z;
    [destruct (cell g (row n, col n + 1)); simpl; [|done]|simpl].
  all: intros [= <-].
  all: repeat (apply NoDup_cons; split;
               [rewrite ?elem_of_cons, ?elem_of_nil; intros ?;
                destruct_or?; simplify_eq; lia|]).
  all: apply NoDup_nil_2.
Qed.

Lemma neighbors_NoDup c g nbs :
  getUnvisitedNeighbors c g = Some nbs → NoDup nbs.
Proof.
  unfold getUnvisitedNeighbors.
  destruct (fourNeighbors c g) as [l|] eqn:Hl; simpl; [|done].
  intros [= <-]. apply NoDup_filter. by eapply fourNeighbors_NoDup.
Qed.

Lemma bfs_body_order e st st' :
  bfs_order st → body e st = Some (inl st') → bfs_order st'.
Proof.
  intros [Hmk Hnd] Hb. apply bfs_body_cases in Hb as [[_ [=]]|Hb].
  destruct Hb as (cur & rest & c & Hq & Hcur & Hb).
  rewrite Hq in Hnd.
  destruct Hb as [[Hw [= ->]]|(Hw & [[_ [=]]|Hb])]; simpl.
  { split; simpl.
    - intros x Hx. apply Hmk. rewrite Hq, elem_of_cons. tauto.
    - apply NoDup_app in Hnd as (? & Hd & Hr). apply NoDup_cons in Hr as [_ ?].
      apply NoDup_app. split_and!; try done.
      intros x Hx Hx'. apply (Hd x Hx). by right. }
  destruct Hb as (Hne & nbs & st2 & Hnbs & [= <-] & Hq' & Hv' & Hc').
  assert (Hfresh : ∀ v, v ∈ nbs →
    ¬ (v ∈ visitedNodesInOrder st ∨ v ∈ queue st)).
  { intros v Hv Hin. apply Hmk in Hin. unfold marked in Hin.
    destruct (neighbors_unvisitedOpen _ _ _ _ Hnbs Hv) as (n & Hn & Hm & _).
    rewrite Hn in Hin. simpl in Hin. congruence. }
  split.
  - intros x. rewrite Hv', Hq', !elem_of_app, list_elem_of_singleton.
    intros Hx. unfold marked. rewrite Hc'.
    destruct (decide (x ∈ nbs)) as [Hin|Hin].
    + destruct (neighbors_unvisitedOpen _ _ _ _ Hnbs Hin) as (n & -> & _).
      done.
    + apply Hmk. rewrite Hq, elem_of_cons. tauto.
  - rewrite Hv', Hq'.
    replace ((visitedNodesInOrder st ++ [cur]) ++ rest ++ nbs)
      with ((visitedNodesInOrder st ++ cur :: rest) ++ nbs)
      by (by rewrite <- !app_assoc).
    apply NoDup_app. split_and!; [done| |by eapply neighbors_NoDup].
    intros x Hx Hx'. apply (Hfresh x Hx'). rewrite Hq.
    rewrite elem_of_app in Hx. done.
Qed.

Lemma bfs_init_order g s st : init g s = Some st → bfs_order st.
Proof.
  intros Hi. pose proof Hi as (HQ & HV & Hg & [sn Hs])%bfs_init_fields.
  split; rewrite HQ, HV; simpl.
  - intros x [Hx|Hx]; [by apply elem_of_nil in Hx|].
    apply list_elem_of_singleton in Hx as ->. unfold marked.
    by rewrite Hg, (cell_upd_eq _ _ _ sn).
  - apply NoDup_singleton.
Qed.

Lemma shape_discover c n :
  row (discover c n) = row n ∧ col (discover c n) = col n.
Proof. done. Qed.

Lemma forOf_enqueue_shape cur nbs st st' rows cols :
  forOf (enqueue cur) nbs st = Some st' →
  shape (grid st) rows cols → shape (grid st') rows cols.
Proof.
  revert st. induction nbs as [|v nbs IH]; intros st; simpl.
  - by intros [= <-].
  - intros H Hs. apply IH in H; [done|]. simpl.
    apply shape_upd; [apply shape_discover|done].
Qed.

Lemma bfs_body_total e st rows cols :
  bfs_order st ∧ shape (grid st) rows cols →
  match body e st with
  | Some (inl st') =>
      (bfs_order st' ∧ shape (grid st') rows cols) ∧
      5 * (rows * cols - length (visitedNodesInOrder st'))
        + length (queue st')
      < 5 * (rows * cols - length (visitedNodesInOrder st))
        + length (queue st)
  | Some (inr _) => True
  | None => False
  end.
Proof.
  intros [Hst Hs].
  assert (Hsome : is_Some (body e st)).
  { unfold body. destruct (queue st) as [|cur rest] eqn:Hq; [done|].
    destruct Hst as [Hmk _].
    assert (Hm : marked (grid st) cur) by (apply Hmk; right; rewrite Hq; by left).
    unfold marked in Hm.
    destruct (cell (grid st) cur) as [c|] eqn:Hcur; [|done].
    simpl. destruct (isWall c); [done|]. destruct (bool_decide _); [done|].
    unfold getUnvisitedNeighbors.
    rewrite (fourNeighbors_shape _ rows cols cur) by done. simpl.
    by destruct (forOf_enqueue cur
      (filter (λ p, Is_true (unvisitedOpen (grid st) p)) (around rows cols cur))
      (mkState (grid st) rest (visitedNodesInOrder st ++ [cur])))
      as (st' & -> & _). }
  destruct Hsome as [out Hb]. rewrite Hb. destruct out as [st'|r]; [|done].
  pose proof (bfs_body_order _ _ _ Hst Hb) as Hst'.
  split; [split; [done|]|].
  - revert Hb. unfold body. destruct (queue st) as [|cur rest]; [done|].
    destruct (cell (grid st) cur) as [c|]; simpl; [|done].
    destruct (isWall c); [by intros [= <-]|].
    destruct (bool_decide _); [done|].
    destruct (getUnvisitedNeighbors _ _) as [nbs|]; simpl; [|done].
    destruct (forOf _ _ _) as [st2|] eqn:Hfor; simpl; [|done].
    intros [= <-]. by eapply forOf_enqueue_shape.
  - assert (Hlen : length (visitedNodesInOrder st') ≤ rows * cols).
    { destruct Hst' as [Hmk' Hnd']. apply NoDup_app in Hnd' as (Hnd' & _ & _).
      apply bounded_length; [done|]. intros p Hp.
      apply (shape_inGrid (grid st') rows cols); [|].
      - revert Hb. unfold body. destruct (queue st) as [|cur rest]; [done|].
        destruct (cell (grid st) cur) as [c|]; simpl; [|done].
        destruct (isWall c); [by intros [= <-]|].
        destruct (bool_decide _); [done|].
        destruct (getUnvisitedNeighbors _ _) as [nbs|]; simpl; [|done].
        destruct (forOf _ _ _) as [st2|] eqn:Hfor; simpl; [|done].
        intros [= <-]. by eapply forOf_enqueue_shape.
      - specialize (Hmk' p (or_introl Hp)). unfold marked in Hmk'.
        unfold inGrid. destruct (cell (grid st') p); [by eexists|done]. }
    apply bfs_body_cases in Hb as [[_ [=]]|Hb].
    destruct Hb as (cur & rest & c & Hq & Hcur & Hb).
    destruct Hb as [[Hw [= ->]]|(Hw & [[_ [=]]|Hb])]; simpl.
    { rewrite Hq. simpl. lia. }
    destruct Hb as (Hne & nbs & st2 & Hnbs & [= <-] & Hq' & Hv' & Hc').
    assert (length nbs ≤ 4).
    { unfold getUnvisitedNeighbors in Hnbs.
      rewrite (fourNeighbors_shape _ rows cols cur) in Hnbs by done.
      injection Hnbs as <-. etransitivity; [apply length_filter|].
      apply around_length. }
    rewrite Hv', Hq', Hq, !length_app in *. simpl in *. lia.
Qed.

(** On a well-formed grid the search returns. *)
Lemma bfs_returns g s e fuel :
  wf_grid g → inGrid g s → enoughFuel g ≤ fuel →
  ∃ r, bfs fuel g s e = Returns r.
Proof.
  intros Hwf Hs Hfuel.
  pose proof (wf_grid_shape _ _ Hwf Hs) as Hsh.
  destruct Hs as [sn Hs].
  assert (Hi : init g s = Some (mkState (upd markVisited s g) [s] []))
    by (unfold init; by rewrite Hs).
  unfold bfs. rewrite Hi.
  apply (while_total (body e)
           (λ st, bfs_order st ∧ shape (grid st) (length g) (ncols g))
           (λ st, 5 * (length g * ncols g - length (visitedNodesInOrder st))
                  + length (queue st))).
  - intros st Hst. by apply bfs_body_total.
  - split; [by eapply bfs_init_order|]. simpl.
    by apply shape_upd.
  - simpl. unfold enoughFuel in Hfuel. lia.
Qed.

End BfsTotal.

(** ** Path reconstruction *)

(** C10. After a run of [bfs] or [astar] on a grid whose [previousNode]
    fields were all null, following [previousNode] from any cell of the
    grid reaches a cell without predecessor after finitely many steps, and
    [getNodesInShortestPathOrder] returns on every cell of the grid. *)
Theorem previousNode_acyclic (g : Grid) (s e : ref) (fuel : nat)
        (vis : list ref) (g' : Grid) :
  prevNull g →
  Bfs.bfs fuel g s e = Returns (vis, g') ∨
  Astar.astar fuel g s e = Returns (vis, g') →
  ∀ x, inGrid g' x →
       ∃ l, chain g' x l ∧
            ∀ fuel', length l ≤ fuel' →
                     Bfs.getNodesInShortestPathOrder fuel' g' x = Returns l.
Proof.
  intros Hnull Hrun x Hx.
  assert (Hch : ∃ l, chain g' x l).
  { destruct Hrun as [Hrun|Hrun].
    - by apply (bfs_links_post g s e fuel vis g' Hnull Hrun).
    - by apply (astar_links_post g s e fuel vis g' Hnull Hrun). }
  destruct Hch as [l Hl]. exists l. split; [done|].
  intros fuel' Hf. by apply chain_getNodes.
Qed.

(** The search whose start is its end, on an open cell, returns that cell
    alone. *)
Lemma bfs_start_is_end (g : Grid) (s : ref) (sn : Node) (fuel : nat)
      (vis : list ref) (g' : Grid) :
  cell g s = Some sn → isWall sn = false →
  Bfs.bfs fuel g s s = Returns (vis, g') → vis = [s].
Proof.
  intros Hs Hw. unfold Bfs.bfs, Bfs.init. rewrite Hs. simpl.
  destruct fuel as [|fuel]; [done|]. simpl. unfold Bfs.body. simpl.
  rewrite (cell_upd_eq _ _ _ sn Hs). simpl. rewrite Hw.
  rewrite bool_decide_eq_true_2 by done. by intros [= <- _].
Qed.

Lemma astar_start_is_end (g : Grid) (s : ref) (sn : Node) (fuel : nat)
      (vis : list ref) (g' : Grid) :
  cell g s = Some sn → isWall sn = false →
  Astar.astar fuel g s s = Returns (vis, g') → vis = [s].
Proof.
  intros Hs Hw. unfold Astar.astar, Astar.init. rewrite Hs. simpl.
  destruct fuel as [|fuel]; [done|]. simpl. unfold Astar.body. simpl.
  rewrite (cell_upd_eq _ _ _ sn Hs). simpl. rewrite Hw.
  rewrite bool_decide_eq_false_2 by apply not_elem_of_empty.
  rewrite bool_decide_eq_true_2 by done. by intros [= <- _].
Qed.

(** C4, as the code has it.  Whenever [getNodesInShortestPathOrder]
    returns on a cell, the result is non-empty and ends with that cell,
    every element after the first has the element before it as its
    [previousNode], the first element has no [previousNode], and the
    result is the one-element sequence when the cell itself has none.
    After a search from [s] to [e] on a grid whose [previousNode] fields
    were all null, [s] and [e] being distinct or [s] not a wall, the
    function returns on [e], and its result starts with [s] exactly when
    the search reached [e]. *)
Theorem reconstruction_from_end (g : Grid) (s e : ref) (fuel : nat)
        (vis : list ref) (g' : Grid) :
  (∀ (h : Grid) (x : ref) (k : nat) (l : list ref),
     Bfs.getNodesInShortestPathOrder k h x = Returns l →
     last l = Some x ∧
     (∀ i a b, l !! i = Some a → l !! S i = Some b →
               previousNode <$> cell h b = Some (Some a)) ∧
     (∀ a, head l = Some a → previousNode <$> cell h a = Some None) ∧
     (previousNode <$> cell h x = Some None → l = [x])) ∧
  (prevNull g → inGrid g e → s ≠ e ∨ passable g s →
   Bfs.bfs fuel g s e = Returns (vis, g') ∨
   Astar.astar fuel g s e = Returns (vis, g') →
   ∃ l, (∀ k, length l ≤ k →
              Bfs.getNodesInShortestPathOrder k g' e = Returns l) ∧
        (head l = Some s ↔ e ∈ vis)).
Proof.
  split.
  - intros h x k l Hl. apply getNodes_chain in Hl. split_and!.
    + by eapply chain_last.
    + intros i a b Ha Hb.
      destruct (chain_links _ _ _ _ _ _ Hl Ha Hb) as (n & -> & Hn).
      simpl. by rewrite Hn.
    + intros a Ha. destruct (chain_head _ _ _ _ Hl Ha) as (n & -> & Hn).
      simpl. by rewrite Hn.
    + intros Hx. destruct (cell h x) as [n|] eqn:Hn; simpl in Hx; [|done].
      eapply chain_functional; [done|]. eapply chain_root; [done|congruence].
  - intros Hnull He Hse Hrun.
    assert (Hpost : (e ∈ vis → ∃ l, chain g' e l ∧ head l = Some s) ∧
                    (e ∉ vis → ∃ n, cell g' e = Some n ∧ previousNode n = None)).
    { destruct Hrun as [Hrun|Hrun].
      - destruct (bfs_links_post g s e fuel vis g' Hnull Hrun)
          as (Hfr & _ & Hyes & Hno).
        split; [done|]. intros Hin. destruct He as [en Hen].
        destruct (frame_cell g g' e en Hfr Hen) as (n & Hn & _).
        exists n. split; [done|]. by eapply Hno.
      - by apply (astar_links_post g s e fuel vis g' Hnull Hrun). }
    destruct Hpost as [Hyes Hno].
    destruct (decide (e ∈ vis)) as [Hin|Hin].
    + destruct (Hyes Hin) as (l & Hl & Hhd). exists l.
      split; [intros k Hk; by apply chain_getNodes|done].
    + destruct (Hno Hin) as (n & Hn & Hp). exists [e].
      split; [intros k Hk; apply chain_getNodes; [by eapply chain_root|done]|].
      simpl. split; [|done]. intros [= ->].
      destruct Hse as [?|Hs]; [done|]. destruct Hin.
      unfold passable in Hs.
      destruct (cell g s) as [sn|] eqn:Hsn; simpl in Hs; [|done].
      injection Hs as Hs.
      destruct Hrun as [Hrun|Hrun].
      * rewrite (bfs_start_is_end g s sn fuel vis g' Hsn Hs Hrun). by left.
      * rewrite (astar_start_is_end g s sn fuel vis g' Hsn Hs Hrun). by left.
Qed.

(** Counterexample to C4 as stated for every end cell.  On [staleChain]
    the search from the first cell does not reach the last one, and the
    walk from the last cell returns a sequence that starts with the first
    cell all the same.  On [grid3], whose links are reset, the search from
    the wall to the wall itself reaches nothing, and the walk returns the
    wall alone, which is the start. *)
Lemma reconstruction_counterexample :
  (wf_grid staleChain ∧
   ∃ g', Bfs.bfs (enoughFuel staleChain) staleChain (0, 0) (0, 2)
         = Returns ([(0, 0)], g') ∧
         ((0, 2) ∉ [(0, 0)]) ∧
         Bfs.getNodesInShortestPathOrder 3 g' (0, 2)
         = Returns [(0, 0); (0, 1); (0, 2)] ∧
         head [(0, 0); (0, 1); (0, 2)] = Some (0, 0)) ∧
  (wf_grid grid3 ∧ prevNull grid3 ∧
   ∃ g', Bfs.bfs (enoughFuel grid3) grid3 (1, 1) (1, 1) = Returns ([], g') ∧
         ((1, 1) ∉ @nil ref) ∧
         Bfs.getNodesInShortestPathOrder 1 g' (1, 1) = Returns [(1, 1)] ∧
         head [(1, 1)] = Some (1, 1)).
Proof.
  split.
  - split; [split; repeat constructor|].
    eexists. split; [vm_compute; reflexivity|].
    split; [|split; [vm_compute; reflexivity|reflexivity]].
    rewrite list_elem_of_singleton. done.
  - split; [split; repeat constructor|]. split; [repeat constructor|].
    eexists. split; [vm_compute; reflexivity|].
    split; [|split; [vm_compute; reflexivity|reflexivity]].
    apply not_elem_of_nil.
Qed.

(** ** Paths *)

Section Paths.
Implicit Types (g : Grid) (s x y : ref) (l : list ref).

Lemma stepwise_snoc l x y :
  last l = Some x → stepwise (l ++ [y]) ↔ stepwise l ∧ adjacent x y.
Proof.
  induction l as [|a l IH]; [done|].
  destruct l as [|b l]; simpl in *.
  - intros [= ->]. tauto.
  - intros Hl. rewrite (IH Hl). tauto.
Qed.

Lemma path_to_last g s x l : path_to g s x l → last l = Some x.
Proof. destruct 1; [done|]. by rewrite last_snoc. Qed.

Lemma path_to_passable g s x l : path_to g s x l → passable g x.
Proof. by destruct 1. Qed.

Lemma path_to_is_path g s x l : path_to g s x l → is_path g s x l.
Proof.
  induction 1 as [Hs|x y l Hl (Hhd & Hlast & Hstep & Hall) Hadj Hy].
  - split_and!; try done. by apply Forall_singleton.
  - split_and!.
    + destruct l; [done|]. done.
    + by rewrite last_snoc.
    + by apply (stepwise_snoc l x y).
    + apply Forall_app. split; [done|]. by apply Forall_singleton.
Qed.

Lemma is_path_path_to g s x l : is_path g s x l → path_to g s x l.
Proof.
  revert x. induction l as [|y l IH] using rev_ind;
    intros x (Hhd & Hlast & Hstep & Hall); [done|].
  rewrite last_snoc in Hlast. injection Hlast as ->.
  apply Forall_app in Hall as [Hall Hx]. rewrite Forall_singleton in Hx.
  destruct l as [|a l]; [simpl in *; injection Hhd as ->; by apply path_start|].
  destruct (last (a :: l)) as [z|] eqn:Hz; [|by rewrite last_cons in Hz; destruct (last l)].
  destruct (proj1 (stepwise_snoc _ z x Hz) Hstep) as [Hstep' Hadj].
  apply path_step with (x := z); [|done|done].
  apply IH. by split_and!.
Qed.

Lemma adjacent_sym x y : adjacent x y → adjacent y x.
Proof. unfold adjacent. intros [[-> ?]|[-> ?]]; tauto. Qed.

Lemma passable_inGrid g x : passable g x → inGrid g x.
Proof.
  unfold passable, inGrid. destruct (cell g x); [by eexists|done].
Qed.

Lemma passable_cell g x n :
  cell g x = Some n → passable g x ↔ isWall n = false.
Proof.
  unfold passable. intros ->. simpl. split; [by intros [= ->]|by intros ->].
Qed.
End Paths.

(** ** Levels of BFS *)

Section BfsLevels.
Import Bfs.
Implicit Types (st : state) (v : ref) (lev : ref → nat).

Lemma StronglySorted_on {A} (R R' : relation A) (l : list A) :
  (∀ x y, x ∈ l → y ∈ l → R x y → R' x y) →
  StronglySorted R l → StronglySorted R' l.
Proof.
  induction l as [|a l IH]; intros HR; [constructor|].
  rewrite !StronglySorted_cons. intros [Ha Hl]. split.
  - rewrite Forall_forall in *. intros y Hy.
    apply HR; [by left|by right|by apply Ha].
  - apply IH; [|done]. intros x y ? ?. apply HR; by right.
Qed.

Lemma StronglySorted_all {A} (R : relation A) (l : list A) :
  (∀ x y, x ∈ l → y ∈ l → R x y) → StronglySorted R l.
Proof.
  induction l as [|a l IH]; intros HR; [constructor|].
  apply StronglySorted_cons. split.
  - apply Forall_forall. intros y Hy. apply HR; [by left|by right].
  - apply IH. intros x y ? ?. apply HR; by right.
Qed.

Lemma unvisited_cell g p n :
  unvisited g → cell g p = Some n → isVisited n = false.
Proof.
  unfold unvisited, cell. intros H Hn.
  destruct (g !! p.1) as [rw|] eqn:Hr; simpl in Hn; [|done].
  rewrite Forall_lookup in H. specialize (H _ _ Hr).
  rewrite Forall_lookup in H. by eapply H.
Qed.

Lemma bfs_body_frame g0 e st st' :
  frame g0 (grid st) → body e st = Some (inl st') → frame g0 (grid st').
Proof.
  intros Hfr Hb. apply bfs_body_cases in Hb as [[_ [=]]|Hb].
  destruct Hb as (cur & rest & c & Hq & Hcur & Hb).
  destruct Hb as [[Hw [= ->]]|(Hw & [[_ [=]]|Hb])]; [done|].
  destruct Hb as (Hne & nbs & st2 & Hnbs & [= <-] & Hq' & Hv' & Hc').
  intros p. rewrite Hc', Hfr. destruct (decide (p ∈ nbs)); [|done].
  by destruct (cell (grid st) p).
Qed.

(** When [u] is at the front of the queue, any path either ends in a
    dequeued cell no further than its length, or is at least as long
    as the level of [u]. *)
Lemma bfs_front g0 s lev st u rest x l :
  bfs_levels g0 s lev st → queue st = u :: rest →
  path_to g0 s x l →
  (x ∈ visitedNodesInOrder st ∧ S (lev x) ≤ length l) ∨
  S (lev u) ≤ length l.
Proof.
  intros (Hm1 & Hm2 & Hm3 & Hm4 & Hm5 & Hm6 & Hm7 & Hs0) Hq.
  assert (Hfront : ∀ y, y ∈ queue st → lev u ≤ lev y).
  { intros y. rewrite Hq, elem_of_cons. intros [->|Hy]; [done|].
    rewrite Hq in Hm3. apply StronglySorted_app_1_r in Hm3.
    apply StronglySorted_cons in Hm3 as [Hm3 _].
    rewrite Forall_forall in Hm3. by apply Hm3. }
  induction 1 as [Hs|x y l Hl IH Hadj Hy].
  - destruct Hm7 as [?|Hsq]; [left; simpl; split; [done|lia]|].
    right. simpl. specialize (Hfront s Hsq). lia.
  - rewrite length_app. simpl.
    destruct IH as [[Hx Hlen]|Hlen]; [|right; lia].
    destruct (Hm5 x y Hx Hadj Hy) as [[Hyv|Hyq] Hlev].
    + left. split; [done|lia].
    + right. specialize (Hfront y Hyq). lia.
Qed.

Lemma bfs_body_levels g0 s e rows cols lev st st' :
  shape (grid st) rows cols → frame g0 (grid st) →
  bfs_order st → bfs_levels g0 s lev st →
  body e st = Some (inl st') →
  ∃ lev', bfs_levels g0 s lev' st' ∧
          (bfs_links g0 s st → bfs_tree g0 s lev st →
           bfs_tree g0 s lev' st').
Proof.
  intros Hsh Hfr [Hmk Hnd] Hlv Hb.
  pose proof Hlv as (Hm1 & Hm2 & Hm3 & Hm4 & Hm5 & Hm6 & Hm7 & Hs0).
  apply bfs_body_cases in Hb as [[_ [=]]|Hb].
  destruct Hb as (cur & rest & c & Hq & Hcur & Hb).
  assert (Hcurq : cur ∈ queue st) by (rewrite Hq; by left).
  assert (Hpass : passable g0 cur).
  { destruct (Hm2 cur) as (l & Hl & _); [by right|].
    by eapply path_to_passable. }
  assert (Hw : isWall c = false).
  { apply (frame_passable _ _ _ Hfr) in Hpass.
    by apply (passable_cell _ _ _ Hcur). }
  destruct Hb as [[Hw' _]|(_ & [[_ [=]]|Hb])]; [congruence|].
  destruct Hb as (Hne & nbs & st2 & Hnbs & [= <-] & Hq' & Hv' & Hc').
  assert (Hnbs' : ∀ v, v ∈ nbs ↔
    v ∈ around rows cols cur ∧ Is_true (unvisitedOpen (grid st) v)).
  { unfold getUnvisitedNeighbors in Hnbs.
    rewrite (fourNeighbors_shape _ rows cols cur) in Hnbs by done.
    simpl in Hnbs. injection Hnbs as Heq. intros v.
    rewrite <- Heq, list_elem_of_filter. tauto. }
  assert (Hfresh : ∀ v, v ∈ nbs →
    ¬ (v ∈ visitedNodesInOrder st ∨ v ∈ queue st)).
  { intros v Hv Hin. apply Hmk in Hin. unfold marked in Hin.
    apply Hnbs' in Hv as [_ Hv]. unfold unvisitedOpen in Hv.
    destruct (cell (grid st) v) as [n|]; [|done].
    simpl in Hin. injection Hin as Hin. by rewrite Hin in Hv. }
  set (lev' := λ x, if decide (x ∈ nbs) then S (lev cur) else lev x).
  assert (Hold : ∀ x, x ∈ visitedNodesInOrder st ∨ x ∈ queue st →
                      lev' x = lev x).
  { intros x Hx. unfold lev'. destruct (decide (x ∈ nbs)); [|done].
    by destruct (Hfresh x). }
  assert (Hnew : ∀ x, x ∈ nbs → lev' x = S (lev cur)).
  { intros x Hx. unfold lev'. by rewrite decide_True. }
  assert (Hcin : cur.1 < rows ∧ cur.2 < cols).
  { apply (shape_inGrid (grid st)); [done|by eexists]. }
  assert (Hbelow : ∀ x, x ∈ visitedNodesInOrder st → lev x ≤ lev cur).
  { intros x Hx. rewrite Hq in Hm3.
    eapply (StronglySorted_app_1_elem_of _ _ _ x cur Hm3); [done|by left]. }
  assert (Habove : ∀ x, x ∈ queue st → lev cur ≤ lev x ≤ S (lev cur)).
  { intros x Hx. split; [|apply Hm4; [by rewrite Hq|done]].
    rewrite Hq in Hx. apply elem_of_cons in Hx as [->|Hx]; [done|].
    rewrite Hq in Hm3. apply StronglySorted_app_1_r in Hm3.
    apply StronglySorted_cons in Hm3 as [Hm3 _].
    rewrite Forall_forall in Hm3. by apply Hm3. }
  assert (Hmem : ∀ x, x ∈ visitedNodesInOrder st ++ [cur] ∨ x ∈ rest ++ nbs ↔
                      (x ∈ visitedNodesInOrder st ∨ x ∈ queue st) ∨ x ∈ nbs).
  { intros x. rewrite Hq, !elem_of_app, !elem_of_cons, elem_of_nil.
    tauto. }
  assert (Hstep : ∀ x, x ∈ nbs → adjacent cur x ∧ passable g0 x).
  { intros x Hx. apply Hnbs' in Hx as [Hx Ho].
    apply around_spec in Hx as (Hadj & _); [|tauto|tauto].
    split; [done|].
    apply (frame_passable _ _ _ Hfr). unfold unvisitedOpen in Ho.
    unfold passable. destruct (cell (grid st) x) as [n|]; [|done].
    simpl. by destruct (isVisited n), (isWall n). }
  exists lev'. split.
  2: { intros Hlinks Htree x l. rewrite Hv', Hq', Hmem. intros Hx Hl.
    pose proof Hlinks as (_ & _ & _ & Hlk & Hch).
    assert (Htrans : ∀ y ly,
      y ∈ visitedNodesInOrder st ∨ y ∈ queue st →
      chain (grid st) y ly → chain (grid st') y ly).
    { intros y ly Hy Hly. eapply chain_ext; [done|]. intros z Hz.
      rewrite Hc'. destruct (decide (z ∈ nbs)) as [Hin|]; [|done].
      exfalso. apply (Hfresh z Hin).
      destruct (chain_targets _ _ _ _ Hly Hz) as [->|(w & m & Hw' & Hm)];
        [done|].
      left. by destruct (Hlk w m z Hw' Hm). }
    destruct Hx as [Hx|Hx].
    - destruct (Hch x Hx) as (l0 & Hl0 & _).
      rewrite (chain_functional _ _ _ _ Hl (Htrans x l0 Hx Hl0)).
      rewrite (Hold x Hx). by apply Htree.
    - destruct (Hch cur) as (lc & Hlc & _); [by right|].
      destruct (Htree cur lc) as [Hp Hlen]; [by right|done|].
      assert (Hl' : chain (grid st') x (lc ++ [x])).
      { apply Hnbs' in Hx as Hx'. destruct Hx' as [_ Ho].
        unfold unvisitedOpen in Ho.
        destruct (cell (grid st) x) as [n|] eqn:Hn; [|done].
        eapply chain_link; [by rewrite Hc', decide_True, Hn|done|].
        apply Htrans; [by right|done]. }
      rewrite (chain_functional _ _ _ _ Hl Hl'), (Hnew x Hx), length_app.
      simpl. split; [|lia].
      destruct (Hstep x Hx). by apply path_step with (x := cur). }
  unfold bfs_levels. rewrite Hv', Hq'.
  split_and!.
  - intros x. unfold marked. rewrite Hc', Hmem.
    destruct (decide (x ∈ nbs)); [auto|]. intros Hx. left. by apply Hm1.
  - intros x. rewrite Hmem. intros [Hx|Hx].
    + rewrite (Hold x Hx). by apply Hm2.
    + destruct (Hm2 cur) as (l & Hl & Hlen); [by right|].
      exists (l ++ [x]). rewrite (Hnew x Hx), length_app. simpl.
      split; [|lia]. destruct (Hstep x Hx).
      by apply path_step with (x := cur).
  - replace ((visitedNodesInOrder st ++ [cur]) ++ rest ++ nbs)
      with ((visitedNodesInOrder st ++ queue st) ++ nbs)
      by (by rewrite Hq, <- !app_assoc).
    apply StronglySorted_app_2.
    + intros x y Hx Hy. rewrite elem_of_app in Hx.
      rewrite (Hold x Hx), (Hnew y Hy).
      destruct Hx as [Hx|Hx]; [specialize (Hbelow x Hx); lia|].
      by apply Habove.
    + eapply StronglySorted_on; [|exact Hm3].
      intros x y Hx Hy. rewrite elem_of_app in Hx, Hy.
      by rewrite (Hold x Hx), (Hold y Hy).
    + apply StronglySorted_all. intros x y Hx Hy.
      by rewrite (Hnew x Hx), (Hnew y Hy).
  - intros x y Hhd Hy.
    assert (Hx : lev cur ≤ lev' x).
    { apply head_Some_elem_of in Hhd. apply elem_of_app in Hhd as [Hx|Hx].
      - rewrite Hold; [|right; rewrite Hq; by right].
        apply Habove. rewrite Hq. by right.
      - rewrite (Hnew x Hx). lia. }
    apply elem_of_app in Hy as [Hy|Hy].
    + rewrite Hold; [|right; rewrite Hq; by right].
      assert (lev y ≤ S (lev cur)); [|lia].
      apply Habove. rewrite Hq. by right.
    + rewrite (Hnew y Hy). lia.
  - intros u v. rewrite elem_of_app, list_elem_of_singleton, Hmem.
    intros [Hu| ->] Hadj Hv.
    + destruct (Hm5 u v Hu Hadj Hv) as [Hin Hlev].
      split; [by left|]. rewrite (Hold v Hin), (Hold u); [done|by left].
    + rewrite (Hold cur) by (by right).
      assert (Hvin : inGrid (grid st) v).
      { apply (frame_inGrid _ _ _ Hfr). by apply passable_inGrid. }
      destruct Hvin as [n Hn].
      destruct (isVisited n) eqn:Hvis.
      * assert (Hin : v ∈ visitedNodesInOrder st ∨ v ∈ queue st).
        { apply Hm1. unfold marked. by rewrite Hn; simpl; rewrite Hvis. }
        split; [by left|]. rewrite (Hold v Hin).
        destruct Hin as [Hin|Hin]; [specialize (Hbelow v Hin); lia|].
        by apply Habove.
      * assert (Hin : v ∈ nbs).
        { apply Hnbs'. split.
          - apply around_spec; [tauto|tauto|]. split; [done|].
            apply (shape_inGrid (grid st)); [done|by eexists].
          - unfold unvisitedOpen. rewrite Hn, Hvis. simpl.
            apply (frame_passable _ _ _ Hfr) in Hv.
            apply (passable_cell _ _ _ Hn) in Hv. by rewrite Hv. }
        split; [by right|]. by rewrite (Hnew v Hin).
  - intros u l. rewrite elem_of_app, list_elem_of_singleton.
    intros [Hu| ->] Hl.
    + rewrite Hold by (by left). by apply Hm6.
    + rewrite Hold by (by right).
      destruct (bfs_front g0 s lev st cur rest cur l Hlv Hq Hl)
        as [[Hin _]|?]; [|done].
      exfalso. rewrite Hq in Hnd. apply NoDup_app in Hnd as (_ & Hnd & _).
      apply (Hnd cur Hin). by left.
  - apply Hmem. by left.
  - rewrite Hold; [done|done].
Qed.

End BfsLevels.

(** ** Shortest paths by BFS *)

Section BfsShortest.
Import Bfs.
Implicit Types (st : state) (v : ref) (lev : ref → nat).

Lemma StronglySorted_lookup {A} (R : relation A) (l : list A) i j x y :
  StronglySorted R l → l !! i = Some x → l !! j = Some y → i < j → R x y.
Proof.
  intros Hl. revert i j. induction Hl as [|a l Hl IH Ha]; intros i j; [done|].
  destruct i as [|i], j as [|j]; simpl; try lia.
  - intros [= ->] Hy _. rewrite Forall_forall in Ha. apply Ha.
    by eapply list_elem_of_lookup_2.
  - intros Hx Hy ?. apply (IH i j); [done|done|lia].
Qed.

Lemma bfs_init_levels g s st :
  unvisited g → passable g s → init g s = Some st →
  bfs_levels g s (λ _, 0) st ∧ (prevNull g → bfs_tree g s (λ _, 0) st).
Proof.
  intros Hun Hs Hi.
  apply bfs_init_fields in Hi as (HQ & HV & Hg & [sn Hsn]).
  split.
  - unfold bfs_levels. rewrite HQ, HV, Hg. simpl. split_and!.
    + intros x. unfold marked. rewrite cell_upd.
      destruct (decide (s = x)) as [->|Hne]; [intros _; right; by left|].
      destruct (cell g x) as [n|] eqn:Hn; simpl; [|done].
      by rewrite (unvisited_cell g x n).
    + intros x [Hx|Hx]; [by apply elem_of_nil in Hx|].
      apply list_elem_of_singleton in Hx as ->.
      exists [s]. split; [by apply path_start|done].
    + repeat constructor.
    + intros x y _ _. lia.
    + intros u v Hu. by apply elem_of_nil in Hu.
    + intros u l Hu. by apply elem_of_nil in Hu.
    + right. by left.
    + done.
  - intros Hnull x l. rewrite HQ, HV, Hg.
    intros [Hx|Hx]; [by apply elem_of_nil in Hx|].
    apply list_elem_of_singleton in Hx as ->. intros Hl.
    assert (Hl' : chain (upd markVisited s g) s [s]).
    { eapply chain_root; [by apply cell_upd_eq|]. simpl.
      by apply (prevNull_cell g s). }
    rewrite (chain_functional _ _ _ _ Hl Hl').
    split; [by apply path_start|done].
Qed.

(** With the queue empty, every cell a path reaches has been
    dequeued. *)
Lemma bfs_exhausted g0 s lev st x l :
  bfs_levels g0 s lev st → queue st = [] → path_to g0 s x l →
  x ∈ visitedNodesInOrder st.
Proof.
  intros (_ & _ & _ & _ & Hm5 & _ & Hm7 & _) HQ. rewrite HQ in *.
  induction 1 as [Hs|x y l Hl IH Hadj Hy].
  - destruct Hm7 as [?|Hx]; [done|by apply elem_of_nil in Hx].
  - destruct (Hm5 x y IH Hadj Hy) as [[?|Hx] _];
      [done|by apply elem_of_nil in Hx].
Qed.

Lemma bfs_body_end e st st' :
  e ∉ visitedNodesInOrder st → body e st = Some (inl st') →
  e ∉ visitedNodesInOrder st'.
Proof.
  intros He Hb. apply bfs_body_cases in Hb as [[_ [=]]|Hb].
  destruct Hb as (cur & rest & c & Hq & Hcur & Hb).
  destruct Hb as [[Hw [= ->]]|(Hw & [[_ [=]]|Hb])]; [done|].
  destruct Hb as (Hne & nbs & st2 & Hnbs & [= <-] & Hq' & Hv' & Hc').
  rewrite Hv', elem_of_app, list_elem_of_singleton. intros [?|?]; congruence.
Qed.

Lemma bfs_body_shape e st st' rows cols :
  shape (grid st) rows cols → body e st = Some (inl st') →
  shape (grid st') rows cols.
Proof.
  intros Hs. unfold body. destruct (queue st) as [|cur rest]; [done|].
  destruct (cell (grid st) cur) as [c|]; simpl; [|done].
  destruct (isWall c); [by intros [= <-]|].
  destruct (bool_decide _); [done|].
  destruct (getUnvisitedNeighbors _ _) as [nbs|]; simpl; [|done].
  destruct (forOf _ _ _) as [st2|] eqn:Hfor; simpl; [|done].
  intros [= <-]. by eapply forOf_enqueue_shape.
Qed.

(** The run of BFS towards a reachable end: it reaches the end, and the
    predecessor chain of the end is a path with the fewest cells. *)
Lemma bfs_run_shortest g s e fuel :
  wf_grid g → unvisited g → prevNull g → (∃ l, is_path g s e l) →
  enoughFuel g ≤ fuel →
  ∃ vis g' l, bfs fuel g s e = Returns (vis, g') ∧
              frame g g' ∧ last vis = Some e ∧ chain g' e l ∧
              is_path g s e l ∧
              ∀ l', is_path g s e l' → length l ≤ length l'.
Proof.
  intros Hwf Hun Hnull [l0 Hl0] Hfuel.
  apply is_path_path_to in Hl0.
  assert (Hs : passable g s).
  { clear -Hl0. induction Hl0; done. }
  pose proof (passable_inGrid _ _ Hs) as Hsin.
  destruct (bfs_returns g s e fuel Hwf Hsin Hfuel) as [[vis g'] Hrun].
  exists vis, g'.
  pose proof (wf_grid_shape _ _ Hwf Hsin) as Hsh.
  cut (frame g g' ∧ last vis = Some e ∧
       ∃ l, chain g' e l ∧ path_to g s e l ∧
            ∀ l', path_to g s e l' → length l ≤ length l').
  { intros (Hfr & Hlast & l & Hl & Hp & Hmin). exists l.
    split_and!; try done; [by apply path_to_is_path|].
    intros l' Hl'. by apply Hmin, is_path_path_to. }
  revert Hrun. unfold bfs.
  destruct (init g s) as [st0|] eqn:Hi; [|done].
  apply (while_inv (body e)
    (λ st, shape (grid st) (length g) (ncols g) ∧ bfs_order st ∧
           (bfs_links g s st ∧ e ∉ visitedNodesInOrder st) ∧
           ∃ lev, bfs_levels g s lev st ∧ bfs_tree g s lev st)
    (λ r, frame g r.2 ∧ last r.1 = Some e ∧
          ∃ l, chain r.2 e l ∧ path_to g s e l ∧
               ∀ l', path_to g s e l' → length l ≤ length l')).
  - intros st st' (Hsh' & Hord & Hlk & lev & Hlev & Htree) Hb.
    split; [by eapply bfs_body_shape|]. split; [by eapply bfs_body_order|].
    split; [by eapply bfs_body_links|].
    destruct (bfs_body_levels g s e _ _ lev st st' Hsh'
                ltac:(by destruct Hlk as [[? _] _]) Hord Hlev Hb)
      as (lev' & Hlev' & Htree').
    exists lev'. split; [done|]. apply Htree'; [by destruct Hlk|done].
  - intros st [vis' g''] (Hsh' & Hord & [Hlk He] & lev & Hlev & Htree) Hb.
    simpl. apply bfs_body_exit in Hb as [-> Hx].
    split; [by destruct Hlk|].
    destruct Hx as [[HQ ->]|(rest & c & Hq & _ & _ & ->)].
    + destruct He. by eapply bfs_exhausted.
    + split; [by rewrite last_snoc|].
      destruct Hlk as (_ & _ & _ & _ & Hch).
      destruct (Hch e) as (l & Hl & _); [right; rewrite Hq; by left|].
      exists l. destruct (Htree e l) as [Hp Hlen];
        [right; rewrite Hq; by left|done|].
      split_and!; try done. intros l' Hl'.
      destruct (bfs_front g s lev st e rest e l' Hlev Hq Hl')
        as [[Hin _]|?]; [done|lia].
  - split; [|split; [by eapply bfs_init_order|split; [by apply bfs_init_links|]]].
    + apply bfs_init_fields in Hi as (_ & _ & -> & _). by apply shape_upd.
    + exists (λ _, 0). destruct (bfs_init_levels g s st0 Hun Hs Hi).
      split; [done|auto].
Qed.

End BfsShortest.

(** C2. On a well-formed grid with reset [isVisited] and [previousNode]
    fields, if some path of non-wall cells leads from start to end, then
    [bfs] returns having reached end, and the predecessor walk from end
    returns a path from start to end with the fewest moves of all such
    paths. *)
Theorem bfs_fewest_edges (g : Grid) (s e : ref) (fuel : nat) :
  wf_grid g → unvisited g → prevNull g →
  (∃ l, is_path g s e l) → enoughFuel g ≤ fuel →
  ∃ vis g' l,
    Bfs.bfs fuel g s e = Returns (vis, g') ∧ last vis = Some e ∧
    (∀ k, length l ≤ k →
          Bfs.getNodesInShortestPathOrder k g' e = Returns l) ∧
    is_path g s e l ∧
    ∀ l', is_path g s e l' → edges l ≤ edges l'.
Proof.
  intros Hwf Hun Hnull Hpath Hfuel.
  destruct (bfs_run_shortest g s e fuel Hwf Hun Hnull Hpath Hfuel)
    as (vis & g' & l & Hrun & _ & Hlast & Hl & Hp & Hmin).
  exists vis, g', l. split_and!; try done.
  - intros k Hk. by apply chain_getNodes.
  - intros l' Hl'. specialize (Hmin l' Hl'). unfold edges. lia.
Qed.

(** ** BFS without a path to the end *)

Lemma while_exit {S R} (body : S → option (S + R)) fuel st0 r :
  while body fuel st0 = Returns r →
  ∃ st, reaches body st0 st ∧ body st = Some (inr r).
Proof.
  assert (H : ∀ st, reaches body st0 st → while body fuel st = Returns r →
                    ∃ st', reaches body st0 st' ∧ body st' = Some (inr r)).
  { induction fuel as [|fuel IH]; simpl; [done|]. intros st Hst.
    destruct (body st) as [[st'|r']|] eqn:Hb; [| |done].
    - apply IH. by eapply reaches_next.
    - intros [= <-]. by exists st. }
  apply H. constructor.
Qed.

Lemma reaches_inv {S R} (body : S → option (S + R)) (I : S → Prop) st0 st :
  (∀ st st', I st → body st = Some (inl st') → I st') →
  I st0 → reaches body st0 st → I st.
Proof. intros Hstep H0. induction 1; [done|by eapply Hstep]. Qed.

Lemma reaches_first {S R} (body : S → option (S + R)) st0 st1 st :
  body st0 = Some (inl st1) → reaches body st1 st → reaches body st0 st.
Proof.
  intros H0. induction 1 as [|st' st'' Hr IH Hb].
  - eapply reaches_next; [apply reaches_here|done].
  - by eapply reaches_next.
Qed.

Lemma iterations_reaches {S R} (body : S → option (S + R)) n st0 st :
  iterations body n st0 = Some st → reaches body st0 st.
Proof.
  revert st0. induction n as [|n IH]; intros st0; simpl.
  - intros [= <-]. apply reaches_here.
  - destruct (body st0) as [[st1|r]|] eqn:Hb; [|done|done].
    intros H. eapply reaches_first; [done|by apply IH].
Qed.

Lemma while_step {S R} (body : S → option (S + R)) fuel st st' :
  body st = Some (inl st') → while body (Datatypes.S fuel) st = while body fuel st'.
Proof. simpl. by intros ->. Qed.

Lemma while_return {S R} (body : S → option (S + R)) fuel st r :
  body st = Some (inr r) → while body (Datatypes.S fuel) st = Returns r.
Proof. simpl. by intros ->. Qed.

Section BfsExhausted.
Import Bfs.
Implicit Types (st : state) (v : ref) (lev : ref → nat).

(** A wall as start: the loop shifts it off and returns nothing. *)
Lemma bfs_wall_start g s e sn fuel :
  cell g s = Some sn → isWall sn = true → 2 ≤ fuel →
  bfs fuel g s e = Returns ([], upd markVisited s g) ∧
  ∃ st0 st, init g s = Some st0 ∧ reaches (body e) st0 st ∧
            queue st = [] ∧ visitedNodesInOrder st = [].
Proof.
  intros Hs Hw Hfuel.
  assert (Hi : init g s = Some (mkState (upd markVisited s g) [s] []))
    by (unfold init; by rewrite Hs).
  assert (Hb : body e (mkState (upd markVisited s g) [s] [])
               = Some (inl (mkState (upd markVisited s g) [] []))).
  { unfold body. simpl. rewrite (cell_upd_eq _ _ _ sn Hs). simpl.
    by rewrite Hw. }
  split.
  - unfold bfs. rewrite Hi. destruct fuel as [|[|fuel]]; try lia.
    rewrite (while_step _ _ _ _ Hb). by apply while_return.
  - exists (mkState (upd markVisited s g) [s] []),
           (mkState (upd markVisited s g) [] []).
    split; [done|]. split; [|done].
    eapply reaches_next; [constructor|done].
Qed.

Lemma astar_wall_start g s e sn fuel :
  cell g s = Some sn → isWall sn = true → inGrid g e → 2 ≤ fuel →
  ∃ g', Astar.astar fuel g s e = Returns ([], g').
Proof.
  intros Hs Hw [en He] Hfuel. unfold Astar.astar, Astar.init.
  rewrite Hs, He. simpl. destruct fuel as [|[|fuel]]; try lia.
  set (g1 := upd (Astar.initStart (Astar.heuristic sn en)) s g).
  assert (Hb : Astar.body e (Astar.mkState g1 [s] ∅ [])
               = Some (inl (Astar.mkState g1 [] ∅ []))).
  { unfold Astar.body. simpl. unfold g1.
    rewrite (cell_upd_eq _ _ _ sn Hs). simpl. by rewrite Hw. }
  exists g1. rewrite (while_step _ _ _ _ Hb). by apply while_return.
Qed.

Lemma bfs_shortest_level g s lev st x l :
  bfs_levels g s lev st → x ∈ visitedNodesInOrder st →
  shortest g s x l → length l = S (lev x).
Proof.
  intros (_ & Hm2 & _ & _ & _ & Hm6 & _) Hx [Hl Hmin].
  destruct (Hm2 x) as (l' & Hl' & Hlen); [by left|].
  apply path_to_is_path, Hmin in Hl'.
  apply is_path_path_to, (Hm6 x l Hx) in Hl. lia.
Qed.

End BfsExhausted.

(** C3, as the code has it.  On a well-formed grid whose [isVisited] flags
    are reset, if no path of non-wall cells leads from start to end, then
    [bfs] returns with its queue empty; the returned sequence holds,
    without repetition, exactly the cells that a path of non-wall cells
    reaches from start, nearer cells first, and does not hold end.  On
    any grid, if start is a wall, [bfs] and [astar] both return the empty
    sequence. *)
Theorem bfs_unreachable_end (g : Grid) (s e : ref) (fuel : nat) :
  (wf_grid g → unvisited g → inGrid g s →
   ¬ (∃ l, is_path g s e l) → enoughFuel g ≤ fuel →
   ∃ vis g' st0 st,
     Bfs.bfs fuel g s e = Returns (vis, g') ∧
     Bfs.init g s = Some st0 ∧ reaches (Bfs.body e) st0 st ∧
     Bfs.queue st = [] ∧ vis = Bfs.visitedNodesInOrder st ∧
     NoDup vis ∧
     (∀ x, x ∈ vis ↔ ∃ l, is_path g s x l) ∧
     (∀ i j x y lx ly,
        vis !! i = Some x → vis !! j = Some y → i ≤ j →
        shortest g s x lx → shortest g s y ly → length lx ≤ length ly) ∧
     e ∉ vis) ∧
  (∀ sn, cell g s = Some sn → isWall sn = true → inGrid g e → 2 ≤ fuel →
         ∃ g1 g2, Bfs.bfs fuel g s e = Returns ([], g1) ∧
                  Astar.astar fuel g s e = Returns ([], g2)).
Proof.
  split.
  - intros Hwf Hun Hsin Hno Hfuel.
    pose proof Hsin as [sn Hsn].
    destruct (isWall sn) eqn:Hw.
    1: { assert (Hs : ¬ passable g s).
         { rewrite (passable_cell _ _ _ Hsn). congruence. }
         assert (Hf2 : 2 ≤ fuel) by (unfold enoughFuel in Hfuel; lia).
         destruct (bfs_wall_start g s e sn fuel Hsn Hw Hf2)
           as (Hrun & st0 & st & Hi & Hr & HQ & HV).
         exists [], (upd Bfs.markVisited s g), st0, st.
         split_and!; try done.
         - constructor.
         - intros x. split; [by intros ?%elem_of_nil|].
           intros [l Hl]. destruct Hs. apply is_path_path_to in Hl.
           clear -Hl. induction Hl; done.
         - apply not_elem_of_nil. }
    assert (Hs : passable g s) by (by apply (passable_cell _ _ _ Hsn)).
    destruct (bfs_returns g s e fuel Hwf Hsin Hfuel) as [[vis g'] Hrun].
    pose proof (wf_grid_shape _ _ Hwf Hsin) as Hsh.
    pose proof Hrun as Hrun'. unfold Bfs.bfs in Hrun'.
    destruct (Bfs.init g s) as [st0|] eqn:Hi; [|done].
    apply while_exit in Hrun' as (st & Hreach & Hb).
    assert (Hinv : frame g (Bfs.grid st) ∧
                   shape (Bfs.grid st) (length g) (ncols g) ∧ bfs_order st ∧
                   (e ∉ Bfs.visitedNodesInOrder st) ∧
                   ∃ lev, bfs_levels g s lev st).
    { pattern st. eapply (reaches_inv (Bfs.body e)); [| |exact Hreach]; simpl.
      - intros st1 st2 (Hfr & Hsh' & Hord & He & lev & Hlev) Hb'.
        split; [by eapply bfs_body_frame|].
        split; [by eapply bfs_body_shape|].
        split; [by eapply bfs_body_order|].
        split; [by eapply bfs_body_end|].
        destruct (bfs_body_levels g s e _ _ lev st1 st2 Hsh' Hfr Hord Hlev Hb')
          as (lev' & Hlev' & _). by exists lev'.
      - pose proof Hi as (HQ & HV & Hg & _)%bfs_init_fields.
        split_and!.
        + rewrite Hg. by apply frame_upd.
        + rewrite Hg. by apply shape_upd.
        + by eapply bfs_init_order.
        + rewrite HV. apply not_elem_of_nil.
        + exists (λ _, 0). by apply bfs_init_levels. }
    destruct Hinv as (Hfr & Hsh' & [Hmk Hnd] & He & lev & Hlev).
    apply bfs_body_exit in Hb as [-> Hx].
    destruct Hx as [[HQ ->]|(rest & c & Hq & _ & _ & ->)].
    2: { destruct Hno. pose proof Hlev as (_ & Hm2 & _).
         destruct (Hm2 e) as (l & Hl & _); [right; rewrite Hq; by left|].
         exists l. by apply path_to_is_path. }
    exists (Bfs.visitedNodesInOrder st), (Bfs.grid st), st0, st.
    split_and!; try done.
    + by apply NoDup_app in Hnd as (? & _).
    + intros x. split.
      * intros Hx. pose proof Hlev as (_ & Hm2 & _).
        destruct (Hm2 x) as (l & Hl & _); [by left|].
        exists l. by apply path_to_is_path.
      * intros [l Hl]. eapply bfs_exhausted; [done|done|].
        by apply is_path_path_to.
    + intros i j x y lx ly Hx Hy Hij Hlx Hly.
      rewrite (bfs_shortest_level g s lev st x lx Hlev), 
        (bfs_shortest_level g s lev st y ly Hlev); try done.
      2,3: by eapply list_elem_of_lookup_2.
      destruct (decide (i = j)) as [->|Hne]; [by simplify_eq|].
      pose proof Hlev as (_ & _ & Hm3 & _). rewrite HQ, app_nil_r in Hm3.
      apply le_n_S.
      apply (StronglySorted_lookup _ _ i j x y Hm3 Hx Hy). lia.
  - intros sn Hs Hw He Hfuel.
    destruct (bfs_wall_start g s e sn fuel Hs Hw Hfuel) as [Hb _].
    destruct (astar_wall_start g s e sn fuel Hs Hw He Hfuel) as [g2 Ha].
    by eexists _, _.
Qed.

(** Counterexample to C3 as stated for every grid: the middle cell of
    [staleRow] is reachable from the start but flagged by an earlier run,
    and [bfs] returns without it. *)
Lemma bfs_stale_flag_counterexample :
  wf_grid staleRow ∧
  ¬ (∃ l, is_path staleRow (0, 0) (0, 2) l) ∧
  (∃ g', Bfs.bfs (enoughFuel staleRow) staleRow (0, 0) (0, 2)
         = Returns ([(0, 0)], g')) ∧
  is_path staleRow (0, 0) (0, 1) [(0, 0); (0, 1)] ∧
  (0, 1) ∉ [(0, 0)].
Proof.
  split_and!.
  - split; repeat constructor.
  - intros [l (_ & Hlast & _ & Hall)].
    rewrite Forall_forall in Hall.
    assert (Hin : (0, 2) ∈ l).
    { rewrite last_lookup in Hlast. by eapply list_elem_of_lookup_2. }
    by apply Hall in Hin.
  - eexists. vm_compute. reflexivity.
  - split_and!; try done.
    + simpl. split; [|done]. left. simpl. auto.
    + repeat constructor.
  - rewrite list_elem_of_singleton. done.
Qed.

(** ** Priorities of A* *)

Lemma forOf_inv_in {S X} (body : S → X → option S) (I : list X → S → Prop)
      (xs : list X) (st st' : S) :
  (∀ done x st st', x ∈ xs → I done st → body st x = Some st' →
                    I (done ++ [x]) st') →
  I [] st → forOf body xs st = Some st' → I xs st'.
Proof.
  intros Hstep.
  assert (H : ∀ xs' done st, (∀ x, x ∈ xs' → x ∈ xs) → I done st →
                             forOf body xs' st = Some st' → I (done ++ xs') st').
  { induction xs' as [|x xs' IH]; simpl; intros done st1 Hsub Hst.
    - intros [= <-]. by rewrite app_nil_r.
    - destruct (body st1 x) as [st2|] eqn:Hb; simpl; [|done].
      intros H. rewrite cons_middle, app_assoc. apply (IH _ st2); [|  |done].
      + intros y Hy. apply Hsub. by right.
      + eapply Hstep; [|done|done]. apply Hsub. by left. }
  intros Hst Hfor. by apply (H xs [] st).
Qed.

Section AstarMono.
Import Astar.
Implicit Types (st : state) (v : ref).

Lemma weightsOk_cell g x n :
  weightsOk g → cell g x = Some n → isWall n = false →
  ∃ q, weight n = Fin q ∧ (1 <= q)%Q ∧ num_or1 (weight n) = Fin q.
Proof.
  unfold weightsOk, cell. intros H Hn Hw.
  destruct (g !! x.1) as [rw|] eqn:Hr; simpl in Hn; [|done].
  rewrite Forall_lookup in H. specialize (H _ _ Hr).
  rewrite Forall_lookup in H. specialize (H _ _ Hn Hw).
  destruct (weight n) as [q|]; [|done]. exists q. split; [done|].
  split; [done|]. simpl in *.
  destruct (Qeq_bool q 0) eqn:Hq; [|done].
  apply Qeq_bool_eq in Hq. lra.
Qed.

Lemma hQ_adjacent e x y : adjacent x y → (hQ e x <= hQ e y + 1)%Q.
Proof.
  unfold adjacent, hQ. destruct x as [r c], y as [r' c']. simpl.
  intros H. change 1%Q with (inject_Z 1).
  rewrite <- inject_Z_plus, <- Zle_Qle. lia.
Qed.

Lemma heuristic_hQ g rows cols e x nb en :
  shape g rows cols → cell g x = Some nb → cell g e = Some en →
  heuristic nb en = Fin (hQ e x).
Proof.
  intros Hs Hx He.
  pose proof (shape_place _ _ _ _ _ Hs Hx) as Hpx.
  pose proof (shape_place _ _ _ _ _ Hs He) as Hpe.
  unfold heuristic, hQ. rewrite <- Hpx, <- Hpe. done.
Qed.

Lemma before_le g x y a b :
  before g x y → key g x = Fin a → key g y = Fin b → (a <= b)%Q.
Proof.
  unfold before. intros H Hx Hy. rewrite Hx, Hy in H. simpl in H.
  by apply Qle_alt.
Qed.

Lemma key_cell g x n : cell g x = Some n → key g x = totalCost n.
Proof. unfold key. by intros ->. Qed.

Lemma fQ_cell g x n f : cell g x = Some n → totalCost n = Fin f → fQ g x = f.
Proof. unfold fQ. intros Hn Hf. by rewrite (key_cell _ _ _ Hn), Hf. Qed.

Lemma key_upd_ne g f v x : v ≠ x → key (upd f v g) x = key g x.
Proof. intros. unfold key. by rewrite cell_upd_ne. Qed.

Lemma key_upd_keep g f v x :
  (∀ n, totalCost (f n) = totalCost n) → key (upd f v g) x = key g x.
Proof.
  intros Hf. unfold key. rewrite cell_upd.
  destruct (decide (v = x)); [|done].
  destruct (cell g x); simpl; [apply Hf|done].
Qed.

Lemma relax_visited e cur st v st' :
  relax e cur st v = Some st' →
  visitedNodesInOrder st' = visitedNodesInOrder st.
Proof.
  intros H. apply relax_cases in H as [[-> _]|[[-> _]|H]]; [done|done|].
  by destruct H as (nb & c & en & q & _ & _ & _ & _ & _ & _ & _ & ->).
Qed.

(** *** Sums that double precision does not round *)

Lemma exactWeights_cell k top g x n :
  exactWeights k top g → cell g x = Some n → isWall n = false →
  ∃ q (m : Z), weight n = Fin q ∧ (q * pow2 k == inject_Z m)%Q ∧
               (q <= inject_Z top)%Q.
Proof.
  unfold exactWeights, cell. intros H Hn Hw.
  destruct (g !! x.1) as [rw|] eqn:Hr; simpl in Hn; [|done].
  rewrite Forall_lookup in H. specialize (H _ _ Hr).
  rewrite Forall_lookup in H. specialize (H _ _ Hn Hw).
  destruct (weight n) as [q|]; [|done]. destruct H as [Hm Hle].
  apply multipleOf_whole in Hm as [m Hm]. by exists q, m.
Qed.

Lemma hQ_bound rows cols e x :
  e.1 < rows → e.2 < cols → x.1 < rows → x.2 < cols →
  (0 <= hQ e x)%Q ∧ (hQ e x <= inject_Z (Z.of_nat (rows + cols)))%Q.
Proof.
  intros. unfold hQ. change 0%Q with (inject_Z 0).
  rewrite <- !Zle_Qle. lia.
Qed.

Lemma hQ_whole k e x :
  (0 <= k)%Z → ∃ m : Z, (hQ e x * pow2 k == inject_Z m)%Q.
Proof.
  intros Hk. unfold hQ. eexists. rewrite (pow2_Z k Hk), <- inject_Z_mult.
  reflexivity.
Qed.

(** The cells closed so far are no more than the cells of the grid. *)
Lemma visited_bound g0 rows cols st :
  astar_basic g0 st → shape (grid st) rows cols →
  length (visitedNodesInOrder st) ≤ rows * cols.
Proof.
  intros (Hfr & Hnd & _ & Hvp & _) Hsh. apply bounded_length; [done|].
  intros p Hp. apply (shape_inGrid _ _ _ p Hsh), (frame_inGrid _ _ _ Hfr).
  by apply passable_inGrid, Hvp.
Qed.

(** The two sums of a relaxation from [cur] are the real sums. *)
Lemma relax_sums k top g0 rows cols e cur st v nb c dc w :
  sumsFit k top rows cols → exactWeights k top g0 → weightsOk g0 →
  shape (grid st) rows cols → frame g0 (grid st) →
  length (visitedNodesInOrder st) ≤ rows * cols →
  exactFrom k top cur st →
  cell (grid st) cur = Some c → distance c = Fin dc →
  cell (grid st) v = Some nb → isWall nb = false →
  num_or1 (weight nb) = Fin w → inGrid (grid st) e →
  num_add (Fin dc) (Fin w) = Fin (dc + w) ∧
  num_add (Fin (dc + w)) (Fin (hQ e v)) = Fin (dc + w + hQ e v) ∧
  (∃ m : Z, ((dc + w) * pow2 k == inject_Z m)%Q) ∧
  (0 <= dc + w)%Q ∧
  (dc + w <= inject_Z (top * Z.of_nat
                         (length (visitedNodesInOrder st))))%Q.
Proof.
  intros (Hk & Htop & Hfit) Hex Hwt Hsh Hfr Hlen
         (c' & d & m & Hc' & Hd' & Hm & H0 & Hroom) Hc Hdc Hv Hw Hor He.
  rewrite Hc in Hc'. injection Hc' as <-.
  rewrite Hdc in Hd'. injection Hd' as <-.
  destruct (frame_cell _ _ _ _ (frame_sym _ _ Hfr) Hv) as (n0 & Hn0 & Hst0).
  assert (Hw0 : isWall n0 = false) by (unfold static in Hst0; congruence).
  assert (Hwe : weight nb = weight n0) by (unfold static in Hst0; congruence).
  destruct (exactWeights_cell k top g0 v n0 Hex Hn0 Hw0)
    as (q & mw & Hq & Hmw & Hqtop).
  destruct (weightsOk_cell g0 v n0 Hwt Hn0 Hw0) as (w' & Hw' & Hw1 & Hor').
  assert (w' = q) as -> by congruence.
  assert (w = q) as -> by congruence.
  set (N := length (visitedNodesInOrder st)) in *.
  set (B := (top * Z.of_nat (rows * cols) + Z.of_nat (rows + cols))%Z) in *.
  assert (HN : (inject_Z (top * Z.of_nat N)
                <= inject_Z (top * Z.of_nat (rows * cols)))%Q).
  { rewrite <- Zle_Qle. nia. }
  assert (HB : (inject_Z B == inject_Z (top * Z.of_nat (rows * cols))
                              + inject_Z (Z.of_nat (rows + cols)))%Q).
  { unfold B. by rewrite inject_Z_plus. }
  pose proof (shape_inGrid _ _ _ e Hsh) as Hine. apply Hine in He as [? ?].
  assert (Hinv : v.1 < rows ∧ v.2 < cols).
  { apply (shape_inGrid _ _ _ v Hsh). by eexists. }
  destruct Hinv as [? ?].
  destruct (hQ_bound rows cols e v) as [Hh0 Hh1]; try done.
  destruct (hQ_whole k e v) as [mh Hmh]; [lia|].
  assert (Hsum0 : (0 <= q + 0)%Q) by lra.
  destruct (num_add_exact k B dc q m mw) as [Hs1 Hm1]; try done; try lra.
  destruct (num_add_exact k B (dc + q) (hQ e v) (m + mw) mh)
    as [Hs2 _]; try done; try lra.
  split; [done|]. split; [done|]. split; [by eexists|]. split; lra.
Qed.

Lemma relax_exactFrom k top e cur st v st' :
  cur ∈ closedSet st → exactFrom k top cur st →
  relax e cur st v = Some st' → exactFrom k top cur st'.
Proof.
  intros Hcur Hx H.
  apply relax_cases in H as [[-> _]|[[-> _]|H]]; [done|done|].
  destruct H as (nb & c & en & q & _ & Hv & _ & _ & _ & _ & _ & ->).
  destruct Hx as (c' & d & m & Hc' & Hrest). exists c', d, m. simpl.
  split; [|done]. rewrite cell_upd_ne; [done|congruence].
Qed.

Lemma relax_exact k top g0 rows cols e cur st v st' :
  sumsFit k top rows cols → exactWeights k top g0 → weightsOk g0 →
  shape (grid st) rows cols → frame g0 (grid st) →
  length (visitedNodesInOrder st) ≤ rows * cols →
  exactFrom k top cur st → astar_exact k top st →
  relax e cur st v = Some st' → astar_exact k top st'.
Proof.
  intros Hfit Hex Hwt Hsh Hfr Hlen Hx Hst H.
  apply relax_cases in H as [[-> _]|[[-> _]|H]]; [done|done|].
  destruct H as (nb & c & en & q & Hv & Hvc & Hw & Hc & He & Hq & Hlt & ->).
  pose proof Hx as (c' & dc & m & Hc' & Hdc & _).
  rewrite Hc in Hc'. injection Hc' as <-.
  destruct (frame_cell _ _ _ _ (frame_sym _ _ Hfr) Hv) as (n0 & Hn0 & Hst0).
  assert (Hw0 : isWall n0 = false) by (unfold static in Hst0; congruence).
  destruct (weightsOk_cell g0 v n0 Hwt Hn0 Hw0) as (w & Hwn & _ & Hor).
  assert (Hor' : num_or1 (weight nb) = Fin w)
    by (unfold static in Hst0; congruence).
  destruct (relax_sums k top g0 rows cols e cur st v nb c dc w)
    as (Hs1 & _ & [m' Hm'] & H0 & Hle); try done; [by eexists|].
  rewrite Hdc, Hor', Hs1 in Hq. injection Hq as <-.
  intros x Hx'. simpl in *.
  destruct (decide (x = v)) as [->|Hxv].
  - exists (improve (Fin (dc + w)) (heuristic nb en) cur nb), (dc + w)%Q, m'.
    split; [by apply cell_upd_eq|done].
  - destruct (Hst x) as (n & d & md & Hn & Hrest).
    { destruct Hx' as [?|Hx']; [by left|]. right.
      destruct (bool_decide _); [done|].
      apply elem_of_app in Hx' as [?|Hx']; [done|].
      apply list_elem_of_singleton in Hx'. congruence. }
    exists n, d, md. split; [|done]. rewrite cell_upd_ne; [done|congruence].
Qed.

Lemma relax_mono k top g0 rows cols e cur st v st' :
  sumsFit k top rows cols → exactWeights k top g0 →
  length (visitedNodesInOrder st) ≤ rows * cols → exactFrom k top cur st →
  shape (grid st) rows cols → frame g0 (grid st) → weightsOk g0 →
  adjacent cur v → cur ∈ closedSet st →
  astar_mono e st →
  (∀ u, u ∈ closedSet st → (fQ (grid st) u <= fQ (grid st) cur)%Q) →
  relax e cur st v = Some st' →
  astar_mono e st' ∧
  (∀ u, u ∈ closedSet st' → (fQ (grid st') u <= fQ (grid st') cur)%Q).
Proof.
  intros Hfit Hex Hlen Hxf Hsh Hfr Hwt Hadj Hcur [Hc2 Hc6] Hc6' H.
  apply relax_cases in H as [[-> _]|[[-> _]|H]]; [done|done|].
  destruct H as (nb & c & en & q & Hv & Hc & Hw & Hcc & He & Hq & Hlt & ->).
  unfold astar_mono. simpl.
  destruct (Hc2 cur) as (c' & dc & fc & Hc' & Hdc & Hfc & Hfeq); [by left|].
  rewrite Hcc in Hc'. injection Hc' as <-.
  destruct (frame_cell _ _ _ _ (frame_sym _ _ Hfr) Hv) as (n0 & Hn0 & Hst0).
  assert (Hw0 : isWall n0 = false) by (unfold static in Hst0; congruence).
  destruct (weightsOk_cell g0 v n0 Hwt Hn0 Hw0) as (w & Hwn & Hw1 & Hor).
  assert (Hwnb : num_or1 (weight nb) = Fin w)
    by (unfold static in Hst0; congruence).
  destruct (relax_sums k top g0 rows cols e cur st v nb c dc w)
    as (Hs1 & Hs2 & _); try done; [by eexists|].
  rewrite Hdc, Hwnb, Hs1 in Hq. injection Hq as <-.
  rewrite (heuristic_hQ _ _ _ e v nb en Hsh Hv He).
  set (nv := improve (Fin (dc + w)) (Fin (hQ e v)) cur nb).
  set (g1 := upd (improve (Fin (dc + w)) (Fin (hQ e v)) cur) v (grid st)).
  assert (Hnv : cell g1 v = Some nv) by (by apply cell_upd_eq).
  assert (Hne : cur ≠ v) by congruence.
  assert (Hfv : fQ g1 v = (dc + w + hQ e v)%Q).
  { apply (fQ_cell _ _ nv); [done|exact Hs2]. }
  assert (Hfold : ∀ x, x ≠ v → fQ g1 x = fQ (grid st) x).
  { intros x Hx. unfold fQ, g1. by rewrite key_upd_ne. }
  assert (Hfcur : fQ (grid st) cur = fc) by (by apply (fQ_cell _ _ c)).
  assert (Hbound : (fc <= dc + w + hQ e v)%Q).
  { pose proof (hQ_adjacent e cur v Hadj). lra. }
  assert (Hopen : ∀ x,
    x ∈ (if bool_decide (v ∈ openList st) then openList st
         else openList st ++ [v]) → x = v ∨ x ∈ openList st).
  { intros x. destruct (bool_decide _); [auto|].
    rewrite elem_of_app, list_elem_of_singleton. tauto. }
  split; [split|].
  - intros x Hx. destruct (decide (x = v)) as [->|Hxv].
    + exists nv, (dc + w)%Q, (dc + w + hQ e v)%Q.
      split_and!; [done|done|exact Hs2|done].
    + destruct (Hc2 x) as (n & d & f & Hn & Hd & Hf & Heq).
      { destruct Hx as [?|Hx]; [by left|].
        apply Hopen in Hx as [?|?]; [done|by right]. }
      exists n, d, f. split; [|done]. unfold g1.
      rewrite cell_upd_ne; [done|congruence].
  - intros u x Hu Hx. rewrite (Hfold u) by congruence.
    apply Hopen in Hx as [->|Hx].
    + rewrite Hfv. specialize (Hc6' u Hu). rewrite Hfcur in Hc6'. lra.
    + destruct (decide (x = v)) as [->|Hxv].
      * rewrite Hfv. specialize (Hc6' u Hu). rewrite Hfcur in Hc6'. lra.
      * rewrite (Hfold x Hxv). by apply Hc6.
  - intros u Hu. rewrite (Hfold u), (Hfold cur) by congruence.
    by apply Hc6'.
Qed.

Lemma relax_frame g0 e cur st v st' :
  frame g0 (grid st) → relax e cur st v = Some st' → frame g0 (grid st').
Proof.
  intros Hfr H. apply relax_cases in H as [[-> _]|[[-> _]|H]]; [done|done|].
  destruct H as (nb & c & en & q & _ & _ & _ & _ & _ & _ & _ & ->). simpl.
  apply frame_upd_r; [apply static_improve|done].
Qed.

Lemma relax_shape e cur st v st' rows cols :
  shape (grid st) rows cols → relax e cur st v = Some st' →
  shape (grid st') rows cols.
Proof.
  intros Hsh H. apply relax_cases in H as [[-> _]|[[-> _]|H]]; [done|done|].
  destruct H as (nb & c & en & q & _ & _ & _ & _ & _ & _ & _ & ->). simpl.
  apply shape_upd; [apply shape_improve|done].
Qed.

Lemma relax_closedSet e cur st v st' :
  relax e cur st v = Some st' → closedSet st' = closedSet st.
Proof.
  intros H. apply relax_cases in H as [[-> _]|[[-> _]|H]]; [done|done|].
  by destruct H as (nb & c & en & q & _ & _ & _ & _ & _ & _ & _ & ->).
Qed.

Lemma forOf_relax_mono k top g0 rows cols e cur nbs st st' :
  sumsFit k top rows cols → exactWeights k top g0 →
  length (visitedNodesInOrder st) ≤ rows * cols → exactFrom k top cur st →
  shape (grid st) rows cols → frame g0 (grid st) → weightsOk g0 →
  (∀ v, v ∈ nbs → adjacent cur v) → cur ∈ closedSet st →
  astar_mono e st →
  (∀ u, u ∈ closedSet st → (fQ (grid st) u <= fQ (grid st) cur)%Q) →
  forOf (relax e cur) nbs st = Some st' →
  astar_mono e st'.
Proof.
  intros Hfit Hex Hlen Hxf Hsh Hfr Hwt Hadj Hcur Hm Hc6' H.
  apply (forOf_inv_in (relax e cur)
    (λ _ st, (length (visitedNodesInOrder st) ≤ rows * cols ∧
              exactFrom k top cur st) ∧
             shape (grid st) rows cols ∧ frame g0 (grid st) ∧
             cur ∈ closedSet st ∧ astar_mono e st ∧
             (∀ u, u ∈ closedSet st →
                   (fQ (grid st) u <= fQ (grid st) cur)%Q))
    nbs st st'); [|done|done].
  intros done v st1 st2 Hv ([Hlen1 Hxf1] & Hsh1 & Hfr1 & Hcur1 & Hm1 & Hc1) Hr.
  split.
  { split; [|by eapply relax_exactFrom].
    by rewrite (relax_visited _ _ _ _ _ Hr). }
  split; [by eapply relax_shape|]. split; [by eapply relax_frame|].
  split; [by rewrite (relax_closedSet _ _ _ _ _ Hr)|].
  eapply (relax_mono k top); try done. by apply Hadj.
Qed.

Lemma forOf_relax_exact k top g0 rows cols e cur nbs st st' :
  sumsFit k top rows cols → exactWeights k top g0 → weightsOk g0 →
  shape (grid st) rows cols → frame g0 (grid st) →
  length (visitedNodesInOrder st) ≤ rows * cols →
  cur ∈ closedSet st → exactFrom k top cur st → astar_exact k top st →
  forOf (relax e cur) nbs st = Some st' → astar_exact k top st'.
Proof.
  intros Hfit Hex Hwt Hsh Hfr Hlen Hcur Hxf Hst H.
  cut (length (visitedNodesInOrder st') ≤ rows * cols ∧
       exactFrom k top cur st' ∧
       shape (grid st') rows cols ∧ frame g0 (grid st') ∧
       cur ∈ closedSet st' ∧ astar_exact k top st'); [tauto|].
  eapply (forOf_inv (relax e cur)
    (λ _ st, length (visitedNodesInOrder st) ≤ rows * cols ∧
             exactFrom k top cur st ∧
             shape (grid st) rows cols ∧ frame g0 (grid st) ∧
             cur ∈ closedSet st ∧ astar_exact k top st))
    with (done := []); [|done|exact H].
  intros done v st1 st2 (Hlen1 & Hxf1 & Hsh1 & Hfr1 & Hcur1 & Hst1) Hr.
  split; [by rewrite (relax_visited _ _ _ _ _ Hr)|].
  split; [by eapply relax_exactFrom|].
  split; [by eapply relax_shape|]. split; [by eapply relax_frame|].
  split; [by rewrite (relax_closedSet _ _ _ _ _ Hr)|].
  by eapply (relax_exact k top g0 rows cols).
Qed.

Lemma close_exact k top st cur rest :
  (0 <= top)%Z → astar_exact k top st → cur :: rest ≡ₚ openList st →
  astar_exact k top (close cur rest st) ∧
  exactFrom k top cur (close cur rest st).
Proof.
  intros Htop Hst Hperm.
  assert (Hgrow : ∀ d,
    (d <= inject_Z (top * Z.of_nat (length (visitedNodesInOrder st))))%Q →
    (d + inject_Z top
     <= inject_Z (top * Z.of_nat
                    (length (visitedNodesInOrder st ++ [cur]))))%Q).
  { intros d Hd. rewrite length_app. simpl.
    replace (top * Z.of_nat (length (visitedNodesInOrder st) + 1))%Z
      with (top * Z.of_nat (length (visitedNodesInOrder st)) + top)%Z by lia.
    rewrite inject_Z_plus. lra. }
  assert (H0 : (0 <= inject_Z top)%Q).
  { change 0%Q with (inject_Z 0). by rewrite <- Zle_Qle. }
  assert (Hcell : ∀ x n, cell (grid st) x = Some n →
    ∃ n', cell (upd markVisited cur (grid st)) x = Some n' ∧
          distance n' = distance n).
  { intros x n Hn. destruct (decide (cur = x)) as [->|Hne].
    - exists (markVisited n). split; [by apply cell_upd_eq|done].
    - exists n. split; [by rewrite cell_upd_ne|done]. }
  split.
  - intros x Hx.
    destruct (Hst x) as (n & d & m & Hn & Hd & Hm & Hd0 & Hle).
    { rewrite <- Hperm, elem_of_cons.
      destruct Hx as [Hx|Hx]; [|tauto].
      apply elem_of_union in Hx as [->%elem_of_singleton|?]; tauto. }
    destruct (Hcell x n Hn) as (n' & Hn' & Hd'). simpl.
    exists n', d, m. split; [done|]. split; [congruence|].
    split; [done|]. split; [done|]. specialize (Hgrow d Hle). lra.
  - destruct (Hst cur) as (n & d & m & Hn & Hd & Hm & Hd0 & Hle).
    { right. rewrite <- Hperm. by left. }
    destruct (Hcell cur n Hn) as (n' & Hn' & Hd'). simpl.
    exists n', d, m. split; [done|]. split; [congruence|].
    split; [done|]. split; [done|]. by apply Hgrow.
Qed.

Lemma skip_exact k top st cur rest :
  astar_exact k top st → cur :: rest ≡ₚ openList st →
  astar_exact k top (skip rest st).
Proof.
  intros Hst Hperm x Hx. simpl in *. apply Hst.
  destruct Hx as [?|Hx]; [by left|]. right. rewrite <- Hperm. by right.
Qed.

Lemma body_exact k top g0 rows cols e st st' :
  sumsFit k top rows cols → exactWeights k top g0 → weightsOk g0 →
  shape (grid st) rows cols → astar_basic g0 st → astar_exact k top st →
  body e st = Some (inl st') → astar_exact k top st'.
Proof.
  intros Hfit Hex Hwt Hsh Hb Hst Hbody.
  apply body_cases in Hbody as [[_ [=]]|Hbody].
  destruct Hbody as (cur & rest & c & Hsort & Hperm & Hmin & Hcur & Hbody).
  destruct Hbody
    as [[Hskip [= ->]]|(Hw & Hc & [[_ [=]]|(q & Hq & [[_ [=]]|Hbody])])].
  { by eapply skip_exact. }
  destruct Hbody as (Hne & nbs & st2 & Hnbs & Hfor & [= ->]).
  pose proof (close_basic g0 st cur rest c Hb Hperm Hcur Hw Hc) as Hb1.
  assert (Hsh1 : shape (grid (close cur rest st)) rows cols)
    by (apply shape_upd; [apply shape_markVisited|done]).
  destruct (close_exact k top st cur rest) as [Hst1 Hxf1];
    [by destruct Hfit as (_ & ? & _)|done|done|].
  eapply (forOf_relax_exact k top g0 rows cols); try done.
  - by destruct Hb1.
  - by eapply visited_bound.
  - simpl. apply elem_of_union_l. by apply elem_of_singleton.
Qed.

Lemma init_exact k top g s e st :
  init g s e = Some st → astar_exact k top st.
Proof.
  intros Hi.
  apply init_fields in Hi as (HO & HC & HV & sn & en & Hs & He & Hg).
  intros x. rewrite HO, HC, HV, Hg.
  intros [Hx|Hx]; [by apply elem_of_empty in Hx|].
  apply list_elem_of_singleton in Hx as ->.
  exists (initStart (heuristic sn en) sn), 0%Q, 0%Z.
  split; [by apply cell_upd_eq|]. simpl. split; [done|].
  split; [by rewrite Qmult_0_l|]. split; [lra|].
  rewrite Z.mul_0_r. apply Qle_refl.
Qed.

Lemma close_mono e st cur rest :
  astar_mono e st → cur :: rest ≡ₚ openList st →
  (∀ w, w ∈ rest → before (grid st) cur w) →
  astar_mono e (close cur rest st) ∧
  (∀ u, u ∈ closedSet (close cur rest st) →
        (fQ (grid (close cur rest st)) u
         <= fQ (grid (close cur rest st)) cur)%Q).
Proof.
  intros [Hc2 Hc6] Hperm Hmin. unfold astar_mono. simpl.
  assert (Hkey : ∀ x, fQ (upd markVisited cur (grid st)) x = fQ (grid st) x).
  { intros x. unfold fQ. by rewrite key_upd_keep. }
  assert (Hmem : ∀ x, x ∈ {[cur]} ∪ closedSet st ∨ x ∈ rest →
                      x ∈ closedSet st ∨ x ∈ openList st).
  { intros x. rewrite <- Hperm, elem_of_cons, elem_of_union, elem_of_singleton.
    tauto. }
  assert (Hcur : ∀ x, x ∈ rest → (fQ (grid st) cur <= fQ (grid st) x)%Q).
  { intros x Hx.
    destruct (Hc2 cur) as (n & d & f & Hn & _ & Hf & _);
      [right; rewrite <- Hperm; by left|].
    destruct (Hc2 x) as (n' & d' & f' & Hn' & _ & Hf' & _);
      [right; rewrite <- Hperm; by right|].
    rewrite (fQ_cell _ _ _ _ Hn Hf), (fQ_cell _ _ _ _ Hn' Hf').
    apply (before_le (grid st) cur x); [by apply Hmin| |].
    - by rewrite (key_cell _ _ _ Hn).
    - by rewrite (key_cell _ _ _ Hn'). }
  split; [split|].
  - intros x Hx. destruct (Hc2 x (Hmem x Hx)) as (n & d & f & Hn & Hd & Hf & Heq).
    destruct (decide (cur = x)) as [->|Hne].
    + exists (markVisited n), d, f. split; [by apply cell_upd_eq|done].
    + exists n, d, f. split; [by rewrite cell_upd_ne|done].
  - intros u x. rewrite !Hkey, elem_of_union, elem_of_singleton.
    intros [->|Hu] Hx; [by apply Hcur|].
    apply Hc6; [done|]. rewrite <- Hperm. by right.
  - intros u. rewrite !Hkey, elem_of_union, elem_of_singleton.
    intros [->|Hu]; [lra|]. apply Hc6; [done|]. rewrite <- Hperm. by left.
Qed.

Lemma skip_mono e st cur rest :
  astar_mono e st → cur :: rest ≡ₚ openList st →
  astar_mono e (skip rest st).
Proof.
  intros [Hc2 Hc6] Hperm. split; simpl.
  - intros x [?|Hx]; apply Hc2; [by left|]. right. rewrite <- Hperm. by right.
  - intros u x Hu Hx. apply Hc6; [done|]. rewrite <- Hperm. by right.
Qed.

(** The neighbours handed to the inner loop are one move away. *)
Lemma getNeighbors_adjacent g rows cols cur c nbs v :
  shape g rows cols → inGrid g cur → (row c, col c) = cur →
  getNeighbors c g = Some nbs → v ∈ nbs →
  adjacent cur v ∧ inGrid g v.
Proof.
  intros Hsh Hin Hc Hnbs Hv. unfold getNeighbors in Hnbs.
  rewrite (fourNeighbors_at _ rows cols cur) in Hnbs by done.
  injection Hnbs as <-.
  pose proof (proj1 (shape_inGrid _ _ _ cur Hsh) Hin) as [? ?].
  apply around_spec in Hv as (? & ? & ?); [|done|done].
  split; [done|]. by apply (shape_inGrid g rows cols).
Qed.

Lemma body_mono k top g0 rows cols e st st' :
  sumsFit k top rows cols → exactWeights k top g0 →
  astar_basic g0 st → astar_exact k top st →
  shape (grid st) rows cols → frame g0 (grid st) → weightsOk g0 →
  astar_mono e st → body e st = Some (inl st') → astar_mono e st'.
Proof.
  intros Hfit Hex Hbas Hxst Hsh Hfr Hwt Hm Hb.
  apply body_cases in Hb as [[_ [=]]|Hb].
  destruct Hb as (cur & rest & c & Hsort & Hperm & Hmin & Hcur & Hb).
  destruct Hb as [[Hskip [= ->]]|(Hw & Hc & [[_ [=]]|(q & Hq & [[_ [=]]|Hb])])].
  { by eapply skip_mono. }
  destruct Hb as (Hne & nbs & st2 & Hnbs & Hfor & [= ->]).
  destruct (close_mono e st cur rest Hm Hperm Hmin) as [Hm1 Hc1].
  assert (Hsh1 : shape (grid (close cur rest st)) rows cols)
    by (apply shape_upd; [apply shape_markVisited|done]).
  pose proof (close_basic g0 st cur rest c Hbas Hperm Hcur Hw Hc) as Hb1.
  destruct (close_exact k top st cur rest) as [_ Hxf1];
    [by destruct Hfit as (_ & ? & _)|done|done|].
  eapply (forOf_relax_mono k top g0 rows cols); try done.
  - by eapply visited_bound.
  - simpl. apply frame_upd_r; [apply static_markVisited|done].
  - intros v Hv.
    apply (getNeighbors_adjacent _ rows cols cur c nbs v Hsh1); try done.
    + apply (shape_inGrid _ rows cols); [done|].
      apply (shape_inGrid (grid st) rows cols); [done|by eexists].
    + by apply (shape_place (grid st) rows cols).
  - simpl. apply elem_of_union_l. by apply elem_of_singleton.
Qed.

Lemma body_shape e st st' rows cols :
  shape (grid st) rows cols → body e st = Some (inl st') →
  shape (grid st') rows cols.
Proof.
  intros Hsh Hb. apply body_cases in Hb as [[_ [=]]|Hb].
  destruct Hb as (cur & rest & c & Hsort & Hperm & Hmin & Hcur & Hb).
  destruct Hb as [[Hskip [= ->]]|(Hw & Hc & [[_ [=]]|(q & Hq & [[_ [=]]|Hb])])];
    [done|].
  destruct Hb as (Hne & nbs & st2 & Hnbs & Hfor & [= ->]).
  destruct (forOf_relax_keeps _ _ _ _ _ rows cols Hfor) as (_ & _ & _ & H).
  apply H. simpl. apply shape_upd; [apply shape_markVisited|done].
Qed.

Lemma body_frame g0 e st st' :
  frame g0 (grid st) → body e st = Some (inl st') → frame g0 (grid st').
Proof.
  intros Hfr Hb. apply body_cases in Hb as [[_ [=]]|Hb].
  destruct Hb as (cur & rest & c & Hsort & Hperm & Hmin & Hcur & Hb).
  destruct Hb as [[Hskip [= ->]]|(Hw & Hc & [[_ [=]]|(q & Hq & [[_ [=]]|Hb])])];
    [done|].
  destruct Hb as (Hne & nbs & st2 & Hnbs & Hfor & [= ->]).
  eapply (forOf_inv (relax e cur) (λ _ st2, frame g0 (grid st2)))
    with (done := []); [| |exact Hfor].
  - intros _ v st3 st4 H3 Hr. by eapply relax_frame.
  - simpl. apply frame_upd_r; [apply static_markVisited|done].
Qed.

Lemma init_mono g rows cols s e st :
  shape g rows cols → init g s e = Some st → astar_mono e st.
Proof.
  intros Hsh Hi.
  apply init_fields in Hi as (HO & HC & _ & sn & en & Hs & He & Hg).
  split; rewrite HO, HC, ?Hg.
  - intros x [Hx|Hx]; [by apply elem_of_empty in Hx|].
    apply list_elem_of_singleton in Hx as ->.
    exists (initStart (heuristic sn en) sn), 0%Q, (hQ e s).
    split; [by apply cell_upd_eq|]. simpl. split; [done|].
    split; [by apply (heuristic_hQ g rows cols)|lra].
  - intros u x Hu. by apply elem_of_empty in Hu.
Qed.

(** An iteration leaves the priority of every cell closed after it as
    it was. *)
Lemma body_frozen e st st' u :
  body e st = Some (inl st') → u ∈ closedSet st' →
  key (grid st') u = key (grid st) u.
Proof.
  intros Hb. apply body_cases in Hb as [[_ [=]]|Hb].
  destruct Hb as (cur & rest & c & Hsort & Hperm & Hmin & Hcur & Hb).
  destruct Hb as [[Hskip [= ->]]|(Hw & Hc & [[_ [=]]|(q & Hq & [[_ [=]]|Hb])])];
    [done|].
  destruct Hb as (Hne & nbs & st2 & Hnbs & Hfor & [= ->]).
  intros Hu.
  assert (H : closedSet st2 = closedSet (close cur rest st) ∧
              ∀ u, u ∈ closedSet (close cur rest st) →
                   key (grid st2) u = key (grid (close cur rest st)) u).
  { eapply (forOf_inv (relax e cur)
      (λ _ st2, closedSet st2 = closedSet (close cur rest st) ∧
                ∀ u, u ∈ closedSet (close cur rest st) →
                     key (grid st2) u = key (grid (close cur rest st)) u))
      with (done := []); [|done|exact Hfor].
    intros _ v st3 st4 [Hcl Hk] Hr. split.
    - by rewrite (relax_closedSet _ _ _ _ _ Hr).
    - intros w Hw'. rewrite <- (Hk w Hw').
      apply relax_cases in Hr as [[-> _]|[[-> _]|H]]; [done|done|].
      destruct H as (nb & c' & en & q' & _ & Hv & _ & _ & _ & _ & _ & ->).
      simpl. apply key_upd_ne. rewrite Hcl in Hv. congruence. }
  destruct H as [Hcl Hk]. rewrite Hcl in Hu. rewrite (Hk u Hu). simpl.
  by apply key_upd_keep.
Qed.

Lemma body_closedSet_mono e st st' u :
  body e st = Some (inl st') → u ∈ closedSet st → u ∈ closedSet st'.
Proof.
  intros Hb. apply body_cases in Hb as [[_ [=]]|Hb].
  destruct Hb as (cur & rest & c & Hsort & Hperm & Hmin & Hcur & Hb).
  destruct Hb as [[Hskip [= ->]]|(Hw & Hc & [[_ [=]]|(q & Hq & [[_ [=]]|Hb])])];
    [done|].
  destruct Hb as (Hne & nbs & st2 & Hnbs & Hfor & [= ->]).
  destruct (forOf_relax_keeps _ _ _ _ _ 0 0 Hfor) as (_ & -> & _).
  simpl. intros ?. by apply elem_of_union_r.
Qed.

(** What an iteration selects. *)
Lemma selected_cases e st out :
  body e st = Some out →
  (selected e st = [] ∧
   match out with
   | inl st' => visitedNodesInOrder st' = visitedNodesInOrder st ∧
                closedSet st' = closedSet st ∧ grid st' = grid st
   | inr r => r.1 = visitedNodesInOrder st
   end) ∨
  (∃ cur, selected e st = [(cur, key (grid st) cur)] ∧
          cur ∈ openList st ∧
          match out with
          | inl st' => visitedNodesInOrder st'
                       = visitedNodesInOrder st ++ [cur] ∧
                       cur ∈ closedSet st'
          | inr r => r.1 = visitedNodesInOrder st ++ [cur]
          end).
Proof.
  intros Hb. unfold selected. rewrite Hb.
  apply body_cases in Hb as [[_ ->]|Hb].
  { left. simpl. by rewrite drop_all. }
  destruct Hb as (cur & rest & c & Hsort & Hperm & Hmin & Hcur & Hb).
  assert (Hin : cur ∈ openList st) by (rewrite <- Hperm; by left).
  destruct Hb as [[Hskip ->]|(Hw & Hc & [[_ ->]|(q & Hq & [[_ ->]|Hb])])].
  - left. simpl. by rewrite drop_all.
  - left. simpl. by rewrite drop_all.
  - right. exists cur. simpl. by rewrite drop_app_length.
  - destruct Hb as (Hne & nbs & st2 & Hnbs & Hfor & ->).
    destruct (forOf_relax_keeps _ _ _ _ _ 0 0 Hfor) as (Hv & Hcl & _).
    right. exists cur. rewrite Hv, Hcl. simpl. rewrite drop_app_length.
    split_and!; try done. apply elem_of_union_l. by apply elem_of_singleton.
Qed.

(** The visitation order grows by the selections. *)
Lemma selections_visited e fuel st vis g' :
  while (body e) fuel st = Returns (vis, g') →
  vis = visitedNodesInOrder st ++ (selections fuel e st).*1.
Proof.
  revert st. induction fuel as [|fuel IH]; intros st; simpl; [done|].
  destruct (body e st) as [[st'|r]|] eqn:Hb; [| |done].
  - intros H. apply IH in H as ->. rewrite fmap_app, app_assoc. f_equal.
    apply selected_cases in Hb as [[-> (-> & _)]|(cur & -> & _ & -> & _)];
      simpl; [by rewrite app_nil_r|done].
  - intros [= ->]. rewrite app_nil_r.
    apply selected_cases in Hb as [[-> Hr]|(cur & -> & _ & Hr)];
      simpl in *; [by rewrite app_nil_r|done].
Qed.

Lemma selections_sorted k top g0 rows cols e fuel st :
  sumsFit k top rows cols → exactWeights k top g0 → weightsOk g0 →
  astar_basic g0 st → astar_exact k top st →
  shape (grid st) rows cols → frame g0 (grid st) → astar_mono e st →
  StronglySorted (λ a b, num_le a.2 b.2) (selections fuel e st) ∧
  ∀ a, a ∈ selections fuel e st →
       ∃ f, a.2 = Fin f ∧
            ∀ u, u ∈ closedSet st → (fQ (grid st) u <= f)%Q.
Proof.
  intros Hfit Hex Hwt. revert st.
  induction fuel as [|fuel IH]; intros st Hbas Hxst Hsh Hfr Hm.
  { simpl. split; [constructor|]. intros a Ha. by apply elem_of_nil in Ha. }
  simpl. destruct (body e st) as [out|] eqn:Hb.
  2: { unfold selected. rewrite Hb, drop_nil. simpl. split; [constructor|].
       intros a Ha. by apply elem_of_nil in Ha. }
  pose proof Hm as [Hc2 Hc6].
  assert (Hsel : ∀ cur, cur ∈ openList st →
    ∃ f, key (grid st) cur = Fin f ∧
         ∀ u, u ∈ closedSet st → (fQ (grid st) u <= f)%Q).
  { intros cur Hcur.
    destruct (Hc2 cur) as (n & d & f & Hn & _ & Hf & _); [by right|].
    exists f. split; [by rewrite (key_cell _ _ _ Hn)|].
    intros u Hu. rewrite <- (fQ_cell _ _ _ _ Hn Hf). by apply Hc6. }
  destruct out as [st'|r].
  - pose proof (body_shape e st st' rows cols Hsh Hb) as Hsh'.
    pose proof (body_frame g0 e st st' Hfr Hb) as Hfr'.
    pose proof (body_mono k top g0 rows cols e st st'
                  Hfit Hex Hbas Hxst Hsh Hfr Hwt Hm Hb) as Hm'.
    pose proof (body_basic g0 e st st' Hbas Hb) as Hbas'.
    pose proof (body_exact k top g0 rows cols e st st'
                  Hfit Hex Hwt Hsh Hbas Hxst Hb) as Hxst'.
    destruct (IH st' Hbas' Hxst' Hsh' Hfr' Hm') as [Hsorted Hall].
    apply selected_cases in Hb as Hcases.
    destruct Hcases as [[-> (_ & Hcl & Hg)]|(cur & -> & Hcur & _ & Hcl)]; simpl.
    + split; [done|]. intros a Ha. destruct (Hall a Ha) as (f & Hf & Hle).
      exists f. split; [done|]. intros u Hu. rewrite <- Hg. apply Hle.
      by rewrite Hcl.
    + destruct (Hsel cur Hcur) as (f & Hf & Hle). split.
      * apply StronglySorted_cons. split; [|done].
        apply Forall_forall. intros a Ha. simpl.
        destruct (Hall a Ha) as (fa & -> & Hfa). rewrite Hf. simpl.
        specialize (Hfa cur Hcl). unfold fQ in Hfa.
        by rewrite (body_frozen e st st' cur Hb Hcl), Hf in Hfa.
      * intros a [->|Ha]%elem_of_cons; [by exists f|].
        destruct (Hall a Ha) as (fa & Hfa & Hle'). exists fa.
        split; [done|]. intros u Hu.
        pose proof (body_closedSet_mono e st st' u Hb Hu) as Hu'.
        specialize (Hle' u Hu'). unfold fQ in *.
        by rewrite (body_frozen e st st' u Hb Hu') in Hle'.
  - rewrite app_nil_r.
    apply selected_cases in Hb as [[-> _]|(cur & -> & Hcur & _)].
    + split; [constructor|]. intros a Ha. by apply elem_of_nil in Ha.
    + destruct (Hsel cur Hcur) as (f & Hf & Hle). split.
      * repeat constructor.
      * intros a ->%list_elem_of_singleton. by exists f.
Qed.

End AstarMono.

(** C5, as the code has it.  On a well-formed grid whose non-wall cells
    have weights at least 1 that are whole multiples of [2^-j] and small
    enough for every sum of the run to be a double ([exactSums]), the
    f-values read as [astar] shifts each cell off the open list and
    appends it to the visitation order never decrease along the run; the
    cells so selected are the visitation order the run returns. *)
Theorem astar_f_nondecreasing (g : Grid) (s e : ref) (fuel : nat)
        (st0 : Astar.state) (j top : Z) :
  wf_grid g → weightsOk g → exactSums j top g →
  Astar.init g s e = Some st0 →
  StronglySorted (λ a b, num_le a.2 b.2) (selections fuel e st0) ∧
  (∀ a, a ∈ selections fuel e st0 → ∃ f, a.2 = Fin f) ∧
  (∀ vis g', Astar.astar fuel g s e = Returns (vis, g') →
             (selections fuel e st0).*1 = vis).
Proof.
  intros Hwf Hwt [Hfit Hex] Hi.
  pose proof Hi as (HO & HC & HV & sn & en & Hs & He & Hg)%init_fields.
  assert (Hsh : shape g (length g) (ncols g))
    by (eapply wf_grid_shape; [done|by eexists]).
  assert (Hsh0 : shape (Astar.grid st0) (length g) (ncols g))
    by (rewrite Hg; by apply shape_upd).
  assert (Hfr0 : frame g (Astar.grid st0))
    by (rewrite Hg; by apply frame_upd).
  pose proof (init_mono g _ _ s e st0 Hsh Hi) as Hm.
  pose proof (init_basic g s e st0 Hi) as Hbas.
  pose proof (init_exact j top g s e st0 Hi) as Hxst.
  destruct (selections_sorted j top g _ _ e fuel st0
              Hfit Hex Hwt Hbas Hxst Hsh0 Hfr0 Hm) as [Hsorted Hall].
  split; [done|]. split.
  - intros a Ha. destruct (Hall a Ha) as (f & Hf & _). by exists f.
  - intros vis g'. unfold Astar.astar. rewrite Hi. intros Hrun.
    apply selections_visited in Hrun. by rewrite HV in Hrun.
Qed.

(** Counterexample to C5 as stated for every weight at least 1.  On
    [roundRow], with reset scratch fields, the second cell is selected
    with f = [2^53 + 3] rounded to [2^53 + 4], the third with g =
    [2^53 + 1] rounded to [2^53] and f = [2^53 + 2]: the f-values
    decrease. *)
Lemma astar_f_counterexample :
  wf_grid roundRow ∧ weightsOk roundRow ∧ resetDistance roundRow ∧
  prevNull roundRow ∧ unvisited roundRow ∧
  ∃ st0,
    Astar.init roundRow (0, 0) (0, 4) = Some st0 ∧
    selections (enoughFuel roundRow) (0, 4) st0
    = [ ((0, 0), Fin 4);
        ((0, 1), Fin (inject_Z (2 ^ 53 + 4)));
        ((0, 2), Fin (inject_Z (2 ^ 53 + 2)));
        ((0, 3), Fin (inject_Z (2 ^ 53)));
        ((0, 4), Fin (inject_Z (2 ^ 53))) ] ∧
    ¬ StronglySorted (λ a b, num_le a.2 b.2)
                     (selections (enoughFuel roundRow) (0, 4) st0).
Proof.
  split; [split; repeat constructor|].
  split; [repeat constructor; simpl; intros _; by vm_compute|].
  split; [repeat constructor|]. split; [repeat constructor|].
  split; [repeat constructor|].
  pose (st0 := Astar.mkState
                 (upd (Astar.initStart
                         (Astar.heuristic (plain 0 0) (plain 0 4)))
                      (0, 0) roundRow)
                 [(0, 0)] ∅ []).
  exists st0. split; [reflexivity|].
  assert (Hsel : selections (enoughFuel roundRow) (0, 4) st0
                 = [ ((0, 0), Fin 4);
                     ((0, 1), Fin (inject_Z (2 ^ 53 + 4)));
                     ((0, 2), Fin (inject_Z (2 ^ 53 + 2)));
                     ((0, 3), Fin (inject_Z (2 ^ 53)));
                     ((0, 4), Fin (inject_Z (2 ^ 53))) ])
    by (vm_compute; reflexivity).
  split; [exact Hsel|]. rewrite Hsel. intros H.
  apply StronglySorted_inv in H as [H _].
  apply StronglySorted_inv in H as [_ H].
  apply Forall_cons_1 in H as [H _]. vm_compute in H. by apply H.
Qed.

(** ** Path costs *)

Section PathCost.
Implicit Types (g : Grid) (s x y : ref) (l t : list ref).

Lemma passable_weight g x :
  weightsOk g → passable g x →
  ∃ w, weightAt g x = Fin w ∧ (1 <= w)%Q.
Proof.
  intros Hwt Hx. unfold weightAt.
  destruct (passable_inGrid _ _ Hx) as [n Hn]. rewrite Hn. simpl.
  apply (passable_cell _ _ _ Hn) in Hx.
  destruct (weightsOk_cell g x n Hwt Hn Hx) as (w & Hw & Hw1 & _).
  exists w. by rewrite <- Hw.
Qed.

Lemma wQ_ge_1 g x : weightsOk g → passable g x → (1 <= wQ g x)%Q.
Proof.
  intros Hwt Hx. destruct (passable_weight g x Hwt Hx) as (w & Hw & Hw1).
  unfold wQ. by rewrite Hw.
Qed.

Lemma cost_foldr g t a :
  weightsOk g → Forall (passable g) t →
  ∃ q, foldr (λ p acc, num_plus (weightAt g p) acc) (Fin a) t = Fin q ∧
       (q == foldr (λ p acc, wQ g p + acc) 0 t + a)%Q.
Proof.
  intros Hwt. induction 1 as [|x t Hx Ht IH]; simpl.
  - exists a. split; [done|lra].
  - destruct IH as (q & -> & Hq).
    destruct (passable_weight g x Hwt Hx) as (w & Hw & _).
    assert (HwQ : wQ g x = w) by (unfold wQ; by rewrite Hw).
    rewrite Hw, HwQ. simpl. exists (w + q)%Q. split; [done|lra].
Qed.

Lemma path_to_Forall g s x l : path_to g s x l → Forall (passable g) l.
Proof. intros H. by apply path_to_is_path in H as (_ & _ & _ & ?). Qed.

Lemma path_cost_finite g s x l :
  weightsOk g → path_to g s x l → ∃ q, path_cost g l = Fin q.
Proof.
  intros Hwt Hl. apply path_to_Forall in Hl.
  destruct (cost_foldr g (tail l) 0 Hwt) as (q & Hq & _).
  - destruct l; [done|]. by apply Forall_cons in Hl as [_ ?].
  - by exists q.
Qed.

Lemma pathQ_single g x : pathQ g [x] = 0%Q.
Proof. done. Qed.

Lemma pathQ_snoc g s x y l :
  weightsOk g → path_to g s x l → passable g y →
  (pathQ g (l ++ [y]) == pathQ g l + wQ g y)%Q.
Proof.
  intros Hwt Hl Hy. pose proof (path_to_last _ _ _ _ Hl) as Hlast.
  apply path_to_Forall in Hl.
  destruct l as [|a t]; [done|].
  apply Forall_cons in Hl as [_ Ht].
  unfold pathQ, path_cost. simpl. rewrite foldr_app. simpl.
  destruct (passable_weight g y Hwt Hy) as (w & Hw & _).
  assert (HwQ : wQ g y = w) by (unfold wQ; by rewrite Hw).
  rewrite Hw, HwQ. simpl.
  destruct (cost_foldr g t (w + 0) Hwt Ht) as (q1 & -> & Hq1).
  destruct (cost_foldr g t 0 Hwt Ht) as (q2 & -> & Hq2).
  simpl. lra.
Qed.

Lemma pathQ_nonneg g s x l :
  weightsOk g → path_to g s x l → (0 <= pathQ g l)%Q.
Proof.
  intros Hwt. induction 1 as [Hs|x y l Hl IH Hadj Hy].
  - rewrite pathQ_single. lra.
  - rewrite (pathQ_snoc g s x y l Hwt Hl Hy).
    pose proof (wQ_ge_1 g y Hwt Hy). lra.
Qed.

Lemma distQ_cell g x n d : cell g x = Some n → distance n = Fin d → distQ g x = d.
Proof. unfold distQ. intros -> Hd. simpl. by rewrite Hd. Qed.

Lemma distQ_upd_ne g f v x : v ≠ x → distQ (upd f v g) x = distQ g x.
Proof. intros. unfold distQ. by rewrite cell_upd_ne. Qed.

Lemma distQ_upd_keep g f v x :
  (∀ n, distance (f n) = distance n) → distQ (upd f v g) x = distQ g x.
Proof.
  intros Hf. unfold distQ. rewrite cell_upd.
  destruct (decide (v = x)); [|done].
  destruct (cell g x); simpl; [by rewrite Hf|done].
Qed.

Lemma frame_wQ g g' x : frame g g' → wQ g x = wQ g' x.
Proof. intros H. unfold wQ. by rewrite (frame_weightAt g g'). Qed.
End PathCost.

(** ** Cheapest paths by A* *)

Section AstarOptimal.
Import Astar.
Implicit Types (st : state) (v : ref).

Lemma chain_improve s st x l v f :
  astar_links s st → v ∉ closedSet st → x ≠ v →
  chain (grid st) x l → chain (upd f v (grid st)) x l.
Proof.
  intros Hlk Hv Hx Hl. apply chain_frame; [done|]. intros Hin.
  destruct (chain_closed s st x l v Hlk Hl Hin); congruence.
Qed.

Lemma Qltb_true x y : Qltb x y = true → (x < y)%Q.
Proof.
  unfold Qltb. destruct (Qle_bool y x) eqn:H; [done|]. intros _.
  apply Qnot_le_lt. intros Hle. apply Qle_bool_iff in Hle. congruence.
Qed.

Lemma Qltb_false x y : Qltb x y = false → (y <= x)%Q.
Proof.
  unfold Qltb. destruct (Qle_bool y x) eqn:H; [|done]. intros _.
  by apply Qle_bool_iff.
Qed.

(** The numbers a relaxation reads. *)
Lemma relax_numbers g0 e cur st v nb c :
  frame g0 (grid st) → weightsOk g0 → astar_mono e st →
  cur ∈ closedSet st →
  cell (grid st) v = Some nb → isWall nb = false →
  cell (grid st) cur = Some c →
  ∃ dc w, distance c = Fin dc ∧ num_or1 (weight nb) = Fin w ∧
          wQ g0 v = w ∧ (1 <= w)%Q ∧ distQ (grid st) cur = dc ∧
          passable g0 v.
Proof.
  intros Hfr Hwt [Hc2 _] Hcur Hv Hw Hc.
  destruct (Hc2 cur) as (c' & dc & fc & Hc' & Hdc & _); [by left|].
  rewrite Hc in Hc'. injection Hc' as <-.
  destruct (frame_cell _ _ _ _ (frame_sym _ _ Hfr) Hv) as (n0 & Hn0 & Hst0).
  assert (Hw0 : isWall n0 = false) by (unfold static in Hst0; congruence).
  destruct (weightsOk_cell g0 v n0 Hwt Hn0 Hw0) as (w & Hwn & Hw1 & Hor).
  exists dc, w. split_and!; try done.
  - unfold static in Hst0. congruence.
  - unfold wQ, weightAt. by rewrite Hn0; simpl; rewrite Hwn.
  - by apply (distQ_cell _ _ c).
  - by apply (passable_cell _ _ _ Hn0).
Qed.

Lemma relax_optimal k top g0 rows cols s e cur done st v st' :
  sumsFit k top rows cols → exactWeights k top g0 →
  length (visitedNodesInOrder st) ≤ rows * cols → exactFrom k top cur st →
  inGrid (grid st) e →
  shape (grid st) rows cols → frame g0 (grid st) → weightsOk g0 →
  adjacent cur v → cur ∈ closedSet st →
  astar_links s st → astar_mono e st →
  astar_optimal g0 s (λ u w, u = cur ∧ w ∉ done) st →
  relax e cur st v = Some st' →
  astar_optimal g0 s (λ u w, u = cur ∧ w ∉ done ++ [v]) st'.
Proof.
  intros Hfit Hxw Hlen Hxf Hine Hsh Hfr Hwt Hadj Hcur Hlk Hm
         (H1 & Htree & H4 & H5 & H7 & H0) H.
  assert (Hex : ∀ u w, ¬ (u = cur ∧ w ∉ done ++ [v]) →
                       ¬ (u = cur ∧ w ∉ done) ∨ (u = cur ∧ w = v)).
  { intros u w Hn. destruct (decide (u = cur)) as [->|]; [|left; tauto].
    destruct (decide (w = v)) as [->|]; [by right|]. left.
    intros [_ Hw]. apply Hn. split; [done|].
    rewrite elem_of_app, list_elem_of_singleton. tauto. }
  assert (Hs : s ∈ closedSet st).
  { destruct Hlk as (_ & _ & [?|[HC _]]); [done|].
    rewrite HC in Hcur. by apply elem_of_empty in Hcur. }
  apply relax_cases in H as [[-> Hskip]|[[-> Hkeep]|H]].
  - (* closed or wall *)
    split_and!; try done. intros u w Hu Huw Hw Hn.
    destruct (Hex u w Hn) as [Hn'|[-> ->]]; [by apply H4|].
    destruct Hskip as (nb & Hv & [?|Hwall]); [by left|].
    apply (frame_passable _ _ _ Hfr) in Hw.
    apply (passable_cell _ _ _ Hv) in Hw. congruence.
  - (* no improvement *)
    destruct Hkeep as (nb & c & Hv & Hvc & Hw & Hc & Hlt).
    destruct (relax_numbers g0 e cur st v nb c) as
      (dc & w & Hdc & Hor & HwQ & Hw1 & Hdcur & Hpass); try done.
    destruct (relax_sums k top g0 rows cols e cur st v nb c dc w)
      as (Hs1 & _); try done.
    rewrite Hdc, Hor, Hs1 in Hlt.
    destruct (distance nb) as [dv|] eqn:Hdv; [|done]. simpl in Hlt.
    apply Qltb_false in Hlt.
    split_and!; try done. intros u w' Hu Huw Hw' Hn.
    destruct (Hex u w' Hn) as [Hn'|[-> ->]]; [by apply H4|].
    right. split.
    + destruct (H1 v nb dv Hv Hdv); done.
    + rewrite (distQ_cell _ _ _ _ Hv Hdv), Hdcur, HwQ. done.
  - (* improvement *)
    destruct H as (nb & c & en & q & Hv & Hvc & Hw & Hc & He & Hq & Hlt & ->).
    destruct (relax_numbers g0 e cur st v nb c) as
      (dc & w & Hdc & Hor & HwQ & Hw1 & Hdcur & Hpass); try done.
    destruct (relax_sums k top g0 rows cols e cur st v nb c dc w)
      as (Hs1 & _); try done.
    rewrite Hdc, Hor, Hs1 in Hq. injection Hq as <-.
    unfold astar_optimal. simpl.
    set (g1 := upd (improve (Fin (dc + w)) (heuristic nb en) cur) v (grid st)).
    assert (Hnv : cell g1 v
                  = Some (improve (Fin (dc + w)) (heuristic nb en) cur nb))
      by (by apply cell_upd_eq).
    assert (Hne : cur ≠ v) by congruence.
    assert (Hsv : s ≠ v) by congruence.
    assert (Hdv : distQ g1 v = (dc + w)%Q) by (by eapply distQ_cell).
    assert (Hdold : ∀ x, x ≠ v → distQ g1 x = distQ (grid st) x).
    { intros x Hx. unfold g1. by rewrite distQ_upd_ne. }
    assert (Hopen : ∀ x, x ∈ openList st →
      x ∈ (if bool_decide (v ∈ openList st) then openList st
           else openList st ++ [v])).
    { intros x Hx. destruct (bool_decide _); [done|]. apply elem_of_app; auto. }
    assert (Hopen' : ∀ x,
      x ∈ (if bool_decide (v ∈ openList st) then openList st
           else openList st ++ [v]) → x = v ∨ x ∈ openList st).
    { intros x. destruct (bool_decide _); [auto|].
      rewrite elem_of_app, list_elem_of_singleton. tauto. }
    assert (Hvopen : v ∈ (if bool_decide (v ∈ openList st) then openList st
                          else openList st ++ [v])).
    { destruct (bool_decide (v ∈ openList st)) eqn:Hb.
      - by apply bool_decide_eq_true in Hb.
      - apply elem_of_app. right. by apply list_elem_of_singleton. }
    assert (Hless : ∀ dv, distance nb = Fin dv → (dc + w <= dv)%Q).
    { intros dv Hdv'. rewrite Hdv' in Hlt. simpl in Hlt.
      apply Qltb_true in Hlt. lra. }
    pose proof Hlk as (_ & Hch & _).
    split_and!.
    + intros x n d. unfold g1. rewrite cell_upd.
      destruct (decide (v = x)) as [<-|Hxv]; [by auto|].
      intros Hn Hd. destruct (H1 x n d Hn Hd); auto.
    + intros x l Hx Hl. destruct (decide (x = v)) as [->|Hxv].
      * destruct (Hch cur) as (lc & Hlc & _); [by left|].
        destruct (Htree cur lc) as [Hp Hcost]; [by left|done|].
        assert (Hl' : chain g1 v (lc ++ [v])).
        { eapply chain_link; [exact Hnv|done|].
          by apply (chain_improve s). }
        rewrite (chain_functional _ _ _ _ Hl Hl'). split.
        -- by apply path_step with (x := cur).
        -- rewrite (pathQ_snoc g0 s cur v lc Hwt Hp Hpass), Hdv, HwQ, Hcost.
           by rewrite Hdcur.
      * assert (Hx' : x ∈ closedSet st ∨ x ∈ openList st).
        { destruct Hx as [?|Hx]; [by left|].
          apply Hopen' in Hx as [?|?]; [done|by right]. }
        destruct (Hch x Hx') as (l0 & Hl0 & _).
        rewrite (chain_functional _ _ _ _ Hl
                   (chain_improve s st x l0 v _ Hlk Hvc Hxv Hl0)).
        rewrite (Hdold x Hxv). by apply Htree.
    + intros u w' Hu Huw Hw' Hn.
      assert (Huv : u ≠ v) by congruence.
      rewrite (Hdold u Huv).
      destruct (Hex u w' Hn) as [Hn'|[-> ->]].
      * destruct (H4 u w' Hu Huw Hw' Hn') as [?|[Hin Hle]]; [by left|].
        right. split; [by apply Hopen|].
        destruct (decide (w' = v)) as [->|Hwv]; [|by rewrite (Hdold w' Hwv)].
        rewrite Hdv. destruct Hm as [Hc2 _].
        destruct (Hc2 v) as (nb' & dv & _ & Hnb' & Hdv' & _); [by right|].
        rewrite Hv in Hnb'. injection Hnb' as <-.
        rewrite (distQ_cell _ _ _ _ Hv Hdv') in Hle.
        specialize (Hless dv Hdv'). lra.
      * right. split; [done|]. rewrite Hdv, Hdcur, HwQ. lra.
    + intros u l Hu Hl. rewrite (Hdold u) by congruence. by apply H5.
    + left. done.
    + by rewrite (Hdold s Hsv).
Qed.

Lemma forOf_relax_optimal k top g0 rows cols s e cur nbs st st' :
  sumsFit k top rows cols → exactWeights k top g0 →
  length (visitedNodesInOrder st) ≤ rows * cols → exactFrom k top cur st →
  inGrid (grid st) e →
  shape (grid st) rows cols → frame g0 (grid st) → weightsOk g0 →
  (∀ v, v ∈ nbs → adjacent cur v) → cur ∈ closedSet st →
  astar_links s st → astar_mono e st →
  (∀ u, u ∈ closedSet st → (fQ (grid st) u <= fQ (grid st) cur)%Q) →
  astar_optimal g0 s (λ u w, u = cur ∧ w ∉ []) st →
  forOf (relax e cur) nbs st = Some st' →
  astar_optimal g0 s (λ u w, u = cur ∧ w ∉ nbs) st'.
Proof.
  intros Hfit Hxw Hlen Hxf Hine Hsh Hfr Hwt Hadj Hcur Hlk Hm Hc6' Hopt H.
  apply (forOf_inv_in (relax e cur)
    (λ done st, (length (visitedNodesInOrder st) ≤ rows * cols ∧
                 exactFrom k top cur st ∧ inGrid (grid st) e) ∧
             shape (grid st) rows cols ∧ frame g0 (grid st) ∧
             cur ∈ closedSet st ∧ astar_links s st ∧ astar_mono e st ∧
             (∀ u, u ∈ closedSet st →
                   (fQ (grid st) u <= fQ (grid st) cur)%Q) ∧
             astar_optimal g0 s (λ u w, u = cur ∧ w ∉ done) st)
    nbs st st'); [|done|done].
  intros done v st1 st2 Hv
         ((Hlen1 & Hxf1 & Hine1) & Hsh1 & Hfr1 & Hcur1 & Hlk1 & Hm1 & Hc1 & Ho1)
         Hr.
  destruct (relax_mono k top g0 rows cols e cur st1 v st2) as [Hm2 Hc2];
    try done; [by apply Hadj|].
  split.
  { split; [by rewrite (relax_visited _ _ _ _ _ Hr)|].
    split; [by eapply relax_exactFrom|].
    apply (shape_inGrid _ rows cols); [by eapply relax_shape|].
    by apply (shape_inGrid (grid st1) rows cols). }
  split; [by eapply relax_shape|]. split; [by eapply relax_frame|].
  split; [by rewrite (relax_closedSet _ _ _ _ _ Hr)|].
  split; [by eapply relax_links|]. split; [done|]. split; [done|].
  eapply (relax_optimal k top); try done. by apply Hadj.
Qed.

(** The cell shifted off the sorted open list has the least f of the
    open cells. *)
Lemma sorted_head_min e st cur rest z :
  astar_mono e st → cur :: rest ≡ₚ openList st →
  (∀ w, w ∈ rest → before (grid st) cur w) → z ∈ openList st →
  (fQ (grid st) cur <= fQ (grid st) z)%Q.
Proof.
  intros [Hc2 _] Hperm Hmin Hz. rewrite <- Hperm in Hz.
  apply elem_of_cons in Hz as [->|Hz]; [lra|].
  destruct (Hc2 cur) as (n & d & f & Hn & _ & Hf & _);
    [right; rewrite <- Hperm; by left|].
  destruct (Hc2 z) as (n' & d' & f' & Hn' & _ & Hf' & _);
    [right; rewrite <- Hperm; by right|].
  rewrite (fQ_cell _ _ _ _ Hn Hf), (fQ_cell _ _ _ _ Hn' Hf').
  apply (before_le (grid st) cur z); [by apply Hmin| |].
  - by rewrite (key_cell _ _ _ Hn).
  - by rewrite (key_cell _ _ _ Hn').
Qed.

Lemma mono_f e st x :
  astar_mono e st → x ∈ closedSet st ∨ x ∈ openList st →
  (fQ (grid st) x == distQ (grid st) x + hQ e x)%Q.
Proof.
  intros [Hc2 _] Hx. destruct (Hc2 x Hx) as (n & d & f & Hn & Hd & Hf & Heq).
  by rewrite (fQ_cell _ _ _ _ Hn Hf), (distQ_cell _ _ _ _ Hn Hd).
Qed.

(** At the head of the loop, a path from the start either ends in a
    closed cell or passes an open cell whose f is at most the cost of
    the path plus the heuristic of its end. *)
Lemma astar_front g0 s e st x l :
  weightsOk g0 → astar_mono e st →
  astar_optimal g0 s (λ _ _, False) st →
  path_to g0 s x l →
  x ∈ closedSet st ∨
  ∃ z, z ∈ openList st ∧ (fQ (grid st) z <= pathQ g0 l + hQ e x)%Q.
Proof.
  intros Hwt Hm (H1 & Htree & H4 & H5 & H7 & H0).
  induction 1 as [Hs|x y l Hl IH Hadj Hy].
  - destruct H7 as [?|Hso]; [by left|]. right. exists s. split; [done|].
    rewrite (mono_f e st s Hm) by (by right). rewrite pathQ_single. lra.
  - pose proof (pathQ_snoc g0 s x y l Hwt Hl Hy) as Hcost.
    pose proof (wQ_ge_1 g0 y Hwt Hy) as Hw.
    pose proof (hQ_adjacent e x y Hadj) as Hh.
    destruct IH as [Hx|(z & Hz & Hle)].
    + destruct (H4 x y Hx Hadj Hy) as [?|[Hyo Hd]]; [tauto|by left|].
      right. exists y. split; [done|].
      rewrite (mono_f e st y Hm) by (by right).
      specialize (H5 x l Hx Hl). lra.
    + right. exists z. split; [done|]. lra.
Qed.

Lemma close_optimal g0 s e st cur rest :
  weightsOk g0 → astar_links s st → astar_mono e st →
  astar_optimal g0 s (λ _ _, False) st →
  cur :: rest ≡ₚ openList st →
  (∀ w, w ∈ rest → before (grid st) cur w) →
  astar_optimal g0 s (λ u w, u = cur ∧ w ∉ []) (close cur rest st).
Proof.
  intros Hwt Hlk Hm Hopt Hperm Hmin.
  pose proof Hopt as (H1 & Htree & H4 & H5 & H7 & H0).
  assert (Hcuro : cur ∈ openList st) by (rewrite <- Hperm; by left).
  assert (Hmem : ∀ x, x ∈ {[cur]} ∪ closedSet st ∨ x ∈ rest ↔
                      x ∈ closedSet st ∨ x ∈ openList st).
  { intros x. rewrite <- Hperm, elem_of_cons, elem_of_union, elem_of_singleton.
    tauto. }
  assert (Hd : ∀ x, distQ (upd markVisited cur (grid st)) x = distQ (grid st) x).
  { intros x. by apply distQ_upd_keep. }
  unfold astar_optimal. simpl. split_and!.
  - intros x n q. rewrite Hmem, cell_upd.
    destruct (decide (cur = x)) as [->|Hne]; [|by apply H1].
    destruct (cell (grid st) x) as [m|] eqn:Hm'; simpl; [|done].
    intros [= <-]. simpl. by apply H1.
  - intros x l. rewrite Hmem, Hd. intros Hx Hl.
    destruct Hlk as (_ & Hch & _). destruct (Hch x Hx) as (l0 & Hl0 & _).
    rewrite (chain_functional _ _ _ _ Hl
               (chain_upd _ _ _ cur markVisited ltac:(done) Hl0)).
    by apply Htree.
  - intros u v. rewrite !Hd, elem_of_union, elem_of_singleton.
    intros [->|Hu] Huv Hv Hn.
    + destruct Hn. split; [done|apply not_elem_of_nil].
    + destruct (H4 u v Hu Huv Hv) as [?|[Hvo Hle]];
        [tauto|left; by apply elem_of_union_r|].
      rewrite <- Hperm in Hvo. apply elem_of_cons in Hvo as [->|?].
      * left. apply elem_of_union_l. by apply elem_of_singleton.
      * right. by split.
  - intros u l. rewrite Hd, elem_of_union, elem_of_singleton.
    intros [->|Hu] Hl; [|by apply H5].
    destruct (astar_front g0 s e st cur l Hwt Hm Hopt Hl) as [Hc|(z & Hz & Hle)].
    + by apply H5.
    + pose proof (sorted_head_min e st cur rest z Hm Hperm Hmin Hz).
      pose proof (mono_f e st cur Hm (or_intror Hcuro)). lra.
  - apply Hmem. done.
  - by rewrite Hd.
Qed.

Lemma skip_optimal g0 s st cur rest c :
  astar_links s st →
  astar_optimal g0 s (λ _ _, False) st →
  cur :: rest ≡ₚ openList st → cell (grid st) cur = Some c →
  isWall c = true ∨ cur ∈ closedSet st →
  frame g0 (grid st) →
  astar_optimal g0 s (λ _ _, False) (skip rest st).
Proof.
  intros Hlk (H1 & Htree & H4 & H5 & H7 & H0) Hperm Hc Hskip Hfr.
  assert (Hcuro : cur ∈ openList st) by (rewrite <- Hperm; by left).
  assert (Hcur : cur ∈ closedSet st).
  { destruct Hskip as [Hw|?]; [|done]. exfalso.
    destruct Hlk as (_ & Hch & _).
    destruct (Hch cur) as (l & Hl & _); [by right|].
    destruct (Htree cur l) as [Hp _]; [by right|done|].
    apply path_to_passable, (frame_passable _ _ _ Hfr) in Hp.
    apply (passable_cell _ _ _ Hc) in Hp. congruence. }
  assert (Hmem : ∀ x, x ∈ closedSet st ∨ x ∈ openList st →
                      x ∈ closedSet st ∨ x ∈ rest).
  { intros x. rewrite <- Hperm, elem_of_cons. intros [?|[->|?]]; auto. }
  assert (Hmem' : ∀ x, x ∈ closedSet st ∨ x ∈ rest →
                       x ∈ closedSet st ∨ x ∈ openList st).
  { intros x. rewrite <- Hperm, elem_of_cons. tauto. }
  unfold astar_optimal. simpl. split_and!; try done.
  - intros x n q Hn Hq. apply Hmem. by eapply H1.
  - intros x l Hx. apply Htree. by apply Hmem'.
  - intros u v Hu Huv Hv Hn.
    destruct (H4 u v Hu Huv Hv Hn) as [?|[Hvo Hle]]; [by left|].
    destruct (Hmem v (or_intror Hvo)) as [?|?]; [by left|by right].
  - by apply Hmem.
Qed.

Lemma body_optimal k top g0 rows cols s e st st' :
  sumsFit k top rows cols → exactWeights k top g0 →
  astar_basic g0 st → astar_exact k top st → inGrid (grid st) e →
  weightsOk g0 → shape (grid st) rows cols → frame g0 (grid st) →
  astar_links s st → astar_mono e st →
  astar_optimal g0 s (λ _ _, False) st →
  body e st = Some (inl st') →
  astar_optimal g0 s (λ _ _, False) st'.
Proof.
  intros Hfit Hxw Hbas Hxst Hine Hwt Hsh Hfr Hlk Hm Hopt Hb.
  apply body_cases in Hb as [[_ [=]]|Hb].
  destruct Hb as (cur & rest & c & Hsort & Hperm & Hmin & Hcur & Hb).
  destruct Hb as [[Hskip [= ->]]|(Hw & Hc & [[_ [=]]|(q & Hq & [[_ [=]]|Hb])])].
  { by eapply skip_optimal. }
  destruct Hb as (Hne & nbs & st2 & Hnbs & Hfor & [= ->]).
  destruct (close_mono e st cur rest Hm Hperm Hmin) as [Hm1 Hc1].
  assert (Hsh1 : shape (grid (close cur rest st)) rows cols)
    by (apply shape_upd; [apply shape_markVisited|done]).
  pose proof (close_basic g0 st cur rest c Hbas Hperm Hcur Hw Hc) as Hb1.
  destruct (close_exact k top st cur rest) as [_ Hxf1];
    [by destruct Hfit as (_ & ? & _)|done|done|].
  assert (Hine1 : inGrid (grid (close cur rest st)) e).
  { apply (shape_inGrid _ rows cols); [done|].
    by apply (shape_inGrid (grid st) rows cols). }
  assert (Hin1 : inGrid (grid (close cur rest st)) cur).
  { apply (shape_inGrid _ rows cols); [done|].
    apply (shape_inGrid (grid st) rows cols); [done|by eexists]. }
  assert (Hpl : (row c, col c) = cur)
    by (by apply (shape_place (grid st) rows cols)).
  assert (Hopt2 : astar_optimal g0 s (λ u w, u = cur ∧ w ∉ nbs) st2).
  { eapply (forOf_relax_optimal k top g0 rows cols s e cur nbs); try done.
    - by eapply visited_bound.
    - simpl. apply frame_upd_r; [apply static_markVisited|done].
    - intros v Hv.
      by apply (getNeighbors_adjacent _ rows cols cur c nbs v Hsh1).
    - simpl. apply elem_of_union_l. by apply elem_of_singleton.
    - by apply close_links.
    - by apply (close_optimal g0 s e). }
  destruct Hopt2 as (H1 & Htree & H4 & H5 & H7 & H0).
  split_and!; try done. intros u v Hu Huv Hv _. apply H4; try done.
  intros [-> Hnv]. apply Hnv.
  unfold getNeighbors in Hnbs.
  rewrite (fourNeighbors_at _ rows cols cur) in Hnbs by done.
  injection Hnbs as <-.
  pose proof (proj1 (shape_inGrid _ _ _ cur Hsh1) Hin1) as [? ?].
  apply around_spec; [done|done|]. split; [done|].
  apply (shape_inGrid (grid st) rows cols); [done|].
  apply (frame_inGrid _ _ _ Hfr). by apply passable_inGrid.
Qed.

Lemma resetDistance_cell g p n :
  resetDistance g → cell g p = Some n → distance n = Infinity.
Proof.
  unfold resetDistance, cell. intros H Hn.
  destruct (g !! p.1) as [rw|] eqn:Hr; simpl in Hn; [|done].
  rewrite Forall_lookup in H. specialize (H _ _ Hr).
  rewrite Forall_lookup in H. by eapply H.
Qed.

Lemma init_optimal g s e st :
  resetDistance g → prevNull g → passable g s → init g s e = Some st →
  astar_optimal g s (λ _ _, False) st.
Proof.
  intros Hreset Hnull Hs Hi.
  apply init_fields in Hi as (HO & HC & _ & sn & en & Hsn & He & Hg).
  unfold astar_optimal. rewrite HO, HC, Hg.
  assert (Hcs : cell (upd (initStart (heuristic sn en)) s g) s
                = Some (initStart (heuristic sn en) sn))
    by (by apply cell_upd_eq).
  split_and!.
  - intros x n q. rewrite cell_upd.
    destruct (decide (s = x)) as [->|Hne]; [intros _ _; right; by left|].
    intros Hn Hq. by rewrite (resetDistance_cell g x n) in Hq.
  - intros x l [Hx|Hx]; [by apply elem_of_empty in Hx|].
    apply list_elem_of_singleton in Hx as ->. intros Hl.
    assert (Hl' : chain (upd (initStart (heuristic sn en)) s g) s [s]).
    { eapply chain_root; [exact Hcs|]. simpl.
      by apply (prevNull_cell g s). }
    rewrite (chain_functional _ _ _ _ Hl Hl').
    split; [by apply path_start|].
    rewrite pathQ_single, (distQ_cell _ _ _ 0 Hcs); done.
  - intros u v Hu. by apply elem_of_empty in Hu.
  - intros u l Hu. by apply elem_of_empty in Hu.
  - right. by left.
  - by rewrite (distQ_cell _ _ _ 0 Hcs).
Qed.

(** The run of A* towards a reachable end: it reaches the end, and the
    predecessor chain of the end is a cheapest path, of cost the g of
    the end. *)
Lemma astar_run_cheapest k top g s e fuel :
  wf_grid g → weightsOk g → exactSums k top g →
  resetDistance g → prevNull g →
  (∃ l, is_path g s e l) → enoughFuel g ≤ fuel →
  ∃ vis g' l d,
    astar fuel g s e = Returns (vis, g') ∧ last vis = Some e ∧
    chain g' e l ∧ is_path g s e l ∧
    distance <$> cell g' e = Some (Fin d) ∧ (pathQ g l == d)%Q ∧
    ∀ l', is_path g s e l' → (pathQ g l <= pathQ g l')%Q.
Proof.
  intros Hwf Hwt [Hfit Hxw] Hreset Hnull [l0 Hl0] Hfuel.
  apply is_path_path_to in Hl0.
  assert (Hs : passable g s) by (clear -Hl0; induction Hl0; done).
  pose proof (passable_inGrid _ _ Hs) as Hsin.
  pose proof (passable_inGrid _ _ (path_to_passable _ _ _ _ Hl0)) as Hein.
  destruct (astar_returns g s e fuel Hwf Hsin Hein Hfuel) as [[vis g'] Hrun].
  exists vis, g'.
  pose proof (wf_grid_shape _ _ Hwf Hsin) as Hsh.
  cut (last vis = Some e ∧
       ∃ l d, chain g' e l ∧ path_to g s e l ∧
              distance <$> cell g' e = Some (Fin d) ∧ (pathQ g l == d)%Q ∧
              ∀ l', path_to g s e l' → (pathQ g l <= pathQ g l')%Q).
  { intros (Hlast & l & d & Hl & Hp & Hd & Hcost & Hmin). exists l, d.
    split_and!; try done; [by apply path_to_is_path|].
    intros l' Hl'. by apply Hmin, is_path_path_to. }
  revert Hrun. unfold astar.
  destruct (init g s e) as [st0|] eqn:Hi; [|done].
  apply (while_inv (body e)
    (λ st, (astar_basic g st ∧ astar_exact k top st) ∧
           shape (grid st) (length g) (ncols g) ∧
           (astar_links s st ∧ e ∉ closedSet st) ∧ astar_mono e st ∧
           astar_optimal g s (λ _ _, False) st)
    (λ r, last r.1 = Some e ∧
          ∃ l d, chain r.2 e l ∧ path_to g s e l ∧
                 distance <$> cell r.2 e = Some (Fin d) ∧
                 (pathQ g l == d)%Q ∧
                 ∀ l', path_to g s e l' → (pathQ g l <= pathQ g l')%Q)).
  - intros st st' ([Hb Hxst] & Hsh' & Hlk & Hm & Hopt) Hbody.
    pose proof Hb as (Hfr & _).
    assert (Hine : inGrid (grid st) e).
    { apply (shape_inGrid _ _ _ e Hsh'), (shape_inGrid _ _ _ e Hsh), Hein. }
    split; [split; [by eapply body_basic|by eapply body_exact]|].
    split; [by eapply body_shape|].
    split; [by eapply body_links|]. split; [by eapply (body_mono k top)|].
    eapply (body_optimal k top); try done. by destruct Hlk.
  - intros st [vis' g''] ([Hb Hxst] & Hsh' & [Hlk He] & Hm & Hopt) Hbody. simpl.
    apply exit_basic with (g0 := g) in Hbody as [(HO & _ & _)|Hx]; [| |done].
    + destruct (astar_front g s e st e l0 Hwt Hm Hopt Hl0)
        as [?|(z & Hz & _)]; [done|].
      rewrite HO in Hz. by apply elem_of_nil in Hz.
    + destruct Hx as (rest & c & Hperm & Hmin & Hc & Hw & Hcl & -> & ->). simpl.
      split; [by rewrite last_snoc|].
      assert (Heo : e ∈ openList st) by (rewrite <- Hperm; by left).
      pose proof Hlk as (_ & Hch & _).
      destruct (Hch e) as (l & Hl & _); [by right|].
      pose proof Hopt as (_ & Htree & _).
      destruct (Htree e l) as [Hp Hcost]; [by right|done|].
      pose proof Hm as [Hc2 _].
      destruct (Hc2 e) as (c' & d & f & Hc' & Hd & Hf & Heq); [by right|].
      rewrite Hc in Hc'. injection Hc' as <-.
      exists l, d. split_and!.
      * by apply chain_upd.
      * done.
      * by rewrite (cell_upd_eq _ _ _ c Hc); simpl; rewrite Hd.
      * by rewrite Hcost, (distQ_cell _ _ _ _ Hc Hd).
      * intros l' Hl'. rewrite Hcost.
        destruct (astar_front g s e st e l' Hwt Hm Hopt Hl')
          as [?|(z & Hz & Hle)]; [done|].
        pose proof (sorted_head_min e st e rest z Hm Hperm Hmin Hz).
        pose proof (mono_f e st e Hm (or_intror Heo)).
        assert (hQ e e == 0)%Q.
        { unfold hQ. rewrite !Z.sub_diag. done. }
        lra.
  - pose proof Hi as (_ & HC & _ & sn & en & _ & _ & Hg)%init_fields.
    split; [split; [by eapply init_basic|by eapply init_exact]|].
    split; [rewrite Hg; by apply shape_upd|].
    split; [by apply (init_links g)|].
    split; [by eapply init_mono|]. by apply (init_optimal g s e).
Qed.

End AstarOptimal.

(** ** Cheapest path of A* *)

Lemma path_cost_pathQ g s x l :
  weightsOk g → is_path g s x l → path_cost g l = Fin (pathQ g l).
Proof.
  intros Hwt Hl. apply is_path_path_to in Hl.
  destruct (path_cost_finite g s x l Hwt Hl) as [q Hq].
  unfold pathQ. by rewrite Hq.
Qed.

(** C1, as the code has it.  On a well-formed grid whose non-wall cells
    have weights at least 1 that are whole multiples of [2^-j] and small
    enough for every sum of the run to be a double ([exactSums]), and
    whose [distance] and [previousNode] fields are reset, if some path of
    non-wall cells leads from start to end, then [astar] returns having
    reached end, and the predecessor walk from end returns a path from
    start to end whose total cost is the least of all such paths. *)
Theorem astar_cheapest_path (g : Grid) (s e : ref) (fuel : nat)
        (j top : Z) :
  wf_grid g → weightsOk g → exactSums j top g →
  resetDistance g → prevNull g →
  (∃ l, is_path g s e l) → enoughFuel g ≤ fuel →
  ∃ vis g' l,
    Astar.astar fuel g s e = Returns (vis, g') ∧ last vis = Some e ∧
    (∀ k, length l ≤ k →
          Bfs.getNodesInShortestPathOrder k g' e = Returns l) ∧
    is_path g s e l ∧
    ∀ l', is_path g s e l' → num_le (path_cost g l) (path_cost g l').
Proof.
  intros Hwf Hwt Hx Hreset Hnull Hpath Hfuel.
  destruct (astar_run_cheapest j top g s e fuel
              Hwf Hwt Hx Hreset Hnull Hpath Hfuel)
    as (vis & g' & l & d & Hrun & Hlast & Hl & Hp & _ & _ & Hmin).
  exists vis, g', l. split_and!; try done.
  - intros k Hk. by apply chain_getNodes.
  - intros l' Hl'.
    rewrite (path_cost_pathQ g s e l Hwt Hp), (path_cost_pathQ g s e l' Hwt Hl').
    simpl. by apply Hmin.
Qed.

(** Counterexample to C1 as stated for every weight at least 1.  On
    [roundGrid] the sums [2^53 + 1] are rounded to [2^53]: [astar] reaches
    the end along the bottom row, a path of cost [2^53 + 2], although the
    way along the top row costs [2^53 + 1].  On [overflowRow] the cost of
    the only path is beyond the largest double: the sum is [Infinity], the
    test [tentativeG < neighbor.distance] fails, and [astar] returns
    without having reached the end. *)
Lemma astar_rounding_counterexample :
  (wf_grid roundGrid ∧ weightsOk roundGrid ∧ resetDistance roundGrid ∧
   prevNull roundGrid ∧
   ∃ vis g',
     Astar.astar (enoughFuel roundGrid) roundGrid (0, 0) (1, 2)
     = Returns (vis, g') ∧
     last vis = Some (1, 2) ∧
     Bfs.getNodesInShortestPathOrder 4 g' (1, 2)
     = Returns [(0, 0); (1, 0); (1, 1); (1, 2)] ∧
     is_path roundGrid (0, 0) (1, 2) [(0, 0); (0, 1); (0, 2); (1, 2)] ∧
     ¬ num_le (path_cost roundGrid [(0, 0); (1, 0); (1, 1); (1, 2)])
              (path_cost roundGrid [(0, 0); (0, 1); (0, 2); (1, 2)])) ∧
  (wf_grid overflowRow ∧ weightsOk overflowRow ∧
   resetDistance overflowRow ∧ prevNull overflowRow ∧
   is_path overflowRow (0, 0) (0, 2) [(0, 0); (0, 1); (0, 2)] ∧
   ∃ g', Astar.astar (enoughFuel overflowRow) overflowRow (0, 0) (0, 2)
         = Returns ([(0, 0); (0, 1)], g')).
Proof.
  split.
  - split; [split; repeat constructor|].
    split; [repeat constructor; simpl; intros _; by vm_compute|].
    split; [repeat constructor|]. split; [repeat constructor|].
    eexists _, _. split; [vm_compute; reflexivity|].
    split; [reflexivity|]. split; [vm_compute; reflexivity|]. split.
    + split; [reflexivity|]. split; [reflexivity|].
      split; [|repeat constructor]. simpl.
      split; [left; simpl; auto|]. split; [left; simpl; auto|].
      split; [right; simpl; auto|exact I].
    + intros H. vm_compute in H. by apply H.
  - split; [split; repeat constructor|].
    split; [repeat constructor; simpl; intros _; by vm_compute|].
    split; [repeat constructor|]. split; [repeat constructor|]. split.
    + split; [reflexivity|]. split; [reflexivity|].
      split; [|repeat constructor]. simpl.
      split; [left; simpl; auto|]. split; [left; simpl; auto|exact I].
    + eexists. vm_compute. reflexivity.
Qed.

(** ** BFS and A* on unit weights *)

Lemma unitWeights_weightsOk g : unitWeights g → weightsOk g.
Proof.
  unfold unitWeights, weightsOk. intros H.
  eapply Forall_impl; [exact H|]. intros rw Hrw. simpl in *.
  eapply Forall_impl; [exact Hrw|]. intros n Hn Hw. simpl in *.
  rewrite (Hn Hw). simpl. lra.
Qed.

Lemma unitWeights_wQ g x : unitWeights g → passable g x → wQ g x = 1%Q.
Proof.
  intros Hu Hx. destruct (passable_inGrid _ _ Hx) as [n Hn].
  apply (passable_cell _ _ _ Hn) in Hx.
  unfold unitWeights, cell in *.
  destruct (g !! x.1) as [rw|] eqn:Hr; simpl in Hn; [|done].
  rewrite Forall_lookup in Hu. specialize (Hu _ _ Hr).
  rewrite Forall_lookup in Hu. specialize (Hu _ _ Hn Hx).
  unfold wQ, weightAt, cell. rewrite Hr. simpl. rewrite Hn. simpl.
  by rewrite Hu.
Qed.

Lemma unitWeights_exactWeights g : unitWeights g → exactWeights 0 1 g.
Proof.
  unfold unitWeights, exactWeights. intros H.
  eapply Forall_impl; [exact H|]. intros rw Hrw. simpl in *.
  eapply Forall_impl; [exact Hrw|]. intros n Hn Hw. simpl in *.
  rewrite (Hn Hw). simpl. split; [reflexivity|]. apply Qle_refl.
Qed.

Lemma pathQ_edges g s x l :
  unitWeights g → path_to g s x l →
  (pathQ g l == inject_Z (Z.of_nat (edges l)))%Q.
Proof.
  intros Hu. pose proof (unitWeights_weightsOk g Hu) as Hwt.
  induction 1 as [Hs|x y l Hl IH Hadj Hy].
  - done.
  - rewrite (pathQ_snoc g s x y l Hwt Hl Hy), IH, (unitWeights_wQ g y Hu Hy).
    unfold edges. rewrite length_app. simpl.
    pose proof (path_to_last _ _ _ _ Hl) as Hlast.
    destruct l as [|a l]; [done|]. simpl.
    change 1%Q with (inject_Z 1). rewrite <- inject_Z_plus.
    apply inject_Z_injective. lia.
Qed.

(** C6. On a well-formed grid whose non-wall cells all have weight 1, with
    reset scratch fields and a path from start to end, the number of moves
    of the path reconstructed after [bfs] equals the g of end, and the cost
    of the path reconstructed, after [astar] on the same grid.  The grid
    has fewer than [2^53] cells, rows and columns together, so that the
    sums of ones are doubles. *)
Theorem bfs_astar_agree (g : Grid) (s e : ref) (fuel : nat) :
  wf_grid g → unitWeights g →
  (Z.of_nat (length g * ncols g + (length g + ncols g)) < 2 ^ 53)%Z →
  unvisited g → prevNull g → resetDistance g →
  (∃ l, is_path g s e l) → enoughFuel g ≤ fuel →
  ∃ visB gB lB visA gA lA d,
    Bfs.bfs fuel g s e = Returns (visB, gB) ∧
    (∀ k, length lB ≤ k →
          Bfs.getNodesInShortestPathOrder k gB e = Returns lB) ∧
    Astar.astar fuel g s e = Returns (visA, gA) ∧
    (∀ k, length lA ≤ k →
          Bfs.getNodesInShortestPathOrder k gA e = Returns lA) ∧
    distance <$> cell gA e = Some (Fin d) ∧
    (d == inject_Z (Z.of_nat (edges lB)))%Q ∧
    num_le (path_cost g lA) (Fin (inject_Z (Z.of_nat (edges lB)))) ∧
    num_le (Fin (inject_Z (Z.of_nat (edges lB)))) (path_cost g lA).
Proof.
  intros Hwf Hu Hsmall Hun Hnull Hreset Hpath Hfuel.
  pose proof (unitWeights_weightsOk g Hu) as Hwt.
  assert (Hx : exactSums 0 1 g).
  { split; [|by apply unitWeights_exactWeights].
    split; [lia|]. split; [lia|]. lia. }
  destruct (bfs_run_shortest g s e fuel Hwf Hun Hnull Hpath Hfuel)
    as (visB & gB & lB & HrunB & _ & _ & HlB & HpB & HminB).
  destruct (astar_run_cheapest 0 1 g s e fuel
              Hwf Hwt Hx Hreset Hnull Hpath Hfuel)
    as (visA & gA & lA & d & HrunA & _ & HlA & HpA & Hd & Hcost & HminA).
  exists visB, gB, lB, visA, gA, lA, d.
  pose proof (pathQ_edges g s e lA Hu (is_path_path_to _ _ _ _ HpA)) as HeA.
  pose proof (pathQ_edges g s e lB Hu (is_path_path_to _ _ _ _ HpB)) as HeB.
  specialize (HminA lB HpB). specialize (HminB lA HpA).
  assert (Heq : edges lA = edges lB).
  { assert (Hle : edges lA ≤ edges lB).
    { rewrite HeA, HeB in HminA. rewrite <- Zle_Qle in HminA. lia. }
    unfold edges in *. lia. }
  rewrite Heq in HeA.
  split_and!; try done.
  - intros k Hk. by apply chain_getNodes.
  - intros k Hk. by apply chain_getNodes.
  - by rewrite <- Hcost.
  - rewrite (path_cost_pathQ g s e lA Hwt HpA). simpl. rewrite HeA. lra.
  - rewrite (path_cost_pathQ g s e lA Hwt HpA). simpl. rewrite HeA. lra.
Qed.

(* ===================================================================== *)
(** * Further properties of the searches *)

(** ** Further properties of the predecessor walk *)

Lemma chain_prefix g y l x :
  chain g y l → x ∈ l → ∃ l1 l2, l = l1 ++ l2 ∧ chain g x l1.
Proof.
  induction 1 as [y n Hn Hp|y n z l Hn Hp Hl IH]; intros Hx.
  - apply list_elem_of_singleton in Hx as ->. exists [y], [].
    split; [done|]. by eapply chain_root.
  - apply elem_of_app in Hx as [Hx|Hx].
    + destruct (IH Hx) as (l1 & l2 & -> & Hc). exists l1, (l2 ++ [y]).
      by rewrite <- (assoc_L (++)).
    + apply list_elem_of_singleton in Hx as ->. exists (l ++ [y]), [].
      split; [by rewrite app_nil_r|]. by eapply chain_link.
Qed.

Lemma chain_NoDup g x l : chain g x l → NoDup l.
Proof.
  induction 1 as [x n Hn Hp|x n y l Hn Hp Hl IH].
  - apply NoDup_singleton.
  - apply NoDup_app. split; [done|]. split; [|apply NoDup_singleton].
    intros z Hz ->%list_elem_of_singleton.
    destruct (chain_prefix _ _ _ _ Hl Hz) as (l1 & l2 & -> & Hc).
    pose proof (chain_functional _ _ _ _ Hc
                  (chain_link _ _ _ _ _ Hn Hp Hl)) as Heq.
    apply (f_equal length) in Heq. rewrite !length_app in Heq. simpl in Heq.
    lia.
Qed.

Lemma chain_all_inGrid g x l : chain g x l → Forall (inGrid g) l.
Proof.
  induction 1 as [x n Hn Hp|x n y l Hn Hp Hl IH].
  - apply Forall_singleton. by exists n.
  - apply Forall_app. split; [done|]. apply Forall_singleton. by exists n.
Qed.

(** X1. Whenever [getNodesInShortestPathOrder] returns, its result lists
    no cell twice. *)
Theorem getNodes_no_repeat (g : Grid) (x : ref) (k : nat) (l : list ref) :
  Bfs.getNodesInShortestPathOrder k g x = Returns l → NoDup l.
Proof. intros Hl%getNodes_chain. by eapply chain_NoDup. Qed.

(** X2. In a well-formed grid the neighbour lookup is symmetric and never
    returns the cell itself. *)
Theorem getNeighbors_symmetric (g : Grid) (p q : ref) (n m : Node)
        (lp lq : list ref) :
  wf_grid g → cell g p = Some n → cell g q = Some m →
  Astar.getNeighbors n g = Some lp → Astar.getNeighbors m g = Some lq →
  (q ∈ lp ↔ p ∈ lq) ∧ p ∉ lp.
Proof.
  intros Hwf Hp Hq Hlp Hlq.
  assert (Hsh : shape g (length g) (ncols g)).
  { eapply wf_grid_shape; [done|]. by exists n. }
  unfold Astar.getNeighbors in *.
  rewrite (fourNeighbors_shape _ _ _ _ _ Hsh Hp) in Hlp.
  rewrite (fourNeighbors_shape _ _ _ _ _ Hsh Hq) in Hlq.
  injection Hlp as <-. injection Hlq as <-.
  assert (Hpin : p.1 < length g ∧ p.2 < ncols g).
  { apply (shape_inGrid _ _ _ _ Hsh). by exists n. }
  assert (Hqin : q.1 < length g ∧ q.2 < ncols g).
  { apply (shape_inGrid _ _ _ _ Hsh). by exists m. }
  destruct Hpin, Hqin.
  rewrite !around_spec by done. split.
  - split; intros (Ha & _ & _); (split; [by apply adjacent_sym|done]).
  - intros ([[_ [?|?]]|[_ [?|?]]] & _); lia.
Qed.

(** ** The Manhattan heuristic *)

Lemma hQ_sym a b : hQ a b = hQ b a.
Proof. unfold hQ. f_equal. lia. Qed.

Lemma hQ_refl a : hQ a a = 0%Q.
Proof. unfold hQ. replace (_ + _)%Z with 0%Z by lia. done. Qed.

Lemma hQ_le_path g x e l :
  weightsOk g → path_to g x e l → (hQ e x <= pathQ g l)%Q.
Proof.
  intros Hw. induction 1 as [Hx|y z l Hl IH Hadj Hz].
  - rewrite hQ_refl, pathQ_single. lra.
  - rewrite (pathQ_snoc _ _ _ _ _ Hw Hl Hz).
    pose proof (wQ_ge_1 _ _ Hw Hz).
    pose proof (hQ_adjacent x z y (adjacent_sym _ _ Hadj)) as Hh.
    rewrite (hQ_sym x z), (hQ_sym x y) in Hh. lra.
Qed.

(** X3. The heuristic is admissible: on a well-formed grid whose non-wall
    cells have weight at least 1, the Manhattan distance from a cell to
    the end is no more than the cost of any path between them. *)
Theorem heuristic_admissible (g : Grid) (x e : ref) (nx ne : Node)
        (l : list ref) :
  wf_grid g → weightsOk g → cell g x = Some nx → cell g e = Some ne →
  is_path g x e l →
  num_le (Astar.heuristic nx ne) (path_cost g l).
Proof.
  intros Hwf Hw Hx He Hl.
  assert (Hsh : shape g (length g) (ncols g)).
  { eapply wf_grid_shape; [done|]. by exists nx. }
  rewrite (heuristic_hQ _ _ _ _ _ _ _ Hsh Hx He).
  rewrite (path_cost_pathQ _ _ _ _ Hw Hl). simpl.
  apply hQ_le_path; [done|]. by apply is_path_path_to.
Qed.

(** X4. The heuristic is consistent: across one move into a non-wall cell
    [y] it drops by no more than the weight of [y], it is zero at the end
    and it does not depend on the direction. *)
Theorem heuristic_consistent (g : Grid) (x y e : ref) (nx ny ne : Node) :
  wf_grid g → weightsOk g →
  cell g x = Some nx → cell g y = Some ny → cell g e = Some ne →
  adjacent x y → isWall ny = false →
  num_le (Astar.heuristic nx ne)
         (num_plus (weight ny) (Astar.heuristic ny ne)) ∧
  Astar.heuristic ne ne = Fin 0 ∧
  Astar.heuristic nx ne = Astar.heuristic ne nx.
Proof.
  intros Hwf Hw Hx Hy He Hadj Hwall.
  assert (Hsh : shape g (length g) (ncols g)).
  { eapply wf_grid_shape; [done|]. by exists nx. }
  rewrite (heuristic_hQ _ _ _ _ _ _ _ Hsh Hx He).
  rewrite (heuristic_hQ _ _ _ _ _ _ _ Hsh Hy He).
  rewrite (heuristic_hQ _ _ _ _ _ _ _ Hsh He He).
  rewrite (heuristic_hQ _ _ _ _ _ _ _ Hsh He Hx).
  destruct (weightsOk_cell _ _ _ Hw Hy Hwall) as (q & -> & Hq & _).
  split_and!.
  - simpl. pose proof (hQ_adjacent e x y Hadj). lra.
  - by rewrite hQ_refl.
  - by rewrite hQ_sym.
Qed.

(** ** Flags and fields the searches leave behind *)

Lemma marked_upd_keep g p f x :
  (∀ n, isVisited (f n) = isVisited n) →
  marked (upd f p g) x ↔ marked g x.
Proof.
  intros Hf. unfold marked. rewrite cell_upd.
  destruct (decide (p = x)); [|done].
  destruct (cell g x) as [n|]; simpl; [|done]. by rewrite Hf.
Qed.

Lemma marked_upd_set g p f x :
  (∀ n, isVisited (f n) = true) → inGrid g p →
  marked (upd f p g) x ↔ x = p ∨ marked g x.
Proof.
  intros Hf [n Hn]. unfold marked. rewrite cell_upd.
  destruct (decide (p = x)) as [->|Hne].
  - rewrite Hn. simpl. rewrite Hf. split; [by left|done].
  - split; [by right|]. by intros [->|?].
Qed.

Lemma unvisited_marked g x : unvisited g → ¬ marked g x.
Proof.
  intros Hun. unfold marked.
  destruct (cell g x) as [n|] eqn:Hn; simpl; [|done].
  rewrite (unvisited_cell _ _ _ Hun Hn). done.
Qed.

Section AstarFlags.
Import Astar.
Implicit Types (st : state) (v : ref).

Lemma relax_marked e cur st v st' x :
  relax e cur st v = Some st' →
  marked (grid st') x ↔ marked (grid st) x.
Proof.
  intros H. apply relax_cases in H as [[-> _]|[[-> _]|H]]; [done|done|].
  destruct H as (nb & c & en & q & _ & _ & _ & _ & _ & _ & _ & ->). simpl.
  by apply marked_upd_keep.
Qed.

Lemma forOf_relax_marked e cur nbs st st' x :
  forOf (relax e cur) nbs st = Some st' →
  marked (grid st') x ↔ marked (grid st) x.
Proof.
  intros H.
  eapply (forOf_inv (relax e cur)
            (λ _ st1, marked (grid st1) x ↔ marked (grid st) x))
    with (done := []); [|reflexivity|exact H].
  intros ? ? st1 st2 H1 H2. simpl. rewrite <- H1. by eapply relax_marked.
Qed.

(** The first cell closed is the start. *)
Lemma body_first s e st st' :
  (visitedNodesInOrder st = [] ∧ ∀ x, x ∈ openList st → x = s) ∨
  head (visitedNodesInOrder st) = Some s →
  body e st = Some (inl st') →
  (visitedNodesInOrder st' = [] ∧ ∀ x, x ∈ openList st' → x = s) ∨
  head (visitedNodesInOrder st') = Some s.
Proof.
  intros Hhd Hb. apply body_cases in Hb as [[_ [=]]|Hb].
  destruct Hb as (cur & rest & c & Hsort & Hperm & _ & Hcur & Hb).
  destruct Hb as [[_ [= ->]]|(Hw & Hc & [[_ [=]]|(q & Hq & [[_ [=]]|Hb])])].
  { simpl. destruct Hhd as [[Hv Ho]|Hhd]; [left|by right].
    split; [done|]. intros x Hx. apply Ho. rewrite <- Hperm. by right. }
  destruct Hb as (Hne & nbs & st2 & Hnbs & Hfor & [= ->]).
  pose proof (forOf_relax_keeps _ _ _ _ _ 0 0 Hfor) as (Hv & Hcl & _).
  right. rewrite Hv. simpl. destruct Hhd as [[-> Ho]|Hhd].
  - simpl. f_equal. apply Ho. rewrite <- Hperm. by left.
  - destruct (visitedNodesInOrder st); [done|]. done.
Qed.

(** The flagged cells are the closed ones. *)
Lemma body_marked e st st' :
  (∀ x, marked (grid st) x ↔ x ∈ closedSet st) →
  body e st = Some (inl st') →
  ∀ x, marked (grid st') x ↔ x ∈ closedSet st'.
Proof.
  intros Hmk Hb. apply body_cases in Hb as [[_ [=]]|Hb].
  destruct Hb as (cur & rest & c & Hsort & Hperm & _ & Hcur & Hb).
  destruct Hb as [[_ [= ->]]|(Hw & Hc & [[_ [=]]|(q & Hq & [[_ [=]]|Hb])])].
  { done. }
  destruct Hb as (Hne & nbs & st2 & Hnbs & Hfor & [= ->]).
  pose proof (forOf_relax_keeps _ _ _ _ _ 0 0 Hfor) as (Hv & Hcl & _).
  intros x. rewrite (forOf_relax_marked _ _ _ _ _ x Hfor), Hcl. simpl.
  rewrite marked_upd_set; [|done|by exists c].
  rewrite elem_of_union, elem_of_singleton, Hmk. done.
Qed.

Lemma astar_run_visits g s e fuel vis g' :
  astar fuel g s e = Returns (vis, g') →
  NoDup vis ∧ (∀ x, x ∈ vis → passable g x) ∧
  (vis = [] ∨ head vis = Some s).
Proof.
  unfold astar. destruct (init g s e) as [st0|] eqn:Hi; [|done].
  intros Hrun. apply while_exit in Hrun as (st & Hreach & Hb).
  pose proof (reaches_basic _ _ _ _ _ Hi Hreach) as Hbasic.
  assert (Hhd : (visitedNodesInOrder st = [] ∧
                 ∀ x, x ∈ openList st → x = s) ∨
                head (visitedNodesInOrder st) = Some s).
  { pattern st. eapply (reaches_inv (body e)); [| |exact Hreach].
    - intros st1 st2. apply body_first.
    - apply init_fields in Hi as (Ho & _ & Hv & _). left. split; [done|].
      intros x. rewrite Ho. by intros ->%list_elem_of_singleton. }
  apply exit_basic with (g0 := g) in Hb as [(_ & -> & ->)|Hb]; [| |done].
  - destruct Hbasic as (_ & ? & _ & ? & _). split_and!; try done.
    destruct Hhd as [[-> _]|Hhd]; [by left|by right].
  - destruct Hb as (rest & c & Hperm & _ & Hc & Hw & Hcl & -> & ->).
    destruct (close_basic g st e rest c) as (_ & ? & _ & ? & _); try done.
    split_and!; try done. simpl.
    right. destruct Hhd as [[-> Ho]|Hhd].
    + simpl. f_equal. apply Ho. rewrite <- Hperm. by left.
    + destruct (visitedNodesInOrder st); [done|]. done.
Qed.

Lemma astar_run_marked g s e fuel vis g' :
  unvisited g → astar fuel g s e = Returns (vis, g') →
  ∀ x, marked g' x ↔ x ∈ vis.
Proof.
  intros Hun. unfold astar.
  destruct (init g s e) as [st0|] eqn:Hi; [|done].
  intros Hrun. apply while_exit in Hrun as (st & Hreach & Hb).
  pose proof (reaches_basic _ _ _ _ _ Hi Hreach) as Hbasic.
  assert (Hmk : ∀ x, marked (grid st) x ↔ x ∈ closedSet st).
  { pattern st. eapply (reaches_inv (body e)); [| |exact Hreach].
    - intros st1 st2. apply body_marked.
    - apply init_fields in Hi as (Ho & Hc & Hv & sn & en & Hs & He & Hg).
      intros x. rewrite Hg, Hc, marked_upd_keep by done.
      split; [by intros ?%unvisited_marked|by intros ?%elem_of_empty]. }
  pose proof Hbasic as (_ & _ & Hvc & _).
  apply exit_basic with (g0 := g) in Hb as [(_ & -> & ->)|Hb]; [| |done].
  - intros x. by rewrite Hmk, Hvc.
  - destruct Hb as (rest & c & Hperm & _ & Hc & Hw & Hcl & -> & ->). simpl.
    intros x. rewrite marked_upd_set; [|done|by exists c].
    rewrite elem_of_app, list_elem_of_singleton, Hmk, Hvc. tauto.
Qed.

End AstarFlags.

(** X5. After [astar] on a grid whose [isVisited] flags were reset, the
    flagged cells are exactly the cells of the visitation order; and the
    visitation order, unless empty, begins with the start cell. *)
Theorem astar_marks_visited (g : Grid) (s e : ref) (fuel : nat)
        (vis : list ref) (g' : Grid) :
  unvisited g → Astar.astar fuel g s e = Returns (vis, g') →
  (∀ x, marked g' x ↔ x ∈ vis) ∧ (vis = [] ∨ head vis = Some s).
Proof.
  intros Hun Hrun. split.
  - by eapply astar_run_marked.
  - by eapply astar_run_visits.
Qed.

Lemma search_frame g s e fuel vis g' :
  Bfs.bfs fuel g s e = Returns (vis, g') ∨
  Astar.astar fuel g s e = Returns (vis, g') →
  frame g g'.
Proof.
  intros Hrun.
  destruct Hrun as [Hrun|Hrun].
- revert Hrun. unfold Bfs.bfs.
  destruct (Bfs.init g s) as [st0|] eqn:Hi; [|done].
  apply (while_inv (Bfs.body e) (λ st, frame g (Bfs.grid st))
           (λ r, frame g r.2)).
  + intros st st'. apply bfs_body_frame.
  + intros st [vis' g''] Hst Hb. simpl.
    by apply bfs_body_exit in Hb as [-> _].
  + apply bfs_init_fields in Hi as (_ & _ & -> & _). by apply frame_upd.
- revert Hrun. unfold Astar.astar.
  destruct (Astar.init g s e) as [st0|] eqn:Hi; [|done].
  apply (while_inv (Astar.body e) (astar_basic g) (λ r, frame g r.2)).
  + intros st st'. apply body_basic.
  + intros st [vis' g''] Hst Hb. simpl.
    apply exit_basic with (g0 := g) in Hb as [(_ & _ & ->)|Hb];
      [by destruct Hst| |done].
    destruct Hb as (rest & c & Hperm & _ & Hc & Hw & Hcl & _ & ->).
    by destruct (close_basic g st e rest c) as (? & _).
  + by eapply init_basic.
Qed.

(** X6. Neither search adds or removes a cell or changes the [row], [col],
    [isWall] or [weight] of one. *)
Theorem search_keeps_terrain (g : Grid) (s e : ref) (fuel : nat)
        (vis : list ref) (g' : Grid) :
  Bfs.bfs fuel g s e = Returns (vis, g') ∨
  Astar.astar fuel g s e = Returns (vis, g') →
  (∀ p, inGrid g' p ↔ inGrid g p) ∧
  ∀ p n, cell g p = Some n →
         ∃ n', cell g' p = Some n' ∧ row n' = row n ∧ col n' = col n ∧
               isWall n' = isWall n ∧ weight n' = weight n.
Proof.
  intros Hrun.
  assert (Hfr : frame g g') by (by eapply search_frame).
  split.
  - intros p. symmetry. by apply frame_inGrid.
  - intros p n Hn. destruct (frame_cell _ _ _ _ Hfr Hn) as (n' & Hn' & Hst).
    exists n'. unfold static in Hst. split; [done|].
    injection Hst as -> -> -> ->. done.
Qed.

Section BfsVisits.
Import Bfs.
Implicit Types (st : state) (v : ref).

(** Dequeued cells are non-wall cells, the first of them the start. *)
Lemma bfs_body_visits g0 s e st st' :
  (frame g0 (grid st) ∧
   (∀ x, x ∈ visitedNodesInOrder st → passable g0 x) ∧
   ((visitedNodesInOrder st = [] ∧ ∀ x, x ∈ queue st → x = s) ∨
    head (visitedNodesInOrder st) = Some s)) →
  body e st = Some (inl st') →
  frame g0 (grid st') ∧
  (∀ x, x ∈ visitedNodesInOrder st' → passable g0 x) ∧
  ((visitedNodesInOrder st' = [] ∧ ∀ x, x ∈ queue st' → x = s) ∨
   head (visitedNodesInOrder st') = Some s).
Proof.
  intros (Hfr & Hp & Hhd) Hb.
  split; [by eapply bfs_body_frame|].
  apply bfs_body_cases in Hb as [[_ [=]]|Hb].
  destruct Hb as (cur & rest & c & Hq & Hcur & Hb).
  destruct Hb as [[Hw [= ->]]|(Hw & [[_ [=]]|Hb])]; simpl.
  { split; [done|]. destruct Hhd as [[Hv Ho]|Hhd]; [left|by right].
    split; [done|]. intros x Hx. apply Ho. rewrite Hq. by right. }
  destruct Hb as (Hne & nbs & st2 & Hnbs & [= ->] & Hq2 & Hv2 & Hg2).
  rewrite Hv2. split.
  - intros x. rewrite elem_of_app, list_elem_of_singleton.
    intros [Hx| ->]; [by apply Hp|].
    apply (frame_passable g0 (grid st)); [done|].
    unfold passable. rewrite Hcur. simpl. by rewrite Hw.
  - right. destruct Hhd as [[-> Ho]|Hhd].
    + simpl. f_equal. apply Ho. rewrite Hq. by left.
    + destruct (visitedNodesInOrder st); [done|]. done.
Qed.

End BfsVisits.

Lemma bfs_run_visits g s e fuel vis g' :
  Bfs.bfs fuel g s e = Returns (vis, g') →
  NoDup vis ∧ (∀ x, x ∈ vis → passable g x ∧ marked g' x) ∧
  (vis = [] ∨ head vis = Some s).
Proof.
  unfold Bfs.bfs.
  destruct (Bfs.init g s) as [st0|] eqn:Hi; [|done].
  intros Hrun. apply while_exit in Hrun as (st & Hreach & Hb).
  assert (Hinv : bfs_order st ∧ frame g (Bfs.grid st) ∧
    (∀ x, x ∈ Bfs.visitedNodesInOrder st → passable g x) ∧
    ((Bfs.visitedNodesInOrder st = [] ∧ ∀ x, x ∈ Bfs.queue st → x = s) ∨
     head (Bfs.visitedNodesInOrder st) = Some s)).
  { pattern st. eapply (reaches_inv (Bfs.body e)); [| |exact Hreach].
    - intros st1 st2 [Hord Hv] Hb'.
      split; [by eapply bfs_body_order|by eapply bfs_body_visits].
    - split; [by eapply bfs_init_order|].
      apply bfs_init_fields in Hi as (HQ & HV & Hg & _).
      rewrite HV, HQ, Hg. split_and!.
      + by apply frame_upd.
      + by intros x ?%elem_of_nil.
      + left. split; [done|]. by intros x ->%list_elem_of_singleton. }
  destruct Hinv as ([Hmk Hnd] & Hfr & Hp & Hhd).
  apply bfs_body_exit in Hb as [-> Hx].
  destruct Hx as [[HQ ->]|(rest & c & Hq & Hc & Hw & ->)].
  + split_and!.
    * by apply NoDup_app in Hnd as (? & _).
    * intros x Hx. split; [by apply Hp|]. apply Hmk. by left.
    * destruct Hhd as [[-> _]|Hhd]; [by left|by right].
  + split_and!.
    * rewrite Hq in Hnd.
      rewrite (assoc_L (++) _ [e] rest : _ ++ e :: rest = _) in Hnd.
      by apply NoDup_app in Hnd as (? & _).
    * intros x. rewrite elem_of_app, list_elem_of_singleton.
      intros [Hx| ->].
      -- split; [by apply Hp|]. apply Hmk. by left.
      -- split; [|apply Hmk; right; rewrite Hq; by left].
         apply (frame_passable g (Bfs.grid st)); [done|].
         unfold passable. rewrite Hc. simpl. by rewrite Hw.
    * right. destruct Hhd as [[-> Ho]|Hhd].
      -- simpl. f_equal. apply Ho. rewrite Hq. by left.
      -- destruct (Bfs.visitedNodesInOrder st); [done|]. done.
Qed.

(** X7. A run of [bfs] lists no cell twice in the visitation order it
    returns, lists no wall, flags every cell it lists and, unless the
    order is empty, begins with the start cell; on a well-formed grid with
    start in it, the run returns. *)
Theorem bfs_visits_once (g : Grid) (s e : ref) (fuel : nat) :
  (∀ vis g', Bfs.bfs fuel g s e = Returns (vis, g') →
             NoDup vis ∧ (∀ x, x ∈ vis → passable g x ∧ marked g' x) ∧
             (vis = [] ∨ head vis = Some s)) ∧
  (wf_grid g → inGrid g s → enoughFuel g ≤ fuel →
   ∃ vis g', Bfs.bfs fuel g s e = Returns (vis, g')).
Proof.
  split.
  - intros vis g'. apply bfs_run_visits.
  - intros Hwf Hs Hfuel.
    destruct (bfs_returns g s e fuel) as [[vis g'] Hr]; try done.
    by exists vis, g'.
Qed.

Section BfsTree.
Import Bfs.
Implicit Types (st : state) (v : ref) (lev : ref → nat).

(** What holds at every loop head of a run on a reset grid. *)
Lemma bfs_reaches_levels g s e st0 st :
  wf_grid g → unvisited g → prevNull g → passable g s →
  init g s = Some st0 → reaches (body e) st0 st →
  bfs_order st ∧ bfs_links g s st ∧
  ∃ lev, bfs_levels g s lev st ∧ bfs_tree g s lev st.
Proof.
  intros Hwf Hun Hnull Hs Hi Hreach.
  pose proof (wf_grid_shape _ _ Hwf (passable_inGrid _ _ Hs)) as Hsh.
  cut (shape (grid st) (length g) (ncols g) ∧ bfs_order st ∧
       (bfs_links g s st ∧ e ∉ visitedNodesInOrder st) ∧
       ∃ lev, bfs_levels g s lev st ∧ bfs_tree g s lev st).
  { intros (_ & ? & [? _] & ?). done. }
  pattern st. eapply (reaches_inv (body e)); [| |exact Hreach].
  - intros st1 st2 (Hsh' & Hord & Hlk & lev & Hlev & Htree) Hb.
    split; [by eapply bfs_body_shape|]. split; [by eapply bfs_body_order|].
    split; [by eapply bfs_body_links|].
    destruct (bfs_body_levels g s e _ _ lev st1 st2 Hsh'
                ltac:(by destruct Hlk as [[? _] _]) Hord Hlev Hb)
      as (lev' & Hlev' & Htree').
    exists lev'. split; [done|]. apply Htree'; [by destruct Hlk|done].
  - split; [|split; [by eapply bfs_init_order|split; [by apply bfs_init_links|]]].
    + apply bfs_init_fields in Hi as (_ & _ & -> & _). by apply shape_upd.
    + exists (λ _, 0). destruct (bfs_init_levels g s st0 Hun Hs Hi).
      split; [done|auto].
Qed.

(** The level of a dequeued cell, or of the cell at the head of the
    queue, is one less than the length of its predecessor chain, which is
    a shortest path. *)
Lemma bfs_chain_shortest g s lev st x :
  bfs_links g s st → bfs_levels g s lev st → bfs_tree g s lev st →
  x ∈ visitedNodesInOrder st ∨ head (queue st) = Some x →
  ∃ l, chain (grid st) x l ∧ shortest g s x l ∧ length l = S (lev x).
Proof.
  intros Hlk Hlev Htree Hx.
  assert (Hx' : x ∈ visitedNodesInOrder st ∨ x ∈ queue st).
  { destruct Hx as [?|Hx]; [by left|right].
    destruct (queue st); [done|]. injection Hx as ->. by left. }
  destruct Hlk as (_ & _ & _ & _ & Hch).
  destruct (Hch x Hx') as (l & Hl & _). exists l.
  destruct (Htree x l Hx' Hl) as [Hp Hlen].
  split; [done|]. split; [|done]. split; [by apply path_to_is_path|].
  intros l' Hl'%is_path_path_to. rewrite Hlen.
  destruct Hx as [Hx|Hx].
  - pose proof Hlev as (_ & _ & _ & _ & _ & Hm6 & _). by apply (Hm6 x).
  - destruct (queue st) as [|u rest] eqn:Hq; [done|]. injection Hx as ->.
    destruct (bfs_front g s lev st x rest x l' Hlev Hq Hl') as [[_ ?]|?]; done.
Qed.

Lemma bfs_run_tree g s e fuel vis g' :
  wf_grid g → unvisited g → prevNull g → passable g s →
  bfs fuel g s e = Returns (vis, g') →
  ∃ lev, StronglySorted (λ x y, lev x ≤ lev y) vis ∧
         ∀ x, x ∈ vis →
              ∃ l, chain g' x l ∧ shortest g s x l ∧ length l = S (lev x).
Proof.
  intros Hwf Hun Hnull Hs. unfold bfs.
  destruct (init g s) as [st0|] eqn:Hi; [|done].
  intros Hrun. apply while_exit in Hrun as (st & Hreach & Hb).
  destruct (bfs_reaches_levels g s e st0 st Hwf Hun Hnull Hs Hi Hreach)
    as (Hord & Hlk & lev & Hlev & Htree).
  exists lev. pose proof Hlev as (_ & _ & Hsort & _).
  apply bfs_body_exit in Hb as [-> Hx].
  destruct Hx as [[HQ ->]|(rest & c & Hq & Hc & Hw & ->)].
  - rewrite HQ, app_nil_r in Hsort. split; [done|].
    intros x Hx. apply (bfs_chain_shortest g s lev st x); auto.
  - split.
    + rewrite Hq in Hsort.
      rewrite (assoc_L (++) _ [e] rest : _ ++ e :: rest = _) in Hsort.
      by apply StronglySorted_app_1_l in Hsort.
    + intros x. rewrite elem_of_app, list_elem_of_singleton. intros Hx.
      apply (bfs_chain_shortest g s lev st x); try done.
      destruct Hx as [?| ->]; [by left|right]. by rewrite Hq.
Qed.

End BfsTree.

(** X8. After [bfs] on a well-formed grid with reset [isVisited] and
    [previousNode] fields, the predecessor walk from every cell of the
    visitation order returns a path from start to that cell with the
    fewest moves; and the visitation order lists nearer cells first. *)
Theorem bfs_paths_shortest (g : Grid) (s e : ref) (fuel : nat)
        (vis : list ref) (g' : Grid) :
  wf_grid g → unvisited g → prevNull g →
  Bfs.bfs fuel g s e = Returns (vis, g') →
  (∀ x, x ∈ vis →
        ∃ l, (∀ k, length l ≤ k →
                   Bfs.getNodesInShortestPathOrder k g' x = Returns l) ∧
             shortest g s x l) ∧
  (∀ i j x y lx ly,
     vis !! i = Some x → vis !! j = Some y → i ≤ j →
     shortest g s x lx → shortest g s y ly → length lx ≤ length ly).
Proof.
  intros Hwf Hun Hnull Hrun.
  destruct (bfs_run_visits _ _ _ _ _ _ Hrun) as (_ & Hp & Hhd).
  destruct Hhd as [->|Hhd].
  { split; [by intros x ?%elem_of_nil|]. by intros i j x y lx ly [=]. }
  assert (Hs : passable g s).
  { apply Hp. destruct vis; [done|]. injection Hhd as ->. by left. }
  destruct (bfs_run_tree g s e fuel vis g' Hwf Hun Hnull Hs Hrun)
    as (lev & Hsort & Hch).
  assert (Hlen : ∀ x l, x ∈ vis → shortest g s x l → length l = S (lev x)).
  { intros x l Hx [Hl Hmin]. destruct (Hch x Hx) as (l0 & _ & [Hl0 Hmin0] & <-).
    apply Nat.le_antisymm; auto. }
  split.
  - intros x Hx. destruct (Hch x Hx) as (l & Hl & Hsh & _). exists l.
    split; [|done]. intros k Hk. by apply chain_getNodes.
  - intros i j x y lx ly Hx Hy Hij Hlx Hly.
    rewrite (Hlen x lx), (Hlen y ly); try done.
    2,3: by eapply list_elem_of_lookup_2.
    destruct (decide (i = j)) as [->|Hne]; [by simplify_eq|].
    apply le_n_S.
    apply (StronglySorted_lookup _ _ i j x y Hsort Hx Hy). lia.
Qed.

Section AstarClosed.
Import Astar.
Implicit Types (st : state) (v : ref).

(** What holds at every loop head of a run on a reset grid. *)
Lemma astar_reaches_optimal k top g s e st0 st :
  wf_grid g → weightsOk g → exactSums k top g →
  resetDistance g → prevNull g → passable g s →
  init g s e = Some st0 → reaches (body e) st0 st →
  astar_basic g st ∧ (astar_links s st ∧ e ∉ closedSet st) ∧
  astar_mono e st ∧ astar_optimal g s (λ _ _, False) st.
Proof.
  intros Hwf Hwt [Hfit Hxw] Hreset Hnull Hs Hi Hreach.
  pose proof (wf_grid_shape _ _ Hwf (passable_inGrid _ _ Hs)) as Hsh.
  pose proof Hi as (_ & HC & _ & sn & en & _ & Hen & Hg)%init_fields.
  cut ((astar_basic g st ∧ astar_exact k top st) ∧
       shape (grid st) (length g) (ncols g) ∧
       (astar_links s st ∧ e ∉ closedSet st) ∧ astar_mono e st ∧
       astar_optimal g s (λ _ _, False) st).
  { intros ([? _] & _ & ? & ? & ?). done. }
  pattern st. eapply (reaches_inv (body e)); [| |exact Hreach].
  - intros st1 st2 ([Hb Hxst] & Hsh' & Hlk & Hm & Hopt) Hbody.
    pose proof Hb as (Hfr & _).
    assert (Hine : inGrid (grid st1) e).
    { apply (shape_inGrid _ _ _ e Hsh'), (shape_inGrid _ _ _ e Hsh).
      by eexists. }
    split; [split; [by eapply body_basic|by eapply body_exact]|].
    split; [by eapply body_shape|].
    split; [by eapply body_links|]. split; [by eapply (body_mono k top)|].
    eapply (body_optimal k top); try done. by destruct Hlk.
  - split; [split; [by eapply init_basic|by eapply init_exact]|].
    split; [rewrite Hg; by apply shape_upd|].
    split; [by apply (init_links g)|].
    split; [by eapply init_mono|]. by apply (init_optimal g s e).
Qed.

(** A closed or open cell carries the cost of its predecessor chain, a
    path from the start. *)
Lemma astar_cell_cost g s e st x :
  astar_links s st → astar_mono e st →
  astar_optimal g s (λ _ _, False) st →
  x ∈ closedSet st ∨ x ∈ openList st →
  ∃ l n d f, chain (grid st) x l ∧ path_to g s x l ∧
             cell (grid st) x = Some n ∧ distance n = Fin d ∧
             totalCost n = Fin f ∧ (f == d + hQ e x)%Q ∧
             (pathQ g l == d)%Q.
Proof.
  intros (_ & Hch & _) [Hc2 _] (_ & Htree & _) Hx.
  destruct (Hch x Hx) as (l & Hl & _).
  destruct (Htree x l Hx Hl) as [Hp Hcost].
  destruct (Hc2 x Hx) as (n & d & f & Hn & Hd & Hf & Heq).
  exists l, n, d, f. split_and!; try done.
  by rewrite Hcost, (distQ_cell _ _ _ _ Hn Hd).
Qed.

Lemma astar_run_facts k top g s e fuel vis g' :
  wf_grid g → weightsOk g → exactSums k top g →
  resetDistance g → prevNull g → passable g s →
  astar fuel g s e = Returns (vis, g') →
  (∀ x, x ∈ vis →
        ∃ l n d f, chain g' x l ∧ path_to g s x l ∧
                   cell g' x = Some n ∧ distance n = Fin d ∧
                   totalCost n = Fin f ∧ (f == d + hQ e x)%Q ∧
                   (pathQ g l == d)%Q ∧
                   ∀ l', path_to g s x l' → (d <= pathQ g l')%Q) ∧
  ((last vis = Some e ∧ ∀ x, x ∈ vis → (fQ g' x <= fQ g' e)%Q) ∨
   ((e ∉ vis) ∧ ∀ x l, path_to g s x l → x ∈ vis)).
Proof.
  intros Hwf Hwt Hxs Hreset Hnull Hs. unfold astar.
  destruct (init g s e) as [st0|] eqn:Hi; [|done].
  intros Hrun. apply while_exit in Hrun as (st & Hreach & Hbody).
  destruct (astar_reaches_optimal k top g s e st0 st Hwf Hwt Hxs Hreset Hnull
              Hs Hi Hreach) as (Hb & [Hlk He] & Hm & Hopt).
  pose proof Hb as (_ & _ & Hvc & _).
  assert (Hclosed : ∀ x, x ∈ closedSet st →
    ∃ l n d f, chain (grid st) x l ∧ path_to g s x l ∧
               cell (grid st) x = Some n ∧ distance n = Fin d ∧
               totalCost n = Fin f ∧ (f == d + hQ e x)%Q ∧
               (pathQ g l == d)%Q ∧
               ∀ l', path_to g s x l' → (d <= pathQ g l')%Q).
  { intros x Hx.
    destruct (astar_cell_cost g s e st x Hlk Hm Hopt (or_introl Hx))
      as (l & n & d & f & Hl & Hp & Hn & Hd & Hf & Heq & Hcost).
    exists l, n, d, f. split_and!; try done. intros l' Hl'.
    pose proof Hopt as (_ & _ & _ & Hmin & _).
    specialize (Hmin x l' Hx Hl'). by rewrite (distQ_cell _ _ _ _ Hn Hd) in Hmin. }
  apply exit_basic with (g0 := g) in Hbody as [(HO & -> & ->)|Hx]; [| |done].
  - split; [intros x Hx; by apply Hclosed, Hvc|]. right.
    split; [by rewrite Hvc|]. intros x l Hl. apply Hvc.
    destruct (astar_front g s e st x l Hwt Hm Hopt Hl)
      as [?|(z & Hz & _)]; [done|].
    rewrite HO in Hz. by apply elem_of_nil in Hz.
  - destruct Hx as (rest & c & Hperm & Hmin & Hc & Hw & Hcl & -> & ->). simpl.
    assert (Heo : e ∈ openList st) by (rewrite <- Hperm; by left).
    assert (Hkey : ∀ x, key (upd markVisited e (grid st)) x = key (grid st) x).
    { intros x. unfold key. rewrite cell_upd.
      destruct (decide (e = x)); [|done]. by destruct (cell (grid st) x). }
    split.
    + intros x. rewrite elem_of_app, list_elem_of_singleton. intros [Hx| ->].
      * destruct (Hclosed x) as (l & n & d & f & Hl & Hp & Hn & Hd & Hrest);
          [by apply Hvc|].
        assert (Hne : e ≠ x) by (intros ->; by apply Hcl, Hvc).
        exists l, n, d, f. split; [by apply chain_upd|]. split; [done|].
        split; [by rewrite cell_upd_ne|done].
      * destruct (astar_cell_cost g s e st e Hlk Hm Hopt (or_intror Heo))
          as (l & n & d & f & Hl & Hp & Hn & Hd & Hf & Heq & Hcost).
        exists l, (markVisited n), d, f. split; [by apply chain_upd|].
        split; [done|]. split; [by apply cell_upd_eq|].
        split_and!; try done. intros l' Hl'.
        destruct (astar_front g s e st e l' Hwt Hm Hopt Hl')
          as [?|(z & Hz & Hle)]; [done|].
        pose proof (sorted_head_min e st e rest z Hm Hperm Hmin Hz).
        pose proof (mono_f e st e Hm (or_intror Heo)) as Hfe.
        rewrite (distQ_cell _ _ _ _ Hn Hd) in Hfe.
        assert (hQ e e == 0)%Q.
        { unfold hQ. rewrite !Z.sub_diag. done. }
        lra.
    + left. split; [by rewrite last_snoc|].
      intros x. rewrite elem_of_app, list_elem_of_singleton.
      unfold fQ. rewrite !Hkey. intros [Hx| ->]; [|lra].
      destruct Hm as [_ Hm2]. apply Hm2; [by apply Hvc|done].
Qed.

End AstarClosed.

(** X9. After [astar] on a well-formed grid with reset [distance] and
    [previousNode] fields and weights at least 1 on which the sums of the
    run are doubles ([exactSums]), every cell of the visitation order
    carries in [distance] the cost of the cheapest path from start to it,
    and the predecessor walk from it returns such a path. *)
Theorem astar_costs_cheapest (g : Grid) (s e : ref) (fuel : nat)
        (vis : list ref) (g' : Grid) (j top : Z) :
  wf_grid g → weightsOk g → exactSums j top g →
  resetDistance g → prevNull g →
  Astar.astar fuel g s e = Returns (vis, g') →
  ∀ x, x ∈ vis →
       ∃ l n, cell g' x = Some n ∧
              (∀ k, length l ≤ k →
                    Bfs.getNodesInShortestPathOrder k g' x = Returns l) ∧
              is_path g s x l ∧
              num_le (distance n) (path_cost g l) ∧
              num_le (path_cost g l) (distance n) ∧
              ∀ l', is_path g s x l' → num_le (distance n) (path_cost g l').
Proof.
  intros Hwf Hwt Hxs Hreset Hnull Hrun x Hx.
  destruct (astar_run_visits _ _ _ _ _ _ Hrun) as (_ & Hp & Hhd).
  assert (Hs : passable g s).
  { apply Hp. destruct Hhd as [->|Hhd]; [by apply elem_of_nil in Hx|].
    destruct vis; [done|]. injection Hhd as ->. by left. }
  destruct (astar_run_facts j top g s e fuel vis g'
              Hwf Hwt Hxs Hreset Hnull Hs Hrun) as [Hall _].
  destruct (Hall x Hx) as (l & n & d & f & Hl & Hpath & Hn & Hd & _ & _ & Hcost & Hmin).
  exists l, n. apply path_to_is_path in Hpath as Hpath'.
  rewrite Hd, (path_cost_pathQ g s x l Hwt Hpath'). simpl.
  split_and!; try done.
  - intros k Hk. by apply chain_getNodes.
  - lra.
  - lra.
  - intros l' Hl'. rewrite (path_cost_pathQ g s x l' Hwt Hl'). simpl.
    by apply Hmin, is_path_path_to.
Qed.

(** X10. A* visits no cell whose priority exceeds the cost of a path from
    start to end: after a run as above, on weights on which the sums of
    the run are doubles, the [totalCost] of every cell of the visitation
    order is at most the cost of any path from start to end. *)
Theorem astar_visits_within_cost (g : Grid) (s e : ref) (fuel : nat)
        (vis : list ref) (g' : Grid) (j top : Z) :
  wf_grid g → weightsOk g → exactSums j top g →
  resetDistance g → prevNull g →
  Astar.astar fuel g s e = Returns (vis, g') →
  ∀ x n l, x ∈ vis → cell g' x = Some n → is_path g s e l →
           num_le (totalCost n) (path_cost g l).
Proof.
  intros Hwf Hwt Hxs Hreset Hnull Hrun x n l Hx Hn Hl.
  apply is_path_path_to in Hl as Hl'.
  assert (Hs : passable g s) by (clear -Hl'; induction Hl'; done).
  destruct (astar_run_facts j top g s e fuel vis g'
              Hwf Hwt Hxs Hreset Hnull Hs Hrun)
    as [Hall [[Hlast Hle]|[He Hex]]].
  2: { destruct He. by eapply Hex. }
  assert (Hein : e ∈ vis).
  { rewrite last_lookup in Hlast. by eapply list_elem_of_lookup_2. }
  destruct (Hall x Hx) as (_ & n' & d & f & _ & _ & Hn' & _ & Hf & _).
  destruct (Hall e Hein) as (_ & ne & de & fe & _ & _ & Hne & Hde & Hfe & Heq & _ & Hmin).
  rewrite Hn in Hn'. injection Hn' as <-.
  rewrite Hf, (path_cost_pathQ g s e l Hwt Hl). simpl.
  specialize (Hle x Hx). rewrite (fQ_cell _ _ _ _ Hn Hf) in Hle.
  rewrite (fQ_cell _ _ _ _ Hne Hfe) in Hle.
  specialize (Hmin l Hl').
  assert (hQ e e == 0)%Q by (unfold hQ; rewrite !Z.sub_diag; done).
  lra.
Qed.

(** X11. On a well-formed grid with reset [distance] and [previousNode]
    fields and weights at least 1 on which the sums of the run are doubles
    ([exactSums]), if no path of non-wall cells leads from start to end,
    [astar] returns a visitation order that holds, without repetition,
    exactly the cells that a path of non-wall cells reaches from start,
    and does not hold end. *)
Theorem astar_unreachable_end (g : Grid) (s e : ref) (fuel : nat)
        (j top : Z) :
  wf_grid g → weightsOk g → exactSums j top g →
  resetDistance g → prevNull g →
  inGrid g s → inGrid g e →
  ¬ (∃ l, is_path g s e l) → enoughFuel g ≤ fuel →
  ∃ vis g', Astar.astar fuel g s e = Returns (vis, g') ∧
            NoDup vis ∧
            (∀ x, x ∈ vis ↔ ∃ l, is_path g s x l) ∧
            e ∉ vis.
Proof.
  intros Hwf Hwt Hxs Hreset Hnull Hsin Hein Hno Hfuel.
  destruct (astar_returns g s e fuel Hwf Hsin Hein Hfuel) as [[vis g'] Hrun].
  exists vis, g'. split; [done|].
  destruct (astar_run_visits _ _ _ _ _ _ Hrun) as (Hnd & Hp & Hhd).
  split; [done|].
  pose proof Hsin as [sn Hsn].
  destruct (isWall sn) eqn:Hw.
  { assert (Hs : ¬ passable g s).
    { rewrite (passable_cell _ _ _ Hsn). congruence. }
    assert (vis = []) as ->.
    { destruct Hhd as [->|Hhd]; [done|]. destruct Hs. apply Hp.
      destruct vis; [done|]. injection Hhd as ->. by left. }
    split; [|apply not_elem_of_nil].
    intros x. split; [by intros ?%elem_of_nil|].
    intros [l Hl]. destruct Hs. apply is_path_path_to in Hl.
    clear -Hl. induction Hl; done. }
  assert (Hs : passable g s) by (by apply (passable_cell _ _ _ Hsn)).
  destruct (astar_run_facts j top g s e fuel vis g'
              Hwf Hwt Hxs Hreset Hnull Hs Hrun) as [Hall Hend].
  assert (Hreach : ∀ x, x ∈ vis → ∃ l, is_path g s x l).
  { intros x Hx. destruct (Hall x Hx) as (l & _ & _ & _ & _ & Hl & _).
    exists l. by apply path_to_is_path. }
  destruct Hend as [[Hlast _]|[He Hex]].
  { destruct Hno. apply Hreach.
    rewrite last_lookup in Hlast. by eapply list_elem_of_lookup_2. }
  split; [|done]. intros x. split; [by apply Hreach|].
  intros [l Hl]. eapply Hex. by apply is_path_path_to.
Qed.

Section AstarGuards.
Import Astar.
Implicit Types (st : state) (v s : ref).

Lemma relax_open g0 e cur st v st' :
  (frame g0 (grid st) ∧ NoDup (openList st) ∧
   (∀ x, x ∈ openList st → x ∉ closedSet st) ∧
   (∀ x, x ∈ openList st → passable g0 x)) →
  relax e cur st v = Some st' →
  frame g0 (grid st') ∧ NoDup (openList st') ∧
  (∀ x, x ∈ openList st' → x ∉ closedSet st') ∧
  (∀ x, x ∈ openList st' → passable g0 x).
Proof.
  intros (Hfr & Hnd & Hoc & Hop) H.
  pose proof (relax_frame g0 _ _ _ _ _ Hfr H) as Hfr'.
  apply relax_cases in H as [[-> _]|[[-> _]|H]]; [done|done|].
  destruct H as (nb & c & en & q & Hv & Hc & Hw & Hcur & He & Hq & Hlt & ->).
  simpl in *. split; [done|].
  destruct (bool_decide_reflect (v ∈ openList st)) as [Hin|Hin]; [done|].
  split_and!.
  - apply NoDup_app. split; [done|]. split; [|apply NoDup_singleton].
    intros x Hx ->%list_elem_of_singleton. done.
  - intros x [Hx| ->%list_elem_of_singleton]%elem_of_app; [by apply Hoc|done].
  - intros x [Hx| ->%list_elem_of_singleton]%elem_of_app; [by apply Hop|].
    apply (frame_passable g0 (grid st)); [done|].
    unfold passable. rewrite Hv. simpl. by rewrite Hw.
Qed.

(** The open list at the head of the loop started from [s] on [g0]: no
    cell is listed twice and none is closed; before the first cell is
    closed it holds at most [s], and afterwards no wall. *)
Lemma body_open g0 s e st st' :
  (frame g0 (grid st) ∧ NoDup (openList st) ∧
   (∀ x, x ∈ openList st → x ∉ closedSet st) ∧
   ((visitedNodesInOrder st = [] ∧ closedSet st = ∅ ∧
     ∀ x, x ∈ openList st → x = s) ∨
    ∀ x, x ∈ openList st → passable g0 x)) →
  body e st = Some (inl st') →
  frame g0 (grid st') ∧ NoDup (openList st') ∧
  (∀ x, x ∈ openList st' → x ∉ closedSet st') ∧
  ((visitedNodesInOrder st' = [] ∧ closedSet st' = ∅ ∧
    ∀ x, x ∈ openList st' → x = s) ∨
   ∀ x, x ∈ openList st' → passable g0 x).
Proof.
  intros (Hfr & Hnd & Hoc & Hop) Hb.
  apply body_cases in Hb as [[_ [=]]|Hb].
  destruct Hb as (cur & rest & c & Hsort & Hperm & _ & Hcur & Hb).
  assert (Hnd' : NoDup (cur :: rest)) by (by rewrite Hperm).
  apply NoDup_cons in Hnd' as [Hcr Hndr].
  assert (Hsub : ∀ x, x ∈ rest → x ∈ openList st).
  { intros x Hx. rewrite <- Hperm. by right. }
  assert (Hrest : ∀ x, x ∈ rest → passable g0 x).
  { intros x Hx. destruct Hop as [(_ & _ & Ho)|Hop]; [|by apply Hop, Hsub].
    destruct Hcr. rewrite (Ho cur), <- (Ho x); [done|by apply Hsub|].
    rewrite <- Hperm. by left. }
  destruct Hb as [[_ [= ->]]|(Hw & Hc & [[_ [=]]|(q & Hq & [[_ [=]]|Hb])])].
  { simpl. split_and!; try done.
    - intros x Hx. by apply Hoc, Hsub.
    - by right. }
  destruct Hb as (Hne & nbs & st2 & Hnbs & Hfor & [= ->]).
  cut (frame g0 (grid st2) ∧ NoDup (openList st2) ∧
       (∀ x, x ∈ openList st2 → x ∉ closedSet st2) ∧
       (∀ x, x ∈ openList st2 → passable g0 x)).
  { intros (? & ? & ? & ?). split_and!; try done. by right. }
  eapply (forOf_inv (relax e cur)
            (λ _ st1, frame g0 (grid st1) ∧ NoDup (openList st1) ∧
                      (∀ x, x ∈ openList st1 → x ∉ closedSet st1) ∧
                      (∀ x, x ∈ openList st1 → passable g0 x)))
    with (done := []); [| |exact Hfor].
  - intros ? v st1 st1' H1 H2. by eapply relax_open.
  - simpl. split_and!; try done.
    + apply frame_upd_r; [apply static_markVisited|done].
    + intros x Hx. rewrite elem_of_union, elem_of_singleton.
      intros [->|Hx']; [done|]. exact (Hoc x (Hsub x Hx) Hx').
Qed.

Lemma reaches_open g s e st0 st :
  init g s e = Some st0 → reaches (body e) st0 st →
  NoDup (openList st) ∧
  (∀ x, x ∈ openList st → x ∉ closedSet st) ∧
  ((visitedNodesInOrder st = [] ∧ closedSet st = ∅ ∧
    ∀ x, x ∈ openList st → x = s) ∨
   ∀ x, x ∈ openList st → passable g x).
Proof.
  intros Hi Hreach.
  cut (frame g (grid st) ∧ NoDup (openList st) ∧
       (∀ x, x ∈ openList st → x ∉ closedSet st) ∧
       ((visitedNodesInOrder st = [] ∧ closedSet st = ∅ ∧
         ∀ x, x ∈ openList st → x = s) ∨
        ∀ x, x ∈ openList st → passable g x)).
  { by intros (_ & ?). }
  pattern st. eapply (reaches_inv (body e)); [| |exact Hreach].
  - intros st1 st2. apply body_open.
  - apply init_fields in Hi as (Ho & Hc & Hv & sn & en & Hs & He & Hg).
    rewrite Ho, Hc, Hv, Hg. split_and!.
    + apply frame_upd. apply static_initStart.
    + apply NoDup_singleton.
    + intros x _. apply not_elem_of_empty.
    + left. split; [done|]. split; [done|].
      by intros x ->%list_elem_of_singleton.
Qed.

End AstarGuards.

(** X12. In a run of [astar] the open list never holds a cell twice and
    never a closed cell, so the guard [closedSet.has(current)] never
    fires; and the cell shifted off it is the start cell on the first
    iteration, alone on the list, or else is not a wall, so the guard
    [current.isWall] fires for a wall start only. *)
Theorem astar_guards_idle (g : Grid) (s e : ref) (st0 st : Astar.state)
        (cur : ref) (rest : list ref) (c : Node) :
  Astar.init g s e = Some st0 → reaches (Astar.body e) st0 st →
  Astar.sort (Astar.grid st) (Astar.openList st) = cur :: rest →
  cell (Astar.grid st) cur = Some c →
  NoDup (Astar.openList st) ∧
  (∀ x, x ∈ Astar.openList st → x ∉ Astar.closedSet st) ∧
  ((cur = s ∧ rest = [] ∧ Astar.visitedNodesInOrder st = []) ∨
   isWall c = false).
Proof.
  intros Hi Hreach Hsort Hc.
  destruct (reaches_open g s e st0 st Hi Hreach) as (Hnd & Hoc & Hop).
  pose proof (reaches_basic _ _ _ _ _ Hi Hreach) as (Hfr & _).
  assert (Hperm : cur :: rest ≡ₚ Astar.openList st).
  { rewrite <- Hsort. apply sort_Permutation. }
  assert (Hin : cur ∈ Astar.openList st) by (rewrite <- Hperm; by left).
  split; [done|]. split; [done|].
  destruct Hop as [(Hv & _ & Ho)|Hop].
  - left. split; [by apply Ho|]. split; [|done].
    destruct rest as [|y rest]; [done|].
    rewrite <- Hperm in Hnd. apply NoDup_cons in Hnd as [Hcr _].
    destruct Hcr. rewrite (Ho cur Hin), <- (Ho y); [by left|].
    rewrite <- Hperm. right. by left.
  - right. specialize (Hop cur Hin).
    apply (frame_passable g (Astar.grid st)) in Hop; [|done].
    unfold passable in Hop. rewrite Hc in Hop. simpl in Hop. congruence.
Qed.

Section BfsGuard.
Import Bfs.
Implicit Types (st : state) (v s : ref).

(** Before the first cell is dequeued the queue holds at most [s];
    afterwards it holds no wall. *)
Lemma bfs_body_queue g0 s e st st' :
  (frame g0 (grid st) ∧
   ((visitedNodesInOrder st = [] ∧ ∀ x, x ∈ queue st → x = s) ∨
    ∀ x, x ∈ queue st → passable g0 x)) →
  body e st = Some (inl st') →
  frame g0 (grid st') ∧
  ((visitedNodesInOrder st' = [] ∧ ∀ x, x ∈ queue st' → x = s) ∨
   ∀ x, x ∈ queue st' → passable g0 x).
Proof.
  intros (Hfr & Hq) Hb. split; [by eapply bfs_body_frame|].
  apply bfs_body_cases in Hb as [[_ [=]]|Hb].
  destruct Hb as (cur & rest & c & Hqueue & Hcur & Hb).
  destruct Hb as [[Hw [= ->]]|(Hw & [[_ [=]]|Hb])]; simpl.
  { destruct Hq as [[Hv Ho]|Hq]; [left|right].
    - split; [done|]. intros x Hx. apply Ho. rewrite Hqueue. by right.
    - intros x Hx. apply Hq. rewrite Hqueue. by right. }
  destruct Hb as (Hne & nbs & st2 & Hnbs & [= ->] & Hq2 & Hv2 & Hg2).
  right. rewrite Hq2. intros x [Hx|Hx]%elem_of_app.
  - destruct Hq as [[Hv Ho]|Hq]; [|apply Hq; rewrite Hqueue; by right].
    assert (x = cur) as ->.
    { rewrite (Ho cur), (Ho x); [done|rewrite Hqueue; by right|
                                 rewrite Hqueue; by left]. }
    apply (frame_passable g0 (grid st)); [done|].
    unfold passable. rewrite Hcur. simpl. by rewrite Hw.
  - destruct (neighbors_unvisitedOpen _ _ _ _ Hnbs Hx) as (n & Hn & _ & Hwn).
    apply (frame_passable g0 (grid st)); [done|].
    unfold passable. rewrite Hn. simpl. by rewrite Hwn.
Qed.

End BfsGuard.

(** X13. In a run of [bfs] the queue never holds a cell twice, nor a cell
    already dequeued; and the cell dequeued is the start cell on the first
    iteration, alone in the queue, or else is not a wall, so the guard
    [current.isWall] fires for a wall start only. *)
Theorem bfs_guard_idle (g : Grid) (s e : ref) (st0 st : Bfs.state)
        (cur : ref) (rest : list ref) (c : Node) :
  Bfs.init g s = Some st0 → reaches (Bfs.body e) st0 st →
  Bfs.queue st = cur :: rest → cell (Bfs.grid st) cur = Some c →
  NoDup (Bfs.visitedNodesInOrder st ++ Bfs.queue st) ∧
  ((cur = s ∧ rest = [] ∧ Bfs.visitedNodesInOrder st = []) ∨
   isWall c = false).
Proof.
  intros Hi Hreach Hq Hc.
  assert (Hinv : bfs_order st ∧ frame g (Bfs.grid st) ∧
    ((Bfs.visitedNodesInOrder st = [] ∧ ∀ x, x ∈ Bfs.queue st → x = s) ∨
     ∀ x, x ∈ Bfs.queue st → passable g x)).
  { pattern st. eapply (reaches_inv (Bfs.body e)); [| |exact Hreach].
    - intros st1 st2 [Hord Hrest] Hb.
      split; [by eapply bfs_body_order|by eapply bfs_body_queue].
    - split; [by eapply bfs_init_order|].
      apply bfs_init_fields in Hi as (HQ & HV & Hg & _).
      rewrite HV, HQ, Hg. split; [by apply frame_upd|].
      left. split; [done|]. by intros x ->%list_elem_of_singleton. }
  destruct Hinv as ([_ Hnd] & Hfr & Hqueue). split; [done|].
  destruct Hqueue as [[Hv Ho]|Hqueue].
  - left. split; [apply Ho; rewrite Hq; by left|]. split; [|done].
    destruct rest as [|y rest]; [done|].
    rewrite Hv, Hq in Hnd. simpl in Hnd.
    apply NoDup_cons in Hnd as [Hcr _]. destruct Hcr.
    rewrite (Ho cur), <- (Ho y); [by left|rewrite Hq; right; by left|
                                  rewrite Hq; by left].
  - right.
    assert (Hp : passable g cur) by (apply Hqueue; rewrite Hq; by left).
    apply (frame_passable g (Bfs.grid st)) in Hp; [|done].
    unfold passable in Hp. rewrite Hc in Hp. simpl in Hp. congruence.
Qed.

Section BfsBlind.
Import Bfs.
Implicit Types (st : state) (v : ref) (g : Grid).

Lemma sameForBfs_cell g g2 p n :
  sameForBfs g g2 → cell g p = Some n →
  ∃ n2, cell g2 p = Some n2 ∧ bfsView n2 = bfsView n.
Proof.
  intros (_ & _ & H) Hn. specialize (H p). rewrite Hn in H. simpl in H.
  destruct (cell g2 p) as [n2|]; simpl in H; [|done].
  exists n2. split; [done|]. congruence.
Qed.

Lemma sameForBfs_None g g2 p :
  sameForBfs g g2 → cell g p = None → cell g2 p = None.
Proof.
  intros (_ & _ & H) Hn. specialize (H p). rewrite Hn in H. simpl in H.
  by destruct (cell g2 p).
Qed.

Lemma sameForBfs_slot g g2 r c :
  sameForBfs g g2 → slot g r c = slot g2 r c.
Proof.
  intros H. unfold slot.
  destruct (cell g (r, c)) as [n|] eqn:Hn.
  - by destruct (sameForBfs_cell _ _ _ _ H Hn) as (n2 & -> & _).
  - by rewrite (sameForBfs_None _ _ _ H Hn).
Qed.

Lemma sameForBfs_neighbors g g2 n n2 :
  sameForBfs g g2 → bfsView n2 = bfsView n →
  getUnvisitedNeighbors n2 g2 = getUnvisitedNeighbors n g.
Proof.
  intros H Hv. unfold bfsView in Hv. injection Hv as Hr Hc _ _.
  unfold getUnvisitedNeighbors.
  assert (Hfour : fourNeighbors n2 g2 = fourNeighbors n g).
  { unfold fourNeighbors. rewrite Hr, Hc.
    rewrite !(sameForBfs_slot g g2) by done.
    destruct H as (-> & -> & _). done. }
  rewrite Hfour. destruct (fourNeighbors n g) as [l|]; simpl; [|done].
  f_equal. apply list_filter_iff. intros p. unfold unvisitedOpen.
  destruct (cell g p) as [m|] eqn:Hm.
  - destruct (sameForBfs_cell _ _ _ _ H Hm) as (m2 & -> & Hv).
    unfold bfsView in Hv. injection Hv as _ _ -> ->. done.
  - by rewrite (sameForBfs_None _ _ _ H Hm).
Qed.

Lemma sameForBfs_upd g g2 p f :
  (∀ n n2, bfsView n2 = bfsView n → bfsView (f n2) = bfsView (f n)) →
  sameForBfs g g2 → sameForBfs (upd f p g) (upd f p g2).
Proof.
  intros Hf (Hl & Hw & H). split; [by rewrite !length_upd|].
  split; [by rewrite !width_upd|].
  intros q. rewrite !cell_upd. destruct (decide (p = q)); [|done].
  specialize (H q).
  destruct (cell g q) as [n|], (cell g2 q) as [n2|]; simpl in *; try done.
  f_equal. apply Hf. congruence.
Qed.

Lemma sameForBfs_enqueue cur nbs st st2 :
  sameForBfs (grid st) (grid st2) → queue st = queue st2 →
  visitedNodesInOrder st = visitedNodesInOrder st2 →
  ∃ st' st2', forOf (enqueue cur) nbs st = Some st' ∧
              forOf (enqueue cur) nbs st2 = Some st2' ∧
              sameForBfs (grid st') (grid st2') ∧ queue st' = queue st2' ∧
              visitedNodesInOrder st' = visitedNodesInOrder st2'.
Proof.
  revert st st2. induction nbs as [|x nbs IH]; intros st st2 Hg Hq Hv.
  - exists st, st2. done.
  - simpl. apply IH; simpl; [|by rewrite Hq|done].
    apply sameForBfs_upd; [|done]. intros n n2 Hn. unfold bfsView in *.
    simpl. congruence.
Qed.

Lemma sameForBfs_body e st st2 :
  sameForBfs (grid st) (grid st2) → queue st = queue st2 →
  visitedNodesInOrder st = visitedNodesInOrder st2 →
  match body e st, body e st2 with
  | Some (inl st'), Some (inl st2') =>
      sameForBfs (grid st') (grid st2') ∧ queue st' = queue st2' ∧
      visitedNodesInOrder st' = visitedNodesInOrder st2'
  | Some (inr r), Some (inr r2) => r.1 = r2.1
  | None, None => True
  | _, _ => False
  end.
Proof.
  intros Hg Hq Hv. unfold body. rewrite <- Hq, <- Hv.
  destruct (queue st) as [|cur rest]; [done|].
  destruct (cell (grid st) cur) as [c|] eqn:Hc.
  2: { by rewrite (sameForBfs_None _ _ _ Hg Hc). }
  destruct (sameForBfs_cell _ _ _ _ Hg Hc) as (c2 & -> & Hview). simpl.
  assert (Hw : isWall c2 = isWall c).
  { unfold bfsView in Hview. congruence. }
  rewrite Hw. destruct (isWall c); [done|].
  destruct (bool_decide (cur = e)); [done|].
  rewrite (sameForBfs_neighbors _ _ _ _ Hg Hview).
  destruct (getUnvisitedNeighbors c (grid st)) as [nbs|]; simpl; [|done].
  destruct (sameForBfs_enqueue cur nbs
              (mkState (grid st) rest (visitedNodesInOrder st ++ [cur]))
              (mkState (grid st2) rest (visitedNodesInOrder st ++ [cur])))
    as (st' & st2' & -> & -> & ?); done.
Qed.

Lemma sameForBfs_while e fuel st st2 :
  sameForBfs (grid st) (grid st2) → queue st = queue st2 →
  visitedNodesInOrder st = visitedNodesInOrder st2 →
  match while (body e) fuel st, while (body e) fuel st2 with
  | Returns r, Returns r2 => r.1 = r2.1
  | Throws, Throws | OutOfFuel, OutOfFuel => True
  | _, _ => False
  end.
Proof.
  revert st st2. induction fuel as [|fuel IH]; intros st st2 Hg Hq Hv;
    [done|].
  simpl. pose proof (sameForBfs_body e st st2 Hg Hq Hv) as Hb.
  destruct (body e st) as [[st'|r]|], (body e st2) as [[st2'|r2]|];
    try done.
  destruct Hb as (? & ? & ?). by apply IH.
Qed.

End BfsBlind.

(** X14. [bfs] ignores weights and costs: on two grids of the same
    dimensions whose cells agree on [row], [col], [isWall] and
    [isVisited], it ends the same way, and when it returns, with the same
    visitation order. *)
Theorem bfs_ignores_weights (g g2 : Grid) (s e : ref) (fuel : nat) :
  sameForBfs g g2 →
  match Bfs.bfs fuel g s e, Bfs.bfs fuel g2 s e with
  | Returns r, Returns r2 => r.1 = r2.1
  | Throws, Throws | OutOfFuel, OutOfFuel => True
  | _, _ => False
  end.
Proof.
  intros Hg. unfold Bfs.bfs, Bfs.init.
  destruct (cell g s) as [sn|] eqn:Hs.
  2: { by rewrite (sameForBfs_None _ _ _ Hg Hs). }
  destruct (sameForBfs_cell _ _ _ _ Hg Hs) as (sn2 & -> & _). simpl.
  apply sameForBfs_while; simpl; try done.
  apply sameForBfs_upd; [|done]. intros n n2 Hn. unfold bfsView in *.
  simpl. congruence.
Qed.

(** X15. Run from the same reset grid, as in the race of the application,
    with weights on which the sums of A* are doubles ([exactSums]), [bfs]
    finds a path with no more moves than the path of [astar], and [astar]
    a path that costs no more than the path of [bfs]. *)
Theorem bfs_astar_tradeoff (g : Grid) (s e : ref) (fuel : nat)
        (j top : Z) :
  wf_grid g → weightsOk g → exactSums j top g →
  unvisited g → prevNull g → resetDistance g →
  (∃ l, is_path g s e l) → enoughFuel g ≤ fuel →
  ∃ visB gB lB visA gA lA,
    Bfs.bfs fuel g s e = Returns (visB, gB) ∧
    (∀ k, length lB ≤ k →
          Bfs.getNodesInShortestPathOrder k gB e = Returns lB) ∧
    Astar.astar fuel g s e = Returns (visA, gA) ∧
    (∀ k, length lA ≤ k →
          Bfs.getNodesInShortestPathOrder k gA e = Returns lA) ∧
    edges lB ≤ edges lA ∧
    num_le (path_cost g lA) (path_cost g lB).
Proof.
  intros Hwf Hwt Hxs Hun Hnull Hreset Hpath Hfuel.
  destruct (bfs_run_shortest g s e fuel Hwf Hun Hnull Hpath Hfuel)
    as (visB & gB & lB & HrunB & _ & _ & HlB & HpB & HminB).
  destruct (astar_run_cheapest j top g s e fuel
              Hwf Hwt Hxs Hreset Hnull Hpath Hfuel)
    as (visA & gA & lA & d & HrunA & _ & HlA & HpA & _ & _ & HminA).
  exists visB, gB, lB, visA, gA, lA. split_and!; try done.
  - intros k Hk. by apply chain_getNodes.
  - intros k Hk. by apply chain_getNodes.
  - specialize (HminB lA HpA). unfold edges. lia.
  - rewrite (path_cost_pathQ g s e lA Hwt HpA),
      (path_cost_pathQ g s e lB Hwt HpB). simpl. by apply HminA.
Qed.

(* ===================================================================== *)
(** * The application: App.jsx *)

Lemma wf_grid_intro (g : Grid) :
  (∀ rw, rw ∈ g → length rw = ncols g) →
  (∀ p n, cell g p = Some n → row n = p.1 ∧ col n = p.2) →
  wf_grid g.
Proof.
  intros Hrect Hpl. split.
  - by apply Forall_forall.
  - apply Forall_forall. intros [r rw] [i Hi]%list_elem_of_lookup.
    rewrite list_lookup_imap in Hi.
    destruct (g !! i) as [rw'|] eqn:Hrow; simpl in Hi; [|done].
    injection Hi as <- <-. simpl.
    apply Forall_forall. intros [c n] [j Hj]%list_elem_of_lookup.
    rewrite list_lookup_imap in Hj.
    destruct (rw' !! j) as [n'|] eqn:Hn; simpl in Hj; [|done].
    injection Hj as <- <-. simpl.
    apply (Hpl (i, j)). unfold cell. simpl. by rewrite Hrow.
Qed.

Lemma all_cells (P : Node → Prop) (g : Grid) :
  (∀ p n, cell g p = Some n → P n) → Forall (Forall P) g.
Proof.
  intros H. apply Forall_forall.
  intros rw [i Hi]%list_elem_of_lookup. apply Forall_forall.
  intros n [j Hj]%list_elem_of_lookup.
  apply (H (i, j)). unfold cell. simpl. by rewrite Hi.
Qed.

Section AppGrids.
Import App.
Implicit Types (g : AppGrid) (p : ref) (n : AppNode).

Lemma cell_searchGrid g p : cell (searchGrid g) p = node <$> appCell g p.
Proof.
  unfold cell, searchGrid, appCell. rewrite list_lookup_fmap.
  destruct (g !! p.1) as [rw|]; simpl; [|done]. by rewrite list_lookup_fmap.
Qed.

Lemma appCell_makeClean g p :
  appCell (makeClean g) p = cleanNode <$> appCell g p.
Proof.
  unfold makeClean, appCell. rewrite list_lookup_fmap.
  destruct (g !! p.1) as [rw|]; simpl; [|done]. by rewrite list_lookup_fmap.
Qed.

Lemma lookup_table {A} (f : nat → nat → A) (m k : nat) (p : ref) :
  ((λ r : nat, f r <$> seq 0 k) <$> seq 0 m) !! p.1 ≫= (λ rw, rw !! p.2) =
  if decide (p.1 < m ∧ p.2 < k) then Some (f p.1 p.2) else None.
Proof.
  rewrite list_lookup_fmap.
  destruct (decide (p.1 < m)) as [Hr|Hr].
  - rewrite (lookup_seq_lt _ _ _ Hr). cbn [fmap option_fmap option_map mbind option_bind].
    rewrite list_lookup_fmap.
    destruct (decide (p.2 < k)) as [Hc|Hc].
    + rewrite (lookup_seq_lt _ _ _ Hc). rewrite decide_True by done. done.
    + rewrite lookup_seq_ge by lia. rewrite decide_False by lia. done.
  - rewrite lookup_seq_ge by lia. rewrite decide_False by lia. done.
Qed.

Lemma appCell_createInitialGrid roadWeights p :
  appCell (createInitialGrid roadWeights) p =
  if decide (p.1 < GRID_SIZE ∧ p.2 < GRID_SIZE)
  then Some (initialCell roadWeights p.1 p.2) else None.
Proof. apply lookup_table. Qed.

Lemma appCell_lt g p n :
  length g = GRID_SIZE → Forall (λ r : list AppNode, length r = GRID_SIZE) g →
  appCell g p = Some n → p.1 < GRID_SIZE ∧ p.2 < GRID_SIZE.
Proof.
  intros Hl Hr. unfold appCell.
  destruct (g !! p.1) as [rw|] eqn:Hrow; simpl; [|done]. intros Hn.
  split; [rewrite <- Hl; by eapply lookup_lt_Some|].
  rewrite Forall_forall in Hr. rewrite <- (Hr rw).
  - by eapply lookup_lt_Some.
  - by eapply list_elem_of_lookup_2.
Qed.

Lemma appCell_is_Some g p :
  length g = GRID_SIZE → Forall (λ r : list AppNode, length r = GRID_SIZE) g →
  p.1 < GRID_SIZE → p.2 < GRID_SIZE → is_Some (appCell g p).
Proof.
  intros Hl Hr H1 H2. unfold appCell.
  destruct (lookup_lt_is_Some_2 g p.1) as [rw Hrw]; [lia|].
  rewrite Hrw. simpl. apply lookup_lt_is_Some_2.
  rewrite Forall_forall in Hr. rewrite (Hr rw); [done|].
  by eapply list_elem_of_lookup_2.
Qed.

Lemma ncols_searchGrid g :
  length g = GRID_SIZE → Forall (λ r : list AppNode, length r = GRID_SIZE) g →
  ncols (searchGrid g) = GRID_SIZE.
Proof.
  intros Hl Hr. unfold ncols, searchGrid. rewrite list_lookup_fmap.
  destruct (lookup_lt_is_Some_2 g 0) as [rw Hrw]; [rewrite Hl; unfold GRID_SIZE; lia|].
  rewrite Hrw. simpl. rewrite length_fmap.
  rewrite Forall_forall in Hr. apply Hr. by eapply list_elem_of_lookup_2.
Qed.

Lemma appGridOk_wf g : appGridOk g → wf_grid (searchGrid g).
Proof.
  intros (Hl & Hr & Hc). apply wf_grid_intro.
  - intros rw. rewrite (ncols_searchGrid g Hl Hr). unfold searchGrid.
    intros (r & -> & Hin)%list_elem_of_fmap. rewrite length_fmap.
    rewrite Forall_forall in Hr. by apply Hr.
  - intros p n. rewrite cell_searchGrid.
    destruct (appCell g p) as [m|] eqn:Hm; simpl; [|done].
    intros [= <-]. by destruct (Hc p m Hm) as (? & ? & _).
Qed.

Lemma appGridOk_inGrid g p :
  appGridOk g → inGrid (searchGrid g) p ↔ p.1 < GRID_SIZE ∧ p.2 < GRID_SIZE.
Proof.
  intros (Hl & Hr & _). unfold inGrid. rewrite cell_searchGrid, fmap_is_Some.
  split.
  - intros [n Hn]. by eapply appCell_lt.
  - intros [? ?]. by apply appCell_is_Some.
Qed.

Lemma appWeightsOk_weightsOk g : appWeightsOk g → weightsOk (searchGrid g).
Proof.
  intros Hw. unfold weightsOk. apply Forall_forall.
  intros rw [i Hi]%list_elem_of_lookup. apply Forall_forall.
  intros n [j Hj]%list_elem_of_lookup Hwall.
  assert (Hc : cell (searchGrid g) (i, j) = Some n).
  { unfold cell. simpl. by rewrite Hi. }
  rewrite cell_searchGrid in Hc.
  destruct (appCell g (i, j)) as [m|] eqn:Hm; simpl in Hc; [|done].
  injection Hc as <-. specialize (Hw _ _ Hm). by rewrite Hwall in Hw.
Qed.

End AppGrids.

Section Create.
Import App.
Implicit Types (g : AppGrid) (p : ref) (n : AppNode).

Lemma terrain_weight (t : Terrain) :
  if terrainIsWall t then terrainWeight t = Infinity
  else atLeastOne (terrainWeight t).
Proof. destruct t; simpl; try done; unfold Qle; simpl; lia. Qed.

Lemma initialCell_fields roadWeights r c :
  let n := initialCell roadWeights r c in
  row (node n) = r ∧ col (node n) = c ∧
  isWall (node n) = terrainIsWall (terrain n) ∧
  weight (node n) =
    match roadWeights with
    | Some w => if terrainIsWall (terrain n) then terrainWeight (terrain n)
                else w r c
    | None => terrainWeight (terrain n)
    end ∧
  distance (node n) = Infinity ∧ totalCost (node n) = Infinity ∧
  heuristicVal (node n) = Fin 0 ∧ isVisited (node n) = false ∧
  previousNode (node n) = None ∧
  isStart n = ((r =? 2) && (c =? 2)) ∧
  isEnd n = ((r =? GRID_SIZE - 3) && (c =? GRID_SIZE - 3)) ∧
  isPath n = false ∧ bfsVisited n = false ∧ bfsPath n = false ∧
  terrain n = terrain (initialCell None r c).
Proof. cbv zeta. split_and!; reflexivity. Qed.

Lemma initialCell_diagonal roadWeights r c :
  (Z.abs (Z.of_nat r - Z.of_nat c) < 3)%Z →
  isWall (node (initialCell roadWeights r c)) = false.
Proof.
  intros H. apply Z.ltb_lt in H. unfold initialCell. cbv zeta.
  cbn [node isWall]. rewrite H. simpl.
  by destruct (_ || _).
Qed.

Lemma cell_initial roadWeights p :
  p.1 < GRID_SIZE → p.2 < GRID_SIZE →
  cell (searchGrid (createInitialGrid roadWeights)) p
  = Some (node (initialCell roadWeights p.1 p.2)).
Proof.
  intros Hr Hc. rewrite cell_searchGrid, appCell_createInitialGrid.
  by rewrite decide_True.
Qed.

Lemma diagonal_passable roadWeights p :
  p.1 < GRID_SIZE → p.2 < GRID_SIZE →
  (Z.abs (Z.of_nat p.1 - Z.of_nat p.2) < 3)%Z →
  passable (searchGrid (createInitialGrid roadWeights)) p.
Proof.
  intros Hr Hc Hd. unfold passable. rewrite cell_initial by done.
  cbn [fmap option_fmap option_map]. by rewrite initialCell_diagonal.
Qed.

(** Along the main diagonal, one step right and one step down in turn. *)
Lemma diagonal_route roadWeights k :
  2 + k < GRID_SIZE →
  ∃ l, path_to (searchGrid (createInitialGrid roadWeights))
               (2, 2) (2 + k, 2 + k) l.
Proof.
  induction k as [|k IH]; intros Hk.
  - exists [(2, 2)]. apply path_start. apply diagonal_passable; simpl; lia.
  - destruct IH as [l Hl]; [lia|].
    exists ((l ++ [(2 + k, 2 + S k)]) ++ [(2 + S k, 2 + S k)]).
    eapply path_step; [eapply path_step; [exact Hl| |]| |].
    + left. simpl. split; [done|]. right. lia.
    + apply diagonal_passable; simpl; lia.
    + right. simpl. split; [done|]. right. lia.
    + apply diagonal_passable; simpl; lia.
Qed.

Lemma createInitialGrid_ok roadWeights :
  appGridOk (createInitialGrid roadWeights).
Proof.
  split_and!.
  - unfold createInitialGrid. by rewrite length_fmap, length_seq.
  - unfold createInitialGrid. apply Forall_forall.
    intros rw (r & -> & _)%list_elem_of_fmap.
    by rewrite length_fmap, length_seq.
  - intros [r c] n. rewrite appCell_createInitialGrid. simpl.
    destruct (decide _) as [[Hr Hc]|]; [|done]. intros [= <-].
    pose proof (initialCell_fields roadWeights r c)
      as (Hrow & Hcol & _ & _ & _ & _ & _ & _ & _ & Hst & Hen & _).
    cbv zeta in *. rewrite Hst, Hen. split; [done|]. split; [done|].
    assert (H1 : (r =? 2) && (c =? 2) = true ↔ (r, c) = startRef).
    { rewrite andb_true_iff, !Nat.eqb_eq. unfold startRef.
      split; [by intros [-> ->]|by intros [= -> ->]]. }
    assert (H2 : (r =? GRID_SIZE - 3) && (c =? GRID_SIZE - 3) = true
                 ↔ (r, c) = endRef).
    { rewrite andb_true_iff, !Nat.eqb_eq. unfold endRef.
      split; [by intros [-> ->]|by intros [= -> ->]]. }
    split; [done|]. split; [done|].
    rewrite H1, H2. intros [[= -> ->]|[= -> ->]];
      apply initialCell_diagonal; simpl; lia.
Qed.

End Create.

(** X16. Whatever the road data, [createInitialGrid] returns a well-formed
    grid of [GRID_SIZE] rows and columns in which every scratch field of
    the searches is reset. *)
Theorem createInitialGrid_wellformed
        (roadWeights : option (nat → nat → num)) :
  let g := App.searchGrid (App.createInitialGrid roadWeights) in
  wf_grid g ∧ length g = App.GRID_SIZE ∧ ncols g = App.GRID_SIZE ∧
  unvisited g ∧ prevNull g ∧ resetDistance g.
Proof.
  pose proof (createInitialGrid_ok roadWeights) as Hok.
  pose proof Hok as (Hl & Hr & _). cbv zeta.
  split; [by apply appGridOk_wf|].
  split; [unfold App.searchGrid; by rewrite length_fmap|].
  split; [by apply ncols_searchGrid|].
  assert (Hcell : ∀ p n,
    cell (App.searchGrid (App.createInitialGrid roadWeights)) p = Some n →
    n = App.node (App.initialCell roadWeights p.1 p.2)).
  { intros p n. rewrite cell_searchGrid, appCell_createInitialGrid.
    destruct (decide _); [|done]. by intros [= <-]. }
  split_and!; apply all_cells; intros p n ->%Hcell; reflexivity.
Qed.

(** X17. Whatever the road data, the initial grid flags as start the cell
    at [(2, 2)] alone and as end the cell at
    [(GRID_SIZE - 3, GRID_SIZE - 3)] alone, neither is a wall, and a path
    of non-wall cells leads from the one to the other. *)
Theorem createInitialGrid_route (roadWeights : option (nat → nat → num)) :
  let g := App.createInitialGrid roadWeights in
  (∀ p n, App.appCell g p = Some n →
          (App.isStart n = true ↔ p = (2, 2)) ∧
          (App.isEnd n = true ↔ p = (App.GRID_SIZE - 3, App.GRID_SIZE - 3))) ∧
  passable (App.searchGrid g) App.startRef ∧
  passable (App.searchGrid g) App.endRef ∧
  ∃ l, is_path (App.searchGrid g) App.startRef App.endRef l.
Proof.
  cbv zeta. split_and!.
  - intros p n Hn.
    by destruct (createInitialGrid_ok roadWeights)
      as (_ & _ & (_ & _ & ? & ? & _)%(λ H, H p n Hn)).
  - apply diagonal_passable; simpl; unfold App.GRID_SIZE; lia.
  - apply diagonal_passable; simpl; unfold App.GRID_SIZE; lia.
  - destruct (diagonal_route roadWeights 17) as [l Hl];
      [unfold App.GRID_SIZE; lia|].
    exists l. by apply path_to_is_path.
Qed.

(** X18. In the initial grid a wall has weight [Infinity]; every other cell
    has its terrain's weight, at least 1, when there is no road data, and
    the weight the road data gives it otherwise; which cells are walls,
    and the terrain of each cell, do not depend on the road data. *)
Theorem createInitialGrid_weights (roadWeights : option (nat → nat → num))
        (p : ref) (n n0 : App.AppNode) :
  App.appCell (App.createInitialGrid roadWeights) p = Some n →
  App.appCell (App.createInitialGrid None) p = Some n0 →
  isWall (App.node n) = isWall (App.node n0) ∧
  App.terrain n = App.terrain n0 ∧
  (isWall (App.node n) = true → weight (App.node n) = Infinity) ∧
  (isWall (App.node n) = false →
   weight (App.node n0) = App.terrainWeight (App.terrain n0) ∧
   atLeastOne (weight (App.node n0)) ∧
   weight (App.node n) = match roadWeights with
                         | Some w => w p.1 p.2
                         | None => weight (App.node n0)
                         end).
Proof.
  rewrite !appCell_createInitialGrid.
  destruct (decide _); [|done]. intros [= <-] [= <-].
  pose proof (initialCell_fields roadWeights p.1 p.2)
    as (_ & _ & Hw & Hwt & _ & _ & _ & _ & _ & _ & _ & _ & _ & _ & Ht).
  pose proof (initialCell_fields None p.1 p.2) as (_ & _ & Hw0 & Hwt0 & _).
  cbv zeta in *. rewrite Hw, Hw0, Hwt, Hwt0, Ht.
  pose proof (terrain_weight (App.terrain (App.initialCell None p.1 p.2)))
    as Htw.
  destruct (App.terrainIsWall _); split_and!; try done.
  all: by destruct roadWeights.
Qed.

Section Clean.
Import App.
Implicit Types (g : AppGrid) (p : ref) (n : AppNode).

Lemma cell_makeClean g p :
  cell (searchGrid (makeClean g)) p = node <$> (cleanNode <$> appCell g p).
Proof. by rewrite cell_searchGrid, appCell_makeClean. Qed.

Lemma makeClean_frame g : frame (searchGrid g) (searchGrid (makeClean g)).
Proof.
  intros p. rewrite cell_makeClean, cell_searchGrid.
  by destruct (appCell g p).
Qed.

Lemma makeClean_ok g : appGridOk g → appGridOk (makeClean g).
Proof.
  intros (Hl & Hr & Hc). split_and!.
  - unfold makeClean. by rewrite length_fmap.
  - unfold makeClean. apply Forall_forall.
    intros rw (r & -> & Hin)%list_elem_of_fmap. rewrite length_fmap.
    rewrite Forall_forall in Hr. by apply Hr.
  - intros p n. rewrite appCell_makeClean.
    destruct (appCell g p) as [m|] eqn:Hm; simpl; [|done].
    intros [= <-]. apply (Hc p m Hm).
Qed.

Lemma makeClean_weights g : appWeightsOk g → appWeightsOk (makeClean g).
Proof.
  intros Hw p n. rewrite appCell_makeClean.
  destruct (appCell g p) as [m|] eqn:Hm; simpl; [|done].
  intros [= <-]. apply (Hw p m Hm).
Qed.

Lemma makeClean_reset g :
  unvisited (searchGrid (makeClean g)) ∧
  prevNull (searchGrid (makeClean g)) ∧
  resetDistance (searchGrid (makeClean g)).
Proof.
  assert (Hcell : ∀ p nd, cell (searchGrid (makeClean g)) p = Some nd →
                          ∃ m, nd = node (cleanNode m)).
  { intros p nd. rewrite cell_makeClean.
    destruct (appCell g p) as [m|]; simpl; [|done].
    intros [= <-]. by exists m. }
  split_and!; apply all_cells; intros p nd [m ->]%Hcell; reflexivity.
Qed.

End Clean.

(** X19. Whatever state the grid is in, [makeClean] returns a grid of the
    same cells, with the same [row], [col], [isWall] and [weight], in
    which [isVisited], [previousNode] and [distance] are reset: the grid
    the searches require; and cleaning a clean grid changes nothing. *)
Theorem makeClean_resets (grid : App.AppGrid) :
  let sg := App.searchGrid (App.makeClean grid) in
  unvisited sg ∧ prevNull sg ∧ resetDistance sg ∧
  (∀ p, static <$> cell sg p = static <$> cell (App.searchGrid grid) p) ∧
  App.makeClean (App.makeClean grid) = App.makeClean grid.
Proof.
  cbv zeta. pose proof (makeClean_reset grid) as (? & ? & ?).
  split_and!; try done.
  - intros p. symmetry. apply makeClean_frame.
  - unfold App.makeClean. rewrite <- list_fmap_compose.
    apply list_fmap_ext. intros i rw _. simpl.
    rewrite <- list_fmap_compose. by apply list_fmap_ext.
Qed.

Section Toggle.
Import App.
Implicit Types (g prev next : AppGrid) (p : ref) (n : AppNode).

Lemma appCell_alter g r c (f : AppNode → AppNode) p :
  appCell (alter (alter f c) r g) p =
  if decide (p = (r, c)) then f <$> appCell g p else appCell g p.
Proof.
  unfold appCell. destruct p as [r' c']. simpl.
  destruct (decide (r = r')) as [->|Hr].
  - rewrite list_lookup_alter_eq.
    destruct (g !! r') as [rw|]; simpl.
    + destruct (decide (c = c')) as [->|Hc].
      * rewrite list_lookup_alter_eq. by rewrite decide_True.
      * rewrite list_lookup_alter_ne by done.
        rewrite decide_False; [done|congruence].
    + by destruct (decide _).
  - rewrite list_lookup_alter_ne by done.
    rewrite decide_False; [done|congruence].
Qed.

Lemma onToggleWall_cases isRunning r c prev next :
  onToggleWall isRunning r c prev = Some next →
  next = prev ∨
  (isRunning = false ∧
   ∃ n, appCell prev (r, c) = Some n ∧
        isStart n = false ∧ isEnd n = false ∧
        next = alter (alter toggleNode c) r prev).
Proof.
  unfold onToggleWall. destruct isRunning; [intros [= <-]; by left|].
  unfold appCell. simpl.
  destruct (prev !! r) as [rw|]; simpl; [|done].
  destruct (rw !! c) as [n|]; simpl; [|done].
  destruct (isStart n) eqn:Hs; simpl; [intros [= <-]; by left|].
  destruct (isEnd n) eqn:He; simpl; [intros [= <-]; by left|].
  intros [= <-]. right. split; [done|]. by exists n.
Qed.

Lemma onToggleWall_is_Some g r c :
  length g = GRID_SIZE → Forall (λ rw : list AppNode, length rw = GRID_SIZE) g →
  r < GRID_SIZE → c < GRID_SIZE →
  is_Some (onToggleWall false r c g).
Proof.
  intros Hl Hr H1 H2.
  destruct (appCell_is_Some g (r, c) Hl Hr H1 H2) as [n Hn].
  unfold onToggleWall, appCell in *. simpl in *.
  destruct (g !! r) as [rw|]; simpl in *; [|done]. rewrite Hn. simpl.
  by destruct (_ || _).
Qed.

Lemma toggle_ok g r c :
  appGridOk g →
  (∀ n, appCell g (r, c) = Some n → isStart n = false ∧ isEnd n = false) →
  appGridOk (alter (alter toggleNode c) r g).
Proof.
  intros (Hl & Hr & Hc) Hn. split_and!.
  - by rewrite length_alter.
  - apply Forall_alter; [done|].
    intros rw _ Hrw. by rewrite length_alter.
  - intros p n. rewrite appCell_alter.
    destruct (decide (p = (r, c))) as [->|Hne]; [|by apply Hc].
    destruct (appCell g (r, c)) as [m|] eqn:Hm; simpl; [|done].
    intros [= <-]. destruct (Hc _ _ Hm) as (H1 & H2 & H3 & H4 & H5).
    destruct (Hn m eq_refl) as [Hs He].
    unfold toggleNode. destruct (isWall (node m)); simpl.
    all: split_and!; try done.
    all: intros [?|?]; congruence.
Qed.

Lemma toggle_weights g r c :
  appWeightsOk g → appWeightsOk (alter (alter toggleNode c) r g).
Proof.
  intros Hw p n. rewrite appCell_alter.
  destruct (decide (p = (r, c))) as [->|Hne]; [|by apply Hw].
  destruct (appCell g (r, c)) as [m|] eqn:Hm; simpl; [|done].
  intros [= <-]. unfold toggleNode. destruct (isWall (node m)); simpl.
  - unfold Qle. simpl. lia.
  - done.
Qed.

End Toggle.

(** X20. [onToggleWall] keeps the grid as the application needs it: the
    grid stays [GRID_SIZE] by [GRID_SIZE] with every cell at its place,
    the start and end cells are never changed and never become walls,
    every cell other than the one clicked is left as it was, and walls
    keep weight [Infinity] while the other cells keep a weight of at
    least 1. *)
Theorem onToggleWall_preserves (isRunning : bool) (r c : nat)
        (prev next : App.AppGrid) :
  appGridOk prev → App.onToggleWall isRunning r c prev = Some next →
  appGridOk next ∧
  (appWeightsOk prev → appWeightsOk next) ∧
  (∀ p, p ≠ (r, c) → App.appCell next p = App.appCell prev p) ∧
  App.appCell next App.startRef = App.appCell prev App.startRef ∧
  App.appCell next App.endRef = App.appCell prev App.endRef.
Proof.
  intros Hok Ht.
  apply onToggleWall_cases in Ht as [->|(_ & n & Hn & Hs & He & ->)];
    [done|].
  assert (Hne : (r, c) ≠ App.startRef ∧ (r, c) ≠ App.endRef).
  { destruct Hok as (_ & _ & Hc).
    destruct (Hc _ _ Hn) as (_ & _ & H1 & H2 & _).
    split; intros Heq; [apply H1 in Heq|apply H2 in Heq]; congruence. }
  split_and!.
  - apply toggle_ok; [done|]. intros m. rewrite Hn. by intros [= <-].
  - apply toggle_weights.
  - intros p Hp. rewrite appCell_alter. by rewrite decide_False.
  - rewrite appCell_alter. rewrite decide_False; [done|]. by destruct Hne.
  - rewrite appCell_alter. rewrite decide_False; [done|]. by destruct Hne.
Qed.

(** X21. A click on a cell of the grid other than start and end, while no
    run is in progress, turns a wall into a road of weight 1 and any other
    cell into a wall of weight [Infinity], leaving the scratch fields of
    the searches alone.  A second click on the same cell restores
    [isWall], but not the terrain: a cell that was not a wall ends as a
    road of weight 1 whatever it was before. *)
Theorem onToggleWall_twice (r c : nat) (g : App.AppGrid) (n : App.AppNode) :
  appGridOk g → App.appCell g (r, c) = Some n →
  (r, c) ≠ App.startRef → (r, c) ≠ App.endRef →
  ∃ g1 g2 n1 n2,
    App.onToggleWall false r c g = Some g1 ∧
    App.onToggleWall false r c g1 = Some g2 ∧
    App.appCell g1 (r, c) = Some n1 ∧ App.appCell g2 (r, c) = Some n2 ∧
    isWall (App.node n1) = negb (isWall (App.node n)) ∧
    weight (App.node n1)
    = (if isWall (App.node n) then Fin 1 else Infinity) ∧
    (distance (App.node n1), isVisited (App.node n1),
     previousNode (App.node n1))
    = (distance (App.node n), isVisited (App.node n),
       previousNode (App.node n)) ∧
    isWall (App.node n2) = isWall (App.node n) ∧
    (isWall (App.node n) = false →
     App.terrain n2 = App.ROAD ∧ weight (App.node n2) = Fin 1) ∧
    ∀ p, p ≠ (r, c) → App.appCell g2 p = App.appCell g p.
Proof.
  intros Hok Hn Hs He.
  destruct Hok as (Hl & Hr & Hc).
  destruct (Hc _ _ Hn) as (_ & _ & H1 & H2 & _).
  assert (Hfs : App.isStart n = false).
  { destruct (App.isStart n); [|done]. destruct Hs. by apply H1. }
  assert (Hfe : App.isEnd n = false).
  { destruct (App.isEnd n); [|done]. destruct He. by apply H2. }
  set (g1 := alter (alter App.toggleNode c) r g).
  set (g2 := alter (alter App.toggleNode c) r g1).
  assert (Hn1 : App.appCell g1 (r, c) = Some (App.toggleNode n)).
  { unfold g1. rewrite appCell_alter, decide_True by done. by rewrite Hn. }
  assert (Hn2 : App.appCell g2 (r, c)
                = Some (App.toggleNode (App.toggleNode n))).
  { unfold g2. rewrite appCell_alter, decide_True by done. by rewrite Hn1. }
  assert (Ht1 : App.onToggleWall false r c g = Some g1).
  { unfold App.onToggleWall, App.appCell in *. simpl in *.
    destruct (g !! r) as [rw|]; simpl in *; [|done].
    rewrite Hn. simpl. by rewrite Hfs, Hfe. }
  assert (Ht2 : App.onToggleWall false r c g1 = Some g2).
  { unfold App.onToggleWall, App.appCell in *. simpl in *.
    destruct (g1 !! r) as [rw|]; simpl in *; [|done].
    rewrite Hn1. simpl.
    replace (App.isStart (App.toggleNode n)) with false
      by (unfold App.toggleNode; by destruct (isWall _)).
    replace (App.isEnd (App.toggleNode n)) with false
      by (unfold App.toggleNode; by destruct (isWall _)).
    done. }
  exists g1, g2, (App.toggleNode n), (App.toggleNode (App.toggleNode n)).
  split_and!; try done.
  - unfold App.toggleNode. by destruct (isWall (App.node n)).
  - unfold App.toggleNode. by destruct (isWall (App.node n)).
  - unfold App.toggleNode. by destruct (isWall (App.node n)).
  - unfold App.toggleNode. by destruct (isWall (App.node n)).
  - intros Hw. unfold App.toggleNode. rewrite Hw. simpl. done.
  - intros p Hp. unfold g2, g1. rewrite !appCell_alter.
    by rewrite !decide_False by done.
Qed.

Lemma is_path_frame g g' s e l : frame g g' → is_path g s e l → is_path g' s e l.
Proof.
  intros Hfr (Hh & Hl & Hs & Hp). split_and!; try done.
  eapply Forall_impl; [exact Hp|]. intros x Hx.
  by apply (frame_passable g g').
Qed.

Lemma path_cost_frame g g' l : frame g g' → path_cost g l = path_cost g' l.
Proof.
  intros Hfr. unfold path_cost. induction (tail l) as [|x t IH]; [done|].
  simpl. by rewrite IH, (frame_weightAt _ _ _ Hfr).
Qed.

Lemma exactWeights_frame k top g g' :
  frame g g' → exactWeights k top g → exactWeights k top g'.
Proof.
  intros Hfr Hx. apply all_cells. intros p n' Hn' Hw.
  destruct (frame_cell _ _ _ _ (frame_sym _ _ Hfr) Hn') as (n & Hn & Hst).
  unfold static in Hst.
  replace (weight n') with (weight n) by congruence.
  unfold exactWeights, cell in *.
  destruct (g !! p.1) as [rw|] eqn:Hr; simpl in Hn; [|done].
  rewrite Forall_lookup in Hx. specialize (Hx _ _ Hr).
  rewrite Forall_lookup in Hx. apply (Hx _ _ Hn). congruence.
Qed.

Lemma chain_length g rows cols x l :
  (∀ p, inGrid g p → p.1 < rows ∧ p.2 < cols) →
  chain g x l → length l ≤ rows * cols.
Proof.
  intros Hin Hl. apply bounded_length; [by eapply chain_NoDup|].
  intros p Hp. apply Hin.
  pose proof (chain_all_inGrid _ _ _ Hl) as Hall.
  rewrite Forall_forall in Hall. by apply Hall.
Qed.

Section Run.
Import App.
Implicit Types (g grid : AppGrid) (p : ref) (n : AppNode).

Lemma appGridOk_endpoints g :
  appGridOk g →
  passable (searchGrid g) startRef ∧ passable (searchGrid g) endRef ∧
  (isEnd <$> appCell g endRef) = Some true ∧ startRef ≠ endRef.
Proof.
  intros (Hl & Hr & Hc).
  destruct (appCell_is_Some g startRef Hl Hr) as [ns Hs];
    [simpl; unfold GRID_SIZE; lia..|].
  destruct (appCell_is_Some g endRef Hl Hr) as [ne He];
    [simpl; unfold GRID_SIZE; lia..|].
  destruct (Hc _ _ Hs) as (_ & _ & Hs1 & _ & Hs3).
  destruct (Hc _ _ He) as (_ & _ & _ & He2 & He3).
  unfold passable. rewrite !cell_searchGrid, Hs, He. simpl.
  rewrite Hs3 by (left; by apply Hs1). rewrite He3 by (right; by apply He2).
  split_and!; try done. f_equal. by apply He2.
Qed.

Lemma enoughFuel_app g :
  appGridOk g → enoughFuel (searchGrid g) = 5 * (GRID_SIZE * GRID_SIZE) + 2.
Proof.
  intros (Hl & Hr & _). unfold enoughFuel.
  rewrite (ncols_searchGrid _ Hl Hr). unfold searchGrid.
  by rewrite length_fmap, Hl.
Qed.

(** The search of [runSingle] and the walk back, on the clean copy. *)
Lemma run_search algorithm fuel grid :
  appGridOk grid → appWeightsOk grid →
  exactWeights 1 4 (searchGrid grid) →
  enoughFuel (searchGrid grid) ≤ fuel →
  let cg := searchGrid (makeClean grid) in
  ∃ vis cg' path,
    match algorithm with
    | BFS => Bfs.bfs fuel cg startRef endRef
    | AStar => Astar.astar fuel cg startRef endRef
    end = Returns (vis, cg') ∧
    Bfs.getNodesInShortestPathOrder fuel cg' endRef = Returns path ∧
    (endRef ∈ vis ↔ ∃ l, is_path cg startRef endRef l) ∧
    (endRef ∈ vis →
     last vis = Some endRef ∧ is_path cg startRef endRef path ∧
     ∀ l', is_path cg startRef endRef l' →
           match algorithm with
           | AStar => num_le (path_cost cg path) (path_cost cg l')
           | BFS => edges path ≤ edges l'
           end) ∧
    (endRef ∉ vis → path = [endRef]).
Proof.
  intros Hok Hw Hxw Hfuel. cbv zeta.
  pose proof (makeClean_ok _ Hok) as Hok'.
  pose proof (makeClean_weights _ Hw) as Hw'%appWeightsOk_weightsOk.
  assert (Hxs : exactSums 1 4 (searchGrid (makeClean grid))).
  { split; [|by apply (exactWeights_frame 1 4 _ _ (makeClean_frame grid))].
    destruct Hok' as (Hl & Hr & _).
    rewrite (ncols_searchGrid _ Hl Hr). unfold searchGrid.
    rewrite length_fmap, Hl. by vm_compute. }
  pose proof (appGridOk_wf _ Hok') as Hwf.
  pose proof (makeClean_reset grid) as (Hun & Hnull & Hreset).
  destruct (appGridOk_endpoints _ Hok') as (Hs & He & _ & Hne).
  assert (Hfuel' : enoughFuel (searchGrid (makeClean grid)) ≤ fuel).
  { rewrite (enoughFuel_app _ Hok'). by rewrite (enoughFuel_app _ Hok) in Hfuel. }
  assert (Hbound : ∀ cg' x l, frame (searchGrid (makeClean grid)) cg' →
                              chain cg' x l → length l ≤ fuel).
  { intros cg' x l Hfr Hl.
    pose proof (chain_length cg' GRID_SIZE GRID_SIZE x l) as Hlen.
    rewrite (enoughFuel_app _ Hok') in Hfuel'.
    etransitivity; [apply Hlen; [|done]|lia].
    intros p Hp%(frame_inGrid _ _ _ Hfr).
    by apply (appGridOk_inGrid (makeClean grid)). }
  set (cg := searchGrid (makeClean grid)) in *.
  pose proof (passable_inGrid _ _ Hs) as Hsin.
  pose proof (passable_inGrid _ _ He) as Hein.
  destruct algorithm.
  - destruct (astar_returns cg startRef endRef fuel Hwf Hsin Hein Hfuel')
      as [[vis cg'] Hrun].
    assert (Hfr : frame cg cg') by (eapply search_frame; by right).
    destruct (astar_run_facts 1 4 cg startRef endRef fuel vis cg'
                Hwf Hw' Hxs Hreset Hnull Hs Hrun) as [Hall Hend].
    destruct (astar_links_post cg startRef endRef fuel vis cg' Hnull Hrun)
      as (_ & _ & Hnot).
    assert (Hreach : endRef ∈ vis ↔ ∃ l, is_path cg startRef endRef l).
    { split.
      - intros Hin. destruct (Hall _ Hin) as (l & _ & _ & _ & _ & Hl & _).
        exists l. by apply path_to_is_path.
      - intros [l Hl]. destruct Hend as [[Hlast _]|[_ Hex]].
        + rewrite last_lookup in Hlast. by eapply list_elem_of_lookup_2.
        + eapply Hex. by apply is_path_path_to. }
    destruct (decide (endRef ∈ vis)) as [Hin|Hin].
    + destruct (Hall _ Hin) as (l & n & d & f & Hl & Hp & Hn & Hd & _ & _ & Hcost & Hmin).
      exists vis, cg', l. split; [done|].
      split; [apply chain_getNodes; [done|by eapply Hbound]|].
      split; [done|]. split; [|done]. intros _.
      apply path_to_is_path in Hp as Hp'. split_and!; try done.
      * destruct Hend as [[? _]|[? _]]; done.
      * intros l' Hl'.
        rewrite (path_cost_pathQ _ _ _ _ Hw' Hp'),
          (path_cost_pathQ _ _ _ _ Hw' Hl'). simpl.
        apply is_path_path_to, Hmin in Hl'. lra.
    + destruct (Hnot Hin) as (n & Hn & Hprev).
      exists vis, cg', [endRef]. split; [done|].
      split; [apply chain_getNodes; [by eapply chain_root|]|].
      { simpl. unfold enoughFuel in Hfuel'. lia. }
      split; [done|]. split; [done|done].
  - destruct (bfs_returns cg startRef endRef fuel Hwf Hsin Hfuel')
      as [[vis cg'] Hrun].
    destruct (bfs_links_post cg startRef endRef fuel vis cg' Hnull Hrun)
      as (Hfr & _ & _ & Hnot).
    destruct (bfs_run_tree cg startRef endRef fuel vis cg'
                Hwf Hun Hnull Hs Hrun) as (lev & _ & Htree).
    assert (Hreach : endRef ∈ vis ↔ ∃ l, is_path cg startRef endRef l).
    { split.
      - intros Hin. destruct (Htree _ Hin) as (l & _ & [Hl _] & _).
        by exists l.
      - intros Hpath.
        destruct (bfs_run_shortest cg startRef endRef fuel Hwf Hun Hnull
                    Hpath Hfuel') as (vis' & g'' & l & Hrun' & _ & Hlast & _).
        rewrite Hrun in Hrun'. injection Hrun' as <- <-.
        rewrite last_lookup in Hlast. by eapply list_elem_of_lookup_2. }
    destruct (decide (endRef ∈ vis)) as [Hin|Hin].
    + destruct (bfs_run_shortest cg startRef endRef fuel Hwf Hun Hnull
                    (proj1 Hreach Hin) Hfuel')
        as (vis' & g'' & l & Hrun' & _ & Hlast & Hl & Hp & Hmin).
      rewrite Hrun in Hrun'. injection Hrun' as <- <-.
      exists vis, cg', l. split; [done|].
      split; [apply chain_getNodes; [done|by eapply Hbound]|].
      split; [done|]. split; [|done]. intros _. split_and!; try done.
      intros l' Hl'. specialize (Hmin l' Hl'). unfold edges. lia.
    + destruct Hein as [en Hen].
      destruct (frame_cell _ _ _ _ Hfr Hen) as (n & Hn & _).
      exists vis, cg', [endRef]. split; [done|].
      split; [apply chain_getNodes;
              [eapply chain_root; [done|by eapply Hnot]|]|].
      { simpl. unfold enoughFuel in Hfuel'. lia. }
      split; [done|]. split; [done|done].
Qed.

End Run.

(** X22. In the single-algorithm branch of [runSimulation], on every grid
    the application can hold whose weights are multiples of one half and
    at most 4, as the terrain and road tables give them, the search on
    the clean copy returns without error, and the path is drawn exactly
    when a path of non-wall cells leads from start to end in the grid: the
    path drawn is then such a path, the cheapest one for A* and one with
    the fewest moves for BFS; otherwise the walk from the end returns the
    end cell alone. *)
Theorem runSingle_draws_route (algorithm : App.Algorithm) (fuel : nat)
        (grid : App.AppGrid) :
  appGridOk grid → appWeightsOk grid →
  exactWeights 1 4 (App.searchGrid grid) →
  enoughFuel (App.searchGrid grid) ≤ fuel →
  let g := App.searchGrid grid in
  ∃ vis path shown,
    App.runSingle algorithm fuel grid = Returns (vis, path, shown) ∧
    (shown = true ↔ ∃ l, is_path g App.startRef App.endRef l) ∧
    (shown = true →
     last vis = Some App.endRef ∧
     is_path g App.startRef App.endRef path ∧
     ∀ l', is_path g App.startRef App.endRef l' →
           match algorithm with
           | App.AStar => num_le (path_cost g path) (path_cost g l')
           | App.BFS => edges path ≤ edges l'
           end) ∧
    (shown = false → path = [App.endRef] ∧ App.endRef ∉ vis).
Proof.
  intros Hok Hw Hxw Hfuel. cbv zeta.
  destruct (run_search algorithm fuel grid Hok Hw Hxw Hfuel)
    as (vis & cg' & path & Hrun & Hwalk & Hreach & Hyes & Hno).
  pose proof (makeClean_frame grid) as Hfr.
  pose proof (makeClean_ok _ Hok) as Hok'.
  destruct (appGridOk_endpoints _ Hok') as (_ & _ & Hend & Hne).
  assert (Hiff : (∃ l, is_path (App.searchGrid (App.makeClean grid))
                               App.startRef App.endRef l) ↔
                 ∃ l, is_path (App.searchGrid grid) App.startRef App.endRef l).
  { split; intros [l Hl]; exists l.
    - by apply (is_path_frame _ _ _ _ _ (frame_sym _ _ Hfr)).
    - by apply (is_path_frame _ _ _ _ _ Hfr). }
  unfold App.runSingle. cbv zeta. rewrite Hrun, Hwalk.
  eexists _, _, _. split; [reflexivity|].
  destruct (decide (App.endRef ∈ vis)) as [Hin|Hin].
  - destruct (Hyes Hin) as (Hlast & Hp & Hmin).
    assert (Hshown : (1 <? length path) &&
              from_option App.isEnd false
                (last path ≫= App.appCell (App.makeClean grid)) = true).
    { destruct Hp as (Hh & Hl & _). rewrite Hl. simpl.
      destruct (App.appCell _ _) as [n|]; simpl in *; [|done].
      injection Hend as ->. rewrite andb_true_r. apply Nat.ltb_lt.
      destruct path as [|a [|b path]]; simpl in *; [done| |lia].
      congruence. }
    rewrite Hshown. split_and!.
    + split; [intros _; by apply Hiff, Hreach|done].
    + intros _. split; [done|].
      split; [by apply (is_path_frame _ _ _ _ _ (frame_sym _ _ Hfr))|].
      intros l' Hl'%(is_path_frame _ _ _ _ _ Hfr). specialize (Hmin l' Hl').
      destruct algorithm; [|done].
      by rewrite !(path_cost_frame _ _ _ Hfr).
    + done.
  - rewrite (Hno Hin). simpl. split_and!; try done.
    split; [done|]. intros Hl%Hiff. destruct Hin. by apply Hreach.
Qed.

Section Clicks.
Import App.
Implicit Types (g : AppGrid) (p : ref) (n : AppNode).

Lemma createInitialGrid_exact roadWeights :
  (∀ w, roadWeights = Some w → ∀ r c, exactWeight 1 4 (w r c)) →
  exactWeights 1 4 (searchGrid (createInitialGrid roadWeights)).
Proof.
  intros Hrw. apply all_cells. intros p nd. rewrite cell_searchGrid.
  rewrite appCell_createInitialGrid.
  destruct (decide _); [|done]. intros H.
  change (Some (node (initialCell roadWeights p.1 p.2)) = Some nd) in H.
  assert (Hnd : node (initialCell roadWeights p.1 p.2) = nd) by congruence.
  rewrite <- Hnd. clear H Hnd.
  pose proof (initialCell_fields roadWeights p.1 p.2)
    as (_ & _ & Hw & Hwt & _).
  cbv zeta in *. rewrite Hw, Hwt. intros Hwall. rewrite Hwall.
  destruct roadWeights as [w|]; [by apply Hrw|].
  destruct (terrain (initialCell None p.1 p.2)); try done;
    (split; [reflexivity|by vm_compute]).
Qed.

Lemma createInitialGrid_weightsOk roadWeights :
  (∀ w, roadWeights = Some w → ∀ r c, atLeastOne (w r c)) →
  appWeightsOk (createInitialGrid roadWeights).
Proof.
  intros Hrw p n. rewrite appCell_createInitialGrid.
  destruct (decide _); [|done]. intros [= <-].
  pose proof (initialCell_fields roadWeights p.1 p.2)
    as (_ & _ & Hw & Hwt & _).
  cbv zeta in *. rewrite Hw, Hwt.
  pose proof (terrain_weight (terrain (initialCell roadWeights p.1 p.2)))
    as Htw.
  destruct (terrainIsWall _).
  - by destruct roadWeights.
  - destruct roadWeights as [w|]; [by apply Hrw|done].
Qed.

Lemma onToggleWall_None g r c :
  appGridOk g →
  onToggleWall false r c g = None ↔ ¬ (r < GRID_SIZE ∧ c < GRID_SIZE).
Proof.
  intros (Hl & Hr & _). split.
  - intros Hnone [H1 H2].
    destruct (onToggleWall_is_Some g r c Hl Hr H1 H2) as [? ?]. congruence.
  - intros Hout. unfold onToggleWall.
    destruct (g !! r) as [rw|] eqn:Hrow; simpl; [|done].
    destruct (rw !! c) as [n|] eqn:Hn; simpl; [|done].
    destruct Hout.
    apply (appCell_lt g (r, c) n Hl Hr). unfold appCell. simpl.
    by rewrite Hrow.
Qed.

End Clicks.

(** X23. Whatever cells of the grid are clicked, starting from the initial
    grid built from road data that gives weights of at least 1, no click
    throws, and the grid stays one the searches can run on: well-formed,
    [GRID_SIZE] by [GRID_SIZE], with start and end not walls, walls of
    weight [Infinity] and all other weights at least 1.  A click outside
    the grid throws a TypeError. *)
Theorem clicks_keep_grid (roadWeights : option (nat → nat → num))
        (ps : list ref) :
  (∀ w, roadWeights = Some w → ∀ r c, atLeastOne (w r c)) →
  Forall (λ p, p.1 < App.GRID_SIZE ∧ p.2 < App.GRID_SIZE) ps →
  ∃ g, clicks ps (App.createInitialGrid roadWeights) = Some g ∧
       appGridOk g ∧ appWeightsOk g ∧
       wf_grid (App.searchGrid g) ∧ weightsOk (App.searchGrid g) ∧
       passable (App.searchGrid g) App.startRef ∧
       passable (App.searchGrid g) App.endRef ∧
       ∀ r c, App.onToggleWall false r c g = None ↔
              ¬ (r < App.GRID_SIZE ∧ c < App.GRID_SIZE).
Proof.
  intros Hrw Hps.
  pose proof (createInitialGrid_ok roadWeights) as Hok.
  pose proof (createInitialGrid_weightsOk roadWeights Hrw) as Hw.
  revert Hok Hw. generalize (App.createInitialGrid roadWeights).
  induction Hps as [|p ps [Hp1 Hp2] Hps IH]; intros g Hok Hw.
  - exists g. simpl. split; [done|]. split; [done|]. split; [done|].
    split; [by apply appGridOk_wf|].
    split; [by apply appWeightsOk_weightsOk|].
    destruct (appGridOk_endpoints g Hok) as (? & ? & _).
    split; [done|]. split; [done|]. intros r c. by apply onToggleWall_None.
  - cbn [clicks]. pose proof Hok as (Hl & Hr & _).
    destruct (onToggleWall_is_Some g p.1 p.2 Hl Hr Hp1 Hp2) as [g' Hg'].
    rewrite Hg'. cbn [mbind option_bind].
    apply onToggleWall_cases in Hg' as [->|(_ & n & Hn & Hs & He & ->)].
    + by apply IH.
    + apply IH; [|by apply toggle_weights].
      apply toggle_ok; [done|]. intros m. rewrite Hn. by intros [= <-].
Qed.

(* ===================================================================== *)
(** * Road data: roadNetwork.js *)

(** ** Road data *)

Section RoadWeights.
Import RoadNetwork.

Lemma own_range key w :
  own key = Some w → ∃ q, w = Fin q ∧ (1 <= q)%Q ∧ (q <= 4)%Q.
Proof.
  unfold own, ROAD_TYPE_WEIGHTS. cbn [List.find fst snd].
  repeat (destruct (String.eqb _ key);
          [intros [= <-]; eexists; split; [reflexivity|];
           unfold Qle; simpl; lia|]).
  done.
Qed.

Lemma own_inherited key : key ∈ objectPrototypeKeys → own key = None.
Proof.
  unfold objectPrototypeKeys. rewrite !elem_of_cons, elem_of_nil.
  intros H. destruct_or!; subst; done.
Qed.

End RoadWeights.

(** X24. The weight [parseOSMData] gives a road of class [highway] is a
    number from 1 to 4 (2 when the class is not in the table), unless
    [highway] names a property inherited from [Object.prototype]: then it
    is that inherited value, not a number. *)
Theorem roadTypeWeight_range (highway : string) :
  (highway ∉ RoadNetwork.objectPrototypeKeys →
   ∃ q, RoadNetwork.roadTypeWeight highway = RoadNetwork.Number (Fin q) ∧
        (1 <= q)%Q ∧ (q <= 4)%Q) ∧
  (highway ∈ RoadNetwork.objectPrototypeKeys →
   RoadNetwork.roadTypeWeight highway = RoadNetwork.Inherited highway) ∧
  (RoadNetwork.own highway = None →
   highway ∉ RoadNetwork.objectPrototypeKeys →
   RoadNetwork.roadTypeWeight highway = RoadNetwork.Number (Fin 2)).
Proof.
  unfold RoadNetwork.roadTypeWeight. split_and!.
  - intros Hno. destruct (RoadNetwork.own highway) as [w|] eqn:Hown.
    + destruct (own_range _ _ Hown) as (q & -> & ? & ?). by exists q.
    + rewrite bool_decide_eq_false_2 by done. exists 2%Q.
      split; [done|]. unfold Qle; simpl; lia.
  - intros Hin. rewrite (own_inherited _ Hin).
    by rewrite bool_decide_eq_true_2.
  - intros -> Hno. by rewrite bool_decide_eq_false_2.
Qed.

Section Parse.
Import RoadNetwork.
Context {C : Type}.
Implicit Types (el : @Element C) (els : list (@Element C))
         (index : gmap Z (@LatLng C)) (roads : list (@Road C)).

Lemma indexNodes_lookup els i c :
  indexNodes els !! i = Some c →
  ∃ el, el ∈ els ∧ type el = "node"%string ∧ id el = i ∧
        c = mkLatLng (elLat el) (elLon el).
Proof.
  unfold indexNodes. induction els as [|el els IH] using rev_ind.
  - simpl. by rewrite lookup_empty.
  - rewrite foldl_snoc.
    destruct (bool_decide_reflect (type el = "node"%string)) as [Ht|Ht].
    + destruct (decide (id el = i)) as [<-|Hne].
      * rewrite lookup_insert_eq. intros [= <-]. exists el.
        split; [apply elem_of_app; right; by left|done].
      * rewrite lookup_insert_ne by done. intros (el' & ? & ?)%IH.
        exists el'. split; [apply elem_of_app; by left|done].
    + intros (el' & ? & ?)%IH.
      exists el'. split; [apply elem_of_app; by left|done].
Qed.

Lemma truthyHighway_ne el h : truthyHighway el = Some h → h ≠ ""%string.
Proof.
  unfold truthyHighway. destruct (tags el) as [t|]; simpl; [|done].
  destruct (tagHighway t) as [h'|]; simpl; [|done].
  destruct (bool_decide_reflect (h' = ""%string)); [done|].
  by intros [= <-].
Qed.

Lemma pushWay_cases index roads el r :
  pushWay index roads el = Some r →
  r = roads ∨
  ∃ h ids, type el = "way"%string ∧ truthyHighway el = Some h ∧
           nodes el = Some ids ∧
           2 ≤ length (omap (λ i, index !! i) ids) ∧
           r = roads ++ [mkRoad h (roadTypeWeight h)
                                (omap (λ i, index !! i) ids)
                                (default ""%string (tags el ≫= tagName))].
Proof.
  unfold pushWay.
  destruct (bool_decide_reflect (type el = "way"%string)) as [Ht|Ht];
    [|intros [= Heq]; left; by rewrite Heq].
  destruct (truthyHighway el) as [h|] eqn:Hh; [|intros [= Heq]; left; by rewrite Heq].
  destruct (nodes el) as [ids|] eqn:Hids; cbn [mbind option_bind]; [|done].
  destruct (Nat.leb_spec 2 (length (omap (λ i, index !! i) ids)))
    as [Hlen|Hlen]; intros [= Heq]; [right|left; by rewrite Heq].
  exists h, ids. by rewrite <- Heq.
Qed.

Lemma pushWay_None index roads el :
  pushWay index roads el = None ↔
  type el = "way"%string ∧ is_Some (truthyHighway el) ∧ nodes el = None.
Proof.
  unfold pushWay.
  destruct (bool_decide_reflect (type el = "way"%string)) as [Ht|Ht].
  2: { split; [done|]. by intros [? _]. }
  destruct (truthyHighway el) as [h|] eqn:Hh.
  2: { split; [done|]. by intros (_ & [? ?] & _). }
  destruct (nodes el) as [ids|] eqn:Hids; cbn [mbind option_bind].
  - split; [|by intros (_ & _ & ?)]. by destruct (_ <=? _).
  - split; [|done]. intros _. split; [done|]. split; [by exists h|done].
Qed.

(** The class of a road returned is the [highway] tag of a way element,
    and its weight the one looked up for that class. *)
Lemma parse_road_class els roads r :
  parseOSMData els = Some roads → r ∈ roads →
  weight r = roadTypeWeight (highway r) ∧
  ∃ el, el ∈ els ∧ truthyHighway el = Some (highway r).
Proof.
  unfold parseOSMData. intros H. revert r. apply Forall_forall.
  eapply (forOf_inv_in (pushWay (indexNodes els))
    (λ _ rs, Forall (λ r, weight r = roadTypeWeight (highway r) ∧
                          ∃ el, el ∈ els ∧
                                truthyHighway el = Some (highway r)) rs));
    [|constructor|exact H].
  intros done el rs rs' Hel Hall Hpush.
  apply pushWay_cases in Hpush as [->|Hpush]; [done|].
  destruct Hpush as (h & ids & Ht & Hh & Hids & Hlen2 & ->).
  apply Forall_app. split; [done|]. apply Forall_singleton. simpl.
  split; [done|]. by exists el.
Qed.

End Parse.

(** X25. Every road [parseOSMData] returns has at least two coordinates,
    each the position of a node element of the input; it comes from a way
    element with a non-empty [highway] tag, and carries the weight of that
    class.  There are no more roads than way elements. *)
Theorem parseOSMData_roads {C : Type}
        (elements : list (@RoadNetwork.Element C))
        (roads : list (@RoadNetwork.Road C)) :
  RoadNetwork.parseOSMData elements = Some roads →
  Forall (λ r, 2 ≤ length (RoadNetwork.coords r) ∧
               RoadNetwork.highway r ≠ ""%string ∧
               RoadNetwork.weight r
               = RoadNetwork.roadTypeWeight (RoadNetwork.highway r) ∧
               (∃ el, el ∈ elements ∧ RoadNetwork.type el = "way"%string ∧
                      RoadNetwork.truthyHighway el
                      = Some (RoadNetwork.highway r)) ∧
               Forall (λ c, ∃ el, el ∈ elements ∧
                                  RoadNetwork.type el = "node"%string ∧
                                  c = RoadNetwork.mkLatLng
                                        (RoadNetwork.elLat el)
                                        (RoadNetwork.elLon el))
                      (RoadNetwork.coords r)) roads ∧
  length roads
  ≤ length (filter (λ el, RoadNetwork.type el = "way"%string) elements).
Proof.
  unfold RoadNetwork.parseOSMData. intros H.
  eapply (forOf_inv_in (RoadNetwork.pushWay (RoadNetwork.indexNodes elements))
    (λ done rs,
       Forall (λ r, 2 ≤ length (RoadNetwork.coords r) ∧
                    RoadNetwork.highway r ≠ ""%string ∧
                    RoadNetwork.weight r
                    = RoadNetwork.roadTypeWeight (RoadNetwork.highway r) ∧
                    (∃ el, el ∈ elements ∧
                           RoadNetwork.type el = "way"%string ∧
                           RoadNetwork.truthyHighway el
                           = Some (RoadNetwork.highway r)) ∧
                    Forall (λ c, ∃ el, el ∈ elements ∧
                                       RoadNetwork.type el = "node"%string ∧
                                       c = RoadNetwork.mkLatLng
                                             (RoadNetwork.elLat el)
                                             (RoadNetwork.elLon el))
                           (RoadNetwork.coords r)) rs ∧
       length rs
       ≤ length (filter (λ el, RoadNetwork.type el = "way"%string) done)));
    [| |exact H].
  - intros done el rs rs' Hel [Hall Hlen] Hpush.
    rewrite filter_app, length_app.
    apply pushWay_cases in Hpush as [->|Hpush]; [split; [done|lia]|].
    destruct Hpush as (h & ids & Ht & Hh & Hids & Hlen2 & ->).
    split.
    + apply Forall_app. split; [done|]. apply Forall_singleton. simpl.
      split_and!; try done.
      * by eapply truthyHighway_ne.
      * by exists el.
      * apply Forall_forall. intros c (i & _ & Hc)%list_elem_of_omap.
        apply indexNodes_lookup in Hc as (el' & ? & ? & _ & ?). by exists el'.
    + rewrite length_app. simpl.
      rewrite filter_cons_True by done. simpl. lia.
  - split; [constructor|simpl; lia].
Qed.

(** X26. [parseOSMData] throws exactly when some way element with a
    non-empty [highway] tag has no [nodes]; otherwise it returns. *)
Theorem parseOSMData_throws {C : Type}
        (elements : list (@RoadNetwork.Element C)) :
  RoadNetwork.parseOSMData elements = None ↔
  Exists (λ el, RoadNetwork.type el = "way"%string ∧
                is_Some (RoadNetwork.truthyHighway el) ∧
                RoadNetwork.nodes el = None) elements.
Proof.
  unfold RoadNetwork.parseOSMData.
  generalize (RoadNetwork.indexNodes elements) (@nil (@RoadNetwork.Road C)).
  intros index. induction elements as [|el els IH]; intros roads; simpl.
  - split; [done|]. by intros ?%Exists_nil.
  - rewrite Exists_cons, <- pushWay_None with (index := index) (roads := roads).
    destruct (RoadNetwork.pushWay index roads el) as [roads'|]; simpl.
    + rewrite IH. split; [by right|]. by intros [?|?].
    + split; [by left|done].
Qed.

Lemma num_ltb_true a b : num_ltb a b = true → num_le a b ∧ ∃ q, a = Fin q.
Proof.
  destruct a as [x|], b as [y|]; simpl; try done.
  - intros H%Qltb_true. split; [lra|by exists x].
  - intros _. split; [done|by exists x].
Qed.

Lemma num_ltb_false a b : num_ltb a b = false → num_le b a.
Proof.
  destruct a as [x|], b as [y|]; simpl; try done.
  by intros H%Qltb_false.
Qed.

Lemma num_le_refl a : num_le a a.
Proof. destruct a; simpl; [lra|done]. Qed.

Lemma num_le_trans a b c : num_le a b → num_le b c → num_le a c.
Proof.
  destruct a as [x|], b as [y|], c as [z|]; simpl; try done. intros. lra.
Qed.

Lemma num_le_ltb a b c : num_le a b → num_ltb b c = true → num_ltb a c = true.
Proof.
  destruct a as [x|], b as [y|], c as [z|]; simpl; try done.
  intros Hle Hlt%Qltb_true. unfold Qltb.
  destruct (Qle_bool z x) eqn:H; [|done].
  apply Qle_bool_iff in H. lra.
Qed.

Lemma foldl_nested {A B S} (f : B → S → A → S) (g : B → list A)
      (a : S) (l : list B) :
  foldl (λ acc r, foldl (f r) acc (g r)) a l =
  foldl (λ acc p, f p.1 acc p.2) a (l ≫= λ r, pair r <$> g r).
Proof.
  revert a. induction l as [|r l IH]; intros a; [done|]. simpl.
  rewrite foldl_app, <- IH. f_equal.
  generalize (g r). clear. intros t. revert a.
  induction t as [|x t IH]; intros a; [done|]. simpl. by rewrite IH.
Qed.

Section Nearest.
Import RoadNetwork.
Context {C : Type}.
Variable pointToSegmentDist : C → C → C → C → C → C → option num.
Implicit Types (road r : @Road C) (seg : @LatLng C * @LatLng C)
         (acc : num * weightValue).

(** After the segments [done], the pair [(minDist, bestWeight)] is as at
    the start with no segment at a finite distance met, or holds the
    distance of a segment met, the weight of its road, and no segment met
    is nearer. *)
Lemma nearest_inv lat0 lng0 (all : list (@Road C * (@LatLng C * @LatLng C))) :
  let acc := foldl (λ acc p, nearer pointToSegmentDist lat0 lng0 p.1 acc p.2)
                   (Infinity, Number (Fin 2)) all in
  (acc = (Infinity, Number (Fin 2)) ∧
   ∀ p d, p ∈ all → distTo pointToSegmentDist lat0 lng0 p.2 = Some d → d = Infinity) ∨
  (∃ p d, p ∈ all ∧ distTo pointToSegmentDist lat0 lng0 p.2 = Some d ∧
          acc = (d, weight p.1) ∧
          ∀ p' d', p' ∈ all → distTo pointToSegmentDist lat0 lng0 p'.2 = Some d' →
                   num_le d d').
Proof.
  cbv zeta. induction all as [|p all IH] using rev_ind.
  - left. split; [done|]. by intros p d ?%elem_of_nil.
  - rewrite foldl_snoc.
    set (acc := foldl _ _ all) in *.
    unfold nearer. cbv zeta.
    destruct (distTo pointToSegmentDist lat0 lng0 p.2) as [d|] eqn:Hd.
    2: { destruct IH as [[Hacc Hall]|(p0 & d0 & Hp0 & Hd0 & Hacc & Hmin)].
         - left. split; [done|].
           intros p' d' [?| ->%list_elem_of_singleton]%elem_of_app Hd';
             [by eapply Hall|congruence].
         - right. exists p0, d0. split; [apply elem_of_app; by left|].
           split_and!; try done.
           intros p' d' [?| ->%list_elem_of_singleton]%elem_of_app Hd';
             [by eapply Hmin|congruence]. }
    unfold closer. destruct (num_ltb d acc.1) eqn:Hlt.
    + right. exists p, d. split; [apply elem_of_app; right; by left|].
      split_and!; try done.
      apply num_ltb_true in Hlt as [Hle _].
      intros p' d' [Hin| ->%list_elem_of_singleton]%elem_of_app Hd'.
      * destruct IH as [[Hacc Hall]|(p0 & d0 & Hp0 & Hd0 & Hacc & Hmin)].
        -- rewrite (Hall _ _ Hin Hd'). destruct d; exact I.
        -- rewrite Hacc in Hle. simpl in Hle.
           eapply num_le_trans; [exact Hle|]. by eapply Hmin.
      * rewrite Hd in Hd'. injection Hd' as <-. apply num_le_refl.
    + apply num_ltb_false in Hlt.
      destruct IH as [[Hacc Hall]|(p0 & d0 & Hp0 & Hd0 & Hacc & Hmin)].
      * left. split; [done|].
        intros p' d' [?| ->%list_elem_of_singleton]%elem_of_app Hd';
          [by eapply Hall|].
        rewrite Hd in Hd'. injection Hd' as <-.
        rewrite Hacc in Hlt. simpl in Hlt. by destruct d.
      * right. exists p0, d0. split; [apply elem_of_app; by left|].
        split_and!; try done.
        intros p' d' [?| ->%list_elem_of_singleton]%elem_of_app Hd';
          [by eapply Hmin|].
        rewrite Hd in Hd'. injection Hd' as <-.
        by rewrite Hacc in Hlt.
Qed.

End Nearest.

Section Weights.
Import RoadNetwork.
Context {C : Type}.
Variable pointToSegmentDist : C → C → C → C → C → C → option num.
Implicit Types (r : @Road C) (seg : @LatLng C * @LatLng C).

Lemma elem_of_all_segments (rs : list (@Road C)) r seg :
  (r, seg) ∈ (rs ≫= λ r, pair r <$> segments (coords r)) ↔
  r ∈ rs ∧ seg ∈ segments (coords r).
Proof.
  rewrite list_elem_of_bind. split.
  - intros (r' & (seg' & [= -> ->] & Hseg)%list_elem_of_fmap & Hr). done.
  - intros [Hr Hseg]. exists r. split; [|done].
    apply list_elem_of_fmap. by exists seg.
Qed.

(** The pair the loops of [getWeightForCoord] end with. *)
Lemma nearest_road lat0 lng0 (rs : list (@Road C)) :
  let best := foldl (λ acc road, foldl (nearer pointToSegmentDist lat0 lng0 road)
                                       acc (segments (coords road)))
                    (Infinity, Number (Fin 2)) rs in
  (best = (Infinity, Number (Fin 2)) ∧
   ∀ r seg d, r ∈ rs → seg ∈ segments (coords r) →
              distTo pointToSegmentDist lat0 lng0 seg = Some d →
              d = Infinity) ∨
  (∃ r seg d, r ∈ rs ∧ seg ∈ segments (coords r) ∧
              distTo pointToSegmentDist lat0 lng0 seg = Some d ∧
              best = (d, weight r) ∧
              ∀ r' seg' d', r' ∈ rs → seg' ∈ segments (coords r') →
                            distTo pointToSegmentDist lat0 lng0 seg' = Some d' →
                            num_le d d').
Proof.
  cbv zeta. rewrite (foldl_nested (nearer pointToSegmentDist lat0 lng0)).
  destruct (nearest_inv pointToSegmentDist lat0 lng0
              (rs ≫= λ r, pair r <$> segments (coords r)))
    as [[Hb Hall]|([r seg] & d & Hin & Hd & Hb & Hmin)].
  - left. split; [done|]. intros r seg d Hr Hseg.
    apply (Hall (r, seg)). by apply elem_of_all_segments.
  - right. apply elem_of_all_segments in Hin as [Hr Hseg].
    exists r, seg, d. split_and!; try done.
    intros r' seg' d' Hr' Hseg'. apply (Hmin (r', seg')).
    by apply elem_of_all_segments.
Qed.

End Weights.

(** X27. [getWeightForCoord] returns 2 when there are no roads.  Otherwise
    it returns the weight of a road that has a segment nearer than
    [ROAD_SNAP_THRESHOLD] to the point and as near as any segment of any
    road, if there is a segment that near; and 3 if there is none. *)
Theorem getWeightForCoord_nearest {C : Type}
        (pointToSegmentDist : C → C → C → C → C → C → option num)
        (lat lng : C) (roads : option (list (@RoadNetwork.Road C))) :
  let w := RoadNetwork.getWeightForCoord pointToSegmentDist lat lng roads in
  let dist := RoadNetwork.distTo pointToSegmentDist lat lng in
  (roads = None ∨ roads = Some [] → w = RoadNetwork.Number (Fin 2)) ∧
  (∀ rs, roads = Some rs → rs ≠ [] →
     (w = RoadNetwork.Number (Fin 3) ∧
      ∀ r seg d, r ∈ rs →
                 seg ∈ RoadNetwork.segments (RoadNetwork.coords r) →
                 dist seg = Some d →
                 num_ltb d RoadNetwork.ROAD_SNAP_THRESHOLD = false) ∨
     (∃ r seg d,
        r ∈ rs ∧ seg ∈ RoadNetwork.segments (RoadNetwork.coords r) ∧
        dist seg = Some d ∧
        num_ltb d RoadNetwork.ROAD_SNAP_THRESHOLD = true ∧
        w = RoadNetwork.weight r ∧
        ∀ r' seg' d', r' ∈ rs →
                      seg' ∈ RoadNetwork.segments (RoadNetwork.coords r') →
                      dist seg' = Some d' → num_le d d')).
Proof.
  cbv zeta. split.
  - by intros [-> | ->].
  - intros rs -> Hne. unfold RoadNetwork.getWeightForCoord.
    destruct rs as [|r0 rs0]; [done|].
    set (rs := r0 :: rs0) in *. cbv zeta.
    destruct (nearest_road pointToSegmentDist lat lng rs)
      as [[Hb Hall]|(r & seg & d & Hr & Hseg & Hd & Hb & Hmin)];
      cbv zeta in Hb; rewrite Hb; simpl.
    + left. split; [done|]. intros r seg d Hr Hseg Hd.
      by rewrite (Hall r seg d Hr Hseg Hd).
    + destruct (num_ltb d RoadNetwork.ROAD_SNAP_THRESHOLD) eqn:Hlt.
      * right. by exists r, seg, d.
      * left. split; [done|]. intros r' seg' d' Hr' Hseg' Hd'.
        specialize (Hmin r' seg' d' Hr' Hseg' Hd').
        destruct (num_ltb d' RoadNetwork.ROAD_SNAP_THRESHOLD) eqn:Hlt';
          [|done].
        by rewrite (num_le_ltb _ _ _ Hmin Hlt') in Hlt.
Qed.

(** X28. On the roads [parseOSMData] returns for elements whose [highway]
    tags name no property inherited from [Object.prototype],
    [getWeightForCoord] returns a number from 1 to 4: a weight the grid
    can take. *)
Theorem parsed_weight_in_range {C : Type}
        (pointToSegmentDist : C → C → C → C → C → C → option num)
        (lat lng : C) (elements : list (@RoadNetwork.Element C))
        (roads : list (@RoadNetwork.Road C)) :
  RoadNetwork.parseOSMData elements = Some roads →
  (∀ el h, el ∈ elements → RoadNetwork.truthyHighway el = Some h →
           h ∉ RoadNetwork.objectPrototypeKeys) →
  ∃ q, RoadNetwork.getWeightForCoord pointToSegmentDist lat lng (Some roads)
       = RoadNetwork.Number (Fin q) ∧ (1 <= q)%Q ∧ (q <= 4)%Q.
Proof.
  intros Hparse Hkeys. unfold RoadNetwork.getWeightForCoord.
  destruct roads as [|r0 rs0] eqn:Hroads.
  { exists 2%Q. split; [done|]. unfold Qle; simpl; lia. }
  rewrite <- Hroads in *. cbv zeta.
  destruct (nearest_road pointToSegmentDist lat lng roads)
    as [[Hb _]|(r & seg & d & Hr & _ & _ & Hb & _)];
    cbv zeta in Hb; rewrite Hb; simpl.
  { exists 3%Q. split; [done|]. unfold Qle; simpl; lia. }
  destruct (num_ltb d RoadNetwork.ROAD_SNAP_THRESHOLD).
  2: { exists 3%Q. split; [done|]. unfold Qle; simpl; lia. }
  destruct (parse_road_class _ _ r Hparse Hr) as (-> & el & Hel & Hh).
  specialize (Hkeys el _ Hel Hh).
  unfold RoadNetwork.roadTypeWeight.
  destruct (RoadNetwork.own _) as [w|] eqn:Hown.
  - destruct (own_range _ _ Hown) as (q & -> & ? & ?). by exists q.
  - rewrite bool_decide_eq_false_2 by done. exists 2%Q.
    split; [done|]. unfold Qle; simpl; lia.
Qed.

(* ===================================================================== *)
(** * Instances on the example boards *)

(** The neighbours of the park cell of [grid3], on the top border. *)
Lemma getNeighbors_in_bounds_witness :
  wf_grid grid3 ∧ 2 ≤ length grid3 ∧ 2 ≤ ncols grid3 ∧
  cell grid3 (0, 1) = Some (park 0 1) ∧
  ∃ l, Astar.getNeighbors (park 0 1) grid3 = Some l ∧
       2 ≤ length l ≤ 4 ∧
       (∀ q, q ∈ l ↔ inGrid grid3 q ∧ adjacent (0, 1) q) ∧
       NoDup l ∧
       sublist l [(0 - 1, 1); (0 + 1, 1); (0, 1 - 1); (0, 1 + 1)] ∧
       ∃ l', Bfs.getUnvisitedNeighbors (park 0 1) grid3 = Some l' ∧
             sublist l' l.
Proof.
  assert (H1 : wf_grid grid3) by (split; repeat constructor).
  assert (H2 : 2 ≤ length grid3) by (simpl; lia).
  assert (H3 : 2 ≤ ncols grid3) by (vm_compute; lia).
  assert (H4 : cell grid3 (0, 1) = Some (park 0 1)) by reflexivity.
  split; [exact H1|]. split; [exact H2|]. split; [exact H3|].
  split; [exact H4|].
  exact (getNeighbors_in_bounds grid3 (0, 1) (park 0 1) H1 H2 H3 H4).
Defined.

(** The run of [astar] across the top row of [grid3]. *)
Lemma astar_visits_once_witness :
  wf_grid grid3 ∧ inGrid grid3 (0, 0) ∧ inGrid grid3 (0, 2) ∧
  enoughFuel grid3 ≤ 47 ∧
  ∃ vis g', Astar.astar 47 grid3 (0, 0) (0, 2) = Returns (vis, g') ∧
            NoDup vis ∧ ∀ x, x ∈ vis → passable grid3 x.
Proof.
  assert (H1 : wf_grid grid3) by (split; repeat constructor).
  assert (H2 : inGrid grid3 (0, 0)) by (eexists; reflexivity).
  assert (H3 : inGrid grid3 (0, 2)) by (eexists; reflexivity).
  assert (H4 : enoughFuel grid3 ≤ 47) by (vm_compute; lia).
  split; [exact H1|]. split; [exact H2|]. split; [exact H3|].
  split; [exact H4|].
  destruct (astar_visits_once grid3 (0, 0) (0, 2) 47) as [Hall Hret].
  destruct (Hret H1 H2 H3 H4) as (vis & g' & Hrun).
  exists vis, g'. split; [exact Hrun|]. exact (Hall vis g' Hrun).
Defined.


(** The predecessor links [astar] leaves on [grid3]. *)
Lemma previousNode_acyclic_witness :
  prevNull grid3 ∧
  ∃ vis g',
    Astar.astar 47 grid3 (0, 0) (0, 2) = Returns (vis, g') ∧
    ∀ x, inGrid g' x →
         ∃ l, chain g' x l ∧
              ∀ fuel', length l ≤ fuel' →
                       Bfs.getNodesInShortestPathOrder fuel' g' x = Returns l.
Proof.
  assert (H1 : prevNull grid3) by repeat constructor.
  assert (H : { r | Astar.astar 47 grid3 (0, 0) (0, 2) = Returns r }).
  { eexists. vm_compute. reflexivity. }
  destruct H as [[vis g'] H2].
  split; [exact H1|]. exists vis, g'. split; [exact H2|].
  exact (previousNode_acyclic grid3 (0, 0) (0, 2) 47 vis g' H1 (or_intror H2)).
Defined.

(** [bfs] across the top row of [grid3]. *)
Lemma bfs_fewest_edges_witness :
  wf_grid grid3 ∧ unvisited grid3 ∧ prevNull grid3 ∧
  (∃ l, is_path grid3 (0, 0) (0, 2) l) ∧ enoughFuel grid3 ≤ 47 ∧
  ∃ vis g' l,
    Bfs.bfs 47 grid3 (0, 0) (0, 2) = Returns (vis, g') ∧
    last vis = Some (0, 2) ∧
    (∀ k, length l ≤ k →
          Bfs.getNodesInShortestPathOrder k g' (0, 2) = Returns l) ∧
    is_path grid3 (0, 0) (0, 2) l ∧
    ∀ l', is_path grid3 (0, 0) (0, 2) l' → edges l ≤ edges l'.
Proof.
  assert (H1 : wf_grid grid3) by (split; repeat constructor).
  assert (H2 : unvisited grid3) by repeat constructor.
  assert (H3 : prevNull grid3) by repeat constructor.
  assert (H4 : ∃ l, is_path grid3 (0, 0) (0, 2) l).
  { exists [(0, 0); (0, 1); (0, 2)]. split; [reflexivity|].
    split; [reflexivity|]. split; [|repeat constructor].
    simpl. split; [left; simpl; auto|]. split; [left; simpl; auto|exact I]. }
  assert (H5 : enoughFuel grid3 ≤ 47) by (vm_compute; lia).
  split; [exact H1|]. split; [exact H2|]. split; [exact H3|].
  split; [exact H4|]. split; [exact H5|].
  exact (bfs_fewest_edges grid3 (0, 0) (0, 2) 47 H1 H2 H3 H4 H5).
Defined.

(** [astar] across the top row of [mixed3], the direct way leading
    through the alley; the weights are multiples of one half. *)
Lemma astar_cheapest_path_witness :
  wf_grid mixed3 ∧ weightsOk mixed3 ∧ exactSums 1 3 mixed3 ∧
  resetDistance mixed3 ∧ prevNull mixed3 ∧
  (∃ l, is_path mixed3 (0, 0) (0, 2) l) ∧ enoughFuel mixed3 ≤ 47 ∧
  ∃ vis g' l,
    Astar.astar 47 mixed3 (0, 0) (0, 2) = Returns (vis, g') ∧
    last vis = Some (0, 2) ∧
    (∀ k, length l ≤ k →
          Bfs.getNodesInShortestPathOrder k g' (0, 2) = Returns l) ∧
    is_path mixed3 (0, 0) (0, 2) l ∧
    ∀ l', is_path mixed3 (0, 0) (0, 2) l' →
          num_le (path_cost mixed3 l) (path_cost mixed3 l').
Proof.
  assert (H1 : wf_grid mixed3) by (split; repeat constructor).
  assert (H2 : weightsOk mixed3).
  { repeat constructor; simpl; intros; try done. }
  assert (Hx : exactSums 1 3 mixed3).
  { split; [split; [lia|split; [lia|by vm_compute]]|].
    repeat constructor; simpl; intros; try done;
      (split; [reflexivity|by vm_compute]). }
  assert (H3 : resetDistance mixed3) by repeat constructor.
  assert (H4 : prevNull mixed3) by repeat constructor.
  assert (H5 : ∃ l, is_path mixed3 (0, 0) (0, 2) l).
  { exists [(0, 0); (0, 1); (0, 2)]. split; [reflexivity|].
    split; [reflexivity|]. split; [|repeat constructor].
    simpl. split; [left; simpl; auto|]. split; [left; simpl; auto|exact I]. }
  assert (H6 : enoughFuel mixed3 ≤ 47) by (vm_compute; lia).
  split; [exact H1|]. split; [exact H2|]. split; [exact Hx|].
  split; [exact H3|]. split; [exact H4|]. split; [exact H5|].
  split; [exact H6|].
  exact (astar_cheapest_path mixed3 (0, 0) (0, 2) 47 1 3
           H1 H2 Hx H3 H4 H5 H6).
Defined.

(** Both searches from corner to corner of [unit3]. *)
Lemma bfs_astar_agree_witness :
  wf_grid unit3 ∧ unitWeights unit3 ∧
  (Z.of_nat (length unit3 * ncols unit3 + (length unit3 + ncols unit3))
   < 2 ^ 53)%Z ∧
  unvisited unit3 ∧ prevNull unit3 ∧ resetDistance unit3 ∧
  (∃ l, is_path unit3 (0, 0) (2, 2) l) ∧ enoughFuel unit3 ≤ 47 ∧
  ∃ visB gB lB visA gA lA d,
    Bfs.bfs 47 unit3 (0, 0) (2, 2) = Returns (visB, gB) ∧
    (∀ k, length lB ≤ k →
          Bfs.getNodesInShortestPathOrder k gB (2, 2) = Returns lB) ∧
    Astar.astar 47 unit3 (0, 0) (2, 2) = Returns (visA, gA) ∧
    (∀ k, length lA ≤ k →
          Bfs.getNodesInShortestPathOrder k gA (2, 2) = Returns lA) ∧
    distance <$> cell gA (2, 2) = Some (Fin d) ∧
    (d == inject_Z (Z.of_nat (edges lB)))%Q ∧
    num_le (path_cost unit3 lA) (Fin (inject_Z (Z.of_nat (edges lB)))) ∧
    num_le (Fin (inject_Z (Z.of_nat (edges lB)))) (path_cost unit3 lA).
Proof.
  assert (H1 : wf_grid unit3) by (split; repeat constructor).
  assert (H2 : unitWeights unit3).
  { repeat constructor; simpl; intros H; try reflexivity; discriminate H. }
  assert (Hs : (Z.of_nat (length unit3 * ncols unit3
                          + (length unit3 + ncols unit3)) < 2 ^ 53)%Z)
    by (by vm_compute).
  assert (H3 : unvisited unit3) by repeat constructor.
  assert (H4 : prevNull unit3) by repeat constructor.
  assert (H5 : resetDistance unit3) by repeat constructor.
  assert (H6 : ∃ l, is_path unit3 (0, 0) (2, 2) l).
  { exists [(0, 0); (0, 1); (0, 2); (1, 2); (2, 2)]. split; [reflexivity|].
    split; [reflexivity|]. split; [|repeat constructor].
    simpl. split; [left; simpl; auto|]. split; [left; simpl; auto|].
    split; [right; simpl; auto|]. split; [right; simpl; auto|exact I]. }
  assert (H7 : enoughFuel unit3 ≤ 47) by (vm_compute; lia).
  split; [exact H1|]. split; [exact H2|]. split; [exact Hs|].
  split; [exact H3|]. split; [exact H4|]. split; [exact H5|].
  split; [exact H6|]. split; [exact H7|].
  exact (bfs_astar_agree unit3 (0, 0) (2, 2) 47 H1 H2 Hs H3 H4 H5 H6 H7).
Defined.

(** The selections of [astar] from the corner of [mixed3] to the park:
    the f-values are 3, 3, 4.5, 4.5, 5, 5, 5 and 6.5. *)
Lemma astar_f_nondecreasing_witness :
  wf_grid mixed3 ∧ weightsOk mixed3 ∧ exactSums 1 3 mixed3 ∧
  ∃ st0,
    Astar.init mixed3 (0, 0) (1, 2) = Some st0 ∧
    (selections 47 (1, 2) st0).*2
    = [Fin 3; Fin 3; Fin (9 # 2); Fin (9 # 2); Fin 5; Fin 5; Fin 5;
       Fin (13 # 2)] ∧
    StronglySorted (λ a b, num_le a.2 b.2) (selections 47 (1, 2) st0) ∧
    (∀ a, a ∈ selections 47 (1, 2) st0 → ∃ f, a.2 = Fin f) ∧
    (∀ vis g', Astar.astar 47 mixed3 (0, 0) (1, 2) = Returns (vis, g') →
               (selections 47 (1, 2) st0).*1 = vis).
Proof.
  assert (H1 : wf_grid mixed3) by (split; repeat constructor).
  assert (H2 : weightsOk mixed3).
  { repeat constructor; simpl; intros; try done. }
  assert (Hx : exactSums 1 3 mixed3).
  { split; [split; [lia|split; [lia|by vm_compute]]|].
    repeat constructor; simpl; intros; try done;
      (split; [reflexivity|by vm_compute]). }
  pose (st0 := Astar.mkState
                 (upd (Astar.initStart
                         (Astar.heuristic (plain 0 0) (park 1 2)))
                      (0, 0) mixed3)
                 [(0, 0)] ∅ []).
  assert (H3 : Astar.init mixed3 (0, 0) (1, 2) = Some st0) by reflexivity.
  split; [exact H1|]. split; [exact H2|]. split; [exact Hx|].
  exists st0. split; [exact H3|]. split; [vm_compute; reflexivity|].
  exact (astar_f_nondecreasing mixed3 (0, 0) (1, 2) 47 st0 1 3
           H1 H2 Hx H3).
Defined.

(** [bfs] on [blockedRow], whose last cell is cut off from the first, and
    both searches from the wall of [grid3]. *)
Lemma bfs_unreachable_end_witness :
  (wf_grid blockedRow ∧ unvisited blockedRow ∧ inGrid blockedRow (0, 0) ∧
   ¬ (∃ l, is_path blockedRow (0, 0) (0, 2) l) ∧
   enoughFuel blockedRow ≤ 17 ∧
   ∃ vis g',
     Bfs.bfs 17 blockedRow (0, 0) (0, 2) = Returns (vis, g') ∧
     NoDup vis ∧
     (∀ x, x ∈ vis ↔ ∃ l, is_path blockedRow (0, 0) x l) ∧
     (∀ i j x y lx ly,
        vis !! i = Some x → vis !! j = Some y → i ≤ j →
        shortest blockedRow (0, 0) x lx → shortest blockedRow (0, 0) y ly →
        length lx ≤ length ly) ∧
     (0, 2) ∉ vis) ∧
  (cell grid3 (1, 1) = Some (wall 1 1) ∧ isWall (wall 1 1) = true ∧
   inGrid grid3 (0, 2) ∧ 2 ≤ 47 ∧
   ∃ g1 g2, Bfs.bfs 47 grid3 (1, 1) (0, 2) = Returns ([], g1) ∧
            Astar.astar 47 grid3 (1, 1) (0, 2) = Returns ([], g2)).
Proof.
  assert (H1 : wf_grid blockedRow) by (split; repeat constructor).
  assert (H2 : unvisited blockedRow) by repeat constructor.
  assert (H3 : inGrid blockedRow (0, 0)) by (eexists; reflexivity).
  assert (H4 : ¬ (∃ l, is_path blockedRow (0, 0) (0, 2) l)).
  { intros [l (Hhd & Hlast & Hstep & Hall)].
    destruct l as [|x [|y l]]; [discriminate Hhd| |];
      injection Hhd as ->; [discriminate Hlast|].
    destruct Hstep as [Hadj _].
    apply Forall_cons_1 in Hall as [_ Hall].
    apply Forall_cons_1 in Hall as [Hy _].
    destruct y as [r c]. unfold adjacent in Hadj. simpl in Hadj.
    destruct Hadj as [[<- [Hc|Hc]]|[<- [Hr|Hr]]];
      [discriminate Hc|subst c; discriminate Hy|discriminate Hr|
       subst r; discriminate Hy]. }
  assert (H5 : enoughFuel blockedRow ≤ 17) by (vm_compute; lia).
  assert (H6 : cell grid3 (1, 1) = Some (wall 1 1)) by reflexivity.
  assert (H7 : isWall (wall 1 1) = true) by reflexivity.
  assert (H8 : inGrid grid3 (0, 2)) by (eexists; reflexivity).
  assert (H9 : 2 ≤ 47) by lia.
  split.
  - split; [exact H1|]. split; [exact H2|]. split; [exact H3|].
    split; [exact H4|]. split; [exact H5|].
    destruct (proj1 (bfs_unreachable_end blockedRow (0, 0) (0, 2) 17)
                H1 H2 H3 H4 H5)
      as (vis & g' & st0 & st & Hrun & _ & _ & _ & _ & Hnd & Hreach & Hord & He).
    exists vis, g'. split; [exact Hrun|]. split; [exact Hnd|].
    split; [exact Hreach|]. split; [exact Hord|exact He].
  - split; [exact H6|]. split; [exact H7|]. split; [exact H8|].
    split; [exact H9|].
    exact (proj2 (bfs_unreachable_end grid3 (1, 1) (0, 2) 47)
             (wall 1 1) H6 H7 H8 H9).
Defined.

(** The walk along the links of [staleChain], and the walk after [bfs] on
    [grid3]. *)
Lemma reconstruction_from_end_witness :
  (Bfs.getNodesInShortestPathOrder 3 staleChain (0, 2)
   = Returns [(0, 0); (0, 1); (0, 2)] ∧
   last [(0, 0); (0, 1); (0, 2)] = Some (0, 2) ∧
   previousNode <$> cell staleChain (0, 0) = Some None) ∧
  (prevNull grid3 ∧ inGrid grid3 (0, 2) ∧
   ((0, 0) ≠ (0, 2) ∨ passable grid3 (0, 0)) ∧
   ∃ vis g' l,
     Bfs.bfs 47 grid3 (0, 0) (0, 2) = Returns (vis, g') ∧
     (∀ k, length l ≤ k →
           Bfs.getNodesInShortestPathOrder k g' (0, 2) = Returns l) ∧
     (head l = Some (0, 0) ↔ (0, 2) ∈ vis)).
Proof.
  assert (H0 : Bfs.getNodesInShortestPathOrder 3 staleChain (0, 2)
               = Returns [(0, 0); (0, 1); (0, 2)]) by reflexivity.
  assert (H1 : prevNull grid3) by repeat constructor.
  assert (H2 : inGrid grid3 (0, 2)) by (eexists; reflexivity).
  assert (H3 : (0, 0) ≠ (0, 2) ∨ passable grid3 (0, 0)).
  { right. reflexivity. }
  assert (H : { r | Bfs.bfs 47 grid3 (0, 0) (0, 2) = Returns r }).
  { eexists. vm_compute. reflexivity. }
  destruct H as [[vis g'] H4].
  destruct (reconstruction_from_end grid3 (0, 0) (0, 2) 47 vis g')
    as [HA HB].
  split.
  - destruct (HA staleChain (0, 2) 3 _ H0) as (Hlast & _ & Hhd & _).
    split; [exact H0|]. split; [exact Hlast|]. exact (Hhd (0, 0) eq_refl).
  - split; [exact H1|]. split; [exact H2|]. split; [exact H3|].
    destruct (HB H1 H2 H3 (or_introl H4)) as (l & Hl & Hiff).
    exists vis, g', l. split; [exact H4|]. split; [exact Hl|exact Hiff].
Defined.

(* ===================================================================== *)
(** * Further instances *)

(** The walk along the stale links of [staleChain]. *)
Lemma getNodes_no_repeat_witness :
  Bfs.getNodesInShortestPathOrder 3 staleChain (0, 2)
  = Returns [(0, 0); (0, 1); (0, 2)] ∧
  NoDup [(0, 0); (0, 1); (0, 2)].
Proof.
  assert (H : Bfs.getNodesInShortestPathOrder 3 staleChain (0, 2)
              = Returns [(0, 0); (0, 1); (0, 2)]) by reflexivity.
  split; [exact H|]. exact (getNodes_no_repeat staleChain (0, 2) 3 _ H).
Defined.

(** The corner of [grid3] and the park next to it. *)
Lemma getNeighbors_symmetric_witness :
  wf_grid grid3 ∧
  cell grid3 (0, 0) = Some (plain 0 0) ∧
  cell grid3 (0, 1) = Some (park 0 1) ∧
  Astar.getNeighbors (plain 0 0) grid3 = Some [(1, 0); (0, 1)] ∧
  Astar.getNeighbors (park 0 1) grid3 = Some [(1, 1); (0, 0); (0, 2)] ∧
  ((0, 1) ∈ [(1, 0); (0, 1)] ↔ (0, 0) ∈ [(1, 1); (0, 0); (0, 2)]) ∧
  (0, 0) ∉ [(1, 0); (0, 1)].
Proof.
  assert (H1 : wf_grid grid3) by (split; repeat constructor).
  assert (H2 : cell grid3 (0, 0) = Some (plain 0 0)) by reflexivity.
  assert (H3 : cell grid3 (0, 1) = Some (park 0 1)) by reflexivity.
  assert (H4 : Astar.getNeighbors (plain 0 0) grid3 = Some [(1, 0); (0, 1)])
    by reflexivity.
  assert (H5 : Astar.getNeighbors (park 0 1) grid3
               = Some [(1, 1); (0, 0); (0, 2)]) by reflexivity.
  split; [exact H1|]. split; [exact H2|]. split; [exact H3|].
  split; [exact H4|]. split; [exact H5|].
  exact (getNeighbors_symmetric grid3 (0, 0) (0, 1) _ _ _ _ H1 H2 H3 H4 H5).
Defined.

(** The top row of [grid3], through the park. *)
Lemma heuristic_admissible_witness :
  wf_grid grid3 ∧ weightsOk grid3 ∧
  cell grid3 (0, 0) = Some (plain 0 0) ∧
  cell grid3 (0, 2) = Some (plain 0 2) ∧
  is_path grid3 (0, 0) (0, 2) [(0, 0); (0, 1); (0, 2)] ∧
  num_le (Astar.heuristic (plain 0 0) (plain 0 2))
         (path_cost grid3 [(0, 0); (0, 1); (0, 2)]).
Proof.
  assert (H1 : wf_grid grid3) by (split; repeat constructor).
  assert (H2 : weightsOk grid3).
  { repeat constructor; simpl; intros; try done. }
  assert (H3 : cell grid3 (0, 0) = Some (plain 0 0)) by reflexivity.
  assert (H4 : cell grid3 (0, 2) = Some (plain 0 2)) by reflexivity.
  assert (H5 : is_path grid3 (0, 0) (0, 2) [(0, 0); (0, 1); (0, 2)]).
  { split; [reflexivity|]. split; [reflexivity|].
    split; [|repeat constructor].
    simpl. split; [left; simpl; auto|]. split; [left; simpl; auto|exact I]. }
  split; [exact H1|]. split; [exact H2|]. split; [exact H3|].
  split; [exact H4|]. split; [exact H5|].
  exact (heuristic_admissible grid3 (0, 0) (0, 2) _ _ _ H1 H2 H3 H4 H5).
Defined.

(** The step from the corner of [grid3] into the park. *)
Lemma heuristic_consistent_witness :
  wf_grid grid3 ∧ weightsOk grid3 ∧
  cell grid3 (0, 0) = Some (plain 0 0) ∧
  cell grid3 (0, 1) = Some (park 0 1) ∧
  cell grid3 (0, 2) = Some (plain 0 2) ∧
  adjacent (0, 0) (0, 1) ∧ isWall (park 0 1) = false ∧
  num_le (Astar.heuristic (plain 0 0) (plain 0 2))
         (num_plus (weight (park 0 1))
                  (Astar.heuristic (park 0 1) (plain 0 2))) ∧
  Astar.heuristic (plain 0 2) (plain 0 2) = Fin 0 ∧
  Astar.heuristic (plain 0 0) (plain 0 2)
  = Astar.heuristic (plain 0 2) (plain 0 0).
Proof.
  assert (H1 : wf_grid grid3) by (split; repeat constructor).
  assert (H2 : weightsOk grid3).
  { repeat constructor; simpl; intros; try done. }
  assert (H3 : cell grid3 (0, 0) = Some (plain 0 0)) by reflexivity.
  assert (H4 : cell grid3 (0, 1) = Some (park 0 1)) by reflexivity.
  assert (H5 : cell grid3 (0, 2) = Some (plain 0 2)) by reflexivity.
  assert (H6 : adjacent (0, 0) (0, 1)) by (left; simpl; auto).
  assert (H7 : isWall (park 0 1) = false) by reflexivity.
  split; [exact H1|]. split; [exact H2|]. split; [exact H3|].
  split; [exact H4|]. split; [exact H5|]. split; [exact H6|].
  split; [exact H7|].
  exact (heuristic_consistent grid3 (0, 0) (0, 1) (0, 2) _ _ _
           H1 H2 H3 H4 H5 H6 H7).
Defined.

(** The flags [astar] leaves on [grid3]. *)
Lemma astar_marks_visited_witness :
  unvisited grid3 ∧
  ∃ vis g', Astar.astar 47 grid3 (0, 0) (0, 2) = Returns (vis, g') ∧
            (∀ x, marked g' x ↔ x ∈ vis) ∧
            (vis = [] ∨ head vis = Some (0, 0)).
Proof.
  assert (H1 : unvisited grid3) by repeat constructor.
  assert (H : { r | Astar.astar 47 grid3 (0, 0) (0, 2) = Returns r }).
  { eexists. vm_compute. reflexivity. }
  destruct H as [[vis g'] H2].
  split; [exact H1|]. exists vis, g'. split; [exact H2|].
  exact (astar_marks_visited grid3 (0, 0) (0, 2) 47 vis g' H1 H2).
Defined.

(** The cells of [grid3] after [bfs]. *)
Lemma search_keeps_terrain_witness :
  ∃ vis g',
    Bfs.bfs 47 grid3 (0, 0) (2, 2) = Returns (vis, g') ∧
    (∀ p, inGrid g' p ↔ inGrid grid3 p) ∧
    ∀ p n, cell grid3 p = Some n →
           ∃ n', cell g' p = Some n' ∧ row n' = row n ∧ col n' = col n ∧
                 isWall n' = isWall n ∧ weight n' = weight n.
Proof.
  assert (H : { r | Bfs.bfs 47 grid3 (0, 0) (2, 2) = Returns r }).
  { eexists. vm_compute. reflexivity. }
  destruct H as [[vis g'] H1].
  exists vis, g'. split; [exact H1|].
  exact (search_keeps_terrain grid3 (0, 0) (2, 2) 47 vis g' (or_introl H1)).
Defined.

(** [bfs] from corner to corner of [grid3]. *)
Lemma bfs_visits_once_witness :
  wf_grid grid3 ∧ inGrid grid3 (0, 0) ∧ enoughFuel grid3 ≤ 47 ∧
  ∃ vis g', Bfs.bfs 47 grid3 (0, 0) (2, 2) = Returns (vis, g') ∧
            NoDup vis ∧
            (∀ x, x ∈ vis → passable grid3 x ∧ marked g' x) ∧
            (vis = [] ∨ head vis = Some (0, 0)).
Proof.
  assert (H1 : wf_grid grid3) by (split; repeat constructor).
  assert (H2 : inGrid grid3 (0, 0)) by (eexists; reflexivity).
  assert (H3 : enoughFuel grid3 ≤ 47) by (vm_compute; lia).
  split; [exact H1|]. split; [exact H2|]. split; [exact H3|].
  destruct (bfs_visits_once grid3 (0, 0) (2, 2) 47) as [Hall Hret].
  destruct (Hret H1 H2 H3) as (vis & g' & Hrun).
  exists vis, g'. split; [exact Hrun|]. exact (Hall vis g' Hrun).
Defined.

(** The predecessor tree [bfs] leaves on [grid3]. *)
Lemma bfs_paths_shortest_witness :
  wf_grid grid3 ∧ unvisited grid3 ∧ prevNull grid3 ∧
  ∃ vis g',
    Bfs.bfs 47 grid3 (0, 0) (2, 2) = Returns (vis, g') ∧
    (∀ x, x ∈ vis →
          ∃ l, (∀ k, length l ≤ k →
                     Bfs.getNodesInShortestPathOrder k g' x = Returns l) ∧
               shortest grid3 (0, 0) x l) ∧
    (∀ i j x y lx ly,
       vis !! i = Some x → vis !! j = Some y → i ≤ j →
       shortest grid3 (0, 0) x lx → shortest grid3 (0, 0) y ly →
       length lx ≤ length ly).
Proof.
  assert (H1 : wf_grid grid3) by (split; repeat constructor).
  assert (H2 : unvisited grid3) by repeat constructor.
  assert (H3 : prevNull grid3) by repeat constructor.
  assert (H : { r | Bfs.bfs 47 grid3 (0, 0) (2, 2) = Returns r }).
  { eexists. vm_compute. reflexivity. }
  destruct H as [[vis g'] H4].
  split; [exact H1|]. split; [exact H2|]. split; [exact H3|].
  exists vis, g'. split; [exact H4|].
  exact (bfs_paths_shortest grid3 (0, 0) (2, 2) 47 vis g' H1 H2 H3 H4).
Defined.

(** [astar] from corner to corner of [grid3]. *)
Lemma astar_costs_cheapest_witness :
  wf_grid grid3 ∧ weightsOk grid3 ∧ exactSums 0 3 grid3 ∧
  resetDistance grid3 ∧ prevNull grid3 ∧
  ∃ vis g',
    Astar.astar 47 grid3 (0, 0) (2, 2) = Returns (vis, g') ∧
    ∀ x, x ∈ vis →
         ∃ l n, cell g' x = Some n ∧
                (∀ k, length l ≤ k →
                      Bfs.getNodesInShortestPathOrder k g' x = Returns l) ∧
                is_path grid3 (0, 0) x l ∧
                num_le (distance n) (path_cost grid3 l) ∧
                num_le (path_cost grid3 l) (distance n) ∧
                ∀ l', is_path grid3 (0, 0) x l' →
                      num_le (distance n) (path_cost grid3 l').
Proof.
  assert (H1 : wf_grid grid3) by (split; repeat constructor).
  assert (H2 : weightsOk grid3).
  { repeat constructor; simpl; intros; try done. }
  assert (Hx : exactSums 0 3 grid3).
  { split; [split; [lia|split; [lia|by vm_compute]]|].
    repeat constructor; simpl; intros; try done;
      (split; [reflexivity|by vm_compute]). }
  assert (H3 : resetDistance grid3) by repeat constructor.
  assert (H4 : prevNull grid3) by repeat constructor.
  assert (H : { r | Astar.astar 47 grid3 (0, 0) (2, 2) = Returns r }).
  { eexists. vm_compute. reflexivity. }
  destruct H as [[vis g'] H5].
  split; [exact H1|]. split; [exact H2|]. split; [exact Hx|].
  split; [exact H3|]. split; [exact H4|]. exists vis, g'.
  split; [exact H5|].
  exact (astar_costs_cheapest grid3 (0, 0) (2, 2) 47 vis g' 0 3
           H1 H2 Hx H3 H4 H5).
Defined.

(** [astar] across the top row of [grid3], against the cost of the direct
    way through the park. *)
Lemma astar_visits_within_cost_witness :
  wf_grid grid3 ∧ weightsOk grid3 ∧ exactSums 0 3 grid3 ∧
  resetDistance grid3 ∧ prevNull grid3 ∧
  is_path grid3 (0, 0) (0, 2) [(0, 0); (0, 1); (0, 2)] ∧
  ∃ vis g',
    Astar.astar 47 grid3 (0, 0) (0, 2) = Returns (vis, g') ∧
    ∀ x n, x ∈ vis → cell g' x = Some n →
           num_le (totalCost n) (path_cost grid3 [(0, 0); (0, 1); (0, 2)]).
Proof.
  assert (H1 : wf_grid grid3) by (split; repeat constructor).
  assert (H2 : weightsOk grid3).
  { repeat constructor; simpl; intros; try done. }
  assert (Hx : exactSums 0 3 grid3).
  { split; [split; [lia|split; [lia|by vm_compute]]|].
    repeat constructor; simpl; intros; try done;
      (split; [reflexivity|by vm_compute]). }
  assert (H3 : resetDistance grid3) by repeat constructor.
  assert (H4 : prevNull grid3) by repeat constructor.
  assert (H5 : is_path grid3 (0, 0) (0, 2) [(0, 0); (0, 1); (0, 2)]).
  { split; [reflexivity|]. split; [reflexivity|].
    split; [|repeat constructor].
    simpl. split; [left; simpl; auto|]. split; [left; simpl; auto|exact I]. }
  assert (H : { r | Astar.astar 47 grid3 (0, 0) (0, 2) = Returns r }).
  { eexists. vm_compute. reflexivity. }
  destruct H as [[vis g'] H6].
  split; [exact H1|]. split; [exact H2|]. split; [exact Hx|].
  split; [exact H3|]. split; [exact H4|]. split; [exact H5|].
  exists vis, g'. split; [exact H6|].
  intros x n Hx' Hn.
  exact (astar_visits_within_cost grid3 (0, 0) (0, 2) 47 vis g' 0 3
           H1 H2 Hx H3 H4 H6 x n _ Hx' Hn H5).
Defined.

(** [astar] on [blockedRow], whose last cell is cut off from the first. *)
Lemma astar_unreachable_end_witness :
  wf_grid blockedRow ∧ weightsOk blockedRow ∧ exactSums 0 1 blockedRow ∧
  resetDistance blockedRow ∧
  prevNull blockedRow ∧ inGrid blockedRow (0, 0) ∧ inGrid blockedRow (0, 2) ∧
  ¬ (∃ l, is_path blockedRow (0, 0) (0, 2) l) ∧
  enoughFuel blockedRow ≤ 17 ∧
  ∃ vis g', Astar.astar 17 blockedRow (0, 0) (0, 2) = Returns (vis, g') ∧
            NoDup vis ∧
            (∀ x, x ∈ vis ↔ ∃ l, is_path blockedRow (0, 0) x l) ∧
            (0, 2) ∉ vis.
Proof.
  assert (H1 : wf_grid blockedRow) by (split; repeat constructor).
  assert (H2 : weightsOk blockedRow).
  { repeat constructor; simpl; intros; try done. }
  assert (Hx : exactSums 0 1 blockedRow).
  { split; [split; [lia|split; [lia|by vm_compute]]|].
    repeat constructor; simpl; intros; try done;
      (split; [reflexivity|by vm_compute]). }
  assert (H3 : resetDistance blockedRow) by repeat constructor.
  assert (H4 : prevNull blockedRow) by repeat constructor.
  assert (H5 : inGrid blockedRow (0, 0)) by (eexists; reflexivity).
  assert (H6 : inGrid blockedRow (0, 2)) by (eexists; reflexivity).
  assert (H7 : ¬ (∃ l, is_path blockedRow (0, 0) (0, 2) l)).
  { intros [l (Hhd & Hlast & Hstep & Hall)].
    destruct l as [|x [|y l]]; [discriminate Hhd| |];
      injection Hhd as ->; [discriminate Hlast|].
    destruct Hstep as [Hadj _].
    apply Forall_cons_1 in Hall as [_ Hall].
    apply Forall_cons_1 in Hall as [Hy _].
    destruct y as [r c]. unfold adjacent in Hadj. simpl in Hadj.
    destruct Hadj as [[<- [Hc|Hc]]|[<- [Hr|Hr]]];
      [discriminate Hc|subst c; discriminate Hy|discriminate Hr|
       subst r; discriminate Hy]. }
  assert (H8 : enoughFuel blockedRow ≤ 17) by (vm_compute; lia).
  split; [exact H1|]. split; [exact H2|]. split; [exact Hx|].
  split; [exact H3|].
  split; [exact H4|]. split; [exact H5|]. split; [exact H6|].
  split; [exact H7|]. split; [exact H8|].
  exact (astar_unreachable_end blockedRow (0, 0) (0, 2) 17 0 1
           H1 H2 Hx H3 H4 H5 H6 H7 H8).
Defined.

(** The third iteration of [astar] from corner to corner of [grid3]: two
    cells are closed and two are open. *)
Lemma astar_guards_idle_witness :
  ∃ st0 st c,
    Astar.init grid3 (0, 0) (2, 2) = Some st0 ∧
    reaches (Astar.body (2, 2)) st0 st ∧
    Astar.visitedNodesInOrder st = [(0, 0); (1, 0)] ∧
    Astar.openList st = [(0, 1); (2, 0)] ∧
    Astar.sort (Astar.grid st) (Astar.openList st) = [(2, 0); (0, 1)] ∧
    cell (Astar.grid st) (2, 0) = Some c ∧
    NoDup (Astar.openList st) ∧
    (∀ x, x ∈ Astar.openList st → x ∉ Astar.closedSet st) ∧
    (((2, 0) = (0, 0) ∧ [(0, 1)] = [] ∧ Astar.visitedNodesInOrder st = []) ∨
     isWall c = false).
Proof.
  pose (st0 := Astar.mkState
                 (upd (Astar.initStart
                         (Astar.heuristic (plain 0 0) (plain 2 2)))
                      (0, 0) grid3)
                 [(0, 0)] ∅ []).
  assert (H1 : Astar.init grid3 (0, 0) (2, 2) = Some st0) by reflexivity.
  assert (H : { st | iterations (Astar.body (2, 2)) 2 st0 = Some st }).
  { eexists. vm_compute. reflexivity. }
  destruct H as [st Hst].
  assert (H2 : reaches (Astar.body (2, 2)) st0 st)
    by exact (iterations_reaches _ _ _ _ Hst).
  assert (Hv : Astar.visitedNodesInOrder st = [(0, 0); (1, 0)]).
  { vm_compute in Hst. injection Hst as <-. reflexivity. }
  assert (Ho : Astar.openList st = [(0, 1); (2, 0)]).
  { vm_compute in Hst. injection Hst as <-. reflexivity. }
  assert (H3 : Astar.sort (Astar.grid st) (Astar.openList st)
               = [(2, 0); (0, 1)]).
  { vm_compute in Hst. injection Hst as <-. vm_compute. reflexivity. }
  assert (H4 : { c | cell (Astar.grid st) (2, 0) = Some c }).
  { vm_compute in Hst. injection Hst as <-. eexists. reflexivity. }
  destruct H4 as [c H4].
  exists st0, st, c. split; [exact H1|]. split; [exact H2|].
  split; [exact Hv|]. split; [exact Ho|]. split; [exact H3|].
  split; [exact H4|].
  exact (astar_guards_idle grid3 (0, 0) (2, 2) st0 st (2, 0) [(0, 1)] c
           H1 H2 H3 H4).
Defined.

(** The third iteration of [bfs] from corner to corner of [grid3]: two
    cells are dequeued and two are queued. *)
Lemma bfs_guard_idle_witness :
  ∃ st0 st c,
    Bfs.init grid3 (0, 0) = Some st0 ∧
    reaches (Bfs.body (2, 2)) st0 st ∧
    Bfs.visitedNodesInOrder st = [(0, 0); (1, 0)] ∧
    Bfs.queue st = [(0, 1); (2, 0)] ∧
    cell (Bfs.grid st) (0, 1) = Some c ∧
    NoDup (Bfs.visitedNodesInOrder st ++ Bfs.queue st) ∧
    (((0, 1) = (0, 0) ∧ [(2, 0)] = [] ∧ Bfs.visitedNodesInOrder st = []) ∨
     isWall c = false).
Proof.
  pose (st0 := Bfs.mkState (upd Bfs.markVisited (0, 0) grid3) [(0, 0)] []).
  assert (H1 : Bfs.init grid3 (0, 0) = Some st0) by reflexivity.
  assert (H : { st | iterations (Bfs.body (2, 2)) 2 st0 = Some st }).
  { eexists. vm_compute. reflexivity. }
  destruct H as [st Hst].
  assert (H2 : reaches (Bfs.body (2, 2)) st0 st)
    by exact (iterations_reaches _ _ _ _ Hst).
  assert (Hv : Bfs.visitedNodesInOrder st = [(0, 0); (1, 0)]).
  { vm_compute in Hst. injection Hst as <-. reflexivity. }
  assert (H3 : Bfs.queue st = [(0, 1); (2, 0)]).
  { vm_compute in Hst. injection Hst as <-. reflexivity. }
  assert (H4 : { c | cell (Bfs.grid st) (0, 1) = Some c }).
  { vm_compute in Hst. injection Hst as <-. eexists. reflexivity. }
  destruct H4 as [c H4].
  exists st0, st, c. split; [exact H1|]. split; [exact H2|].
  split; [exact Hv|]. split; [exact H3|]. split; [exact H4|].
  exact (bfs_guard_idle grid3 (0, 0) (2, 2) st0 st (0, 1) [(2, 0)] c
           H1 H2 H3 H4).
Defined.

(** [bfs] on [grid3] and on [unit3], which differ in the weight of one
    cell. *)
Lemma bfs_ignores_weights_witness :
  sameForBfs grid3 unit3 ∧
  match Bfs.bfs 47 grid3 (0, 0) (2, 2), Bfs.bfs 47 unit3 (0, 0) (2, 2) with
  | Returns r, Returns r2 => r.1 = r2.1
  | Throws, Throws | OutOfFuel, OutOfFuel => True
  | _, _ => False
  end.
Proof.
  assert (H1 : sameForBfs grid3 unit3).
  { split; [reflexivity|]. split; [reflexivity|].
    intros [[|[|[|r]]] [|[|[|c]]]]; reflexivity. }
  split; [exact H1|].
  exact (bfs_ignores_weights grid3 unit3 (0, 0) (2, 2) 47 H1).
Defined.

(** Both searches across the top row of [grid3]. *)
Lemma bfs_astar_tradeoff_witness :
  wf_grid grid3 ∧ weightsOk grid3 ∧ exactSums 0 3 grid3 ∧
  unvisited grid3 ∧ prevNull grid3 ∧ resetDistance grid3 ∧
  (∃ l, is_path grid3 (0, 0) (0, 2) l) ∧ enoughFuel grid3 ≤ 47 ∧
  ∃ visB gB lB visA gA lA,
    Bfs.bfs 47 grid3 (0, 0) (0, 2) = Returns (visB, gB) ∧
    (∀ k, length lB ≤ k →
          Bfs.getNodesInShortestPathOrder k gB (0, 2) = Returns lB) ∧
    Astar.astar 47 grid3 (0, 0) (0, 2) = Returns (visA, gA) ∧
    (∀ k, length lA ≤ k →
          Bfs.getNodesInShortestPathOrder k gA (0, 2) = Returns lA) ∧
    edges lB ≤ edges lA ∧
    num_le (path_cost grid3 lA) (path_cost grid3 lB).
Proof.
  assert (H1 : wf_grid grid3) by (split; repeat constructor).
  assert (H2 : weightsOk grid3).
  { repeat constructor; simpl; intros; try done. }
  assert (Hx : exactSums 0 3 grid3).
  { split; [split; [lia|split; [lia|by vm_compute]]|].
    repeat constructor; simpl; intros; try done;
      (split; [reflexivity|by vm_compute]). }
  assert (H3 : unvisited grid3) by repeat constructor.
  assert (H4 : prevNull grid3) by repeat constructor.
  assert (H5 : resetDistance grid3) by repeat constructor.
  assert (H6 : ∃ l, is_path grid3 (0, 0) (0, 2) l).
  { exists [(0, 0); (0, 1); (0, 2)]. split; [reflexivity|].
    split; [reflexivity|]. split; [|repeat constructor].
    simpl. split; [left; simpl; auto|]. split; [left; simpl; auto|exact I]. }
  assert (H7 : enoughFuel grid3 ≤ 47) by (vm_compute; lia).
  split; [exact H1|]. split; [exact H2|]. split; [exact Hx|].
  split; [exact H3|]. split; [exact H4|]. split; [exact H5|].
  split; [exact H6|]. split; [exact H7|].
  exact (bfs_astar_tradeoff grid3 (0, 0) (0, 2) 47 0 3
           H1 H2 Hx H3 H4 H5 H6 H7).
Defined.

(** The corner cell of the initial grid, with road data that puts weight
    2 everywhere. *)
Lemma createInitialGrid_weights_witness :
  let rw := Some (λ _ _ : nat, Fin 2) in
  ∃ n n0,
    App.appCell (App.createInitialGrid rw) (0, 0) = Some n ∧
    App.appCell (App.createInitialGrid None) (0, 0) = Some n0 ∧
    isWall (App.node n) = isWall (App.node n0) ∧
    App.terrain n = App.terrain n0 ∧
    (isWall (App.node n) = true → weight (App.node n) = Infinity) ∧
    (isWall (App.node n) = false →
     weight (App.node n0) = App.terrainWeight (App.terrain n0) ∧
     atLeastOne (weight (App.node n0)) ∧
     weight (App.node n) = Fin 2).
Proof.
  cbv zeta.
  assert (H1 : App.appCell (App.createInitialGrid (Some (λ _ _ : nat, Fin 2)))
                           (0, 0)
               = Some (App.initialCell (Some (λ _ _ : nat, Fin 2)) 0 0))
    by reflexivity.
  assert (H2 : App.appCell (App.createInitialGrid None) (0, 0)
               = Some (App.initialCell None 0 0)) by reflexivity.
  eexists _, _. split; [exact H1|]. split; [exact H2|].
  exact (createInitialGrid_weights _ (0, 0) _ _ H1 H2).
Defined.

(** The start cell of the initial grid built without road data. *)
Lemma createInitialGrid_route_witness :
  App.appCell (App.createInitialGrid None) (2, 2)
  = Some (App.initialCell None 2 2) ∧
  (App.isStart (App.initialCell None 2 2) = true ↔ (2, 2) = (2, 2)) ∧
  ∃ l, is_path (App.searchGrid (App.createInitialGrid None))
               App.startRef App.endRef l.
Proof.
  assert (H : App.appCell (App.createInitialGrid None) (2, 2)
              = Some (App.initialCell None 2 2)) by reflexivity.
  destruct (createInitialGrid_route None) as (Hflags & _ & _ & Hroute).
  split; [exact H|]. split; [exact (proj1 (Hflags _ _ H))|exact Hroute].
Defined.

(** A click on the corner of the initial grid. *)
Lemma onToggleWall_preserves_witness :
  appGridOk (App.createInitialGrid None) ∧
  ∃ next,
    App.onToggleWall false 0 0 (App.createInitialGrid None) = Some next ∧
    appGridOk next ∧
    (appWeightsOk (App.createInitialGrid None) → appWeightsOk next) ∧
    (∀ p, p ≠ (0, 0) →
          App.appCell next p = App.appCell (App.createInitialGrid None) p) ∧
    App.appCell next App.startRef
    = App.appCell (App.createInitialGrid None) App.startRef ∧
    App.appCell next App.endRef
    = App.appCell (App.createInitialGrid None) App.endRef.
Proof.
  assert (H1 : appGridOk (App.createInitialGrid None))
    by apply createInitialGrid_ok.
  assert (H : { next | App.onToggleWall false 0 0 (App.createInitialGrid None)
                       = Some next }).
  { eexists. vm_compute. reflexivity. }
  destruct H as [next H2].
  split; [exact H1|]. exists next. split; [exact H2|].
  exact (onToggleWall_preserves false 0 0 _ next H1 H2).
Defined.

(** Two clicks on the park at [(3, 6)] of the initial grid. *)
Lemma onToggleWall_twice_witness :
  appGridOk (App.createInitialGrid None) ∧
  App.appCell (App.createInitialGrid None) (3, 6)
  = Some (App.initialCell None 3 6) ∧
  App.terrain (App.initialCell None 3 6) = App.PARK ∧
  (3, 6) ≠ App.startRef ∧ (3, 6) ≠ App.endRef ∧
  ∃ g1 g2 n1 n2,
    App.onToggleWall false 3 6 (App.createInitialGrid None) = Some g1 ∧
    App.onToggleWall false 3 6 g1 = Some g2 ∧
    App.appCell g1 (3, 6) = Some n1 ∧ App.appCell g2 (3, 6) = Some n2 ∧
    isWall (App.node n1) = true ∧ weight (App.node n1) = Infinity ∧
    isWall (App.node n2) = false ∧
    App.terrain n2 = App.ROAD ∧ weight (App.node n2) = Fin 1.
Proof.
  assert (H1 : appGridOk (App.createInitialGrid None))
    by apply createInitialGrid_ok.
  assert (H2 : App.appCell (App.createInitialGrid None) (3, 6)
               = Some (App.initialCell None 3 6)) by reflexivity.
  assert (H3 : (3, 6) ≠ App.startRef) by discriminate.
  assert (H4 : (3, 6) ≠ App.endRef) by discriminate.
  split; [exact H1|]. split; [exact H2|]. split; [reflexivity|].
  split; [exact H3|]. split; [exact H4|].
  destruct (onToggleWall_twice 3 6 _ _ H1 H2 H3 H4)
    as (g1 & g2 & n1 & n2 & Ht1 & Ht2 & Hn1 & Hn2 & Hw1 & Hwt1 & _ & Hw2
        & Hroad & _).
  exists g1, g2, n1, n2.
  split; [exact Ht1|]. split; [exact Ht2|]. split; [exact Hn1|].
  split; [exact Hn2|]. split; [exact Hw1|]. split; [exact Hwt1|].
  split; [exact Hw2|]. exact (Hroad eq_refl).
Defined.

(** A* on the initial grid, built without road data: its weights are 1,
    2.5 and 3. *)
Lemma runSingle_draws_route_witness :
  appGridOk (App.createInitialGrid None) ∧
  appWeightsOk (App.createInitialGrid None) ∧
  exactWeights 1 4 (App.searchGrid (App.createInitialGrid None)) ∧
  enoughFuel (App.searchGrid (App.createInitialGrid None)) ≤ 2422 ∧
  ∃ vis path shown,
    App.runSingle App.AStar 2422 (App.createInitialGrid None)
    = Returns (vis, path, shown) ∧
    (shown = true ↔
     ∃ l, is_path (App.searchGrid (App.createInitialGrid None))
                  App.startRef App.endRef l).
Proof.
  assert (H1 : appGridOk (App.createInitialGrid None))
    by apply createInitialGrid_ok.
  assert (H2 : appWeightsOk (App.createInitialGrid None)).
  { apply createInitialGrid_weightsOk. intros w Hw. discriminate Hw. }
  assert (Hx : exactWeights 1 4
                 (App.searchGrid (App.createInitialGrid None))).
  { apply createInitialGrid_exact. intros w Hw. discriminate Hw. }
  assert (H3 : enoughFuel (App.searchGrid (App.createInitialGrid None))
               ≤ 2422) by (vm_compute; lia).
  split; [exact H1|]. split; [exact H2|]. split; [exact Hx|].
  split; [exact H3|].
  destruct (runSingle_draws_route App.AStar 2422 _ H1 H2 Hx H3)
    as (vis & path & shown & Hrun & Hiff & _).
  exists vis, path, shown. split; [exact Hrun|exact Hiff].
Defined.

(** Two clicks on the initial grid built without road data. *)
Lemma clicks_keep_grid_witness :
  (∀ w, @None (nat → nat → num) = Some w → ∀ r c, atLeastOne (w r c)) ∧
  Forall (λ p : ref, p.1 < App.GRID_SIZE ∧ p.2 < App.GRID_SIZE)
         [(0, 0); (3, 4)] ∧
  ∃ g, clicks [(0, 0); (3, 4)] (App.createInitialGrid None) = Some g ∧
       appGridOk g ∧ appWeightsOk g ∧
       passable (App.searchGrid g) App.startRef ∧
       passable (App.searchGrid g) App.endRef.
Proof.
  assert (H1 : ∀ w, @None (nat → nat → num) = Some w →
                    ∀ r c, atLeastOne (w r c)).
  { intros w Hw. discriminate Hw. }
  assert (H2 : Forall (λ p : ref, p.1 < App.GRID_SIZE ∧ p.2 < App.GRID_SIZE)
                      [(0, 0); (3, 4)]).
  { repeat constructor; simpl; unfold App.GRID_SIZE; lia. }
  split; [exact H1|]. split; [exact H2|].
  destruct (clicks_keep_grid None _ H1 H2)
    as (g & Hg & Hok & Hw & _ & _ & Hs & He & _).
  exists g. split; [exact Hg|]. split; [exact Hok|]. split; [exact Hw|].
  split; [exact Hs|exact He].
Defined.

(** A main road, and a class named like a method of every object. *)
Lemma roadTypeWeight_range_witness :
  ("primary"%string ∉ RoadNetwork.objectPrototypeKeys) ∧
  ("constructor"%string ∈ RoadNetwork.objectPrototypeKeys) ∧
  (∃ q, RoadNetwork.roadTypeWeight "primary" = RoadNetwork.Number (Fin q) ∧
        (1 <= q)%Q ∧ (q <= 4)%Q) ∧
  RoadNetwork.roadTypeWeight "constructor"
  = RoadNetwork.Inherited "constructor".
Proof.
  assert (H1 : "primary"%string ∉ RoadNetwork.objectPrototypeKeys).
  { apply (bool_decide_unpack _). vm_compute. exact I. }
  assert (H2 : "constructor"%string ∈ RoadNetwork.objectPrototypeKeys).
  { apply (bool_decide_unpack _). vm_compute. exact I. }
  split; [exact H1|]. split; [exact H2|].
  destruct (roadTypeWeight_range "primary") as (Ha & _ & _).
  destruct (roadTypeWeight_range "constructor") as (_ & Hb & _).
  split; [exact (Ha H1)|exact (Hb H2)].
Defined.

(** The roads of [osmSample]: one road, of two coordinates. *)
Lemma parseOSMData_roads_witness :
  ∃ roads,
    RoadNetwork.parseOSMData osmSample = Some roads ∧
    Forall (λ r, 2 ≤ length (RoadNetwork.coords r) ∧
                 RoadNetwork.highway r ≠ ""%string ∧
                 RoadNetwork.weight r
                 = RoadNetwork.roadTypeWeight (RoadNetwork.highway r))
           roads ∧
    length roads ≤ 2.
Proof.
  assert (H : { roads | RoadNetwork.parseOSMData osmSample = Some roads }).
  { eexists. vm_compute. reflexivity. }
  destruct H as [roads H1]. exists roads. split; [exact H1|].
  destruct (parseOSMData_roads osmSample roads H1) as [Hall Hlen].
  split; [|exact Hlen].
  eapply Forall_impl; [exact Hall|].
  intros r (Ha & Hb & Hc & _). split; [exact Ha|]. split; [exact Hb|exact Hc].
Defined.

(** [osmBroken] makes [parseOSMData] throw. *)
Lemma parseOSMData_throws_witness :
  Exists (λ el, RoadNetwork.type el = "way"%string ∧
                is_Some (RoadNetwork.truthyHighway el) ∧
                RoadNetwork.nodes el = None) osmBroken ∧
  RoadNetwork.parseOSMData osmBroken = None.
Proof.
  assert (H : Exists (λ el, RoadNetwork.type el = "way"%string ∧
                            is_Some (RoadNetwork.truthyHighway el) ∧
                            RoadNetwork.nodes el = None) osmBroken).
  { apply Exists_cons_tl, Exists_cons_hd.
    split; [reflexivity|]. split; [eexists; reflexivity|reflexivity]. }
  split; [exact H|]. exact (proj2 (parseOSMData_throws osmBroken) H).
Defined.

(** The weight at a point on the road of [osmSample]. *)
Lemma getWeightForCoord_nearest_witness :
  ∃ rs,
    RoadNetwork.parseOSMData osmSample = Some rs ∧ rs ≠ [] ∧
    ∃ r seg d,
      r ∈ rs ∧ seg ∈ RoadNetwork.segments (RoadNetwork.coords r) ∧
      RoadNetwork.distTo latGap 15461900%Z 74994900%Z seg = Some d ∧
      num_ltb d RoadNetwork.ROAD_SNAP_THRESHOLD = true ∧
      RoadNetwork.getWeightForCoord latGap 15461900%Z 74994900%Z (Some rs)
      = RoadNetwork.weight r.
Proof.
  assert (H : { rs | RoadNetwork.parseOSMData osmSample = Some rs ∧
                     bool_decide (rs = []) = false ∧
                     ∃ r seg d,
                       r ∈ rs ∧
                       seg ∈ RoadNetwork.segments (RoadNetwork.coords r) ∧
                       RoadNetwork.distTo latGap 15461900%Z 74994900%Z seg
                       = Some d ∧
                       num_ltb d RoadNetwork.ROAD_SNAP_THRESHOLD = true }).
  { eexists. split; [vm_compute; reflexivity|]. split; [reflexivity|].
    eexists _, _, _. split; [by left|]. split; [by left|].
    split; [reflexivity|]. vm_compute. reflexivity. }
  destruct H as (rs & H1 & H2 & r0 & seg0 & d0 & Hr0 & Hseg0 & Hd0 & Hlt0).
  assert (H3 : rs ≠ []).
  { intros Heq. by rewrite bool_decide_eq_true_2 in H2. }
  exists rs. split; [exact H1|]. split; [exact H3|].
  destruct (getWeightForCoord_nearest latGap 15461900%Z 74994900%Z (Some rs))
    as [_ Hne].
  destruct (Hne rs eq_refl H3) as [[_ Hfar]|(r & seg & d & Hr & Hseg & Hd & Hlt & Hw & _)].
  - rewrite (Hfar r0 seg0 d0 Hr0 Hseg0 Hd0) in Hlt0. discriminate Hlt0.
  - exists r, seg, d. split; [exact Hr|]. split; [exact Hseg|].
    split; [exact Hd|]. split; [exact Hlt|exact Hw].
Defined.

(** The weight of any point against the roads of [osmSample]. *)
Lemma parsed_weight_in_range_witness :
  ∃ roads,
    RoadNetwork.parseOSMData osmSample = Some roads ∧
    (∀ el h, el ∈ osmSample → RoadNetwork.truthyHighway el = Some h →
             h ∉ RoadNetwork.objectPrototypeKeys) ∧
    ∃ q, RoadNetwork.getWeightForCoord latGap 15461900%Z 74994900%Z
           (Some roads)
         = RoadNetwork.Number (Fin q) ∧ (1 <= q)%Q ∧ (q <= 4)%Q.
Proof.
  assert (H : { roads | RoadNetwork.parseOSMData osmSample = Some roads }).
  { eexists. vm_compute. reflexivity. }
  destruct H as [roads H1].
  assert (H2 : ∀ el h, el ∈ osmSample →
                       RoadNetwork.truthyHighway el = Some h →
                       h ∉ RoadNetwork.objectPrototypeKeys).
  { intros el h Hel Hh. unfold osmSample in Hel.
    rewrite !elem_of_cons, elem_of_nil in Hel.
    destruct Hel as [->|[->|[->|[->|[]]]]]; try discriminate Hh.
    injection Hh as <-. apply (bool_decide_unpack _). vm_compute. exact I. }
  exists roads. split; [exact H1|]. split; [exact H2|].
  exact (parsed_weight_in_range latGap 15461900%Z 74994900%Z osmSample roads
           H1 H2).
Defined.
